(** * obsidian-regex-replace: a shallow embedding of [src/main.ts]

    The development follows the layout of the plugin source:

    - [JS]        the fragment of the host language's string and array
                  library that the plugin calls (code units, [split],
                  [join], [indexOf], [substring], [trim], replacement
                  templates, stable [sort]);
    - [RegexLit]  a backtracking matcher for the regular-expression
                  literals that are written in the source itself;
    - [Scanner]   [generateMatchPreviews] together with the per-match
                  substitution it computes;
    - [Markdown]  [fixMarkdownFormatting];
    - [RegexPattern], [Settings]
                  the two records the plugin persists;
    - [History]   [savePattern], [pruneHistory] and friends;
    - [Modal]     [performReplacement], the handler behind "Replace All";
    - [Preview]   the text helpers of the preview pane;
    - [Dialog]    the rest of the dialog: the drop-down list of saved
                  patterns, the initial state of the widgets,
                  [updatePreview] and the click on "Replace All";
    - [SettingsTab]
                  the number fields of the settings tab;
    - [Command]   the command "Markdown: Check and Fix formatting";
    - [Sample]    a few concrete inputs.

    Regular expressions typed by the user are compiled and run by the
    host's engine; that engine is a parameter ([RegExpEngine]). *)

From Stdlib Require Import String Ascii.
From Stdlib Require Import Bool Arith NArith ZArith Lia.
From Stdlib Require Import Permutation Sorted.
From Stdlib Require Import List.
Import ListNotations.

Set Implicit Arguments.
Local Open Scope list_scope.

(* ================================================================= *)
(** ** Host strings *)

Module JS.

(** A JavaScript string is a sequence of UTF-16 code units. *)
Definition char := N.
Definition jsstring := list char.

(** Source literals are written as Rocq strings and read as code units. *)
Fixpoint str (s : string) : jsstring :=
  match s with
  | EmptyString => []
  | String a r => N_of_ascii a :: str r
  end.

Arguments str _ : simpl never.

Definition ch (a : ascii) : char := N_of_ascii a.

Definition LF : char := 10%N.
Definition TAB : char := 9%N.
Definition SPACE : char := 32%N.
Definition DOLLAR : char := 36%N.
Definition HASH : char := 35%N.
Definition BACKTICK : char := 96%N.
Definition TILDE : char := 126%N.

Fixpoint eqs (a b : jsstring) : bool :=
  match a, b with
  | [], [] => true
  | x :: a', y :: b' => N.eqb x y && eqs a' b'
  | _, _ => false
  end.

(** [s.startsWith(p)] *)
Fixpoint startsWith (s p : jsstring) {struct p} : bool :=
  match p, s with
  | [], _ => true
  | x :: p', y :: s' => N.eqb x y && startsWith s' p'
  | _ :: _, [] => false
  end.

(** [s.endsWith(p)] *)
Definition endsWith (s p : jsstring) : bool :=
  (length p <=? length s) && eqs (skipn (length s - length p) s) p.

(** [s.indexOf(p)], with [None] for the result -1. *)
Fixpoint indexOfFrom (s p : jsstring) (i : nat) {struct s} : option nat :=
  if startsWith s p then Some i
  else match s with
       | [] => None
       | _ :: s' => indexOfFrom s' p (S i)
       end.

Definition indexOf (s p : jsstring) : option nat := indexOfFrom s p 0.

(** [s.includes(p)] *)
Definition includes (s p : jsstring) : bool :=
  match indexOf s p with Some _ => true | None => false end.

(** [s.substring(a, b)]: both ends are clamped to the length and swapped
    when out of order. *)
Definition substring (s : jsstring) (a b : nat) : jsstring :=
  let a' := Nat.min a (length s) in
  let b' := Nat.min b (length s) in
  let lo := Nat.min a' b' in
  let hi := Nat.max a' b' in
  firstn (hi - lo) (skipn lo s).

(** [s.substring(a)] *)
Definition substringFrom (s : jsstring) (a : nat) : jsstring := skipn a s.

(** [s.split(sep)] for a string separator.  With [skip = 0] the scanner
    stands on a character that may start an occurrence of [sep]; after an
    occurrence it skips the rest of it. *)
Fixpoint splitAux (sep s : jsstring) (skip : nat) (cur : jsstring)
  : list jsstring :=
  match s with
  | [] => [cur]
  | c :: s' =>
      match skip with
      | S k => splitAux sep s' k cur
      | O =>
          if startsWith s sep
          then cur :: splitAux sep s' (length sep - 1) []
          else splitAux sep s' 0 (cur ++ [c])
      end
  end.

Definition split (s sep : jsstring) : list jsstring :=
  match sep with
  | [] => map (fun c => [c]) s
  | _ :: _ => splitAux sep s 0 []
  end.

(** [pieces.join(sep)] *)
Fixpoint join (pieces : list jsstring) (sep : jsstring) : jsstring :=
  match pieces with
  | [] => []
  | [x] => x
  | x :: rest => x ++ sep ++ join rest sep
  end.

(** The class [\s] of the regular-expression grammar, which is also what
    [trim] strips: WhiteSpace and LineTerminator code units. *)
Definition isLineTerminator (c : char) : bool :=
  (N.eqb c 10 || N.eqb c 13 || N.eqb c 8232 || N.eqb c 8233)%N.

Definition isWhiteSpace (c : char) : bool :=
  (N.eqb c 9 || N.eqb c 11 || N.eqb c 12 || N.eqb c 32 || N.eqb c 160
   || N.eqb c 5760 || (N.leb 8192 c && N.leb c 8202)
   || N.eqb c 8239 || N.eqb c 8287 || N.eqb c 12288 || N.eqb c 65279
   || isLineTerminator c)%N.

Definition isDigit (c : char) : bool := (N.leb 48 c && N.leb c 57)%N.

Fixpoint dropWhile (p : char -> bool) (s : jsstring) : jsstring :=
  match s with
  | [] => []
  | c :: s' => if p c then dropWhile p s' else s
  end.

Definition trimStart (s : jsstring) : jsstring := dropWhile isWhiteSpace s.
Definition trimEnd (s : jsstring) : jsstring :=
  rev (dropWhile isWhiteSpace (rev s)).

(** [s.trim()] *)
Definition trim (s : jsstring) : jsstring := trimEnd (trimStart s).

(** Decimal rendering of a non-negative integer, as [String(n)] and string
    concatenation with a number produce it. *)
Fixpoint digitsAcc (fuel n : nat) (acc : jsstring) : jsstring :=
  match fuel with
  | O => acc
  | S f =>
      let acc' := (48 + N.of_nat (n mod 10))%N :: acc in
      if n / 10 =? 0 then acc' else digitsAcc f (n / 10) acc'
  end.

Definition natToString (n : nat) : jsstring := digitsAcc (S n) n [].

Definition numToString (z : Z) : jsstring :=
  match z with
  | Zneg p => ch "-" :: natToString (Pos.to_nat p)
  | _ => natToString (Z.to_nat z)
  end.

(** Value of a run of decimal digits (used for [$n] in templates). *)
Definition digitVal (c : char) : nat := N.to_nat (c - 48)%N.

(** *** Replacement templates

    [getSubstitution] is the abstract operation GetSubstitution of the
    language standard: it expands the [$]-patterns of a replacement
    string for one match ([matched] found at [position] in [whole], with
    the given capture groups; named groups are not used by the plugin). *)
Definition capture (captures : list (option jsstring)) (i : nat)
  : jsstring :=
  match nth_error captures (i - 1) with
  | Some (Some s) => s
  | _ => []
  end.

Fixpoint getSubstitution (matched whole : jsstring) (position : nat)
    (captures : list (option jsstring)) (tmpl : jsstring) : jsstring :=
  match tmpl with
  | [] => []
  | c :: rest =>
      if negb (N.eqb c DOLLAR) then
        c :: getSubstitution matched whole position captures rest
      else
        match rest with
        | [] => [c]
        | d :: rest' =>
            if N.eqb d DOLLAR then
              DOLLAR :: getSubstitution matched whole position captures rest'
            else if N.eqb d BACKTICK then
              firstn position whole
                ++ getSubstitution matched whole position captures rest'
            else if N.eqb d 38 then
              matched
                ++ getSubstitution matched whole position captures rest'
            else if N.eqb d 39 then
              skipn (Nat.min (position + length matched) (length whole)) whole
                ++ getSubstitution matched whole position captures rest'
            else if isDigit d then
              let m := length captures in
              let one := digitVal d in
              match rest' with
              | d2 :: rest'' =>
                  let two := 10 * one + digitVal d2 in
                  if isDigit d2 && (1 <=? two) && (two <=? m) then
                    capture captures two
                      ++ getSubstitution matched whole position captures rest''
                  else if (1 <=? one) && (one <=? m) then
                    capture captures one
                      ++ getSubstitution matched whole position captures rest'
                  else
                    c :: d :: getSubstitution matched whole position captures rest'
              | [] =>
                  if (1 <=? one) && (one <=? m) then capture captures one
                  else [c; d]
              end
            else
              c :: getSubstitution matched whole position captures rest
        end
  end.

(** [s.replace(/lit/g, repl)] for a regular expression that is a
    non-empty run of literal characters [lit] (no capture groups): every
    occurrence, scanning left to right without overlap, is replaced by the
    expansion of the template [repl]. *)
Fixpoint replaceAllGo (lit repl whole s : jsstring) (pos skip : nat)
  : jsstring :=
  match s with
  | [] => []
  | c :: s' =>
      match skip with
      | S k => replaceAllGo lit repl whole s' (S pos) k
      | O =>
          if startsWith s lit
          then getSubstitution lit whole pos [] repl
                 ++ replaceAllGo lit repl whole s' (S pos) (length lit - 1)
          else c :: replaceAllGo lit repl whole s' (S pos) 0
      end
  end.

Definition replaceAll (s lit repl : jsstring) : jsstring :=
  replaceAllGo lit repl s s 0 0.

(** [arr.sort(cmp)]: the sort is stable, and [cmp a b > 0] asks for [b]
    to come first.  Insertion from the right end keeps equal elements in
    their original order. *)
Section Sort.
Variable A : Type.
Variable cmp : A -> A -> Z.

Fixpoint insertSorted (x : A) (l : list A) : list A :=
  match l with
  | [] => [x]
  | y :: l' =>
      if (0 <? cmp x y)%Z then y :: insertSorted x l' else x :: l
  end.

Fixpoint sort (l : list A) : list A :=
  match l with
  | [] => []
  | x :: l' => insertSorted x (sort l')
  end.
End Sort.

(** [arr.slice(0, n)] for a non-negative integer [n]. *)
Definition slice0 (A : Type) (l : list A) (n : nat) : list A := firstn n l.

(** [arr.findIndex(p)], with [None] for -1. *)
Fixpoint findIndex (A : Type) (p : A -> bool) (l : list A) : option nat :=
  match l with
  | [] => None
  | x :: l' =>
      if p x then Some 0
      else match findIndex p l' with
           | Some i => Some (S i)
           | None => None
           end
  end.

(** [arr.splice(i, 1)]: the array without its element at index [i]. *)
Fixpoint removeAt (A : Type) (i : nat) (l : list A) : list A :=
  match l, i with
  | [], _ => []
  | _ :: l', O => l'
  | x :: l', S j => x :: removeAt j l'
  end.

End JS.

Import JS.

(* ================================================================= *)
(** ** Regular-expression literals of the source

    The plugin's own patterns use anchors, character classes, greedy
    bounded or unbounded repetition of a class, numbered groups,
    sequencing and alternation.  [run] is the usual backtracking matcher
    in continuation-passing style: a repetition first tries to take one
    more character and falls back to stopping, an alternation tries its
    left branch first.  None of these literals carries the [m] flag, so
    [^] and [$] are the two ends of the subject string. *)

Module RegexLit.

Inductive re : Type :=
| Bol
| Eol
| Cls (p : char -> bool)
| Rep (p : char -> bool) (lo : nat) (hi : option nat)
| Grp (i : nat) (r : re)
| Seq (r1 r2 : re)
| Alt (r1 r2 : re).

(** Captured text per group number; [None] is JavaScript's [undefined]. *)
Definition caps := nat -> option jsstring.

Definition noCaps : caps := fun _ => None.

Definition setCap (i : nat) (v : jsstring) (c : caps) : caps :=
  fun j => if Nat.eqb j i then Some v else c j.

Definition group (c : caps) (i : nat) : jsstring :=
  match c i with Some s => s | None => [] end.

Definition canTake (hi : option nat) : bool :=
  match hi with Some O => false | _ => true end.

Definition lessOne (hi : option nat) : option nat :=
  match hi with Some n => Some (pred n) | None => None end.

Section Run.
Variable R : Type.

Fixpoint rep (p : char -> bool) (lo : nat) (hi : option nat)
    (pos : nat) (s : jsstring) (k : nat -> jsstring -> option R)
  : option R :=
  let stop := match lo with O => k pos s | S _ => None end in
  match s with
  | [] => stop
  | a :: s' =>
      if p a && canTake hi then
        match rep p (pred lo) (lessOne hi) (S pos) s' k with
        | Some x => Some x
        | None => stop
        end
      else stop
  end.

Fixpoint run (r : re) (pos : nat) (s : jsstring) (c : caps)
    (k : nat -> jsstring -> caps -> option R) : option R :=
  match r with
  | Bol => if Nat.eqb pos 0 then k pos s c else None
  | Eol => match s with [] => k pos s c | _ :: _ => None end
  | Cls p =>
      match s with
      | a :: s' => if p a then k (S pos) s' c else None
      | [] => None
      end
  | Rep p lo hi => rep p lo hi pos s (fun pos' s' => k pos' s' c)
  | Grp i r1 =>
      run r1 pos s c
        (fun pos' s' c' => k pos' s' (setCap i (firstn (pos' - pos) s) c'))
  | Seq r1 r2 =>
      run r1 pos s c (fun pos' s' c' => run r2 pos' s' c' k)
  | Alt r1 r2 =>
      match run r1 pos s c k with
      | Some x => Some x
      | None => run r2 pos s c k
      end
  end.
End Run.

(** A successful match: where it starts, where it ends, its groups. *)
Record found := { start : nat; stop : nat; captures : caps }.

Definition matchAt (r : re) (pos : nat) (s : jsstring) : option found :=
  run r pos s noCaps
    (fun pos' _ c => Some {| start := pos; stop := pos'; captures := c |}).

(** [searchFrom r pos s] looks for the leftmost match in the suffix [s]
    that begins at offset [pos] of the subject. *)
Fixpoint searchFrom (r : re) (pos : nat) (s : jsstring) : option found :=
  match matchAt r pos s with
  | Some f => Some f
  | None =>
      match s with
      | [] => None
      | _ :: s' => searchFrom r (S pos) s'
      end
  end.

(** [r.exec(s)] and [s.match(r)] for a regular expression without the
    [g] flag. *)
Definition exec (r : re) (s : jsstring) : option found := searchFrom r 0 s.

(** [s.replace(r, fn)] for a regular expression without the [g] flag and
    a replacer function: [fn] receives the matched text and the groups,
    and may update a state [S] it closes over. *)
Definition replaceFn (S : Type) (r : re) (s : jsstring)
    (fn : jsstring -> caps -> S -> jsstring * S) (st : S) : jsstring * S :=
  match exec r s with
  | None => (s, st)
  | Some f =>
      let '(t, st') :=
        fn (firstn (stop f - start f) (skipn (start f) s)) (captures f) st in
      (firstn (start f) s ++ t ++ skipn (stop f) s, st')
  end.

Definition only (x : char) : char -> bool := fun c => N.eqb c x.
Definition ws : char -> bool := isWhiteSpace.
Definition nonWs : char -> bool := fun c => negb (isWhiteSpace c).
Definition dot : char -> bool := fun c => negb (isLineTerminator c).
Definition blank : char -> bool := fun c => N.eqb c SPACE || N.eqb c TAB.
Definition digit : char -> bool := isDigit.
Definition bullet : char -> bool :=
  fun c => N.eqb c (ch "-") || N.eqb c (ch "+") || N.eqb c (ch "*").

Declare Scope re_scope.
Delimit Scope re_scope with re.
Infix ">>" := Seq (at level 61, right associativity) : re_scope.
Local Open Scope re_scope.

(** Pattern of [fenceMatch]: start, [\s*], group 1 = three or more
    backticks or three or more tildes. *)
Definition fenceRe : re :=
  Bol >> Rep ws 0 None
      >> Grp 1 (Alt (Cls (only BACKTICK) >> Cls (only BACKTICK)
                       >> Rep (only BACKTICK) 1 None)
                    (Cls (only TILDE) >> Cls (only TILDE)
                       >> Rep (only TILDE) 1 None)).

(** Pattern of [dupHead]: start, group 1 = [\s{0,3}], group 2 = [#{1,6}],
    [\s+], [#{1,6}], [\s+], group 3 = [.+], end. *)
Definition dupHeadRe : re :=
  Bol >> Grp 1 (Rep ws 0 (Some 3)) >> Grp 2 (Rep (only HASH) 1 (Some 6))
      >> Rep ws 1 None >> Rep (only HASH) 1 (Some 6) >> Rep ws 1 None
      >> Grp 3 (Rep dot 1 None) >> Eol.

(** Pattern of [capHead]: start, group 1 = [\s*], group 2 = [#{7,}],
    [\s+], group 3 = [\S.*], end. *)
Definition capHeadRe : re :=
  Bol >> Grp 1 (Rep ws 0 None) >> Grp 2 (Rep (only HASH) 7 None)
      >> Rep ws 1 None >> Grp 3 (Cls nonWs >> Rep dot 0 None) >> Eol.

(** Pattern of [normHead]: start, group 1 = [\s{0,3}], group 2 =
    [#{1,6}], blanks (space or tab) [*], group 3 = [\S.*], end. *)
Definition normHeadRe : re :=
  Bol >> Grp 1 (Rep ws 0 (Some 3)) >> Grp 2 (Rep (only HASH) 1 (Some 6))
      >> Rep blank 0 None >> Grp 3 (Cls nonWs >> Rep dot 0 None) >> Eol.

(** Pattern of [listBullet]: start, group 1 = [\s*], group 2 = one of
    [-], [+], [*]; blanks [*], group 3 = [\S]. *)
Definition listBulletRe : re :=
  Bol >> Grp 1 (Rep ws 0 None) >> Grp 2 (Cls bullet)
      >> Rep blank 0 None >> Grp 3 (Cls nonWs).

(** Pattern of [listOrdered]: start, group 1 = [\s*], group 2 = [\d+]
    and a full stop, blanks [*], group 3 = [\S]. *)
Definition listOrderedRe : re :=
  Bol >> Grp 1 (Rep ws 0 None)
      >> Grp 2 (Rep digit 1 None >> Cls (only (ch ".")))
      >> Rep blank 0 None >> Grp 3 (Cls nonWs).

(** Pattern of the trailing-whitespace loop: blanks [+], end. *)
Definition trailingRe : re := Rep blank 1 None >> Eol.

End RegexLit.

(* ================================================================= *)
(** ** The Markdown formatting fixer *)

Module Markdown.
Import RegexLit.

(** [type FixStat = { key: string; count: number }] *)
Record FixStat := { key : jsstring; count : nat }.

(** The closure [inc] of [fixMarkdownFormatting], on the [stats] array it
    updates. *)
Fixpoint inc (k : jsstring) (by_ : nat) (stats : list FixStat)
  : list FixStat :=
  match stats with
  | [] => [ {| key := k; count := by_ |} ]
  | s :: rest =>
      if eqs (key s) k
      then {| key := key s; count := count s + by_ |} :: rest
      else s :: inc k by_ rest
  end.

(** The two loop variables [inFence] and [fenceMarker]. *)
Record Fence := { inFence : bool; fenceMarker : jsstring }.

Definition noFence : Fence := {| inFence := false; fenceMarker := [] |}.

(** [line.match(/^\s*(```+|~~~+)/)] reduced to the [marker] computed from
    its first group. *)
Definition fenceMatch (line : jsstring) : option jsstring :=
  match exec fenceRe line with
  | Some f =>
      Some (if startsWith (group (captures f) 1) (str "`")
            then str "```" else str "~~~")
  | None => None
  end.

Definition toggle (f : Fence) (marker : jsstring) : Fence :=
  if negb (inFence f) then {| inFence := true; fenceMarker := marker |}
  else if eqs marker (fenceMarker f)
       then {| inFence := false; fenceMarker := [] |}
       else f.

(** The fence state after one more line (both loops update it alike). *)
Definition fenceStep (f : Fence) (line : jsstring) : Fence :=
  match fenceMatch line with
  | Some marker => toggle f marker
  | None => f
  end.

Definition Stats := list FixStat.

Definition dupHead (line : jsstring) : Stats -> jsstring * Stats :=
  replaceFn dupHeadRe line (fun _ c st =>
    (group c 1 ++ group c 2 ++ [SPACE] ++ trim (group c 3),
     inc (str "heading_duplicate_hashes") 1 st)).

Definition capHead (line : jsstring) : Stats -> jsstring * Stats :=
  replaceFn capHeadRe line (fun _ c st =>
    (group c 1 ++ str "###### " ++ group c 3,
     inc (str "heading_cap_to_h6") 1 st)).

Definition spaced (c : caps) : jsstring :=
  group c 1 ++ group c 2 ++ [SPACE] ++ group c 3.

Definition normHead (line : jsstring) : Stats -> jsstring * Stats :=
  replaceFn normHeadRe line (fun m c st =>
    (spaced c,
     if eqs m (spaced c) then st
     else inc (str "heading_space_normalize") 1 st)).

Definition listBullet (line : jsstring) : Stats -> jsstring * Stats :=
  replaceFn listBulletRe line (fun m c st =>
    (spaced c,
     if eqs m (spaced c) then st else inc (str "list_bullet_space") 1 st)).

Definition listOrdered (line : jsstring) : Stats -> jsstring * Stats :=
  replaceFn listOrderedRe line (fun m c st =>
    (spaced c,
     if eqs m (spaced c) then st else inc (str "list_ordered_space") 1 st)).

(** The five rewriting rules applied to one line outside a fence, each on
    the result of the one before. *)
Definition fixLine (line : jsstring) (st : Stats) : jsstring * Stats :=
  let '(u1, st1) := dupHead line st in
  let '(u2, st2) := capHead u1 st1 in
  let '(u3, st3) := normHead u2 st2 in
  let '(u4, st4) := listBullet u3 st3 in
  listOrdered u4 st4.

(** First loop over [lines]. *)
Fixpoint firstPass (lines : list jsstring) (f : Fence) (st : Stats)
  : list jsstring * Stats :=
  match lines with
  | [] => ([], st)
  | line :: rest =>
      match fenceMatch line with
      | Some marker =>
          let '(out, st') := firstPass rest (toggle f marker) st in
          (line :: out, st')
      | None =>
          if inFence f then
            let '(out, st') := firstPass rest f st in (line :: out, st')
          else
            let '(updated, st1) := fixLine line st in
            let '(out, st') := firstPass rest f st1 in
            (updated :: out, st')
      end
  end.

(** What the second loop does to a line it does not skip. *)
Definition trimLine (line : jsstring) : jsstring :=
  fst (replaceFn trailingRe line (fun _ _ (u : unit) => ([], u)) tt).

(** Second loop over [lines], counting [trailingFixes]. *)
Fixpoint secondPass (lines : list jsstring) (f : Fence) (fixes : nat)
  : list jsstring * nat :=
  match lines with
  | [] => ([], fixes)
  | line :: rest =>
      let f' := fenceStep f line in
      if inFence f' then
        let '(out, n) := secondPass rest f' fixes in (line :: out, n)
      else if endsWith line (str "  ") && negb (endsWith line (str "   "))
      then let '(out, n) := secondPass rest f' fixes in (line :: out, n)
      else
        let trimmed := trimLine line in
        if eqs trimmed line
        then let '(out, n) := secondPass rest f' fixes in (line :: out, n)
        else let '(out, n) := secondPass rest f' (S fixes) in
             (trimmed :: out, n)
  end.

Definition fixLines (lines : list jsstring) : list jsstring * Stats :=
  let '(l1, st) := firstPass lines noFence [] in
  let '(l2, fixes) := secondPass l1 noFence 0 in
  (l2, if 0 <? fixes then inc (str "trim_trailing_whitespace") fixes st
       else st).

Definition fixMarkdownFormatting (text : jsstring) : jsstring * Stats :=
  let '(lines, st) := fixLines (split text [LF]) in
  (join lines [LF], st).

End Markdown.

(* ================================================================= *)
(** ** Settings and pattern history *)

(** [interface RegexPattern].  Time stamps and counters are integers. *)
Module RegexPattern.
Record t := {
  id : jsstring;
  name : jsstring;
  findText : jsstring;
  replaceText : jsstring;
  useRegEx : bool;
  caseInsensitive : bool;
  isPinned : bool;
  lastUsed : Z;
  useCount : Z
}.
End RegexPattern.

(** [interface RfrPluginSettings].  The sizes are positive integers: the
    settings tab accepts nothing else and the defaults are 10, 5 and 20. *)
Module Settings.
Record t := {
  findText : jsstring;
  replaceText : jsstring;
  useRegEx : bool;
  selOnly : bool;
  caseInsensitive : bool;
  multilineMatch : bool;
  processLineBreak : bool;
  processTab : bool;
  prefillFind : bool;
  savedPatterns : list RegexPattern.t;
  maxHistorySize : nat;
  showPreview : bool;
  previewLimit : nat;
  confirmLargeReplace : bool;
  largeReplaceThreshold : nat
}.

Definition withSavedPatterns (s : t) (l : list RegexPattern.t) : t :=
  {| findText := findText s; replaceText := replaceText s;
     useRegEx := useRegEx s; selOnly := selOnly s;
     caseInsensitive := caseInsensitive s;
     multilineMatch := multilineMatch s;
     processLineBreak := processLineBreak s; processTab := processTab s;
     prefillFind := prefillFind s; savedPatterns := l;
     maxHistorySize := maxHistorySize s; showPreview := showPreview s;
     previewLimit := previewLimit s;
     confirmLargeReplace := confirmLargeReplace s;
     largeReplaceThreshold := largeReplaceThreshold s |}.

(** The four assignments at the end of [performReplacement]. *)
Definition withLastUse (s : t) (find repl : jsstring) (re sel : bool) : t :=
  {| findText := find; replaceText := repl;
     useRegEx := re; selOnly := sel;
     caseInsensitive := caseInsensitive s;
     multilineMatch := multilineMatch s;
     processLineBreak := processLineBreak s; processTab := processTab s;
     prefillFind := prefillFind s; savedPatterns := savedPatterns s;
     maxHistorySize := maxHistorySize s; showPreview := showPreview s;
     previewLimit := previewLimit s;
     confirmLargeReplace := confirmLargeReplace s;
     largeReplaceThreshold := largeReplaceThreshold s |}.

(** [DEFAULT_SETTINGS] *)
Definition DEFAULT_SETTINGS : t :=
  {| findText := []; replaceText := []; useRegEx := true; selOnly := false;
     caseInsensitive := true; multilineMatch := true;
     processLineBreak := false; processTab := false; prefillFind := false;
     savedPatterns := []; maxHistorySize := 10; showPreview := true;
     previewLimit := 5; confirmLargeReplace := true;
     largeReplaceThreshold := 20 |}.
End Settings.

(** The history methods of [RegexFindReplacePlugin].  They act on
    [this.settings]; persisting the record ([saveSettings]) does not
    change it and is left out. *)
Module History.
Import RegexPattern.

Definition generatePatternName (findText : jsstring) : jsstring :=
  let maxLen := 30 in
  if length findText <=? maxLen then findText
  else substring findText 0 maxLen ++ str "...".

(** The predicate handed to [findIndex] by [savePattern]. *)
Definition sameConfig (find repl : jsstring) (re ci : bool) (p : t) : bool :=
  eqs (findText p) find && eqs (replaceText p) repl
  && Bool.eqb (useRegEx p) re && Bool.eqb (caseInsensitive p) ci.

(** [pattern.lastUsed = now; pattern.useCount++] *)
Definition touch (now : Z) (p : t) : t :=
  {| id := id p; name := name p; findText := findText p;
     replaceText := replaceText p; useRegEx := useRegEx p;
     caseInsensitive := caseInsensitive p; isPinned := isPinned p;
     lastUsed := now; useCount := (useCount p + 1)%Z |}.

(** [pattern.isPinned = !pattern.isPinned] *)
Definition flipPin (p : t) : t :=
  {| id := id p; name := name p; findText := findText p;
     replaceText := replaceText p; useRegEx := useRegEx p;
     caseInsensitive := caseInsensitive p; isPinned := negb (isPinned p);
     lastUsed := lastUsed p; useCount := useCount p |}.

(** The comparator [(a, b) => b.lastUsed - a.lastUsed]. *)
Definition byRecency (a b : t) : Z := (lastUsed b - lastUsed a)%Z.

Definition pruneHistory (s : Settings.t) : Settings.t :=
  let pinned := filter isPinned (Settings.savedPatterns s) in
  let unpinned :=
    filter (fun p => negb (isPinned p)) (Settings.savedPatterns s) in
  if Settings.maxHistorySize s <? length unpinned then
    Settings.withSavedPatterns s
      (pinned ++ slice0 (sort byRecency unpinned) (Settings.maxHistorySize s))
  else s.

(** [now] is the value of [Date.now()], [rnd] the random suffix of a
    fresh identifier. *)
Definition savePattern (now : Z) (rnd : jsstring)
    (find repl : jsstring) (re ci : bool) (s : Settings.t) : Settings.t :=
  let existingIndex :=
    findIndex (sameConfig find repl re ci) (Settings.savedPatterns s) in
  match existingIndex with
  | Some i =>
      match nth_error (Settings.savedPatterns s) i with
      | Some pattern =>
          Settings.withSavedPatterns s
            (touch now pattern :: removeAt i (Settings.savedPatterns s))
      | None => s
      end
  | None =>
      let newPattern :=
        {| id := numToString now ++ str "-" ++ rnd;
           name := generatePatternName find;
           findText := find; replaceText := repl;
           useRegEx := re; caseInsensitive := ci;
           isPinned := false; lastUsed := now; useCount := 1 |} in
      pruneHistory
        (Settings.withSavedPatterns s (newPattern :: Settings.savedPatterns s))
  end.

Definition deletePattern (patternId : jsstring) (s : Settings.t)
  : Settings.t :=
  Settings.withSavedPatterns s
    (filter (fun p => negb (eqs (id p) patternId)) (Settings.savedPatterns s)).

Fixpoint flipFirst (patternId : jsstring) (l : list t) : list t :=
  match l with
  | [] => []
  | p :: l' =>
      if eqs (id p) patternId then flipPin p :: l'
      else p :: flipFirst patternId l'
  end.

Definition togglePinPattern (patternId : jsstring) (s : Settings.t)
  : Settings.t :=
  Settings.withSavedPatterns s (flipFirst patternId (Settings.savedPatterns s)).

End History.

(* ================================================================= *)
(** ** The match scanner and its substitution *)

Module Scanner.

(** What [RegExp.prototype.exec] returns: [match.index], [match[0]] and
    the groups [match[1]], [match[2]], ... ([None] for [undefined]). *)
Record MatchResult := {
  index : nat;
  matched : jsstring;
  groups : list (option jsstring)
}.

(** The host's regular-expression engine, for the patterns the user
    types.  [compile] is [new RegExp(pattern, flags)] and yields the
    message of the SyntaxError it throws, or a regular expression;
    [exec r s lastIndex] is one call of [r.exec(s)] on a global regular
    expression whose [lastIndex] has the given value; [matchAll r s] is
    the array [s.match(r)] for a global [r], empty where the host
    returns [null]; [replace r s t] is [s.replace(r, t)]. *)
Record RegExpEngine := {
  regex : Type;
  compile : jsstring -> jsstring -> jsstring + regex;
  exec : regex -> jsstring -> nat -> option MatchResult;
  matchAll : regex -> jsstring -> list jsstring;
  replace : regex -> jsstring -> jsstring -> jsstring
}.

(** [interface MatchPreview] *)
Record MatchPreview := {
  lineNumber : nat;
  lineContent : jsstring;
  matchedText : jsstring;
  replacementText : jsstring;
  matchIndex : nat;
  lineAfterReplace : jsstring;
  matchStartInLine : nat;
  matchEndInLine : nat;
  isMultiLine : bool
}.

Record Previews := { previews : list MatchPreview; totalCount : nat }.

(** ['\x00DOLLAR\x00'] *)
Definition dollarPlaceholder : jsstring := (0%N :: str "DOLLAR") ++ [0%N].

(** The text of [match[n]], or [''] when it is [undefined]. *)
Definition groupValue (m : MatchResult) (n : nat) : jsstring :=
  match nth_error (groups m) (n - 1) with
  | Some (Some s) => s
  | _ => []
  end.

(** [for (let n = match.length - 1; n >= 1; n--)]: the argument counts the
    iterations still to run, so the body runs for [n], [n - 1], ..., 1. *)
Fixpoint replaceGroups (m : MatchResult) (n : nat) (text : jsstring)
  : jsstring :=
  match n with
  | O => text
  | S n' =>
      replaceGroups m n'
        (replaceAll text (DOLLAR :: natToString n) (groupValue m n))
  end.

(** The replacement text computed for one match of a line. *)
Definition substitute (replaceString line : jsstring) (m : MatchResult)
  : jsstring :=
  let r0 := replaceAll replaceString (str "$$") dollarPlaceholder in
  let matchStart := index m in
  let matchEnd := matchStart + length (matched m) in
  let beforeMatch := substring line 0 matchStart in
  let r1 := replaceAll r0 (str "$`") beforeMatch in
  let afterMatch := substringFrom line matchEnd in
  let r2 := replaceAll r1 (str "$'") afterMatch in
  let r3 := replaceAll r2 (str "$&") (matched m) in
  let r4 := replaceGroups m (length (groups m)) r3 in
  replaceAll r4 dollarPlaceholder (str "$").

Definition regexPreview (replaceString line : jsstring) (i matchIndex : nat)
    (m : MatchResult) : MatchPreview :=
  let replacementText := substitute replaceString line m in
  let matchStart := index m in
  let matchEnd := matchStart + length (matched m) in
  {| lineNumber := i + 1;
     lineContent := line;
     matchedText := matched m;
     replacementText := replacementText;
     matchIndex := matchIndex;
     lineAfterReplace :=
       substring line 0 matchStart ++ replacementText
         ++ substringFrom line matchEnd;
     matchStartInLine := matchStart;
     matchEndInLine := matchEnd;
     isMultiLine := includes (matched m) [LF] |}.

Definition plainPreview (searchString replaceString line : jsstring)
    (i matchIndex matchStart : nat) : MatchPreview :=
  {| lineNumber := i + 1;
     lineContent := line;
     matchedText := searchString;
     replacementText := replaceString;
     matchIndex := matchIndex;
     lineAfterReplace := join (split line searchString) replaceString;
     matchStartInLine := matchStart;
     matchEndInLine := matchStart + length searchString;
     isMultiLine := includes searchString [LF] |}.

(** The line loop of plain-text mode; [acc] is the array [previews]. *)
Fixpoint plainLines (searchString replaceString : jsstring) (limit : nat)
    (lines : list jsstring) (i : nat) (acc : list MatchPreview)
  : list MatchPreview :=
  match lines with
  | [] => acc
  | line :: rest =>
      if length acc <? limit then
        match indexOf line searchString with
        | Some matchStart =>
            plainLines searchString replaceString limit rest (S i)
              (acc ++ [plainPreview searchString replaceString line i
                         (length acc) matchStart])
        | None => plainLines searchString replaceString limit rest (S i) acc
        end
      else acc
  end.

Definition regexFlags (multilineMatch caseInsensitive : bool) : jsstring :=
  str "g" ++ (if multilineMatch then str "m" else [])
          ++ (if caseInsensitive then str "i" else []).

Section WithEngine.
Variable E : RegExpEngine.

(** The [while] loop over the matches of one line.  It ends when [exec]
    finds nothing more or when [previews] is full; [room] is the number
    of previews that still fit, which bounds the iterations. *)
Fixpoint lineMatches (r : regex E) (replaceString line : jsstring)
    (i : nat) (room lastIndex : nat) (acc : list MatchPreview)
  : list MatchPreview :=
  match exec E r line lastIndex with
  | None => acc
  | Some m =>
      match room with
      | O => acc
      | S room' =>
          lineMatches r replaceString line i room'
            (index m + length (matched m))
            (acc ++ [regexPreview replaceString line i (length acc) m])
      end
  end.

(** The line loop of regex mode.  Compiling [lineRegex] may throw; the
    error message is returned on the left. *)
Fixpoint regexLines (searchString replaceString : jsstring)
    (caseInsensitive : bool) (limit : nat)
    (lines : list jsstring) (i : nat) (acc : list MatchPreview)
  : jsstring + list MatchPreview :=
  match lines with
  | [] => inr acc
  | line :: rest =>
      if length acc <? limit then
        match compile E searchString
                (if caseInsensitive then str "gi" else str "g") with
        | inl e => inl e
        | inr lineRegex =>
            regexLines searchString replaceString caseInsensitive limit
              rest (S i)
              (lineMatches lineRegex replaceString line i
                 (limit - length acc) 0 acc)
        end
      else inr acc
  end.

(** [generateMatchPreviews], with the lines it writes through [logger]
    (level 0, which [logThreshold] always lets through). *)
Definition generateMatchPreviews (text searchString replaceString : jsstring)
    (useRegEx caseInsensitive multilineMatch : bool) (limit : nat)
  : Previews * list jsstring :=
  let lines := split text [LF] in
  if useRegEx then
    let caught e :=
      ({| previews := []; totalCount := 0 |},
       [str "RegexFiRe: " ++ str "Invalid regex pattern: " ++ e]) in
    match compile E searchString
            (regexFlags multilineMatch caseInsensitive) with
    | inl e => caught e
    | inr searchRegex =>
        let totalCount := length (matchAll E searchRegex text) in
        match regexLines searchString replaceString caseInsensitive limit
                lines 0 [] with
        | inl e => caught e
        | inr previews =>
            ({| previews := previews; totalCount := totalCount |}, [])
        end
    end
  else
    let occurrences := length (split text searchString) - 1 in
    ({| previews := plainLines searchString replaceString limit lines 0 [];
        totalCount := occurrences |}, []).
End WithEngine.

(** *** A small engine

    To run the model on concrete inputs: the engine restricted to
    patterns made of ordinary characters, which match themselves (ASCII
    letters in either case under the [i] flag).  A pattern that contains
    a syntax character is refused with a SyntaxError; for an unbalanced
    parenthesis that is what every engine does.  The global loops of
    [match] and [replace] are the standard ones over [exec]. *)
Record LitRegex := { source : jsstring; ignoreCase : bool }.

Definition isSyntaxCharacter (c : char) : bool :=
  existsb (N.eqb c) (str "^$\.*+?()[]{}|").

Definition canonicalize (c : char) : char :=
  if (N.leb 97 c && N.leb c 122)%N then (c - 32)%N else c.

Definition litCompile (pattern flags : jsstring) : jsstring + LitRegex :=
  if existsb isSyntaxCharacter pattern
  then inl (str "SyntaxError: Invalid regular expression: /" ++ pattern
              ++ str "/")
  else inr {| source := pattern; ignoreCase := includes flags (str "i") |}.

Definition litExec (r : LitRegex) (s : jsstring) (lastIndex : nat)
  : option MatchResult :=
  if length s <? lastIndex then None
  else
    let fold := if ignoreCase r then map canonicalize else fun x => x in
    match indexOfFrom (skipn lastIndex (fold s)) (fold (source r)) lastIndex
    with
    | Some i =>
        Some {| index := i;
                matched := firstn (length (source r)) (skipn i s);
                groups := [] |}
    | None => None
    end.

Fixpoint execAll (ex : jsstring -> nat -> option MatchResult)
    (s : jsstring) (fuel lastIndex : nat) : list MatchResult :=
  match fuel with
  | O => []
  | S fuel' =>
      match ex s lastIndex with
      | None => []
      | Some m =>
          let e := index m + length (matched m) in
          m :: execAll ex s fuel' (if length (matched m) =? 0 then S e else e)
      end
  end.

Fixpoint assemble (s repl : jsstring) (ms : list MatchResult) (next : nat)
  : jsstring :=
  match ms with
  | [] => skipn next s
  | m :: rest =>
      if next <=? index m then
        firstn (index m - next) (skipn next s)
          ++ getSubstitution (matched m) s (index m) (groups m) repl
          ++ assemble s repl rest (index m + length (matched m))
      else assemble s repl rest next
  end.

Definition literalEngine : RegExpEngine :=
  {| regex := LitRegex;
     compile := litCompile;
     exec := litExec;
     matchAll := fun r s =>
       map matched (execAll (litExec r) s (S (length s)) 0);
     replace := fun r s repl =>
       assemble s repl (execAll (litExec r) s (S (length s)) 0) 0 |}.

End Scanner.

(* ================================================================= *)
(** ** The "Replace All" handler *)

Module Modal.
Import Scanner.

(** The editor as the handler sees it: the document text, the selected
    text, and the mutations it is asked to perform. *)
Record Editor := { getValue : jsstring; getSelection : jsstring }.

Inductive EditorCall :=
| SetValue (text : jsstring)
| ReplaceSelection (text : jsstring).

(** The state of the dialog's widgets when the button is pressed. *)
Record Inputs := {
  findInput : jsstring;
  replaceInput : jsstring;
  regToggle : bool;
  selToggle : bool
}.

(** How [performReplacement] ends: it returns early after a notice, it
    lets the SyntaxError of [new RegExp] escape, or it runs to its last
    line. *)
Inductive Outcome :=
| Refused (notice : jsstring)
| Thrown (error : jsstring)
| Done (calls : list EditorCall) (settings : Settings.t) (notice : jsstring).

(** The escape processing of the find and replace fields. *)
Definition expand (processLineBreak processTab : bool) (text : jsstring)
  : jsstring :=
  let t1 := if processLineBreak then replaceAll text (str "\n") [LF]
            else text in
  if processTab then replaceAll t1 (str "\t") [TAB] else t1.

Definition made (n : nat) (scope : jsstring) : jsstring :=
  str "Made " ++ natToString n ++ str " replacement(s) in " ++ scope.

(** The last lines of [performReplacement], common to all its branches:
    the settings take the texts and toggles of this run, a run that did
    not end in ['No match'] is recorded in the history, and the notice is
    shown. *)
Definition conclude (now : Z) (rnd : jsstring) (inp : Inputs)
    (settings : Settings.t) (searchString replaceString : jsstring)
    (calls : list EditorCall) (resultString : jsstring) : Outcome :=
  let s1 :=
    Settings.withLastUse settings searchString replaceString
      (regToggle inp) (selToggle inp) in
  let s2 :=
    if negb (eqs resultString (str "No match")) then
      History.savePattern now rnd searchString (replaceInput inp)
        (regToggle inp) (Settings.caseInsensitive s1) s1
    else s1 in
  Done calls s2 resultString.

Section WithEngine.
Variable E : RegExpEngine.

Definition performReplacement (now : Z) (rnd : jsstring)
    (editor : Editor) (inp : Inputs) (settings : Settings.t) : Outcome :=
  let selectedText := getSelection editor in
  if eqs (findInput inp) [] then Refused (str "Nothing to search for!")
  else
    let searchString :=
      expand (Settings.processLineBreak settings)
        (Settings.processTab settings) (findInput inp) in
    let replaceString :=
      expand (Settings.processLineBreak settings)
        (Settings.processTab settings) (replaceInput inp) in
    let finish := conclude now rnd inp settings searchString replaceString in
    if regToggle inp then
      match compile E searchString
              (regexFlags (Settings.multilineMatch settings)
                 (Settings.caseInsensitive settings)) with
      | inl e => Thrown e
      | inr searchRegex =>
          if negb (selToggle inp) then
            let documentText := getValue editor in
            match matchAll E searchRegex documentText with
            | [] => finish [] (str "No match")
            | rresult =>
                finish
                  [SetValue (replace E searchRegex documentText replaceString)]
                  (made (length rresult) (str "document"))
            end
          else
            match matchAll E searchRegex selectedText with
            | [] => finish [] (str "No match")
            | rresult =>
                finish
                  [ReplaceSelection
                     (replace E searchRegex selectedText replaceString)]
                  (made (length rresult) (str "selection"))
            end
      end
    else
      if negb (selToggle inp) then
        let documentSplit := split (getValue editor) searchString in
        finish [SetValue (join documentSplit replaceString)]
          (made (length documentSplit - 1) (str "selection"))
      else
        let selectedSplit := split selectedText searchString in
        finish [ReplaceSelection (join selectedSplit replaceString)]
          (made (length selectedSplit - 1) (str "document")).
End WithEngine.

End Modal.

(* ================================================================= *)
(** ** The preview pane *)

Module Preview.
Import Scanner.

(** The double quote, written by its code unit. *)
Definition QUOTE : char := 34%N.

(** The closure [escapeHtml] of [updatePreview]: five global
    replacements, the ampersand first. *)
Definition escapeHtml (text : jsstring) : jsstring :=
  let t1 := replaceAll text (str "&") (str "&amp;") in
  let t2 := replaceAll t1 (str "<") (str "&lt;") in
  let t3 := replaceAll t2 (str ">") (str "&gt;") in
  let t4 := replaceAll t3 [QUOTE] (str "&quot;") in
  replaceAll t4 (str "'") (str "&#039;").

(** The closure [truncateWithEllipsis].  For [maxLen] below 3 the end of
    the substring is negative in the source, which [substring] reads as
    0; the truncated subtraction gives the same. *)
Definition truncateWithEllipsis (text : jsstring) (maxLen : nat) : jsstring :=
  if length text <=? maxLen then text
  else substring text 0 (maxLen - 3) ++ str "...".

(** The three pieces of the line before the replacement, and of the line
    after it, between which the highlighting markup is put. *)
Record Pieces := { beforePart : jsstring; midPart : jsstring;
                   afterPart : jsstring }.

Definition highlightedBefore (p : MatchPreview) : Pieces :=
  {| beforePart :=
       escapeHtml (substring (lineContent p) 0 (matchStartInLine p));
     midPart :=
       escapeHtml (substring (lineContent p) (matchStartInLine p)
                     (matchEndInLine p));
     afterPart := escapeHtml (substringFrom (lineContent p) (matchEndInLine p))
  |}.

Definition highlightedAfter (p : MatchPreview) : Pieces :=
  {| beforePart :=
       escapeHtml (substring (lineAfterReplace p) 0 (matchStartInLine p));
     midPart := escapeHtml (replacementText p);
     afterPart :=
       escapeHtml (substringFrom (lineAfterReplace p)
                     (matchStartInLine p + length (replacementText p))) |}.

(** The title above a non-empty preview. *)
Definition previewTitle (totalCount : nat) (scope : jsstring) : jsstring :=
  str "Preview: " ++ natToString totalCount ++ str " match"
    ++ (if totalCount =? 1 then [] else str "es") ++ str " in " ++ scope.

(** The label of the "Show more" button and the line below it. *)
Definition showMoreLabel (remaining : nat) : jsstring :=
  str "Show " ++ natToString (Nat.min remaining 10) ++ str " more...".

Definition remainingLabel (remaining : nat) : jsstring :=
  str "(" ++ natToString remaining ++ str " more matches)".

End Preview.

(* ================================================================= *)
(** ** The dialog around the handler *)

Module Dialog.
Import Scanner Modal Preview.

(** The comparator of [sortedPatterns], used for the drop-down list and
    for the list in the settings tab: pinned entries first, then the
    more recently used. *)
Definition pinnedFirst (a b : RegexPattern.t) : Z :=
  if negb (Bool.eqb (RegexPattern.isPinned a) (RegexPattern.isPinned b))
  then (if RegexPattern.isPinned a then -1 else 1)%Z
  else (RegexPattern.lastUsed b - RegexPattern.lastUsed a)%Z.

Definition sortedPatterns (saved : list RegexPattern.t)
  : list RegexPattern.t := sort pinnedFirst saved.

(** The star that marks a pinned entry (U+2B50), followed by a space. *)
Definition pinPrefix : jsstring := [11088%N; SPACE].

(** The options of the drop-down list, value and label; the list is
    only built for a history that is not empty. *)
Definition dropdownOptions (saved : list RegexPattern.t)
  : option (list (jsstring * jsstring)) :=
  if 0 <? length saved then
    Some (([], str "Select a saved pattern...")
          :: map (fun pattern =>
                    (RegexPattern.id pattern,
                     (if RegexPattern.isPinned pattern then pinPrefix else [])
                       ++ RegexPattern.name pattern))
               (sortedPatterns saved))
  else None.

(** The [onChange] handler of the drop-down list. *)
Definition loadPattern (patternId : jsstring) (saved : list RegexPattern.t)
    (inp : Inputs) : Inputs :=
  if eqs patternId [] then inp
  else
    match find (fun p => eqs (RegexPattern.id p) patternId) saved with
    | Some pattern =>
        {| findInput := RegexPattern.findText pattern;
           replaceInput := RegexPattern.replaceText pattern;
           regToggle := RegexPattern.useRegEx pattern;
           selToggle := selToggle inp |}
    | None => inp
    end.

Definition noSelection (editor : Editor) : bool :=
  eqs (getSelection editor) [].

(** The widgets as [onOpen] leaves them ("Apply settings"). *)
Definition openInputs (settings : Settings.t) (editor : Editor) : Inputs :=
  let reg := Settings.useRegEx settings in
  let sel := Settings.selOnly settings in
  let repl := Settings.replaceText settings in
  let '(find, sel1) :=
    if Settings.prefillFind settings
       && negb (includes (getSelection editor) [LF])
       && negb (noSelection editor)
    then (getSelection editor, false)
    else (Settings.findText settings, sel) in
  let sel2 := if noSelection editor then false else sel1 in
  {| findInput := find; replaceInput := repl;
     regToggle := reg; selToggle := sel2 |}.

(** The text that the preview and the confirmation count look at. *)
Definition targetText (editor : Editor) (inp : Inputs) : jsstring :=
  if selToggle inp && negb (noSelection editor) then getSelection editor
  else getValue editor.

Definition scopeName (inp : Inputs) : jsstring :=
  if selToggle inp then str "selection" else str "document".

(** What [updatePreview] puts into the pane. *)
Inductive View :=
| Hidden
| Prompt
| NoMatches
| Listing (title : jsstring) (shown : list MatchPreview)
          (more : option (jsstring * jsstring)).

Section WithEngine.
Variable E : RegExpEngine.

(** [updatePreview(keepLimit)], returning the view, the new value of
    [currentPreviewLimit] and the lines written through [logger]. *)
Definition updatePreview (settings : Settings.t) (editor : Editor)
    (inp : Inputs) (keepLimit : bool) (currentPreviewLimit : nat)
  : View * nat * list jsstring :=
  if negb (Settings.showPreview settings)
  then (Hidden, currentPreviewLimit, [])
  else if eqs (findInput inp) []
  then (Prompt, Settings.previewLimit settings, [])
  else
    let searchString :=
      expand (Settings.processLineBreak settings)
        (Settings.processTab settings) (findInput inp) in
    let replaceString :=
      expand (Settings.processLineBreak settings)
        (Settings.processTab settings) (replaceInput inp) in
    let limit :=
      if keepLimit then currentPreviewLimit
      else Settings.previewLimit settings in
    let '(result, log) :=
      generateMatchPreviews E (targetText editor inp) searchString
        replaceString (regToggle inp) (Settings.caseInsensitive settings)
        (Settings.multilineMatch settings) (Nat.min limit 50) in
    if totalCount result =? 0 then (NoMatches, limit, log)
    else
      let remaining := totalCount result - length (previews result) in
      (Listing (previewTitle (totalCount result) (scopeName inp))
         (previews result)
         (if length (previews result) <? totalCount result
          then Some (showMoreLabel remaining, remainingLabel remaining)
          else None),
       limit, log).

(** The click on "Show more". *)
Definition showMore (settings : Settings.t) (editor : Editor)
    (inp : Inputs) (currentPreviewLimit : nat)
  : View * nat * list jsstring :=
  updatePreview settings editor inp true (currentPreviewLimit + 10).

(** How a click on "Replace All" ends: with the notice that nothing was
    typed, with the user's refusal of the question put to them, or with
    a run of [performReplacement] (after a question, if one was put). *)
Inductive Submission :=
| Empty (notice : jsstring)
| Declined (question : jsstring)
| Proceeded (question : option jsstring) (outcome : Outcome).

Definition confirmQuestion (totalCount : nat) (scope : jsstring) : jsstring :=
  str "This will replace " ++ natToString totalCount ++ str " matches in "
    ++ scope ++ str "." ++ [LF; LF] ++ str "Are you sure you want to proceed?".

(** The [onClick] handler of the button; [confirm] is the user's answer
    to the question shown.  The second component holds the lines written
    through [logger] by the count. *)
Definition submit (confirm : jsstring -> bool) (now : Z) (rnd : jsstring)
    (editor : Editor) (inp : Inputs) (settings : Settings.t)
  : Submission * list jsstring :=
  if eqs (findInput inp) [] then (Empty (str "Nothing to search for!"), [])
  else if Settings.confirmLargeReplace settings then
    let '(result, log) :=
      generateMatchPreviews E (targetText editor inp) (findInput inp)
        (replaceInput inp) (regToggle inp)
        (Settings.caseInsensitive settings)
        (Settings.multilineMatch settings) 1 in
    if Settings.largeReplaceThreshold settings <=? totalCount result then
      let question := confirmQuestion (totalCount result) (scopeName inp) in
      if confirm question
      then (Proceeded (Some question)
              (performReplacement E now rnd editor inp settings), log)
      else (Declined question, log)
    else (Proceeded None (performReplacement E now rnd editor inp settings),
          log)
  else (Proceeded None (performReplacement E now rnd editor inp settings), []).
End WithEngine.

End Dialog.

(* ================================================================= *)
(** ** The settings tab *)

Module SettingsTab.

Definition hexValue (c : char) : option nat :=
  if isDigit c then Some (digitVal c)
  else if (N.leb 97 c && N.leb c 102)%N then Some (N.to_nat (c - 87)%N)
  else if (N.leb 65 c && N.leb c 70)%N then Some (N.to_nat (c - 55)%N)
  else None.

Definition decValue (c : char) : option nat :=
  if isDigit c then Some (digitVal c) else None.

(** The value of the longest run of digits at the start of [s]; [None]
    when [s] does not start with a digit. *)
Fixpoint digitRun (value : char -> option nat) (radix : nat) (s : jsstring)
    (acc : option nat) : option nat :=
  match s with
  | [] => acc
  | c :: s' =>
      match value c with
      | Some d =>
          digitRun value radix s'
            (Some (radix * match acc with Some a => a | None => 0 end + d))
      | None => acc
      end
  end.

(** [parseInt(s)] without a radix: leading white space is skipped, a
    sign is read, [0x] or [0X] switches to base 16, and the longest run
    of digits is taken; [None] is [NaN].  The mathematical value is
    returned; the host rounds it to a double, which for the bounds
    checked below makes no difference. *)
Definition parseInt (s : jsstring) : option Z :=
  let s1 := trimStart s in
  let '(negative, s2) :=
    match s1 with
    | c :: r =>
        if N.eqb c (ch "-") then (true, r)
        else if N.eqb c (ch "+") then (false, r)
        else (false, s1)
    | [] => (false, s1)
    end in
  let magnitude :=
    match s2 with
    | z :: x :: r =>
        if N.eqb z (ch "0") && (N.eqb x (ch "x") || N.eqb x (ch "X"))
        then digitRun hexValue 16 r None
        else digitRun decValue 10 s2 None
    | _ => digitRun decValue 10 s2 None
    end in
  match magnitude with
  | Some n => Some (if negative then (- Z.of_nat n)%Z else Z.of_nat n)
  | None => None
  end.

Definition withPreviewLimit (s : Settings.t) (n : nat) : Settings.t :=
  {| Settings.findText := Settings.findText s;
     Settings.replaceText := Settings.replaceText s;
     Settings.useRegEx := Settings.useRegEx s;
     Settings.selOnly := Settings.selOnly s;
     Settings.caseInsensitive := Settings.caseInsensitive s;
     Settings.multilineMatch := Settings.multilineMatch s;
     Settings.processLineBreak := Settings.processLineBreak s;
     Settings.processTab := Settings.processTab s;
     Settings.prefillFind := Settings.prefillFind s;
     Settings.savedPatterns := Settings.savedPatterns s;
     Settings.maxHistorySize := Settings.maxHistorySize s;
     Settings.showPreview := Settings.showPreview s;
     Settings.previewLimit := n;
     Settings.confirmLargeReplace := Settings.confirmLargeReplace s;
     Settings.largeReplaceThreshold := Settings.largeReplaceThreshold s |}.

Definition withLargeReplaceThreshold (s : Settings.t) (n : nat)
  : Settings.t :=
  {| Settings.findText := Settings.findText s;
     Settings.replaceText := Settings.replaceText s;
     Settings.useRegEx := Settings.useRegEx s;
     Settings.selOnly := Settings.selOnly s;
     Settings.caseInsensitive := Settings.caseInsensitive s;
     Settings.multilineMatch := Settings.multilineMatch s;
     Settings.processLineBreak := Settings.processLineBreak s;
     Settings.processTab := Settings.processTab s;
     Settings.prefillFind := Settings.prefillFind s;
     Settings.savedPatterns := Settings.savedPatterns s;
     Settings.maxHistorySize := Settings.maxHistorySize s;
     Settings.showPreview := Settings.showPreview s;
     Settings.previewLimit := Settings.previewLimit s;
     Settings.confirmLargeReplace := Settings.confirmLargeReplace s;
     Settings.largeReplaceThreshold := n |}.

Definition withMaxHistorySize (s : Settings.t) (n : nat) : Settings.t :=
  {| Settings.findText := Settings.findText s;
     Settings.replaceText := Settings.replaceText s;
     Settings.useRegEx := Settings.useRegEx s;
     Settings.selOnly := Settings.selOnly s;
     Settings.caseInsensitive := Settings.caseInsensitive s;
     Settings.multilineMatch := Settings.multilineMatch s;
     Settings.processLineBreak := Settings.processLineBreak s;
     Settings.processTab := Settings.processTab s;
     Settings.prefillFind := Settings.prefillFind s;
     Settings.savedPatterns := Settings.savedPatterns s;
     Settings.maxHistorySize := n;
     Settings.showPreview := Settings.showPreview s;
     Settings.previewLimit := Settings.previewLimit s;
     Settings.confirmLargeReplace := Settings.confirmLargeReplace s;
     Settings.largeReplaceThreshold := Settings.largeReplaceThreshold s |}.

(** [!isNaN(num) && num > 0 && num <= max] *)
Definition accepted (max : Z) (value : jsstring) : option nat :=
  match parseInt value with
  | Some num =>
      if ((0 <? num) && (num <=? max))%Z then Some (Z.to_nat num) else None
  | None => None
  end.

(** The [onChange] handlers of the three number fields. *)
Definition onPreviewLimit (value : jsstring) (s : Settings.t) : Settings.t :=
  match accepted 50 value with
  | Some num => withPreviewLimit s num
  | None => s
  end.

Definition onLargeReplaceThreshold (value : jsstring) (s : Settings.t)
  : Settings.t :=
  match accepted 1000 value with
  | Some num => withLargeReplaceThreshold s num
  | None => s
  end.

Definition onMaxHistorySize (value : jsstring) (s : Settings.t)
  : Settings.t :=
  match accepted 100 value with
  | Some num => History.pruneHistory (withMaxHistorySize s num)
  | None => s
  end.

(** The button "Clear All". *)
Definition clearAll (s : Settings.t) : Settings.t :=
  Settings.withSavedPatterns s [].

End SettingsTab.

(* ================================================================= *)
(** ** The command "Markdown: Check and Fix formatting" *)

Module Command.
Import Markdown Modal.

(** The labels of the six categories, by their code units, each ending
    in a space; the separator is a middle dot between two spaces. *)
Definition labelDuplicateHashes : jsstring :=
  [37325; 22797; 26631; 39064; 20117; 21495; 20462; 22797; 32]%N.
Definition labelCapToH6 : jsstring :=
  [26631; 39064; 32423; 21035; 36229; 36807; 32; 72; 54; 32;
   35268; 33539; 21270; 32]%N.
Definition labelSpaceNormalize : jsstring :=
  [26631; 39064; 31354; 26684; 35268; 33539; 21270; 32]%N.
Definition labelBulletSpace : jsstring :=
  [26080; 24207; 21015; 34920; 31354; 26684; 20462; 22797; 32]%N.
Definition labelOrderedSpace : jsstring :=
  [26377; 24207; 21015; 34920; 31354; 26684; 20462; 22797; 32]%N.
Definition labelTrailing : jsstring :=
  [34892; 23614; 31354; 30333; 31227; 38500; 32]%N.
Definition separator : jsstring := [32; 183; 32]%N.

(** The notice shown when the text needs no fix. *)
Definition nothingToFix : jsstring :=
  [26410; 21457; 29616; 38656; 35201; 20462; 22797; 30340; 32]%N
    ++ str "Markdown" ++ [32; 26684; 24335; 38382; 39064]%N.

Definition describe (s : FixStat) : jsstring :=
  if eqs (key s) (str "heading_duplicate_hashes")
  then labelDuplicateHashes ++ natToString (count s)
  else if eqs (key s) (str "heading_cap_to_h6")
  then labelCapToH6 ++ natToString (count s)
  else if eqs (key s) (str "heading_space_normalize")
  then labelSpaceNormalize ++ natToString (count s)
  else if eqs (key s) (str "list_bullet_space")
  then labelBulletSpace ++ natToString (count s)
  else if eqs (key s) (str "list_ordered_space")
  then labelOrderedSpace ++ natToString (count s)
  else if eqs (key s) (str "trim_trailing_whitespace")
  then labelTrailing ++ natToString (count s)
  else key s ++ str " " ++ natToString (count s).

Definition summary (stats : Stats) : jsstring :=
  join (map describe (filter (fun s => 0 <? count s) stats)) separator.

(** The [editorCallback] of the command: the calls made on the editor
    and the notice shown. *)
Definition fixFormatting (doc : jsstring) : list EditorCall * jsstring :=
  let '(text, stats) := fixMarkdownFormatting doc in
  if negb (eqs text doc) then
    ([SetValue text],
     let msg := summary stats in
     if eqs msg [] then str "Markdown formatting fixes applied" else msg)
  else ([], nothingToFix).

End Command.

(* ================================================================= *)
(** ** Notions used in the statements *)

(** An entry carries the configuration (find, replace, regex, case). *)
Definition hasConfig (find repl : jsstring) (re ci : bool)
    (p : RegexPattern.t) : Prop :=
  RegexPattern.findText p = find /\ RegexPattern.replaceText p = repl
  /\ RegexPattern.useRegEx p = re /\ RegexPattern.caseInsensitive p = ci.

Definition unpinned (l : list RegexPattern.t) : list RegexPattern.t :=
  filter (fun p => negb (RegexPattern.isPinned p)) l.

Definition pinned (l : list RegexPattern.t) : list RegexPattern.t :=
  filter RegexPattern.isPinned l.

(** [a] is at least as recent as [b]. *)
Definition newerEq (a b : RegexPattern.t) : Prop :=
  (RegexPattern.lastUsed b <= RegexPattern.lastUsed a)%Z.

(** [p] occurs in [s] at offset [i]; [i] is the offset of its first
    occurrence. *)
Definition occursAt (s p : jsstring) (i : nat) : Prop :=
  exists pre post, s = pre ++ p ++ post /\ length pre = i.

Definition firstOccurrence (s p : jsstring) (i : nat) : Prop :=
  occursAt s p i /\ forall j, j < i -> ~ occursAt s p j.

(** What the plain-text loop records about a line: the preview [p]
    belongs to a line after the first [base] ones and points at the first
    occurrence of [find] in it. *)
Definition plainRecord (find : jsstring) (lines : list jsstring) (base : nat)
    (p : Scanner.MatchPreview) : Prop :=
  base < Scanner.lineNumber p
  /\ nth_error lines (Scanner.lineNumber p - 1 - base)
     = Some (Scanner.lineContent p)
  /\ firstOccurrence (Scanner.lineContent p) find (Scanner.matchStartInLine p)
  /\ Scanner.matchedText p = find
  /\ Scanner.matchEndInLine p = Scanner.matchStartInLine p + length find.

(** The lines that hold the find string. *)
Definition containing (find : jsstring) (lines : list jsstring)
  : list jsstring :=
  filter (fun line => includes line find) lines.

(** The number written by a run of decimal digits. *)
Definition decimalValue (ds : jsstring) : nat :=
  fold_left (fun a c => 10 * a + digitVal c) ds 0.

(** A template text without [$] and without the NUL character, the two
    characters the substitution steps look for. *)
Definition inert (s : jsstring) : Prop := ~ In DOLLAR s /\ ~ In 0%N s.

(** The text does not go on with a digit. *)
Definition noDigitAhead (s : jsstring) : Prop :=
  match s with
  | [] => True
  | c :: _ => isDigit c = false
  end.

(** *** Where a [$n] token stands in its template *)

(** The characters the [$]-patterns of the substitution are made of:
    [$], the backtick, [&], the quote and the digits. *)
Definition tokenChar (c : char) : bool :=
  N.eqb c DOLLAR || N.eqb c BACKTICK || N.eqb c 38 || N.eqb c 39
  || isDigit c.

(** Reading [s] from the left, with every [$$] taken as a pair, one [$]
    is left over at the end of [s]: a token put after [s] loses its [$]
    to it. *)
Fixpoint dollarPending (s : jsstring) : bool :=
  match s with
  | [] => false
  | c :: s' =>
      if N.eqb c DOLLAR then
        match s' with
        | [] => true
        | d :: s'' =>
            if N.eqb d DOLLAR then dollarPending s'' else dollarPending s'
        end
      else dollarPending s'
  end.

(** Every [$] of [s] is followed by a character other than [$]. *)
Fixpoint isolated (s : jsstring) : bool :=
  match s with
  | [] => true
  | c :: s' =>
      if N.eqb c DOLLAR then
        match s' with
        | [] => false
        | d :: s'' => negb (N.eqb d DOLLAR) && isolated s''
        end
      else isolated s'
  end.

(** No occurrence of [lit] begins in [a] and runs on into [b]. *)
Definition fits (lit a b : jsstring) : Prop :=
  forall a1 a2, a = a1 ++ a2 -> a2 <> [] ->
    startsWith (a2 ++ b) lit = true -> length lit <= length a2.

(** What follows the token is the end of the template or a character no
    [$]-pattern is made of. *)
Definition closedAfter (post : jsstring) : Prop :=
  match post with
  | [] => True
  | d :: _ => tokenChar d = false
  end.

(** What precedes the token holds no [$], or holds after its last [$] a
    character no [$]-pattern is made of. *)
Definition closedBefore (pre : jsstring) : Prop :=
  ~ In DOLLAR pre
  \/ exists p c t, pre = p ++ c :: t /\ tokenChar c = false /\ ~ In DOLLAR t.

(** What follows the token is the end of the template or a character
    that is neither a digit nor [$]. *)
Definition clearAhead (post : jsstring) : Prop :=
  match post with
  | [] => True
  | d :: _ => isDigit d = false /\ d <> DOLLAR
  end.

(** The token [$n] stands apart from the text around it, in a template
    used with a pattern of [g] groups: on one side at least it borders
    on text that no [$]-pattern can take in, and no longer group number
    can be read at its place. *)
Definition apart (g n : nat) (pre post : jsstring) : Prop :=
  closedAfter post
  \/ (closedBefore pre /\ (g < 10 * n \/ clearAhead post)).

(** A text that, put in by [String.prototype.replace], pulls in nothing
    of the string it is put into: it holds no [$] followed by a backtick
    or a quote. *)
Definition noContext (s : jsstring) : Prop :=
  includes s [DOLLAR; BACKTICK] = false
  /\ includes s [DOLLAR; 39%N] = false.

(** A text that, put in, leaves no [$] behind that the text after it
    could complete: every [$] of it is followed by a character other
    than [$], the backtick and the quote. *)
Definition settled (s : jsstring) : Prop :=
  isolated s = true /\ noContext s.

(** The texts a match puts in: what is before and after it in the line,
    the match itself and its groups. *)
Definition matchTexts (P : jsstring -> Prop) (line : jsstring)
    (m : Scanner.MatchResult) : Prop :=
  P (substring line 0 (Scanner.index m))
  /\ P (substringFrom line
          (Scanner.index m + length (Scanner.matched m)))
  /\ P (Scanner.matched m)
  /\ forall k, P (Scanner.groupValue m k).

(** *** What a pattern literal matches

    [Matches r pos xs rest c c'] reads: at offset [pos] of the subject,
    with [xs ++ rest] still ahead, the pattern [r] can consume exactly
    [xs], turning the groups [c] into [c'].  The relation lists every
    way to match; which one the backtracking matcher takes is a matter
    of priority. *)
Definition within (hi : option nat) (n : nat) : Prop :=
  match hi with Some h => n <= h | None => True end.

Inductive Matches :
  RegexLit.re -> nat -> jsstring -> jsstring -> RegexLit.caps -> RegexLit.caps
  -> Prop :=
| MBol rest c : Matches RegexLit.Bol 0 [] rest c c
| MEol pos c : Matches RegexLit.Eol pos [] [] c c
| MCls p pos a rest c :
    p a = true -> Matches (RegexLit.Cls p) pos [a] rest c c
| MRep p lo hi pos xs rest c :
    forallb p xs = true -> lo <= length xs -> within hi (length xs) ->
    Matches (RegexLit.Rep p lo hi) pos xs rest c c
| MGrp i r pos xs rest c c' :
    Matches r pos xs rest c c' ->
    Matches (RegexLit.Grp i r) pos xs rest c (RegexLit.setCap i xs c')
| MSeq r1 r2 pos xs1 xs2 rest c c1 c2 :
    Matches r1 pos xs1 (xs2 ++ rest) c c1 ->
    Matches r2 (pos + length xs1) xs2 rest c1 c2 ->
    Matches (RegexLit.Seq r1 r2) pos (xs1 ++ xs2) rest c c2
| MAltL r1 r2 pos xs rest c c' :
    Matches r1 pos xs rest c c' ->
    Matches (RegexLit.Alt r1 r2) pos xs rest c c'
| MAltR r1 r2 pos xs rest c c' :
    Matches r2 pos xs rest c c' ->
    Matches (RegexLit.Alt r1 r2) pos xs rest c c'.

(** The text the groups hold comes from the subject. *)
Definition capsFrom (c : RegexLit.caps) (s : jsstring) : Prop :=
  forall i v, c i = Some v -> incl v s.

(** A character that is neither white space nor a fence character, and
    a line whose first character after its leading white space is one. *)
Definition plainChar (c : char) : Prop :=
  isWhiteSpace c = false /\ c <> BACKTICK /\ c <> TILDE.

Definition startsPlain (s : jsstring) : Prop :=
  exists sp c rest,
    s = sp ++ c :: rest /\ forallb isWhiteSpace sp = true /\ plainChar c.

(** The characters a rewriting rule may add to a line. *)
Definition added (x : char) : Prop := x = SPACE \/ x = HASH.

(** A line without a line break in it. *)
Definition oneLine (s : jsstring) : Prop := ~ In LF s.

(** The fence state in which the loops reach line [i]. *)
Definition fenceBefore (lines : list jsstring) (i : nat) : Markdown.Fence :=
  fold_left Markdown.fenceStep (firstn i lines) Markdown.noFence.

(** The count reported for a category, 0 when it has no entry. *)
Definition countOf (k : jsstring) (stats : Markdown.Stats) : nat :=
  match find (fun s => eqs (Markdown.key s) k) stats with
  | Some s => Markdown.count s
  | None => 0
  end.

(** The text of a heading: it begins with a character that is not white
    space and stays on its line. *)
Definition headingText (body : jsstring) : Prop :=
  exists b rest,
    body = b :: rest /\ isWhiteSpace b = false
    /\ forallb (fun c => negb (isLineTerminator c)) rest = true.

(** The two fence characters, and a line that starts, after optional
    white space, with three or more of one of them. *)
Definition fenceChar (c : char) : Prop := c = BACKTICK \/ c = TILDE.

Definition fenceLine (c : char) (line : jsstring) : Prop :=
  exists sp rest,
    line = sp ++ c :: c :: c :: rest /\ forallb isWhiteSpace sp = true.

(** The previews collected so far: numbered by their position, and each
    showing a line among the first [i] ones. *)
Definition collected (lines : list jsstring) (i : nat)
    (acc : list Scanner.MatchPreview) : Prop :=
  (forall k p, nth_error acc k = Some p -> Scanner.matchIndex p = k)
  /\ (forall p, In p acc ->
        1 <= Scanner.lineNumber p <= i
        /\ nth_error lines (Scanner.lineNumber p - 1) = Some (Scanner.lineContent p))
  /\ StronglySorted le (map Scanner.lineNumber acc).


(** What escaping does to one character. *)
Definition entity (c : char) : jsstring :=
  if N.eqb c 38 then str "&amp;"
  else if N.eqb c 60 then str "&lt;"
  else if N.eqb c 62 then str "&gt;"
  else if N.eqb c 34 then str "&quot;"
  else if N.eqb c 39 then str "&#039;"
  else [c].

(** The characters with a meaning in markup, the ampersand apart. *)
Definition markupChar (c : char) : Prop :=
  c = 60%N \/ c = 62%N \/ c = 34%N \/ c = 39%N.

(** The six categories the fixer counts. *)
Definition categories : list jsstring :=
  [ str "heading_duplicate_hashes"; str "heading_cap_to_h6";
    str "heading_space_normalize"; str "list_bullet_space";
    str "list_ordered_space"; str "trim_trailing_whitespace" ].

(** Statistics as the fixer builds them: each entry counts at least one
    fix of one of the six categories, no category twice. *)
Definition tallied (stats : Markdown.Stats) : Prop :=
  Forall (fun s => 1 <= Markdown.count s /\ In (Markdown.key s) categories)
    stats
  /\ NoDup (map Markdown.key stats).

(** A line that does not end in a space or a tab. *)
Definition noTrailingBlank (line : jsstring) : Prop :=
  forall front c, line = front ++ [c] -> RegexLit.blank c = false.

(** A line that ends in exactly two spaces (a hard line break). *)
Definition hardBreak (line : jsstring) : Prop :=
  endsWith line (str "  ") = true /\ endsWith line (str "   ") = false.

(* ================================================================= *)
(** ** Sample inputs *)

Module Sample.
Import RegexPattern.

Definition entry (ident find repl : string) (pin : bool) (used count : Z)
  : RegexPattern.t :=
  {| id := str ident; name := History.generatePatternName (str find);
     findText := str find; replaceText := str repl;
     useRegEx := true; caseInsensitive := true;
     isPinned := pin; lastUsed := used; useCount := count |}.

(** A history of one pinned and four unpinned entries. *)
Definition history : list RegexPattern.t :=
  [ entry "e1" "foo" "bar" false 40 1;
    entry "e2" "\d+" "#" true 10 7;
    entry "e3" "colou?r" "color" false 30 2;
    entry "e4" "a" "b" false 50 1;
    entry "e5" "x" "" false 20 3 ].

Definition settings (max : nat) : Settings.t :=
  Settings.withSavedPatterns
    {| Settings.findText := []; Settings.replaceText := [];
       Settings.useRegEx := true; Settings.selOnly := false;
       Settings.caseInsensitive := true; Settings.multilineMatch := true;
       Settings.processLineBreak := true; Settings.processTab := false;
       Settings.prefillFind := false; Settings.savedPatterns := [];
       Settings.maxHistorySize := max; Settings.showPreview := true;
       Settings.previewLimit := 5; Settings.confirmLargeReplace := true;
       Settings.largeReplaceThreshold := 20 |}
    history.

(** A two-line document, nothing selected. *)
Definition editor : Modal.Editor :=
  {| Modal.getValue := JS.LF :: str "Hello hello" ; Modal.getSelection := [] |}.

(** The dialog asking for a plain-text replacement of [find]. *)
Definition plainInputs (find repl : string) : Modal.Inputs :=
  {| Modal.findInput := str find; Modal.replaceInput := str repl;
     Modal.regToggle := false; Modal.selToggle := false |}.

(** A note with a fenced block: line 1 lies inside the fence, line 3
    after it; both begin with eight hashes. *)
Definition markdown : jsstring :=
  str "```js" ++ [JS.LF] ++ str "######## in code" ++ [JS.LF]
    ++ str "```" ++ [JS.LF] ++ str "  ########   Deep title" ++ [JS.TAB].

End Sample.

(* ================================================================= *)
(** * Properties *)

(** ** Strings *)

Lemma eqs_spec (a b : jsstring) : eqs a b = true <-> a = b.
Proof.
  revert b; induction a as [|x a IH]; intros [|y b]; simpl;
    try (split; (discriminate || reflexivity)).
  rewrite andb_true_iff, N.eqb_eq, IH.
  split; [intros [-> ->]; reflexivity | intros E; inversion E; auto].
Qed.

Lemma eqs_refl (a : jsstring) : eqs a a = true.
Proof. apply eqs_spec; reflexivity. Qed.

Lemma eqs_false (a b : jsstring) : eqs a b = false <-> a <> b.
Proof.
  rewrite <- eqs_spec. destruct (eqs a b); split; intros; congruence.
Qed.

(** ** The string library on small inputs *)

Example split_sample :
  split (str "a,b,,c") (str ",") = [str "a"; str "b"; []; str "c"]
  /\ split [] (str ",") = [[]]
  /\ split (str "aXbXc") (str "Y") = [str "aXbXc"].
Proof. repeat split. Qed.

Example join_sample :
  join [str "a"; str "b"; []; str "c"] (str "--") = str "a--b----c"
  /\ join [] (str "--") = [].
Proof. split; reflexivity. Qed.

Example indexOf_sample :
  indexOf (str "Hello hello") (str "hello") = Some 6
  /\ indexOf (str "Hello hello") (str "colour") = None
  /\ substring (str "Hello hello") 6 11 = str "hello".
Proof. repeat split. Qed.

Example natToString_sample :
  natToString 0 = str "0" /\ natToString 10 = str "10"
  /\ natToString 1234 = str "1234".
Proof. repeat split. Qed.

Example trim_sample :
  trim (SPACE :: TAB :: str "a b" ++ [SPACE; LF]) = str "a b".
Proof. reflexivity. Qed.

(** In a replacement text [$$] stands for one [$], and [$&] for the
    text that was found. *)
Example replaceAll_sample :
  replaceAll (str "a-b-c") (str "-") (str "+") = str "a+b+c"
  /\ replaceAll (str "a-b-c") (str "-") (str "$$") = str "a$b$c"
  /\ replaceAll (str "a-b") (str "-") (str "<$&>") = str "a<->b".
Proof. repeat split. Qed.

(** The pattern [(\w+)@(\w+)] finds "a@b" in the line "a@b" with the
    groups "a" and "b"; the template "$2 at $1" then gives "b at a". *)
Example substitute_sample :
  Scanner.substitute (str "$2 at $1") (str "a@b")
    {| Scanner.index := 0; Scanner.matched := str "a@b";
       Scanner.groups := [Some (str "a"); Some (str "b")] |}
  = str "b at a".
Proof. reflexivity. Qed.

(** ** Pattern history *)

Section HistoryFacts.
Import RegexPattern History.

Lemma sameConfig_spec find repl re ci p :
  sameConfig find repl re ci p = true <-> hasConfig find repl re ci p.
Proof.
  unfold sameConfig, hasConfig.
  rewrite !andb_true_iff, !eqs_spec, !Bool.eqb_true_iff. tauto.
Qed.

Lemma findIndex_first (A : Type) (f : A -> bool) (l : list A) i x :
  nth_error l i = Some x -> f x = true ->
  (forall j y, j < i -> nth_error l j = Some y -> f y = false) ->
  findIndex f l = Some i.
Proof.
  revert i; induction l as [|a l IH]; intros [|i] Hn Hx Hlt;
    simpl in *; try discriminate.
  - inversion Hn; subst. now rewrite Hx.
  - rewrite (Hlt 0 a) by (simpl; auto; lia).
    rewrite (IH i); auto.
    intros j y Hj Hy. apply (Hlt (S j) y); simpl; auto; lia.
Qed.

Lemma findIndex_some (A : Type) (f : A -> bool) (l : list A) i :
  findIndex f l = Some i ->
  exists x, nth_error l i = Some x /\ f x = true.
Proof.
  revert i; induction l as [|a l IH]; intros i; simpl; try discriminate.
  destruct (f a) eqn:Fa.
  - intros E; inversion E; subst. exists a; auto.
  - destruct (findIndex f l) as [k|]; try discriminate.
    intros E; inversion E; subst. simpl. apply IH; reflexivity.
Qed.

Lemma findIndex_none (A : Type) (f : A -> bool) (l : list A) :
  findIndex f l = None -> forall x, In x l -> f x = false.
Proof.
  induction l as [|a l IH]; simpl; intros E x; [tauto|].
  destruct (f a) eqn:Fa; try discriminate.
  destruct (findIndex f l); try discriminate.
  intros [<-|Hx]; auto.
Qed.

Lemma length_removeAt (A : Type) (l : list A) i x :
  nth_error l i = Some x -> S (length (removeAt i l)) = length l.
Proof.
  revert i; induction l as [|a l IH]; intros [|i]; simpl;
    try discriminate; auto.
Qed.

(** The stable sort yields a permutation ordered by the comparator. *)
Lemma insertSorted_perm (x : t) l :
  Permutation (insertSorted byRecency x l) (x :: l).
Proof.
  induction l as [|y l IH]; simpl; auto.
  destruct (0 <? byRecency x y)%Z; auto.
  rewrite IH. apply perm_swap.
Qed.

Lemma sort_perm l : Permutation (sort byRecency l) l.
Proof.
  induction l as [|x l IH]; simpl; auto.
  rewrite insertSorted_perm. auto.
Qed.

Lemma insertSorted_sorted x l :
  StronglySorted newerEq l ->
  StronglySorted newerEq (insertSorted byRecency x l).
Proof.
  induction 1 as [|y l Hs IH Hall]; simpl.
  - repeat constructor.
  - destruct (0 <? byRecency x y)%Z eqn:C.
    + constructor; auto.
      apply Z.ltb_lt in C. unfold byRecency in C.
      rewrite Forall_forall in *. intros z Hz.
      apply (Permutation_in _ (insertSorted_perm x l)) in Hz.
      destruct Hz as [<-|Hz]; [unfold newerEq; lia | auto].
    + apply Z.ltb_ge in C. unfold byRecency in C.
      constructor; [constructor; auto|].
      constructor; [unfold newerEq; lia|].
      rewrite Forall_forall in *. intros z Hz.
      specialize (Hall z Hz). unfold newerEq in *. lia.
Qed.

Lemma sort_sorted l : StronglySorted newerEq (sort byRecency l).
Proof.
  induction l; simpl; [constructor | now apply insertSorted_sorted].
Qed.

(** Stability: entries of equal age keep their order. *)
Lemma insertSorted_stable x l :
  Forall (fun y => newerEq x y) l -> insertSorted byRecency x l = x :: l.
Proof.
  destruct 1 as [|y l Hy _]; simpl; auto.
  unfold newerEq, byRecency in *.
  destruct (Z.ltb_spec 0 (lastUsed y - lastUsed x)); auto; lia.
Qed.

Lemma sort_stable l : StronglySorted newerEq l -> sort byRecency l = l.
Proof.
  induction 1 as [|x l Hs IH Hall]; simpl; auto.
  rewrite IH. now apply insertSorted_stable.
Qed.

Lemma sorted_split (l : list t) n :
  StronglySorted newerEq l ->
  forall k d, In k (firstn n l) -> In d (skipn n l) -> newerEq k d.
Proof.
  intros Hs; revert n; induction Hs as [|x l Hs IH Hall]; intros n k d.
  - rewrite firstn_nil; simpl; tauto.
  - destruct n as [|n]; simpl; [tauto|].
    intros [<-|Hk] Hd.
    + rewrite Forall_forall in Hall. apply Hall.
      rewrite <- (firstn_skipn n l). apply in_or_app; auto.
    + eauto.
Qed.

Lemma filter_pinned_unpinned l : pinned (unpinned l) = [].
Proof.
  unfold pinned, unpinned.
  induction l as [|p l IH]; simpl; auto.
  destruct (isPinned p) eqn:E; simpl; auto. now rewrite E.
Qed.

Lemma all_unpinned l p : In p (unpinned l) -> isPinned p = false.
Proof.
  unfold unpinned. rewrite filter_In. intros [_ H].
  now apply negb_true_iff in H.
Qed.

Lemma pinned_none l :
  (forall p, In p l -> isPinned p = false) -> pinned l = [].
Proof.
  unfold pinned. induction l as [|p l IH]; simpl; intros H; auto.
  rewrite (H p) by auto. auto.
Qed.

Lemma pinned_idem l : pinned (pinned l) = pinned l.
Proof.
  unfold pinned. induction l as [|p l IH]; simpl; auto.
  destruct (isPinned p) eqn:E; simpl; auto. now rewrite E, IH.
Qed.
End HistoryFacts.

Section HistoryClaims.
Import RegexPattern History.

(** C7.  When the history already holds an entry with the recorded
    configuration (find, replace, regex, case) - [p], the first such
    entry, at index [i] - recording it again keeps the length of the
    history, puts that entry at the front with [useCount] one higher
    and [lastUsed] set to the current time, leaves its [id], [name],
    configuration and pin untouched, and keeps the other entries in
    their order. *)
Theorem savePattern_existing_entry now rnd find repl re ci
    (s : Settings.t) i p :
  nth_error (Settings.savedPatterns s) i = Some p ->
  hasConfig find repl re ci p ->
  (forall j q, j < i -> nth_error (Settings.savedPatterns s) j = Some q ->
               ~ hasConfig find repl re ci q) ->
  exists p',
    Settings.savedPatterns (savePattern now rnd find repl re ci s)
      = p' :: removeAt i (Settings.savedPatterns s)
    /\ length (Settings.savedPatterns (savePattern now rnd find repl re ci s))
       = length (Settings.savedPatterns s)
    /\ useCount p' = (useCount p + 1)%Z
    /\ lastUsed p' = now
    /\ id p' = id p /\ name p' = name p
    /\ hasConfig find repl re ci p' /\ isPinned p' = isPinned p.
Proof.
  intros Hn Hp Hfirst. exists (touch now p).
  unfold savePattern.
  rewrite (@findIndex_first _ _ _ i p); auto.
  - rewrite Hn. simpl. repeat split; try apply Hp.
    f_equal. eapply length_removeAt; eauto.
  - now apply sameConfig_spec.
  - intros j q Hj Hq.
    destruct (sameConfig find repl re ci q) eqn:E; auto.
    apply sameConfig_spec in E. now destruct (Hfirst j q).
Qed.

Lemma savePattern_existing_entry_witness :
  exists p',
    Settings.savedPatterns
      (savePattern 99 (str "k3x") (str "colou?r") (str "color") true true
         (Sample.settings 10))
    = p' :: removeAt 2 Sample.history
    /\ length (Settings.savedPatterns
         (savePattern 99 (str "k3x") (str "colou?r") (str "color") true true
            (Sample.settings 10))) = 5
    /\ useCount p' = 3%Z /\ lastUsed p' = 99%Z
    /\ id p' = str "e3" /\ name p' = str "colou?r"
    /\ hasConfig (str "colou?r") (str "color") true true p'
    /\ isPinned p' = false.
Proof.
  apply (@savePattern_existing_entry 99 (str "k3x") (str "colou?r")
           (str "color") true true (Sample.settings 10) 2
           (Sample.entry "e3" "colou?r" "color" false 30 2)).
  - reflexivity.
  - repeat split.
  - intros j q Hj Hq [Hf _].
    destruct j as [|[|j]]; simpl in Hq; [| |lia];
      inversion Hq; subst q; vm_compute in Hf; discriminate.
Defined.

(** C8.  Pruning keeps every pinned entry.  When more unpinned entries
    exist than [maxHistorySize], exactly [maxHistorySize] of them are
    kept, each at least as recently used as every discarded one; when
    no more unpinned entries exist than that, pruning changes
    nothing. *)
Theorem pruneHistory_keeps_newest (s : Settings.t) :
  pinned (Settings.savedPatterns (pruneHistory s))
    = pinned (Settings.savedPatterns s)
  /\ (length (unpinned (Settings.savedPatterns s))
        <= Settings.maxHistorySize s ->
      pruneHistory s = s)
  /\ (Settings.maxHistorySize s
        < length (unpinned (Settings.savedPatterns s)) ->
      exists kept dropped,
        pruneHistory s
          = Settings.withSavedPatterns s
              (pinned (Settings.savedPatterns s) ++ kept)
        /\ unpinned (Settings.savedPatterns (pruneHistory s)) = kept
        /\ length kept = Settings.maxHistorySize s
        /\ Permutation (unpinned (Settings.savedPatterns s))
             (kept ++ dropped)
        /\ (forall k d, In k kept -> In d dropped -> newerEq k d)).
Proof.
  unfold pruneHistory.
  fold (unpinned (Settings.savedPatterns s)).
  fold (pinned (Settings.savedPatterns s)).
  set (hist := Settings.savedPatterns s).
  set (max := Settings.maxHistorySize s).
  destruct (Nat.ltb_spec max (length (unpinned hist))) as [Lt|Ge].
  - assert (Hkept : forall p, In p (slice0 (sort byRecency (unpinned hist)) max)
                              -> isPinned p = false).
    { intros p Hp. apply (@all_unpinned hist).
      apply (Permutation_in _ (sort_perm (unpinned hist))).
      unfold slice0 in Hp.
      rewrite <- (firstn_skipn max (sort byRecency (unpinned hist))).
      apply in_or_app; auto. }
    split; [|split]; [| lia |].
    + simpl. unfold pinned at 1. rewrite filter_app.
      fold (pinned (pinned hist)).
      fold (pinned (slice0 (sort byRecency (unpinned hist)) max)).
      rewrite pinned_idem, (pinned_none _ Hkept). apply app_nil_r.
    + intros _.
      exists (firstn max (sort byRecency (unpinned hist))),
             (skipn max (sort byRecency (unpinned hist))).
      split; [reflexivity|]. split; [|split; [|split]].
      * simpl. unfold unpinned at 1. rewrite filter_app.
        replace (filter (fun p => negb (isPinned p)) (pinned hist))
          with (@nil t).
        2:{ unfold pinned. clear. induction hist as [|p l IH]; simpl; auto.
            destruct (isPinned p) eqn:E; simpl; auto. now rewrite E. }
        simpl. apply forallb_filter_id.
        apply forallb_forall. intros p Hp.
        apply negb_true_iff. now apply Hkept.
      * rewrite length_firstn.
        rewrite (Permutation_length (sort_perm (unpinned hist))). lia.
      * rewrite firstn_skipn. symmetry. apply sort_perm.
      * apply sorted_split. apply sort_sorted.
  - split; [reflexivity|]. split; [reflexivity | lia].
Qed.

Lemma pruneHistory_keeps_newest_witness :
  2 < length (unpinned (Settings.savedPatterns (Sample.settings 2)))
  /\ exists kept dropped,
       pruneHistory (Sample.settings 2)
         = Settings.withSavedPatterns (Sample.settings 2)
             (pinned (Settings.savedPatterns (Sample.settings 2)) ++ kept)
       /\ unpinned (Settings.savedPatterns (pruneHistory (Sample.settings 2)))
          = kept
       /\ length kept = 2
       /\ Permutation
            (unpinned (Settings.savedPatterns (Sample.settings 2)))
            (kept ++ dropped)
       /\ (forall k d, In k kept -> In d dropped -> newerEq k d).
Proof.
  assert (L : 2 < length (unpinned (Settings.savedPatterns (Sample.settings 2))))
    by (vm_compute; lia).
  split; [exact L|].
  exact (proj2 (proj2 (pruneHistory_keeps_newest (Sample.settings 2))) L).
Defined.
End HistoryClaims.

Example prune_sample :
  map RegexPattern.id
    (Settings.savedPatterns (History.pruneHistory (Sample.settings 2)))
  = [str "e2"; str "e4"; str "e1"].
Proof. reflexivity. Qed.

(** ** Substring search *)

Lemma startsWith_spec (s p : jsstring) :
  startsWith s p = true <-> exists r, s = p ++ r.
Proof.
  revert s; induction p as [|x p IH]; intros s; simpl.
  - split; [intros _; now exists s | reflexivity].
  - destruct s as [|y s].
    + split; [discriminate | intros [r Hr]; discriminate].
    + rewrite andb_true_iff, N.eqb_eq, IH. split.
      * intros [-> [r ->]]. now exists r.
      * intros [r Hr]. inversion Hr; subst. eauto.
Qed.

Lemma occursAt_0 (s p : jsstring) :
  occursAt s p 0 <-> startsWith s p = true.
Proof.
  rewrite startsWith_spec. split.
  - intros ([|] & post & -> & L); simpl in *; [eauto | discriminate].
  - intros [r ->]. now exists [], r.
Qed.

Lemma occursAt_S (c : char) (s p : jsstring) (i : nat) :
  occursAt (c :: s) p (S i) <-> occursAt s p i.
Proof.
  split.
  - intros ([|c' pre] & post & E & L); simpl in *; [discriminate|].
    inversion E; subst. exists pre, post. auto.
  - intros (pre & post & -> & L). exists (c :: pre), post. simpl; auto.
Qed.

Lemma occursAt_nil_S (p : jsstring) (i : nat) : ~ occursAt [] p (S i).
Proof. intros ([|] & post & E & L); simpl in *; discriminate. Qed.

Lemma indexOfFrom_spec (s p : jsstring) (k n : nat) :
  indexOfFrom s p k = Some n ->
  k <= n /\ firstOccurrence s p (n - k).
Proof.
  revert k; induction s as [|c s IH]; intros k; simpl.
  - destruct (startsWith [] p) eqn:E; [|discriminate].
    intros H; inversion H; subst. rewrite Nat.sub_diag.
    split; [lia|]. split; [now apply occursAt_0 | intros; lia].
  - destruct (startsWith (c :: s) p) eqn:E.
    + intros H; inversion H; subst. rewrite Nat.sub_diag.
      split; [lia|]. split; [now apply occursAt_0 | intros; lia].
    + intros H. apply IH in H. destruct H as [Hk [Ho Hf]].
      split; [lia|].
      replace (n - k) with (S (n - S k)) by lia. split.
      * now apply occursAt_S.
      * intros [|j] Hj; [rewrite occursAt_0; congruence|].
        rewrite occursAt_S. apply Hf. lia.
Qed.

Lemma indexOf_spec (s p : jsstring) (n : nat) :
  indexOf s p = Some n -> firstOccurrence s p n.
Proof.
  intros H. apply indexOfFrom_spec in H. now rewrite Nat.sub_0_r in H.
Qed.

Lemma indexOfFrom_none (s p : jsstring) (k i : nat) :
  indexOfFrom s p k = None -> ~ occursAt s p i.
Proof.
  revert k i; induction s as [|c s IH]; intros k i; simpl.
  - destruct (startsWith [] p) eqn:E; [discriminate|]. intros _.
    destruct i; [rewrite occursAt_0; congruence | apply occursAt_nil_S].
  - destruct (startsWith (c :: s) p) eqn:E; [discriminate|]. intros H.
    destruct i; [rewrite occursAt_0; congruence|].
    rewrite occursAt_S. eauto.
Qed.

(** ** The scanner in plain-text mode *)

Section PlainScan.
Import Scanner.
Variables find repl : jsstring.
Variable limit : nat.

Lemma plainLines_spec (lines : list jsstring) :
  forall i acc,
  exists new,
    plainLines find repl limit lines i acc = acc ++ new
    /\ StronglySorted lt (map lineNumber new)
    /\ Forall (plainRecord find lines i) new.
Proof.
  induction lines as [|line rest IH]; intros i acc; simpl.
  - exists []. rewrite app_nil_r. repeat constructor.
  - destruct (length acc <? limit).
    2:{ exists []. rewrite app_nil_r. repeat constructor. }
    assert (Hshift : forall new,
               Forall (plainRecord find rest (S i)) new ->
               Forall (plainRecord find (line :: rest) i) new).
    { intros new. apply Forall_impl. intros p (Hlt & Hn & Hrest).
      split; [lia|]. split; [|exact Hrest].
      replace (lineNumber p - 1 - i) with (S (lineNumber p - 1 - S i))
        by lia.
      exact Hn. }
    destruct (indexOf line find) as [ms|] eqn:Ei.
    + destruct (IH (S i) (acc ++ [plainPreview find repl line i
                                     (length acc) ms]))
        as (new & -> & Hs & Hf).
      exists (plainPreview find repl line i (length acc) ms :: new).
      rewrite <- app_assoc. split; [reflexivity|]. split.
      * simpl. constructor; auto.
        rewrite Forall_map. revert Hf. apply Forall_impl.
        intros p (Hlt & _). lia.
      * constructor; auto.
        unfold plainRecord; simpl.
        replace (i + 1 - 1 - i) with 0 by lia. simpl.
        repeat split; try lia; try (apply indexOf_spec in Ei; apply Ei).
    + destruct (IH (S i) acc) as (new & -> & Hs & Hf).
      exists new. auto.
Qed.
Lemma plainLines_extends (lines : list jsstring) (i : nat)
    (acc : list MatchPreview) :
  exists new, plainLines find repl limit lines i acc = acc ++ new.
Proof.
  destruct (plainLines_spec lines i acc) as (new & H & _). eauto.
Qed.

(** The loop leaves out no line: a line that holds the find string and is
    reached while fewer than [limit] previews are made gets a preview,
    which is the one [plainPreview] builds at its first occurrence. *)
Lemma plainLines_complete (lines : list jsstring) :
  forall i acc k line,
    nth_error lines k = Some line ->
    includes line find = true ->
    length acc + length (containing find (firstn k lines)) < limit ->
    exists ms,
      indexOf line find = Some ms
      /\ In (plainPreview find repl line (i + k)
               (length acc + length (containing find (firstn k lines))) ms)
            (plainLines find repl limit lines i acc).
Proof.
  induction lines as [|l rest IH]; intros i acc k line Hk Hin Hroom.
  - destruct k; discriminate.
  - cbn [plainLines]. destruct k as [|k].
    + injection Hk as ->. cbn [firstn containing filter length] in *.
      destruct (Nat.ltb_spec (length acc) limit) as [_|]; [|lia].
      unfold includes in Hin.
      destruct (indexOf line find) as [ms|] eqn:Ei; [|discriminate].
      exists ms. split; [reflexivity|].
      destruct (plainLines_extends rest (S i)
                  (acc ++ [plainPreview find repl line i (length acc) ms]))
        as (new & ->).
      rewrite !Nat.add_0_r. apply in_or_app. left.
      apply in_or_app. right. now left.
    + cbn [nth_error] in Hk.
      assert (Hc : length (containing find (firstn (S k) (l :: rest)))
                   = (if includes l find then 1 else 0)
                     + length (containing find (firstn k rest))).
      { cbn [firstn]. unfold containing. cbn [filter].
        now destruct (includes l find). }
      rewrite Hc in *. clear Hc.
      replace (i + S k) with (S i + k) by lia.
      destruct (Nat.ltb_spec (length acc) limit) as [_|Hfull]; [|lia].
      unfold includes in Hroom at 1. unfold includes at 1.
      destruct (indexOf l find) as [ms0|] eqn:E0.
      * destruct (IH (S i)
                    (acc ++ [plainPreview find repl l i (length acc) ms0])
                    k line Hk Hin) as (ms & Hms & Hp).
        { rewrite length_app. simpl. lia. }
        exists ms. split; [exact Hms|].
        rewrite length_app in Hp. simpl in Hp.
        rewrite Nat.add_assoc. exact Hp.
      * destruct (IH (S i) acc k line Hk Hin Hroom) as (ms & Hms & Hp).
        exists ms. split; [exact Hms|]. exact Hp.
Qed.

(** The number of previews: one for each line that holds the find
    string, until [limit] is reached. *)
Lemma plainLines_length (lines : list jsstring) :
  forall i acc,
    length acc <= limit ->
    length (plainLines find repl limit lines i acc)
    = Nat.min limit (length acc + length (containing find lines)).
Proof.
  induction lines as [|l rest IH]; intros i acc Hacc; cbn [plainLines].
  - cbn [containing filter length]. lia.
  - unfold containing. cbn [filter]. fold (containing find rest).
    destruct (Nat.ltb_spec (length acc) limit) as [Hlt|Hfull].
    + unfold includes. destruct (indexOf l find) as [ms|].
      * rewrite IH by (rewrite length_app; simpl; lia).
        rewrite length_app. simpl. lia.
      * now rewrite IH.
    + lia.
Qed.
End PlainScan.

Section PlainScanClaim.
Import Scanner.
Variable E : RegExpEngine.

(** C6.  In plain-text mode, for a find string that is not empty, the
    scanner's [totalCount] is the number of pieces the text splits into
    on the find string, minus one.  The previews it builds have strictly
    increasing line numbers, so a line is previewed at most once, and
    each preview shows its line with the first occurrence of the find
    string in that line.  There is one preview for each line that holds
    the find string, until [limit] is reached: every such line that has
    fewer than [limit] such lines before it is previewed, at its first
    occurrence. *)
Theorem plain_scan_first_occurrence_per_line
    (text find repl : jsstring) (ci ml : bool) (limit : nat) :
  find <> [] ->
  let r := fst (generateMatchPreviews E text find repl false ci ml limit) in
  let lines := split text [LF] in
  totalCount r = length (split text find) - 1
  /\ StronglySorted lt (map lineNumber (previews r))
  /\ Forall (plainRecord find lines 0) (previews r)
  /\ length (previews r) = Nat.min limit (length (containing find lines))
  /\ (forall i line,
        nth_error lines i = Some line ->
        includes line find = true ->
        length (containing find (firstn i lines)) < limit ->
        exists p,
          In p (previews r)
          /\ lineNumber p = i + 1
          /\ lineContent p = line
          /\ firstOccurrence line find (matchStartInLine p)
          /\ matchIndex p = length (containing find (firstn i lines))).
Proof.
  intros _. unfold generateMatchPreviews. cbv zeta.
  cbn [fst previews totalCount].
  destruct (plainLines_spec find repl limit (split text [LF]) 0 [])
    as (new & Heq & Hs & Hf).
  split; [reflexivity|]. split; [now rewrite Heq|].
  split; [now rewrite Heq|]. split.
  - rewrite plainLines_length by (simpl; lia). reflexivity.
  - intros i line Hi Hin Hroom.
    destruct (@plainLines_complete find repl limit (split text [LF])
                0 [] i line Hi Hin Hroom) as (ms & Hms & Hp).
    eexists. split; [exact Hp|]. cbn.
    repeat split; try reflexivity; apply indexOf_spec in Hms; apply Hms.
Qed.
End PlainScanClaim.

Lemma plain_scan_first_occurrence_per_line_witness :
  let r := fst (Scanner.generateMatchPreviews Scanner.literalEngine
                  (str "abab" ++ [LF] ++ str "xx" ++ [LF] ++ str "cab ab")
                  (str "ab") (str "Z") false false true 5) in
  exists p,
    In p (Scanner.previews r)
    /\ Scanner.lineNumber p = 3
    /\ Scanner.lineContent p = str "cab ab"
    /\ firstOccurrence (str "cab ab") (str "ab") (Scanner.matchStartInLine p)
    /\ Scanner.matchIndex p = 1.
Proof.
  assert (Hfind : str "ab" <> []) by discriminate.
  apply (proj2 (proj2 (proj2 (proj2
           (@plain_scan_first_occurrence_per_line Scanner.literalEngine
              (str "abab" ++ [LF] ++ str "xx" ++ [LF] ++ str "cab ab")
              (str "ab") (str "Z") false true 5 Hfind))))
           2 (str "cab ab")); try reflexivity.
  vm_compute. lia.
Defined.

Example plain_scan_sample :
  let r := fst (Scanner.generateMatchPreviews Scanner.literalEngine
                  (str "abab" ++ [LF] ++ str "xx" ++ [LF] ++ str "cab ab")
                  (str "ab") (str "Z") false false true 5) in
  Scanner.totalCount r = 4
  /\ map Scanner.lineNumber (Scanner.previews r) = [1; 3]
  /\ map Scanner.matchStartInLine (Scanner.previews r) = [0; 1].
Proof. repeat split. Qed.

(** ** The scanner on a pattern that does not compile *)

Section InvalidPattern.
Import Scanner.
Variable E : RegExpEngine.

Lemma regexLines_error find repl ci limit lines :
  forall i acc e,
    regexLines E find repl ci limit lines i acc = inl e ->
    compile E find (if ci then str "gi" else str "g") = inl e.
Proof.
  induction lines as [|line rest IH]; intros i acc e; simpl;
    [discriminate|].
  destruct (length acc <? limit); [|discriminate].
  destruct (compile E find (if ci then str "gi" else str "g")) eqn:C.
  - intros H; inversion H; subst; reflexivity.
  - intros H. apply IH in H. congruence.
Qed.

(** C5.  A find string that the engine refuses to compile makes the
    scanner return the empty preview list with a total of zero; the
    failure is reported on the log as an "Invalid regex pattern" line,
    and such a line is written only when a compilation failed, so the
    outcome of a valid pattern without matches stays silent. *)
Theorem invalid_pattern_is_caught_and_logged
    (text find repl : jsstring) (ci ml : bool) (limit : nat) (err : jsstring) :
  compile E find (regexFlags ml ci) = inl err ->
  generateMatchPreviews E text find repl true ci ml limit
    = ({| previews := []; totalCount := 0 |},
       [str "RegexFiRe: Invalid regex pattern: " ++ err])
  /\ (forall text' find' repl' re' ci' ml' limit' line,
        In line (snd (generateMatchPreviews E text' find' repl' re' ci' ml'
                        limit')) ->
        exists flags e,
          compile E find' flags = inl e
          /\ line = str "RegexFiRe: Invalid regex pattern: " ++ e
          /\ fst (generateMatchPreviews E text' find' repl' re' ci' ml'
                    limit')
             = {| previews := []; totalCount := 0 |}).
Proof.
  intros C. split.
  - unfold generateMatchPreviews. rewrite C. reflexivity.
  - intros text' find' repl' re' ci' ml' limit' line.
    unfold generateMatchPreviews. destruct re'; [|simpl; tauto].
    destruct (compile E find' (regexFlags ml' ci')) as [e|r] eqn:C1.
    + simpl. intros [<-|[]]. exists (regexFlags ml' ci'), e. auto.
    + destruct (regexLines E find' repl' ci' limit' (split text' [LF]) 0 [])
        as [e|ps] eqn:C2; simpl; [|tauto].
      intros [<-|[]]. apply regexLines_error in C2.
      exists (if ci' then str "gi" else str "g"), e. auto.
Qed.

Lemma valid_pattern_is_silent
    (text find repl : jsstring) (ci ml : bool) (limit : nat) r r' :
  compile E find (regexFlags ml ci) = inr r ->
  compile E find (if ci then str "gi" else str "g") = inr r' ->
  snd (generateMatchPreviews E text find repl true ci ml limit) = [].
Proof.
  intros C1 C2.
  destruct (snd (generateMatchPreviews E text find repl true ci ml limit))
    as [|line l] eqn:L; auto.
  assert (H : In line (snd (generateMatchPreviews E text find repl true ci
                              ml limit))) by (rewrite L; simpl; auto).
  unfold generateMatchPreviews in H. rewrite C1 in H.
  destruct (regexLines E find repl ci limit (split text [LF]) 0 [])
    as [e|ps] eqn:C3; simpl in H; [|tauto].
  apply regexLines_error in C3. congruence.
Qed.
End InvalidPattern.

Lemma invalid_pattern_is_caught_and_logged_witness :
  Scanner.generateMatchPreviews Scanner.literalEngine
    (str "f(x) = (") (str "(") (str "[") true true true 5
  = ({| Scanner.previews := []; Scanner.totalCount := 0 |},
     [str "RegexFiRe: Invalid regex pattern: SyntaxError: Invalid regular expression: /(/"]).
Proof.
  apply (invalid_pattern_is_caught_and_logged Scanner.literalEngine
           (str "f(x) = (") (str "(") (str "[") true true 5
           (err := str "SyntaxError: Invalid regular expression: /(/")).
  reflexivity.
Defined.

(** ** Splitting on an absent separator *)

Lemma splitAux_absent (sep s cur : jsstring) :
  (forall i, ~ occursAt s sep i) -> splitAux sep s 0 cur = [cur ++ s].
Proof.
  revert cur; induction s as [|c s IH]; intros cur Hno; simpl.
  - now rewrite app_nil_r.
  - destruct (startsWith (c :: s) sep) eqn:E.
    + apply occursAt_0 in E. now destruct (Hno 0).
    + rewrite IH.
      * now rewrite <- app_assoc.
      * intros i Hi. apply (Hno (S i)). now apply occursAt_S.
Qed.

Lemma split_absent (s sep : jsstring) :
  sep <> [] -> (forall i, ~ occursAt s sep i) -> split s sep = [s].
Proof.
  intros Hne Hno. destruct sep as [|x sep]; [congruence|].
  unfold split. now rewrite splitAux_absent.
Qed.

(** ** The "Replace All" handler *)

Section Handler.
Import Scanner Modal.
Variable E : RegExpEngine.

Lemma savePattern_texts now rnd find repl re ci (s : Settings.t) :
  Settings.findText (History.savePattern now rnd find repl re ci s)
    = Settings.findText s
  /\ Settings.replaceText (History.savePattern now rnd find repl re ci s)
     = Settings.replaceText s.
Proof.
  unfold History.savePattern.
  destruct (findIndex _ _) as [i|].
  - destruct (nth_error _ i); split; reflexivity.
  - unfold History.pruneHistory.
    destruct (_ <? _); split; reflexivity.
Qed.

Lemma made_is_not_no_match n scope :
  eqs (made n scope) (str "No match") = false.
Proof. reflexivity. Qed.

Lemma conclude_inv now rnd inp settings find repl calls res c s' n :
  conclude now rnd inp settings find repl calls res = Done c s' n ->
  c = calls /\ n = res
  /\ Settings.findText s' = find /\ Settings.replaceText s' = repl
  /\ (n = str "No match" ->
      Settings.savedPatterns s' = Settings.savedPatterns settings)
  /\ (n <> str "No match" ->
      s' = History.savePattern now rnd find (replaceInput inp)
             (regToggle inp) (Settings.caseInsensitive settings)
             (Settings.withLastUse settings find repl
                (regToggle inp) (selToggle inp))).
Proof.
  unfold conclude. intros H; inversion H; subst; clear H.
  split; [reflexivity|]. split; [reflexivity|].
  destruct (eqs n (str "No match")) eqn:En; simpl.
  - apply eqs_spec in En. repeat split; auto. congruence.
  - apply eqs_false in En.
    destruct (savePattern_texts now rnd find (replaceInput inp)
                (regToggle inp) (Settings.caseInsensitive settings)
                (Settings.withLastUse settings find repl
                   (regToggle inp) (selToggle inp))) as [Hf Hr].
    repeat split; auto. congruence.
Qed.

(** Regex mode leaves the editor alone when nothing matches. *)
Lemma regex_no_match_no_write now rnd editor inp settings r :
  findInput inp <> [] -> regToggle inp = true ->
  compile E
    (expand (Settings.processLineBreak settings)
       (Settings.processTab settings) (findInput inp))
    (regexFlags (Settings.multilineMatch settings)
       (Settings.caseInsensitive settings)) = inr r ->
  matchAll E r (if selToggle inp then getSelection editor
                else getValue editor) = [] ->
  exists s',
    performReplacement E now rnd editor inp settings
      = Done [] s' (str "No match")
    /\ Settings.savedPatterns s' = Settings.savedPatterns settings.
Proof.
  intros Hne Hre Hc Hm. unfold performReplacement.
  apply eqs_false in Hne. rewrite Hne, Hre, Hc.
  destruct (selToggle inp); simpl negb; cbv iota; rewrite Hm;
    eexists; split; reflexivity.
Qed.

(** Plain-text mode writes the scope back even when the find string
    does not occur in it; what it writes is the unchanged text. *)
Lemma plain_no_match_writes_same_text now rnd editor inp settings :
  findInput inp <> [] -> regToggle inp = false -> selToggle inp = false ->
  Settings.processLineBreak settings = false ->
  Settings.processTab settings = false ->
  (forall i, ~ occursAt (getValue editor) (findInput inp) i) ->
  exists s',
    performReplacement E now rnd editor inp settings
      = Done [SetValue (getValue editor)] s'
          (str "Made 0 replacement(s) in selection").
Proof.
  intros Hne Hre Hsel Hl Ht Hno. unfold performReplacement.
  pose proof Hne as Hne'. apply eqs_false in Hne'.
  rewrite Hne', Hre, Hsel, Hl, Ht. unfold expand. simpl negb. cbv iota.
  rewrite split_absent by assumption.
  eexists. reflexivity.
Qed.

(** C1 (the code departs from the claim in plain-text mode).  With the
    document [Sample.editor] and the find string "colour", which does
    not occur in it, the handler in plain-text mode calls [setValue]
    with the document text, announces "Made 0 replacement(s)" and
    records the pattern in the history. *)
Theorem plain_no_match_still_writes now rnd :
  exists s',
    performReplacement E now rnd Sample.editor
      (Sample.plainInputs "colour" "color") Settings.DEFAULT_SETTINGS
    = Done [SetValue (getValue Sample.editor)] s'
        (str "Made 0 replacement(s) in selection")
    /\ map RegexPattern.findText (Settings.savedPatterns s')
       = [str "colour"].
Proof. eexists. split; reflexivity. Qed.

(** C3, as amended.  When the handler runs to its end, the find and
    replace texts it stores in the settings are the escape-expanded
    working copies, and the history entry it records carries the replace
    text exactly as the user typed it. *)
Theorem stored_texts now rnd editor inp settings calls s' notice :
  performReplacement E now rnd editor inp settings = Done calls s' notice ->
  Settings.findText s'
    = expand (Settings.processLineBreak settings)
        (Settings.processTab settings) (findInput inp)
  /\ Settings.replaceText s'
     = expand (Settings.processLineBreak settings)
         (Settings.processTab settings) (replaceInput inp)
  /\ (notice = str "No match" ->
      Settings.savedPatterns s' = Settings.savedPatterns settings)
  /\ (notice <> str "No match" ->
      exists find',
        s' = History.savePattern now rnd find' (replaceInput inp)
               (regToggle inp) (Settings.caseInsensitive settings)
               (Settings.withLastUse settings
                  (expand (Settings.processLineBreak settings)
                     (Settings.processTab settings) (findInput inp))
                  (expand (Settings.processLineBreak settings)
                     (Settings.processTab settings) (replaceInput inp))
                  (regToggle inp) (selToggle inp))).
Proof.
  unfold performReplacement.
  destruct (eqs (findInput inp) []); [discriminate|].
  assert (K : forall c r,
    conclude now rnd inp settings
      (expand (Settings.processLineBreak settings)
         (Settings.processTab settings) (findInput inp))
      (expand (Settings.processLineBreak settings)
         (Settings.processTab settings) (replaceInput inp)) c r
    = Done calls s' notice ->
    Settings.findText s'
      = expand (Settings.processLineBreak settings)
          (Settings.processTab settings) (findInput inp)
    /\ Settings.replaceText s'
       = expand (Settings.processLineBreak settings)
           (Settings.processTab settings) (replaceInput inp)
    /\ (notice = str "No match" ->
        Settings.savedPatterns s' = Settings.savedPatterns settings)
    /\ (notice <> str "No match" ->
        exists find',
          s' = History.savePattern now rnd find' (replaceInput inp)
                 (regToggle inp) (Settings.caseInsensitive settings)
                 (Settings.withLastUse settings
                    (expand (Settings.processLineBreak settings)
                       (Settings.processTab settings) (findInput inp))
                    (expand (Settings.processLineBreak settings)
                       (Settings.processTab settings) (replaceInput inp))
                    (regToggle inp) (selToggle inp)))).
  { intros c r H. apply conclude_inv in H.
    destruct H as (_ & _ & Hf & Hr & Hn & Hs).
    repeat split; auto. intros Hne. eexists. apply Hs, Hne. }
  destruct (regToggle inp).
  - destruct (compile E _ _) as [e|r]; [discriminate|].
    destruct (negb (selToggle inp));
      destruct (matchAll E r _); apply K.
  - destruct (negb (selToggle inp)); apply K.
Qed.
End Handler.

(** C3, as claimed, fails: with "Process \n as line break" switched on
    and the find field holding a backslash, an [n] and "Hello", the
    settings keep the expanded find text, which starts with a line
    break. *)
Lemma settings_keep_expanded_find_text :
  exists calls s' notice,
    Modal.performReplacement Scanner.literalEngine 99 (str "k3x")
      Sample.editor (Sample.plainInputs "\nHello" "\n\nHi")
      (Sample.settings 10)
    = Modal.Done calls s' notice
    /\ Settings.findText s' = LF :: str "Hello"
    /\ Settings.findText s' <> str "\nHello"
    /\ Settings.replaceText s' <> str "\n\nHi".
Proof.
  do 3 eexists. split; [reflexivity|].
  split; [reflexivity|]. split; intros H; vm_compute in H; discriminate.
Qed.

Lemma stored_texts_witness :
  exists calls s' notice,
    Modal.performReplacement Scanner.literalEngine 99 (str "k3x")
      Sample.editor (Sample.plainInputs "\nHello" "\n\nHi")
      (Sample.settings 10)
    = Modal.Done calls s' notice
    /\ Settings.findText s' = LF :: str "Hello"
    /\ Settings.replaceText s' = LF :: LF :: str "Hi"
    /\ option_map RegexPattern.replaceText (hd_error (Settings.savedPatterns s'))
       = Some (str "\n\nHi").
Proof.
  do 3 eexists.
  assert (R : Modal.performReplacement Scanner.literalEngine 99 (str "k3x")
      Sample.editor (Sample.plainInputs "\nHello" "\n\nHi")
      (Sample.settings 10)
    = Modal.Done
        [Modal.SetValue (LF :: LF :: str "Hi hello")]
        (History.savePattern 99 (str "k3x") (LF :: str "Hello")
           (str "\n\nHi") false true
           (Settings.withLastUse (Sample.settings 10) (LF :: str "Hello")
              (LF :: LF :: str "Hi") false false))
        (str "Made 1 replacement(s) in selection")) by reflexivity.
  split; [exact R|].
  destruct (stored_texts Scanner.literalEngine _ _ _ _ _ R)
    as (Hf & Hr & _ & _).
  split; [exact Hf|]. split; [exact Hr|]. reflexivity.
Defined.

(** ** Decimal numerals *)

Lemma decimalValue_snoc (ds : jsstring) (c : char) :
  decimalValue (ds ++ [c]) = 10 * decimalValue ds + digitVal c.
Proof. unfold decimalValue. now rewrite fold_left_app. Qed.

Lemma fold_digits_grows (b : jsstring) :
  forall a, a <= fold_left (fun a c => 10 * a + digitVal c) b a.
Proof.
  induction b as [|c b IH]; intros a; cbn [fold_left]; [lia|].
  specialize (IH (10 * a + digitVal c)). lia.
Qed.

Lemma decimalValue_prefix (a b : jsstring) :
  decimalValue a <= decimalValue (a ++ b).
Proof.
  unfold decimalValue. rewrite fold_left_app. apply fold_digits_grows.
Qed.

Lemma digit_of_mod (n : nat) :
  isDigit (48 + N.of_nat (n mod 10))%N = true
  /\ digitVal (48 + N.of_nat (n mod 10))%N = n mod 10.
Proof.
  pose proof (Nat.mod_upper_bound n 10 ltac:(lia)) as B.
  unfold isDigit, digitVal. split.
  - apply andb_true_iff; split; apply N.leb_le; lia.
  - lia.
Qed.

Lemma digitsAcc_spec (fuel : nat) :
  forall n acc, n < fuel ->
  exists ds, digitsAcc fuel n acc = ds ++ acc
             /\ ds <> [] /\ Forall (fun c => isDigit c = true) ds
             /\ decimalValue ds = n.
Proof.
  induction fuel as [|fuel IH]; intros n acc Hn; [lia|]. cbn [digitsAcc].
  destruct (digit_of_mod n) as [Hd Hv].
  destruct (Nat.eqb_spec (n / 10) 0) as [Z|NZ].
  - exists [(48 + N.of_nat (n mod 10))%N]. repeat split; auto; try discriminate.
    unfold decimalValue; cbn [fold_left]. rewrite Hv.
    pose proof (Nat.div_mod_eq n 10). lia.
  - assert (Hlt : n / 10 < fuel).
    { pose proof (Nat.div_mod_eq n 10). lia. }
    destruct (IH (n / 10) ((48 + N.of_nat (n mod 10))%N :: acc) Hlt)
      as (ds & -> & Hne & Hall & Hval).
    exists (ds ++ [(48 + N.of_nat (n mod 10))%N]).
    rewrite <- app_assoc. repeat split; auto.
    + destruct ds; discriminate.
    + apply Forall_app; auto.
    + rewrite decimalValue_snoc, Hval, Hv.
      pose proof (Nat.div_mod_eq n 10). lia.
Qed.

Lemma natToString_spec (n : nat) :
  natToString n <> []
  /\ Forall (fun c => isDigit c = true) (natToString n)
  /\ decimalValue (natToString n) = n.
Proof.
  unfold natToString.
  destruct (@digitsAcc_spec (S n) n [] ltac:(lia)) as (ds & -> & H).
  now rewrite app_nil_r.
Qed.

(** A numeral followed by something that is not a digit begins with the
    numeral of [k] only if [k] is not larger. *)
Lemma numeral_prefix_le (n k : nat) (post : jsstring) :
  noDigitAhead post ->
  startsWith (natToString n ++ post) (natToString k) = true -> k <= n.
Proof.
  intros Hpost H. apply startsWith_spec in H. destruct H as [r Hr].
  destruct (natToString_spec n) as (_ & _ & Vn).
  destruct (natToString_spec k) as (_ & Dk & Vk).
  apply app_eq_app in Hr. destruct Hr as [l [[Hn Hr]|[Hk Hp]]].
  - rewrite <- Vn, <- Vk, Hn. apply decimalValue_prefix.
  - destruct l as [|c l].
    + rewrite app_nil_r in Hk. rewrite Hk in Vk. lia.
    + subst post. simpl in Hpost.
      rewrite Hk in Dk. apply Forall_app in Dk. destruct Dk as [_ Dk].
      inversion Dk; congruence.
Qed.

(** ** Replacing the occurrences of a literal *)

Section ReplaceAll.
Variables lit repl whole : jsstring.

Lemma replaceAllGo_absent (s : jsstring) :
  forall pos, (forall i, ~ occursAt s lit i) ->
              replaceAllGo lit repl whole s pos 0 = s.
Proof.
  induction s as [|c s IH]; intros pos Hno; simpl; auto.
  destruct (startsWith (c :: s) lit) eqn:E.
  - apply occursAt_0 in E. now destruct (Hno 0).
  - f_equal. apply IH. intros i Hi. apply (Hno (S i)). now apply occursAt_S.
Qed.

Lemma replaceAllGo_skip (a b : jsstring) :
  forall pos, replaceAllGo lit repl whole (a ++ b) pos (length a)
              = replaceAllGo lit repl whole b (pos + length a) 0.
Proof.
  induction a as [|c a IH]; intros pos; simpl.
  - now rewrite Nat.add_0_r.
  - rewrite IH. f_equal. lia.
Qed.

End ReplaceAll.

Lemma replaceAllGo_hit (c0 : char) (l repl whole s : jsstring) (pos : nat) :
  replaceAllGo (c0 :: l) repl whole ((c0 :: l) ++ s) pos 0
  = getSubstitution (c0 :: l) whole pos [] repl
      ++ replaceAllGo (c0 :: l) repl whole s (pos + length (c0 :: l)) 0.
Proof.
  change ((c0 :: l) ++ s) with (c0 :: (l ++ s)).
  unfold replaceAllGo at 1; fold replaceAllGo.
  replace (startsWith (c0 :: l ++ s) (c0 :: l)) with true.
  2:{ symmetry. apply startsWith_spec. now exists s. }
  f_equal.
  replace (length (c0 :: l) - 1) with (length l) by (simpl; lia).
  rewrite replaceAllGo_skip. f_equal. simpl; lia.
Qed.

Lemma occursAt_In (s lit : jsstring) (c : char) (l : jsstring) (i : nat) :
  lit = c :: l -> occursAt s lit i -> In c s.
Proof.
  intros -> (pre & post & -> & _). apply in_or_app. right. simpl; auto.
Qed.

Lemma replaceAll_absent (s lit repl : jsstring) (c : char) (l : jsstring) :
  lit = c :: l -> ~ In c s -> replaceAll s lit repl = s.
Proof.
  intros Hl Hc. unfold replaceAll. apply replaceAllGo_absent.
  intros i Hi. apply Hc. eapply occursAt_In; eauto.
Qed.

Lemma replaceAllGo_prefix (lit repl whole : jsstring) (c0 : char)
    (l pre s : jsstring) :
  lit = c0 :: l -> ~ In c0 pre ->
  forall pos,
    replaceAllGo lit repl whole (pre ++ s) pos 0
    = pre ++ replaceAllGo lit repl whole s (pos + length pre) 0.
Proof.
  intros -> . induction pre as [|c pre IH]; intros Hc pos; simpl.
  - now rewrite Nat.add_0_r.
  - destruct (N.eqb_spec c0 c) as [->|Hne]; [simpl in Hc; tauto|].
    simpl. f_equal. rewrite IH by (simpl in Hc; tauto). f_equal. f_equal. lia.
Qed.

(** A template with a single [$]: the literal [$l] is either what
    follows it, and is replaced, or it is not, and nothing changes. *)
Lemma token_hit (pre l rest repl : jsstring) :
  ~ In DOLLAR pre -> ~ In DOLLAR rest ->
  replaceAll (pre ++ DOLLAR :: l ++ rest) (DOLLAR :: l) repl
  = pre ++ getSubstitution (DOLLAR :: l) (pre ++ DOLLAR :: l ++ rest)
             (length pre) [] repl
        ++ rest.
Proof.
  intros Hpre Hrest. unfold replaceAll.
  rewrite (@replaceAllGo_prefix _ _ _ DOLLAR l pre) by auto.
  f_equal. simpl Nat.add.
  change (DOLLAR :: l ++ rest) with ((DOLLAR :: l) ++ rest).
  rewrite replaceAllGo_hit.
  f_equal. apply replaceAllGo_absent.
  intros i Hi. apply Hrest. eapply occursAt_In; eauto.
Qed.

Lemma token_miss (pre tail l repl : jsstring) :
  ~ In DOLLAR pre -> ~ In DOLLAR tail -> startsWith tail l = false ->
  replaceAll (pre ++ DOLLAR :: tail) (DOLLAR :: l) repl
  = pre ++ DOLLAR :: tail.
Proof.
  intros Hpre Htail Hmiss. unfold replaceAll.
  rewrite (@replaceAllGo_prefix _ _ _ DOLLAR l pre) by auto.
  f_equal. simpl.
  rewrite Hmiss. f_equal.
  apply replaceAllGo_absent.
  intros i Hi. apply Htail. eapply occursAt_In; eauto.
Qed.

(** ** The substitution computed for a preview *)

Section Substitution.
Import Scanner.

Lemma digit_is_not (d x : char) (rest : jsstring) :
  isDigit d = true -> isDigit x = false -> startsWith (d :: rest) [x] = false.
Proof.
  intros Hd Hx. simpl. destruct (N.eqb_spec x d); [congruence | reflexivity].
Qed.

Lemma digits_without (x : char) (ds : jsstring) :
  Forall (fun c => isDigit c = true) ds -> isDigit x = false -> ~ In x ds.
Proof.
  intros Hall Hx Hin. rewrite Forall_forall in Hall.
  specialize (Hall x Hin). congruence.
Qed.

Lemma replaceGroups_inert (m : MatchResult) (k : nat) (s : jsstring) :
  ~ In DOLLAR s -> replaceGroups m k s = s.
Proof.
  revert s; induction k as [|k IH]; intros s Hs; cbn [replaceGroups]; auto.
  rewrite (@replaceAll_absent s _ _ DOLLAR (natToString (S k))); auto.
Qed.

Variables pre post line : jsstring.
Variable m : MatchResult.
Variable n : nat.
Hypothesis Hpre : inert pre.
Hypothesis Hpost : inert post.
Hypothesis Hahead : noDigitAhead post.

Let template : jsstring := pre ++ DOLLAR :: natToString n ++ post.

Lemma tail_without_dollar : ~ In DOLLAR (natToString n ++ post).
Proof.
  destruct (natToString_spec n) as (_ & Hd & _).
  intros H. apply in_app_or in H. destruct H as [H|H].
  - exact (@digits_without DOLLAR _ Hd eq_refl H).
  - now apply (proj1 Hpost).
Qed.

Lemma tail_misses (x : char) :
  isDigit x = false -> startsWith (natToString n ++ post) [x] = false.
Proof.
  destruct (natToString_spec n) as (Hne & Hd & _).
  destruct (natToString n) as [|d ds]; [congruence|].
  intros Hx. inversion Hd; subst. now apply digit_is_not.
Qed.

Lemma template_without_nul : ~ In 0%N template.
Proof.
  unfold template. destruct (natToString_spec n) as (_ & Hd & _).
  intros H. apply in_app_or in H. destruct H as [H|[H|H]].
  - now apply (proj2 Hpre).
  - discriminate.
  - apply in_app_or in H. destruct H as [H|H].
    + exact (@digits_without 0%N _ Hd eq_refl H).
    + now apply (proj2 Hpost).
Qed.

(** The four steps before the group loop leave the template alone. *)
Lemma early_steps_skip (x : char) (repl : jsstring) :
  isDigit x = false -> replaceAll template [DOLLAR; x] repl = template.
Proof.
  intros Hx. apply token_miss.
  - apply (proj1 Hpre).
  - apply tail_without_dollar.
  - now apply tail_misses.
Qed.

Lemma group_loop_resolves (k : nat) :
  1 <= n -> n <= k -> groupValue m n = [] ->
  replaceGroups m k template = pre ++ post.
Proof.
  intros H1 Hk Hv. induction k as [|k IH]; [lia|].
  cbn [replaceGroups]. destruct (Nat.eq_dec (S k) n) as [->|Hne].
  - rewrite Hv. unfold template. rewrite token_hit.
    + simpl. apply replaceGroups_inert.
      intros H. apply in_app_or in H.
      destruct H; [now apply (proj1 Hpre) | now apply (proj1 Hpost)].
    + apply (proj1 Hpre).
    + apply (proj1 Hpost).
  - unfold template. rewrite token_miss.
    + apply IH. lia.
    + apply (proj1 Hpre).
    + apply tail_without_dollar.
    + destruct (startsWith (natToString n ++ post) (natToString (S k))) eqn:E;
        auto.
      apply numeral_prefix_le in E; auto. lia.
Qed.

Lemma group_loop_skips (k : nat) :
  (forall j, 1 <= j <= k ->
             startsWith (natToString n ++ post) (natToString j) = false) ->
  replaceGroups m k template = template.
Proof.
  induction k as [|k IH]; intros Hmiss; cbn [replaceGroups]; auto.
  unfold template. rewrite token_miss.
  - apply IH. intros j Hj. apply Hmiss. lia.
  - apply (proj1 Hpre).
  - apply tail_without_dollar.
  - apply Hmiss. lia.
Qed.

Lemma substitute_steps :
  substitute template line m
  = replaceAll (replaceGroups m (length (groups m)) template)
      dollarPlaceholder (str "$").
Proof.
  unfold substitute.
  change (str "$$") with [DOLLAR; DOLLAR].
  change (str "$`") with [DOLLAR; BACKTICK].
  change (str "$'") with [DOLLAR; 39%N].
  change (str "$&") with [DOLLAR; 38%N].
  now rewrite !early_steps_skip.
Qed.

(** A [$n] token that is the only [$] of its template. *)
Lemma lone_token_resolution :
  (1 <= n <= length (groups m) ->
   nth_error (groups m) (n - 1) = Some None ->
   substitute (pre ++ DOLLAR :: natToString n ++ post) line m = pre ++ post)
  /\ (length (groups m) < n ->
      (forall k, 1 <= k <= length (groups m) ->
                 startsWith (natToString n ++ post) (natToString k) = false) ->
      substitute (pre ++ DOLLAR :: natToString n ++ post) line m
      = pre ++ DOLLAR :: natToString n ++ post).
Proof.
  fold template. rewrite substitute_steps. split.
  - intros Hn Hnone. rewrite group_loop_resolves; try lia.
    + apply (@replaceAll_absent _ _ _ 0%N (str "DOLLAR" ++ [0%N])).
      * reflexivity.
      * intros H. apply in_app_or in H.
        destruct H; [now apply (proj2 Hpre) | now apply (proj2 Hpost)].
    + unfold groupValue. now rewrite Hnone.
  - intros _ Hmiss. rewrite group_loop_skips by assumption.
    apply (@replaceAll_absent _ _ _ 0%N (str "DOLLAR" ++ [0%N])).
    + reflexivity.
    + apply template_without_nul.
Qed.
End Substitution.

(** ** The scan of a replacement, piece by piece *)

Lemma startsWith_app (a b lit : jsstring) :
  startsWith a lit = true -> startsWith (a ++ b) lit = true.
Proof.
  rewrite !startsWith_spec. intros [r ->]. exists (r ++ b).
  now rewrite app_assoc.
Qed.

Lemma startsWith_within (a b lit : jsstring) :
  startsWith (a ++ b) lit = true -> length lit <= length a ->
  startsWith a lit = true.
Proof.
  rewrite !startsWith_spec. intros [r Hr] Hlen.
  apply app_eq_app in Hr. destruct Hr as [l [[-> _]|[-> _]]].
  - now exists l.
  - rewrite length_app in Hlen. destruct l; [|simpl in Hlen; lia].
    exists []. now rewrite !app_nil_r.
Qed.

Lemma fits_tail (lit b : jsstring) (c : char) (a : jsstring) :
  fits lit (c :: a) b -> fits lit a b.
Proof.
  intros H a1 a2 -> Hne Hs. apply (H (c :: a1) a2); auto.
Qed.

Section Scan.
Variables lit repl whole : jsstring.

Lemma replaceAllGo_app (a b : jsstring) :
  fits lit a b ->
  forall pos skip, skip <= length a ->
    replaceAllGo lit repl whole (a ++ b) pos skip
    = replaceAllGo lit repl whole a pos skip
        ++ replaceAllGo lit repl whole b (pos + length a) 0.
Proof.
  induction a as [|c a IH]; intros Hfit pos skip Hskip.
  - simpl in *. replace skip with 0 by lia. now rewrite Nat.add_0_r.
  - pose proof (fits_tail Hfit) as Hfit'.
    cbn [app replaceAllGo length]. destruct skip as [|k].
    + destruct (startsWith (c :: a ++ b) lit) eqn:E.
      * assert (Hlen : length lit <= length (c :: a)).
        { apply (Hfit [] (c :: a)); [reflexivity | discriminate | exact E]. }
        rewrite (@startsWith_within (c :: a) b lit E Hlen).
        rewrite IH by (auto; simpl in Hlen; lia).
        rewrite <- app_assoc. do 3 f_equal. lia.
      * destruct (startsWith (c :: a) lit) eqn:E'.
        { apply (@startsWith_app _ b) in E'. simpl in E'. congruence. }
        rewrite IH by (auto; lia). simpl. do 3 f_equal. lia.
    + rewrite IH by (auto; simpl in Hskip; lia). do 2 f_equal. lia.
Qed.

End Scan.

(** A text that pulls in nothing is put in the same way wherever the
    occurrence is found. *)
Lemma pairs_ind (P : jsstring -> Prop) :
  P [] -> (forall c, P [c]) ->
  (forall c d s, P s -> P (d :: s) -> P (c :: d :: s)) ->
  forall s, P s.
Proof.
  intros H0 H1 H2.
  assert (H : forall s, P s /\ forall c, P (c :: s)).
  { induction s as [|d s [IHs IHc]]; split; auto. }
  intros s. apply H.
Qed.

Lemma noContext_spec (s : jsstring) :
  noContext s ->
  forall a d b, s = a ++ DOLLAR :: d :: b -> d <> BACKTICK /\ d <> 39%N.
Proof.
  intros [Hb Hq] a d b ->. unfold includes, indexOf in *.
  split; intros ->.
  - match type of Hb with
    | context [indexOfFrom ?x ?y 0] =>
        destruct (indexOfFrom x y 0) eqn:E; [discriminate Hb|]
    end.
    apply (@indexOfFrom_none _ _ 0 (length a)) in E. apply E.
    now exists a, b.
  - match type of Hq with
    | context [indexOfFrom ?x ?y 0] =>
        destruct (indexOfFrom x y 0) eqn:E; [discriminate Hq|]
    end.
    apply (@indexOfFrom_none _ _ 0 (length a)) in E. apply E.
    now exists a, b.
Qed.

Lemma getSubstitution_anywhere (lit w w' : jsstring) (pos pos' : nat) :
  forall v,
    (forall a d b, v = a ++ DOLLAR :: d :: b ->
                   d <> BACKTICK /\ d <> 39%N) ->
    getSubstitution lit w pos [] v = getSubstitution lit w' pos' [] v.
Proof.
  intros v. pattern v. apply pairs_ind; clear v.
  - reflexivity.
  - reflexivity.
  - intros c d v IH IHd Hq.
    assert (Hd : forall a x b, d :: v = a ++ DOLLAR :: x :: b ->
                              x <> BACKTICK /\ x <> 39%N).
    { intros a x b E. apply (Hq (c :: a) x b). simpl. now rewrite E. }
    assert (Hv : forall a x b, v = a ++ DOLLAR :: x :: b ->
                              x <> BACKTICK /\ x <> 39%N).
    { intros a x b E. apply (Hq (c :: d :: a) x b). simpl. now rewrite E. }
    specialize (IH Hv). specialize (IHd Hd).
    assert (Hcap : forall x, (1 <=? x) && (x <=? 0) = false)
      by (intros [|x]; reflexivity).
    remember (d :: v) as dv eqn:Edv.
    cbn [getSubstitution].
    destruct (N.eqb_spec c DOLLAR) as [->|Hc]; cbn [negb].
    2:{ f_equal. exact IHd. }
    subst dv. cbv iota.
    destruct (Hq [] d v eq_refl) as [Hb Ha].
    destruct (N.eqb_spec d DOLLAR) as [->|Hdd]; [now rewrite IH|].
    destruct (N.eqb_spec d BACKTICK) as [|_]; [contradiction|].
    destruct (N.eqb_spec d 38) as [->|_]; [now rewrite IH|].
    destruct (N.eqb_spec d 39) as [|_]; [contradiction|].
    destruct (isDigit d) eqn:Dd; [|f_equal; exact IHd].
    cbn [length]. destruct v as [|d2 v'].
    + reflexivity.
    + rewrite <- !andb_assoc, !Hcap, !andb_false_r.
      f_equal. f_equal. exact IH.
Qed.

Lemma replaceAllGo_rebase (lit v w w' s : jsstring) :
  noContext v ->
  forall pos pos' skip,
    replaceAllGo lit v w s pos skip = replaceAllGo lit v w' s pos' skip.
Proof.
  intros Hv.
  induction s as [|c s IH]; intros pos pos' skip; [reflexivity|].
  cbn [replaceAllGo]. destruct skip as [|k]; [|apply IH].
  destruct (startsWith (c :: s) lit).
  - rewrite (@getSubstitution_anywhere lit w w' pos pos' v
               (noContext_spec Hv)).
    f_equal. apply IH.
  - f_equal. apply IH.
Qed.

(** A character that is not in the literal keeps what is before it and
    what is after it apart. *)
Lemma fits_apart (lit a b : jsstring) (d : char) :
  ~ In d lit -> fits lit a (d :: b).
Proof.
  intros Hd a1 a2 _ Hne Hs. apply startsWith_spec in Hs.
  destruct Hs as [r Hr]. apply app_eq_app in Hr.
  destruct Hr as [x [[-> _]|[E1 E2]]].
  - rewrite length_app. lia.
  - destruct x as [|y x].
    + rewrite app_nil_r in E1. rewrite E1. lia.
    + injection E2 as <- _. destruct Hd. rewrite E1.
      apply in_or_app. right. now left.
Qed.

Section Pieces.
Variables l v : jsstring.
Hypothesis Hv : noContext v.

Lemma replaceAllGo_anywhere (w w' s : jsstring) :
  forall pos pos' skip,
    replaceAllGo (DOLLAR :: l) v w s pos skip
    = replaceAllGo (DOLLAR :: l) v w' s pos' skip.
Proof. now apply replaceAllGo_rebase. Qed.

Lemma replaceAll_from (w s : jsstring) (pos : nat) :
  replaceAllGo (DOLLAR :: l) v w s pos 0 = replaceAll s (DOLLAR :: l) v.
Proof. unfold replaceAll. apply replaceAllGo_anywhere. Qed.

Lemma replaceAll_pieces (a b : jsstring) :
  fits (DOLLAR :: l) a b ->
  replaceAll (a ++ b) (DOLLAR :: l) v
  = replaceAll a (DOLLAR :: l) v ++ replaceAll b (DOLLAR :: l) v.
Proof.
  intros Hfit. unfold replaceAll at 1.
  rewrite replaceAllGo_app by (auto; lia).
  now rewrite !replaceAll_from.
Qed.

Lemma replaceAll_plain (t s : jsstring) :
  ~ In DOLLAR t ->
  replaceAll (t ++ s) (DOLLAR :: l) v = t ++ replaceAll s (DOLLAR :: l) v.
Proof.
  intros Ht. unfold replaceAll at 1.
  rewrite (@replaceAllGo_prefix _ _ _ DOLLAR l t) by auto.
  now rewrite replaceAll_from.
Qed.

Lemma replaceAll_hit (s : jsstring) :
  replaceAll ((DOLLAR :: l) ++ s) (DOLLAR :: l) v
  = getSubstitution (DOLLAR :: l) [] 0 [] v
      ++ replaceAll s (DOLLAR :: l) v.
Proof.
  unfold replaceAll at 1. rewrite replaceAllGo_hit, replaceAll_from.
  f_equal. apply getSubstitution_anywhere, noContext_spec, Hv.
Qed.

Lemma replaceAll_miss (s : jsstring) :
  startsWith s l = false ->
  replaceAll (DOLLAR :: s) (DOLLAR :: l) v
  = DOLLAR :: replaceAll s (DOLLAR :: l) v.
Proof.
  intros Hmiss. unfold replaceAll at 1. cbn [replaceAllGo startsWith].
  rewrite N.eqb_refl, Hmiss. cbn [andb]. now rewrite replaceAll_from.
Qed.

Lemma fits_separator (a b : jsstring) (d : char) :
  ~ In d (DOLLAR :: l) -> fits (DOLLAR :: l) a (d :: b).
Proof. apply fits_apart. Qed.

Lemma replaceAll_separator (a b : jsstring) (d : char) :
  ~ In d (DOLLAR :: l) ->
  replaceAll (a ++ d :: b) (DOLLAR :: l) v
  = replaceAll a (DOLLAR :: l) v ++ d :: replaceAll b (DOLLAR :: l) v.
Proof.
  intros Hd. rewrite replaceAll_pieces by now apply fits_separator.
  f_equal. apply (@replaceAll_plain [d] b).
  intros [H|[]]. apply Hd. now left.
Qed.

(** An occurrence of a literal with one [$] does not run on into the
    next [$]. *)
Lemma fits_dollar (a b : jsstring) :
  ~ In DOLLAR l -> fits (DOLLAR :: l) a (DOLLAR :: b).
Proof.
  intros Hl a1 a2 _ Hne Hs. apply startsWith_spec in Hs.
  destruct Hs as [r Hr]. apply app_eq_app in Hr.
  destruct Hr as [x [[-> _]|[E1 E2]]].
  - rewrite length_app. lia.
  - destruct x as [|y x].
    + rewrite app_nil_r in E1. rewrite E1. lia.
    + injection E2 as <- _. destruct Hl.
      destruct a2 as [|z a2]; [congruence|].
      injection E1 as _ ->. apply in_or_app. right. now left.
Qed.

(** The scan steps over the token [$n] when the literal is not what
    stands there. *)
Lemma replaceAll_token (n : nat) (q : jsstring) :
  startsWith (natToString n ++ q) l = false ->
  replaceAll (DOLLAR :: natToString n ++ q) (DOLLAR :: l) v
  = DOLLAR :: natToString n ++ replaceAll q (DOLLAR :: l) v.
Proof.
  intros Hmiss. rewrite replaceAll_miss by assumption. f_equal.
  apply replaceAll_plain.
  destruct (natToString_spec n) as (_ & Hd & _).
  exact (@digits_without DOLLAR _ Hd eq_refl).
Qed.

End Pieces.

(** ** A token that stands apart, step by step *)

Lemma tokenChar_dollar (d : char) : tokenChar d = false -> d <> DOLLAR.
Proof. intros H ->. discriminate. Qed.

Lemma tokenChar_digit (d : char) : tokenChar d = false -> isDigit d = false.
Proof.
  unfold tokenChar. intros H. apply orb_false_iff in H. tauto.
Qed.

Lemma closedAfter_clear (q : jsstring) : closedAfter q -> clearAhead q.
Proof.
  destruct q as [|d q]; simpl; auto. intros H. split.
  - now apply tokenChar_digit.
  - now apply tokenChar_dollar.
Qed.

Lemma numeral_longer (n k : nat) (q : jsstring) :
  startsWith (natToString n ++ q) (natToString k) = true ->
  k <= n \/ 10 * n <= k.
Proof.
  intros H. apply startsWith_spec in H. destruct H as [r Hr].
  destruct (natToString_spec n) as (_ & _ & Vn).
  destruct (natToString_spec k) as (_ & _ & Vk).
  apply app_eq_app in Hr. destruct Hr as [x [[Hn _]|[Hk _]]].
  - left. rewrite <- Vn, <- Vk, Hn. apply decimalValue_prefix.
  - destruct x as [|c x].
    + left. rewrite app_nil_r in Hk. rewrite Hk in Vk. lia.
    + right. rewrite <- Vk, Hk.
      change (c :: x) with ([c] ++ x). rewrite app_assoc.
      eapply Nat.le_trans; [|apply decimalValue_prefix].
      rewrite decimalValue_snoc, Vn. lia.
Qed.

Lemma group_missed (g n k : nat) (q : jsstring) :
  n < k <= g -> g < 10 * n \/ clearAhead q ->
  startsWith (natToString n ++ q) (natToString k) = false.
Proof.
  intros Hk Hq.
  destruct (startsWith (natToString n ++ q) (natToString k)) eqn:E; auto.
  destruct Hq as [Hg|Hq].
  - apply numeral_longer in E. lia.
  - apply numeral_prefix_le in E; [lia|].
    destruct q; simpl in *; tauto.
Qed.

Lemma symbol_missed (n : nat) (q : jsstring) (x : char) :
  isDigit x = false -> startsWith (natToString n ++ q) [x] = false.
Proof.
  destruct (natToString_spec n) as (Hne & Hd & _).
  destruct (natToString n) as [|d ds]; [congruence|].
  intros Hx. inversion Hd; subst. now apply digit_is_not.
Qed.

Lemma dollarPending_split (v : jsstring) :
  noContext v ->
  forall pre X,
    dollarPending pre = false ->
    replaceAll (pre ++ X) [DOLLAR; DOLLAR] v
    = replaceAll pre [DOLLAR; DOLLAR] v ++ replaceAll X [DOLLAR; DOLLAR] v.
Proof.
  intros Hv pre X. pattern pre. apply pairs_ind; clear pre.
  - reflexivity.
  - intros c H. cbn [dollarPending] in H.
    destruct (N.eqb_spec c DOLLAR) as [|Hc]; [discriminate|].
    change ([c] ++ X) with ([c] ++ X).
    rewrite (@replaceAll_plain [DOLLAR] v Hv [c] X)
      by (intros [E|[]]; congruence).
    rewrite <- (app_nil_r [c]) at 2.
    rewrite (@replaceAll_plain [DOLLAR] v Hv [c] [])
      by (intros [E|[]]; congruence).
    reflexivity.
  - intros c d s IH IHd H.
    change (dollarPending (c :: d :: s))
      with (if N.eqb c DOLLAR
            then if N.eqb d DOLLAR then dollarPending s
                 else dollarPending (d :: s)
            else dollarPending (d :: s)) in H.
    destruct (N.eqb_spec c DOLLAR) as [->|Hc].
    + destruct (N.eqb_spec d DOLLAR) as [->|Hd].
      * change ((DOLLAR :: DOLLAR :: s) ++ X)
          with ([DOLLAR; DOLLAR] ++ (s ++ X)).
        change (DOLLAR :: DOLLAR :: s) with ([DOLLAR; DOLLAR] ++ s).
        rewrite !(@replaceAll_hit [DOLLAR] v Hv), IH by assumption.
        now rewrite app_assoc.
      * change ((DOLLAR :: d :: s) ++ X) with (DOLLAR :: ((d :: s) ++ X)).
        rewrite !(@replaceAll_miss [DOLLAR] v Hv).
        -- rewrite IHd by assumption. reflexivity.
        -- cbn [app startsWith].
           destruct (N.eqb_spec DOLLAR d); [congruence | reflexivity].
        -- cbn [app startsWith].
           destruct (N.eqb_spec DOLLAR d); [congruence | reflexivity].
    + change ((c :: d :: s) ++ X) with ([c] ++ ((d :: s) ++ X)).
      change (c :: d :: s) with ([c] ++ (d :: s)).
      rewrite !(@replaceAll_plain [DOLLAR] v Hv [c])
        by (intros [E|[]]; congruence).
      rewrite IHd by assumption. reflexivity.
Qed.

Section Step.
Variables g n : nat.
Variables l v : jsstring.
Hypothesis Hv : noContext v.
Hypothesis Hchars : forall c, In c (DOLLAR :: l) -> tokenChar c = true.

Lemma separator_out (d : char) : tokenChar d = false -> ~ In d (DOLLAR :: l).
Proof. intros Hd Hin. apply Hchars in Hin. congruence. Qed.

Lemma closedBefore_split (p X : jsstring) :
  closedBefore p ->
  replaceAll (p ++ X) (DOLLAR :: l) v
  = replaceAll p (DOLLAR :: l) v ++ replaceAll X (DOLLAR :: l) v
  /\ closedBefore (replaceAll p (DOLLAR :: l) v).
Proof.
  assert (Hplain : forall t, ~ In DOLLAR t ->
                             replaceAll t (DOLLAR :: l) v = t).
  { intros t Ht. rewrite <- (app_nil_r t) at 1.
    rewrite (replaceAll_plain l Hv) by assumption.
    unfold replaceAll. simpl. apply app_nil_r. }
  intros [Hp | (p0 & c & t & -> & Hc & Ht)].
  - rewrite (replaceAll_plain l Hv) by assumption.
    rewrite (Hplain p Hp). split; [reflexivity | now left].
  - rewrite <- !app_assoc. cbn [app].
    rewrite !(replaceAll_separator Hv) by now apply separator_out.
    rewrite (replaceAll_plain l Hv) by assumption.
    rewrite (Hplain t Ht).
    rewrite <- !app_assoc. cbn [app]. split; [reflexivity|].
    right. eauto 8.
Qed.

Lemma closedAfter_split (p q : jsstring) :
  closedAfter q ->
  replaceAll (p ++ q) (DOLLAR :: l) v
  = replaceAll p (DOLLAR :: l) v ++ replaceAll q (DOLLAR :: l) v
  /\ closedAfter (replaceAll q (DOLLAR :: l) v).
Proof.
  destruct q as [|d q]; intros Hq.
  - rewrite !app_nil_r. now split.
  - simpl in Hq.
    rewrite (replaceAll_separator Hv) by now apply separator_out.
    change (d :: q) with ([d] ++ q).
    rewrite (@replaceAll_plain l v Hv [d] q)
      by (intros [E|[]]; apply tokenChar_dollar in Hq; congruence).
    split; [reflexivity | exact Hq].
Qed.

Lemma clearAhead_kept (q : jsstring) :
  clearAhead q -> clearAhead (replaceAll q (DOLLAR :: l) v).
Proof.
  destruct q as [|d q]; intros Hq; [exact I|].
  change (d :: q) with ([d] ++ q).
  rewrite (@replaceAll_plain l v Hv [d] q)
    by (intros [E|[]]; simpl in Hq; destruct Hq; congruence).
  exact Hq.
Qed.

(** One step that is not the step of the token itself. *)
Lemma step_past (p q : jsstring) :
  apart g n p q ->
  startsWith (natToString n ++ q) l = false ->
  (forall Y, replaceAll (p ++ DOLLAR :: Y) (DOLLAR :: l) v
             = replaceAll p (DOLLAR :: l) v
                 ++ replaceAll (DOLLAR :: Y) (DOLLAR :: l) v) ->
  replaceAll (p ++ DOLLAR :: natToString n ++ q) (DOLLAR :: l) v
  = replaceAll p (DOLLAR :: l) v
      ++ DOLLAR :: natToString n ++ replaceAll q (DOLLAR :: l) v
  /\ replaceAll (p ++ q) (DOLLAR :: l) v
     = replaceAll p (DOLLAR :: l) v ++ replaceAll q (DOLLAR :: l) v
  /\ apart g n (replaceAll p (DOLLAR :: l) v)
       (replaceAll q (DOLLAR :: l) v).
Proof.
  intros Hap Hmiss Hsplit.
  rewrite Hsplit, (replaceAll_token l Hv) by assumption.
  split; [reflexivity|].
  destruct Hap as [Hq | [Hp Hq]].
  - destruct (@closedAfter_split p q Hq) as [-> Hq']. split; [reflexivity|].
    now left.
  - destruct (@closedBefore_split p q Hp) as [-> Hp'].
    split; [reflexivity|]. right. split; [exact Hp'|].
    destruct Hq as [Hg|Hq]; [now left | right; now apply clearAhead_kept].
Qed.

(** The step of the token: the empty text is put in for it. *)
Lemma step_token (p q : jsstring) :
  l = natToString n -> v = [] ->
  apart g n p q ->
  replaceAll (p ++ DOLLAR :: natToString n ++ q) (DOLLAR :: l) v
  = replaceAll (p ++ q) (DOLLAR :: l) v.
Proof.
  intros El Ev Hap.
  assert (Hd : ~ In DOLLAR l).
  { rewrite El. destruct (natToString_spec n) as (_ & Hd & _).
    exact (@digits_without DOLLAR _ Hd eq_refl). }
  rewrite (replaceAll_pieces Hv) by now apply fits_dollar.
  rewrite <- El.
  change (DOLLAR :: l ++ q) with ((DOLLAR :: l) ++ q).
  rewrite (replaceAll_hit l Hv). rewrite Ev at 2. cbn [getSubstitution app].
  destruct Hap as [Hq | [Hp _]].
  - now destruct (@closedAfter_split p q Hq) as [-> _].
  - now destruct (@closedBefore_split p q Hp) as [-> _].
Qed.

End Step.

Section Apart.
Import Scanner.
Variables line : jsstring.
Variable m : MatchResult.
Variable n : nat.
Hypothesis Hn : 1 <= n <= length (groups m).
Hypothesis Hnone : nth_error (groups m) (n - 1) = Some None.
Hypothesis Hcalm : matchTexts noContext line m.

Lemma numeral_chars (k : nat) (c : char) :
  In c (DOLLAR :: natToString k) -> tokenChar c = true.
Proof.
  intros [<-|Hc]; [reflexivity|].
  destruct (natToString_spec k) as (_ & Hd & _).
  rewrite Forall_forall in Hd. unfold tokenChar. rewrite (Hd c Hc).
  now rewrite !orb_true_r.
Qed.

Lemma numeral_without_dollar (k : nat) : ~ In DOLLAR (natToString k).
Proof.
  destruct (natToString_spec k) as (_ & Hd & _).
  exact (@digits_without DOLLAR _ Hd eq_refl).
Qed.

Lemma symbol_chars (x : char) :
  tokenChar x = true -> forall c, In c [DOLLAR; x] -> tokenChar c = true.
Proof. intros Hx c [<-|[<-|[]]]; [reflexivity | exact Hx]. Qed.

Lemma apart_clear (p q : jsstring) :
  apart (length (groups m)) n p q ->
  length (groups m) < 10 * n \/ clearAhead q.
Proof.
  intros [Hq | [_ Hq]]; [right; now apply closedAfter_clear | exact Hq].
Qed.

(** The loop over the groups, from a group not below [n] downwards. *)
Lemma loop_apart (k : nat) :
  forall p q,
    n <= k <= length (groups m) ->
    apart (length (groups m)) n p q ->
    replaceGroups m k (p ++ DOLLAR :: natToString n ++ q)
    = replaceGroups m k (p ++ q).
Proof.
  destruct Hcalm as (_ & _ & _ & Hgroups).
  induction k as [|k IH]; intros p q Hk Hap; [lia|].
  cbn [replaceGroups]. destruct (Nat.eq_dec (S k) n) as [E|Hne].
  - rewrite E. f_equal.
    apply (@step_token (length (groups m)) n (natToString n)
             (groupValue m n) (Hgroups n) (@numeral_chars n) p q);
      auto.
    unfold groupValue. now rewrite Hnone.
  - destruct (@step_past (length (groups m)) n (natToString (S k))
                (groupValue m (S k)) (Hgroups (S k))
                (@numeral_chars (S k)) p q Hap)
      as (E1 & E2 & Hap').
    + apply (@group_missed (length (groups m))); [lia|].
      eapply apart_clear; eauto.
    + intros Y. apply (replaceAll_pieces (Hgroups (S k))).
      apply fits_dollar, numeral_without_dollar.
    + rewrite E1, E2. apply IH; [lia | exact Hap'].
Qed.

Lemma symbol_step (x : char) (v p q : jsstring) :
  tokenChar x = true -> isDigit x = false -> x <> DOLLAR ->
  noContext v ->
  apart (length (groups m)) n p q ->
  replaceAll (p ++ DOLLAR :: natToString n ++ q) [DOLLAR; x] v
  = replaceAll p [DOLLAR; x] v
      ++ DOLLAR :: natToString n ++ replaceAll q [DOLLAR; x] v
  /\ replaceAll (p ++ q) [DOLLAR; x] v
     = replaceAll p [DOLLAR; x] v ++ replaceAll q [DOLLAR; x] v
  /\ apart (length (groups m)) n (replaceAll p [DOLLAR; x] v)
       (replaceAll q [DOLLAR; x] v).
Proof.
  intros Hx Hd Hne Hv Hap.
  apply (@step_past (length (groups m)) n [x] v Hv (@symbol_chars x Hx) p q
           Hap).
  - now apply symbol_missed.
  - intros Y. apply (replaceAll_pieces Hv). apply fits_dollar.
    intros [E|[]]. congruence.
Qed.

Lemma placeholder_quiet : noContext dollarPlaceholder.
Proof. split; reflexivity. Qed.

(** A token that stands apart and whose group took no part in the match
    leaves nothing in the replacement text. *)
Lemma token_apart (pre post : jsstring) :
  dollarPending pre = false ->
  apart (length (groups m)) n pre post ->
  substitute (pre ++ DOLLAR :: natToString n ++ post) line m
  = substitute (pre ++ post) line m.
Proof.
  intros Hpend Hap. destruct Hcalm as (Hbefore & Hafter & Hmatched & _).
  unfold substitute.
  change (str "$$") with [DOLLAR; DOLLAR].
  change (str "$`") with [DOLLAR; BACKTICK].
  change (str "$'") with [DOLLAR; ch "'"].
  change (str "$&") with [DOLLAR; ch "&"].
  destruct (@step_past (length (groups m)) n [DOLLAR] dollarPlaceholder
              placeholder_quiet (@symbol_chars DOLLAR eq_refl) pre post Hap)
    as (E1 & E1' & A1).
  { now apply symbol_missed. }
  { intros Y. now apply dollarPending_split; [apply placeholder_quiet|]. }
  rewrite E1, E1'.
  destruct (@symbol_step BACKTICK (substring line 0 (index m)) _ _
              eq_refl eq_refl ltac:(discriminate) Hbefore A1)
    as (E2 & E2' & A2).
  rewrite E2, E2'.
  destruct (@symbol_step (ch "'")
              (substringFrom line (index m + length (matched m))) _ _
              eq_refl eq_refl ltac:(discriminate) Hafter A2)
    as (E3 & E3' & A3).
  rewrite E3, E3'.
  destruct (@symbol_step (ch "&") (matched m) _ _
              eq_refl eq_refl ltac:(discriminate) Hmatched A3)
    as (E4 & E4' & A4).
  rewrite E4, E4'.
  rewrite loop_apart by (auto; lia). reflexivity.
Qed.

End Apart.

(** ** Any token, for short patterns and settled texts *)

Lemma getSubstitution_plain (matched whole : jsstring) (position : nat)
    (captures : list (option jsstring)) (tmpl : jsstring) :
  ~ In DOLLAR tmpl ->
  getSubstitution matched whole position captures tmpl = tmpl.
Proof.
  induction tmpl as [|c rest IH]; intros H; cbn [getSubstitution]; auto.
  destruct (N.eqb_spec c DOLLAR) as [->|Hne].
  - destruct H. simpl; auto.
  - cbn [negb]. f_equal. apply IH. intros Hin. apply H. simpl; auto.
Qed.

Lemma plain_noContext (v : jsstring) : ~ In DOLLAR v -> noContext v.
Proof.
  intros Hv. split; unfold includes;
    match goal with
    | |- context [indexOf ?s ?p] => destruct (indexOf s p) eqn:E; auto
    end;
    apply indexOf_spec in E; destruct E as [E _]; destruct Hv;
    eapply occursAt_In; eauto.
Qed.

Lemma isolated_plain (a b : jsstring) :
  ~ In DOLLAR a -> isolated (a ++ b) = isolated b.
Proof.
  induction a as [|c a IH]; intros Ha; [reflexivity|].
  cbn [app isolated]. destruct (N.eqb_spec c DOLLAR) as [->|_].
  - destruct Ha. now left.
  - apply IH. intros H. apply Ha. now right.
Qed.

Lemma digit_numeral (k : nat) :
  k <= 9 -> natToString k = [(48 + N.of_nat k)%N].
Proof.
  intros Hk. do 10 (destruct k as [|k]; [reflexivity|]). lia.
Qed.

Lemma isolated_app (a b : jsstring) :
  isolated a = true -> isolated b = true -> isolated (a ++ b) = true.
Proof.
  intros Ha Hb. revert Ha. pattern a. apply pairs_ind; clear a.
  - intros _. exact Hb.
  - intros c H. cbn [isolated] in H. cbn [app isolated].
    destruct (N.eqb_spec c DOLLAR); [discriminate | exact Hb].
  - intros c d s IH IHd H.
    change (isolated (c :: d :: s))
      with (if N.eqb c DOLLAR
            then negb (N.eqb d DOLLAR) && isolated s
            else isolated (d :: s)) in H.
    change (isolated ((c :: d :: s) ++ b))
      with (if N.eqb c DOLLAR
            then negb (N.eqb d DOLLAR) && isolated (s ++ b)
            else isolated ((d :: s) ++ b)).
    destruct (N.eqb c DOLLAR); [|now apply IHd].
    apply andb_true_iff in H. destruct H as [-> Hs]. now apply IH.
Qed.

Section Isolated.
Variables x : char.
Variable v : jsstring.
Hypothesis Hx : x <> DOLLAR.
Hypothesis Hv : settled v.

(** What is put in for an occurrence is settled as well. *)
Lemma getSubstitution_isolated (w : jsstring) (pos : nat) :
  forall t,
    isolated t = true ->
    (forall a d b, t = a ++ DOLLAR :: d :: b ->
                   d <> BACKTICK /\ d <> 39%N) ->
    isolated (getSubstitution [DOLLAR; x] w pos [] t) = true.
Proof.
  intros t. pattern t. apply pairs_ind; clear t.
  - reflexivity.
  - intros c H _. cbn [isolated getSubstitution] in *.
    destruct (N.eqb_spec c DOLLAR); [discriminate|].
    cbn [negb isolated]. destruct (N.eqb_spec c DOLLAR); congruence.
  - intros c d s IH IHd H Hq.
    assert (Hd : forall a y b, d :: s = a ++ DOLLAR :: y :: b ->
                              y <> BACKTICK /\ y <> 39%N).
    { intros a y b E. apply (Hq (c :: a) y b). simpl. now rewrite E. }
    assert (Hs : forall a y b, s = a ++ DOLLAR :: y :: b ->
                              y <> BACKTICK /\ y <> 39%N).
    { intros a y b E. apply (Hq (c :: d :: a) y b). simpl. now rewrite E. }
    change (isolated (c :: d :: s))
      with (if N.eqb c DOLLAR
            then negb (N.eqb d DOLLAR) && isolated s
            else isolated (d :: s)) in H.
    remember (d :: s) as ds eqn:Eds.
    cbn [getSubstitution].
    destruct (N.eqb_spec c DOLLAR) as [->|Hc]; cbn [negb].
    2:{ cbn [isolated]. destruct (N.eqb_spec c DOLLAR); [congruence|].
        now apply IHd. }
    subst ds. cbv iota.
    apply andb_true_iff in H. destruct H as [Hdd His].
    apply negb_true_iff in Hdd. rewrite Hdd.
    destruct (Hq [] d s eq_refl) as [Hb Ha].
    specialize (IH His Hs).
    destruct (N.eqb_spec d BACKTICK) as [|_]; [contradiction|].
    destruct (N.eqb_spec d 38) as [->|_].
    { cbn [app isolated]. rewrite N.eqb_refl.
      destruct (N.eqb_spec x DOLLAR); [congruence | exact IH]. }
    destruct (N.eqb_spec d 39) as [|_]; [contradiction|].
    assert (Hkeep : isolated (DOLLAR :: d
                                :: getSubstitution [DOLLAR; x] w pos [] s)
                    = true).
    { cbn [isolated]. now rewrite N.eqb_refl, Hdd. }
    assert (Hcap : forall y, (1 <=? y) && (y <=? 0) = false)
      by (intros [|y]; reflexivity).
    destruct (isDigit d) eqn:Dd.
    + cbn [length]. destruct s as [|d2 s'].
      * rewrite Hcap. exact Hkeep.
      * rewrite <- !andb_assoc, !Hcap, !andb_false_r. exact Hkeep.
    + cbn [getSubstitution]. rewrite Hdd. cbn [negb]. exact Hkeep.
Qed.

Lemma isolated_split :
  forall p X,
    isolated p = true ->
    replaceAll (p ++ X) [DOLLAR; x] v
    = replaceAll p [DOLLAR; x] v ++ replaceAll X [DOLLAR; x] v
    /\ isolated (replaceAll p [DOLLAR; x] v) = true.
Proof.
  destruct Hv as [Hiso Hq].
  intros p X. pattern p. apply pairs_ind; clear p.
  - intros _. split; reflexivity.
  - intros c H. cbn [isolated] in H.
    destruct (N.eqb_spec c DOLLAR) as [|Hc]; [discriminate|].
    rewrite (@replaceAll_plain [x] v Hq [c] X)
      by (intros [E|[]]; congruence).
    rewrite <- (app_nil_r [c]) at 2 3.
    rewrite (@replaceAll_plain [x] v Hq [c] [])
      by (intros [E|[]]; congruence).
    split; [reflexivity|]. cbn [app replaceAll replaceAllGo isolated].
    destruct (N.eqb_spec c DOLLAR); [congruence | reflexivity].
  - intros c d s IH IHd H.
    change (isolated (c :: d :: s))
      with (if N.eqb c DOLLAR
            then negb (N.eqb d DOLLAR) && isolated s
            else isolated (d :: s)) in H.
    destruct (N.eqb_spec c DOLLAR) as [->|Hc].
    + apply andb_true_iff in H. destruct H as [Hd Hs].
      apply negb_true_iff in Hd. apply N.eqb_neq in Hd.
      destruct (IH Hs) as [E1 I1].
      destruct (N.eq_dec d x) as [->|Hdx].
      * change ((DOLLAR :: x :: s) ++ X) with ([DOLLAR; x] ++ (s ++ X)).
        change (DOLLAR :: x :: s) with ([DOLLAR; x] ++ s).
        rewrite !(@replaceAll_hit [x] v Hq), E1.
        split; [now rewrite app_assoc|].
        apply isolated_app; [|exact I1].
        apply getSubstitution_isolated; [exact Hiso|].
        now apply noContext_spec.
      * change ((DOLLAR :: d :: s) ++ X) with (DOLLAR :: ([d] ++ (s ++ X))).
        change (DOLLAR :: d :: s) with (DOLLAR :: ([d] ++ s)).
        assert (Hm : forall r, startsWith ([d] ++ r) [x] = false).
        { intros r. cbn [app startsWith].
          destruct (N.eqb_spec x d); [congruence | reflexivity]. }
        rewrite !(@replaceAll_miss [x] v Hq) by apply Hm.
        rewrite !(@replaceAll_plain [x] v Hq [d])
          by (intros [E|[]]; congruence).
        rewrite E1. split; [reflexivity|].
        cbn [app isolated]. rewrite N.eqb_refl.
        destruct (N.eqb_spec d DOLLAR); [congruence|]. exact I1.
    + destruct (IHd H) as [E1 I1].
      change ((c :: d :: s) ++ X) with ([c] ++ ((d :: s) ++ X)).
      change (c :: d :: s) with ([c] ++ (d :: s)).
      rewrite !(@replaceAll_plain [x] v Hq [c])
        by (intros [E|[]]; congruence).
      rewrite E1. split; [reflexivity|].
      rewrite isolated_plain by (intros [E|[]]; congruence). exact I1.
Qed.

(** One step on a one-digit token [$n] that is not the step of the
    token. *)
Lemma isolated_step (n : nat) (p q : jsstring) :
  n <= 9 -> x <> (48 + N.of_nat n)%N ->
  isolated p = true ->
  replaceAll (p ++ DOLLAR :: natToString n ++ q) [DOLLAR; x] v
  = replaceAll p [DOLLAR; x] v
      ++ DOLLAR :: natToString n ++ replaceAll q [DOLLAR; x] v
  /\ replaceAll (p ++ q) [DOLLAR; x] v
     = replaceAll p [DOLLAR; x] v ++ replaceAll q [DOLLAR; x] v
  /\ isolated (replaceAll p [DOLLAR; x] v) = true.
Proof.
  intros Hn Hxn Hp.
  destruct (@isolated_split p (DOLLAR :: natToString n ++ q) Hp) as [-> _].
  destruct (@isolated_split p q Hp) as [-> Hp'].
  rewrite (@replaceAll_token [x] v (proj2 Hv)).
  - auto.
  - rewrite digit_numeral by assumption. cbn [app startsWith].
    destruct (N.eqb_spec x (48 + N.of_nat n)); [congruence | reflexivity].
Qed.

End Isolated.

Lemma pending_isolated :
  forall pre,
    dollarPending pre = false ->
    isolated (replaceAll pre [DOLLAR; DOLLAR] Scanner.dollarPlaceholder) = true.
Proof.
  assert (Hq : noContext Scanner.dollarPlaceholder) by (split; reflexivity).
  assert (Hone : forall c s, c <> DOLLAR ->
             replaceAll (c :: s) [DOLLAR; DOLLAR] Scanner.dollarPlaceholder
             = c :: replaceAll s [DOLLAR; DOLLAR] Scanner.dollarPlaceholder).
  { intros c s Hc.
    apply (@replaceAll_plain [DOLLAR] Scanner.dollarPlaceholder Hq [c] s).
    intros [E|[]]; congruence. }
  intros pre. pattern pre. apply pairs_ind; clear pre.
  - reflexivity.
  - intros c H. cbn [dollarPending] in H.
    destruct (N.eqb_spec c DOLLAR) as [|Hc]; [discriminate|].
    rewrite Hone by assumption. cbn [isolated].
    destruct (N.eqb_spec c DOLLAR); [congruence | reflexivity].
  - intros c d s IH IHd H.
    change (dollarPending (c :: d :: s))
      with (if N.eqb c DOLLAR
            then if N.eqb d DOLLAR then dollarPending s
                 else dollarPending (d :: s)
            else dollarPending (d :: s)) in H.
    destruct (N.eqb_spec c DOLLAR) as [->|Hc].
    + destruct (N.eqb_spec d DOLLAR) as [->|Hd].
      * change (DOLLAR :: DOLLAR :: s) with ([DOLLAR; DOLLAR] ++ s).
        rewrite (@replaceAll_hit [DOLLAR] Scanner.dollarPlaceholder Hq).
        rewrite isolated_plain; [now apply IH|].
        vm_compute. intuition discriminate.
      * rewrite (@replaceAll_miss [DOLLAR] Scanner.dollarPlaceholder Hq).
        2:{ cbn [startsWith].
            destruct (N.eqb_spec DOLLAR d); [congruence | reflexivity]. }
        specialize (IHd H). rewrite Hone in IHd |- * by assumption.
        cbn [isolated] in IHd |- *. rewrite N.eqb_refl.
        destruct (N.eqb_spec d DOLLAR); [congruence|]. exact IHd.
    + rewrite Hone by assumption. cbn [isolated].
      destruct (N.eqb_spec c DOLLAR); [congruence|]. now apply IHd.
Qed.

Section Short.
Import Scanner.
Variables line : jsstring.
Variable m : MatchResult.
Variable n : nat.
Hypothesis Hn : 1 <= n <= length (groups m).
Hypothesis Hnone : nth_error (groups m) (n - 1) = Some None.
Hypothesis Hshort : length (groups m) <= 9.
Hypothesis Htexts : matchTexts settled line m.

Lemma loop_isolated (k : nat) :
  forall p q,
    n <= k <= length (groups m) ->
    isolated p = true ->
    replaceGroups m k (p ++ DOLLAR :: natToString n ++ q)
    = replaceGroups m k (p ++ q).
Proof.
  destruct Htexts as (_ & _ & _ & Hgroups).
  induction k as [|k IH]; intros p q Hk Hp; [lia|].
  cbn [replaceGroups].
  pose (x := (48 + N.of_nat (S k))%N : char).
  assert (El : DOLLAR :: natToString (S k) = [DOLLAR; x]).
  { rewrite digit_numeral by lia. reflexivity. }
  assert (Hx : x <> DOLLAR) by (unfold x, DOLLAR; lia).
  rewrite El. destruct (Nat.eq_dec (S k) n) as [E|Hne].
  - f_equal.
    assert (Hv : groupValue m (S k) = []).
    { rewrite E. unfold groupValue. now rewrite Hnone. }
    rewrite Hv.
    assert (H0 : settled []) by (split; [|split]; reflexivity).
    destruct (@isolated_split x [] Hx H0 p
                (DOLLAR :: natToString n ++ q) Hp) as [-> _].
    destruct (@isolated_split x [] Hx H0 p q Hp) as [-> _].
    f_equal. rewrite <- E.
    change (DOLLAR :: natToString (S k) ++ q)
      with ((DOLLAR :: natToString (S k)) ++ q).
    rewrite El.
    now rewrite (@replaceAll_hit [x] [] (proj2 H0)).
  - destruct (@isolated_step x (groupValue m (S k)) Hx (Hgroups (S k))
                n p q) as (E1 & E2 & Hp'); auto; [lia | |].
    + unfold x. lia.
    + rewrite E1, E2. apply IH; [lia | exact Hp'].
Qed.

(** With at most nine groups and settled texts, every token whose group
    took no part in the match leaves nothing in the replacement text. *)
Lemma token_short (pre post : jsstring) :
  dollarPending pre = false ->
  substitute (pre ++ DOLLAR :: natToString n ++ post) line m
  = substitute (pre ++ post) line m.
Proof.
  intros Hpend. destruct Htexts as (Hbefore & Hafter & Hmatched & _).
  assert (Hq : noContext dollarPlaceholder) by (split; reflexivity).
  assert (H9 : n <= 9) by lia.
  unfold substitute.
  change (str "$$") with [DOLLAR; DOLLAR].
  change (str "$`") with [DOLLAR; BACKTICK].
  change (str "$'") with [DOLLAR; ch "'"].
  change (str "$&") with [DOLLAR; ch "&"].
  rewrite !(dollarPending_split Hq) by assumption.
  rewrite (@replaceAll_token [DOLLAR] dollarPlaceholder Hq)
    by now apply symbol_missed.
  pose proof (pending_isolated pre Hpend) as I1.
  destruct (@isolated_step BACKTICK (substring line 0 (index m))
              ltac:(discriminate) Hbefore n _
              (replaceAll post [DOLLAR; DOLLAR] dollarPlaceholder) H9
              ltac:(unfold BACKTICK; lia) I1) as (E2 & E2' & I2).
  rewrite E2, E2'.
  destruct (@isolated_step (ch "'")
              (substringFrom line (index m + length (matched m)))
              ltac:(discriminate) Hafter n _
              (replaceAll
                 (replaceAll post [DOLLAR; DOLLAR] dollarPlaceholder)
                 [DOLLAR; BACKTICK] (substring line 0 (index m))) H9
              ltac:(change (ch "'") with 39%N; lia) I2)
    as (E3 & E3' & I3).
  rewrite E3, E3'.
  destruct (@isolated_step (ch "&") (matched m)
              ltac:(discriminate) Hmatched n _
              (replaceAll
                 (replaceAll
                    (replaceAll post [DOLLAR; DOLLAR] dollarPlaceholder)
                    [DOLLAR; BACKTICK] (substring line 0 (index m)))
                 [DOLLAR; ch "'"]
                 (substringFrom line (index m + length (matched m)))) H9
              ltac:(change (ch "&") with 38%N; lia) I3)
    as (E4 & E4' & I4).
  rewrite E4, E4'.
  rewrite loop_isolated by (auto; lia). reflexivity.
Qed.

End Short.

(** ** A token no step looks for *)

Lemma restore_token (n : nat) (p q : jsstring) :
  replaceAll (p ++ DOLLAR :: natToString n ++ q)
    Scanner.dollarPlaceholder (str "$")
  = replaceAll p Scanner.dollarPlaceholder (str "$")
      ++ DOLLAR :: natToString n
      ++ replaceAll q Scanner.dollarPlaceholder (str "$").
Proof.
  assert (Hv : noContext (str "$")) by (split; reflexivity).
  assert (Hd : ~ In DOLLAR Scanner.dollarPlaceholder).
  { vm_compute. intuition discriminate. }
  assert (Hz : ~ In 0%N (DOLLAR :: natToString n)).
  { intros [E|H]; [discriminate|].
    destruct (natToString_spec n) as (_ & Hdig & _).
    exact (@digits_without 0%N _ Hdig eq_refl H). }
  unfold replaceAll at 1.
  rewrite replaceAllGo_app by (try apply fits_apart; auto; lia).
  rewrite (@replaceAllGo_rebase _ _ _ p p Hv 0 0 0). fold (replaceAll p
    Scanner.dollarPlaceholder (str "$")).
  f_equal.
  change (DOLLAR :: natToString n ++ q)
    with ((DOLLAR :: natToString n) ++ q).
  rewrite (@replaceAllGo_prefix Scanner.dollarPlaceholder (str "$") _ 0%N
             (str "DOLLAR" ++ [0%N]) (DOLLAR :: natToString n) q eq_refl Hz).
  cbn [app]. do 2 f_equal.
  apply replaceAllGo_rebase, Hv.
Qed.

Section Stays.
Import Scanner.
Variables line : jsstring.
Variable m : MatchResult.
Variable n : nat.
Hypothesis Hn : length (groups m) < n.
Hypothesis Hfree :
  forall k, 1 <= k <= length (groups m) ->
            startsWith (natToString n) (natToString k) = false.
Hypothesis Hcalm : matchTexts noContext line m.

Lemma group_passes (k : nat) (q : jsstring) :
  1 <= k <= length (groups m) ->
  startsWith (natToString n ++ q) (natToString k) = false.
Proof.
  intros Hk.
  destruct (startsWith (natToString n ++ q) (natToString k)) eqn:E; auto.
  pose proof (numeral_longer _ _ _ E) as Hlong.
  apply startsWith_spec in E. destruct E as [r Hr].
  apply app_eq_app in Hr. destruct Hr as [x [[Hx _]|[Hx _]]].
  - rewrite <- (Hfree Hk). symmetry. apply startsWith_spec. eauto.
  - destruct x as [|c x].
    + rewrite <- (Hfree Hk). symmetry. apply startsWith_spec.
      exists []. now rewrite Hx, !app_nil_r.
    + exfalso.
      destruct (natToString_spec n) as (_ & _ & Vn).
      destruct (natToString_spec k) as (_ & _ & Vk).
      assert (10 * n <= k).
      { rewrite <- Vk, Hx. change (c :: x) with ([c] ++ x).
        rewrite app_assoc.
        eapply Nat.le_trans; [|apply decimalValue_prefix].
        rewrite decimalValue_snoc, Vn. lia. }
      lia.
Qed.

Lemma step_stays (l v p q : jsstring) :
  noContext v -> ~ In DOLLAR l ->
  startsWith (natToString n ++ q) l = false ->
  replaceAll (p ++ DOLLAR :: natToString n ++ q) (DOLLAR :: l) v
  = replaceAll p (DOLLAR :: l) v
      ++ DOLLAR :: natToString n ++ replaceAll q (DOLLAR :: l) v.
Proof.
  intros Hv Hl Hmiss.
  rewrite (replaceAll_pieces Hv) by now apply fits_dollar.
  now rewrite (replaceAll_token l Hv).
Qed.

Lemma loop_stays (k : nat) :
  forall p q,
    k <= length (groups m) ->
    replaceGroups m k (p ++ DOLLAR :: natToString n ++ q)
    = replaceGroups m k p ++ DOLLAR :: natToString n ++ replaceGroups m k q.
Proof.
  destruct Hcalm as (_ & _ & _ & Hgroups).
  induction k as [|k IH]; intros p q Hk; [reflexivity|].
  cbn [replaceGroups].
  rewrite (@step_stays (natToString (S k)) (groupValue m (S k)) p q).
  - apply IH. lia.
  - apply Hgroups.
  - destruct (natToString_spec (S k)) as (_ & Hd & _).
    exact (@digits_without DOLLAR _ Hd eq_refl).
  - apply group_passes. lia.
Qed.

(** A token that no step looks for stays where it is, between what the
    template before it and the template after it give. *)
Lemma token_stays (pre post : jsstring) :
  dollarPending pre = false ->
  substitute (pre ++ DOLLAR :: natToString n ++ post) line m
  = substitute pre line m
      ++ DOLLAR :: natToString n ++ substitute post line m.
Proof.
  intros Hpend. destruct Hcalm as (Hbefore & Hafter & Hmatched & _).
  assert (Hq : noContext dollarPlaceholder) by (split; reflexivity).
  unfold substitute.
  change (str "$$") with [DOLLAR; DOLLAR].
  change (str "$`") with [DOLLAR; BACKTICK].
  change (str "$'") with [DOLLAR; ch "'"].
  change (str "$&") with [DOLLAR; ch "&"].
  rewrite (dollarPending_split Hq) by assumption.
  rewrite (@replaceAll_token [DOLLAR] dollarPlaceholder Hq)
    by now apply symbol_missed.
  rewrite (@step_stays [BACKTICK] _ _ _ Hbefore);
    [| intros [E|[]]; discriminate | now apply symbol_missed].
  rewrite (@step_stays [ch "'"] _ _ _ Hafter);
    [| intros [E|[]]; discriminate | now apply symbol_missed].
  rewrite (@step_stays [ch "&"] _ _ _ Hmatched);
    [| intros [E|[]]; discriminate | now apply symbol_missed].
  rewrite loop_stays by lia.
  apply restore_token.
Qed.

End Stays.

(** C2, as amended.  Take a [$n] token that does not lose its [$] to a
    [$$] before it.  If group [n] is one of the groups of the pattern
    and took no part in the match, the token resolves to the empty
    string - the replacement text is the one the template gives without
    the token - when the token stands apart from the text around it and
    no text of the match pulls in its surroundings, and also when the
    pattern has at most nine groups and the texts of the match are
    settled; in a template whose other text holds no [$] and no NUL
    character and does not go on with a digit, the replacement text is
    that other text.  If [n] exceeds the number of groups and no group
    index of the pattern is a decimal prefix of [n], the token is left
    as it is written, between what the template before it and the
    template after it give, when no text of the match pulls in its
    surroundings; so it is in a template whose other text holds no [$]
    and no NUL character, whenever no group index of the pattern is a
    decimal prefix of what follows the [$]. *)
Theorem group_token_resolution
    (pre post line : jsstring) (m : Scanner.MatchResult) (n : nat) :
  (1 <= n <= length (Scanner.groups m) ->
   nth_error (Scanner.groups m) (n - 1) = Some None ->
   dollarPending pre = false ->
   (matchTexts noContext line m
    /\ apart (length (Scanner.groups m)) n pre post)
   \/ (matchTexts settled line m /\ length (Scanner.groups m) <= 9) ->
   Scanner.substitute (pre ++ DOLLAR :: natToString n ++ post) line m
   = Scanner.substitute (pre ++ post) line m)
  /\ (inert pre -> inert post -> noDigitAhead post ->
      1 <= n <= length (Scanner.groups m) ->
      nth_error (Scanner.groups m) (n - 1) = Some None ->
      Scanner.substitute (pre ++ DOLLAR :: natToString n ++ post) line m
      = pre ++ post)
  /\ (length (Scanner.groups m) < n ->
      (forall k, 1 <= k <= length (Scanner.groups m) ->
                 startsWith (natToString n) (natToString k) = false) ->
      dollarPending pre = false ->
      matchTexts noContext line m ->
      Scanner.substitute (pre ++ DOLLAR :: natToString n ++ post) line m
      = Scanner.substitute pre line m
          ++ DOLLAR :: natToString n ++ Scanner.substitute post line m)
  /\ (inert pre -> inert post -> noDigitAhead post ->
      length (Scanner.groups m) < n ->
      (forall k, 1 <= k <= length (Scanner.groups m) ->
                 startsWith (natToString n ++ post) (natToString k) = false) ->
      Scanner.substitute (pre ++ DOLLAR :: natToString n ++ post) line m
      = pre ++ DOLLAR :: natToString n ++ post).
Proof.
  split; [|split; [|split]].
  - intros Hn Hnone Hpend [[Hcalm Hap] | [Htexts Hshort]].
    + now apply token_apart.
    + now apply token_short.
  - intros Hpre Hpost Hahead.
    exact (proj1 (@lone_token_resolution pre post line m n Hpre Hpost Hahead)).
  - intros Hn Hfree Hpend Hcalm. now apply token_stays.
  - intros Hpre Hpost Hahead.
    exact (proj2 (@lone_token_resolution pre post line m n Hpre Hpost Hahead)).
Qed.

(** C2, as claimed, fails: against a match of a pattern without groups
    (the pattern [a] on the line "a") the template "$1" stays "$1". *)
Lemma missing_group_token_stays :
  Scanner.substitute (str "$1") (str "a")
    {| Scanner.index := 0; Scanner.matched := str "a"; Scanner.groups := [] |}
  = str "$1"
  /\ Scanner.substitute (str "$1") (str "a")
       {| Scanner.index := 0; Scanner.matched := str "a";
          Scanner.groups := [] |} <> [].
Proof. split; [reflexivity | discriminate]. Qed.

(** Nor does every token of a group that took no part resolve to the
    empty string; each condition of the amended statement excludes a
    template on which the substitution goes another way (each is shown
    beside the template without the token).  After [$$] the text [$1]
    is no token and stays.  With ten groups [$1] followed by
    [$&] is read as [$10] once the match "0" is put in.  With a text
    before the match that ends in [$], the token [$2] between [$`] and
    [&] keeps that [$] and the [&] from being read as [$&].  With a text
    before the match that is itself [$'], the copy of the template it
    pulls in puts the token in front of a digit. *)
Example token_conditions_needed :
  let none n := repeat (@None jsstring) n in
  let m groups line index matched :=
    (line, {| Scanner.index := index; Scanner.matched := matched;
              Scanner.groups := groups |}) in
  let run t lm := Scanner.substitute (str t) (fst lm) (snd lm) in
  run "$$1"%string (m (none 1) (str "a") 0 (str "a")) = str "$1"
  /\ run "$"%string (m (none 1) (str "a") 0 (str "a")) = str "$"
  /\ run "$1$&"%string (m (none 9 ++ [Some (str "X")]) (str "0") 0 (str "0"))
     = str "X"
  /\ run "$&"%string (m (none 9 ++ [Some (str "X")]) (str "0") 0 (str "0"))
     = str "0"
  /\ run "$`$2&z"%string (m [Some (str "M"); None] (str "a$M") 2 (str "M"))
     = str "a$&z"
  /\ run "$`&z"%string (m [Some (str "M"); None] (str "a$M") 2 (str "M"))
     = str "aMz"
  /\ run "$`1$1"%string (m (none 11) (str "$'1'") 2 (str "1'")) = str "1"
  /\ run "$`1"%string (m (none 11) (str "$'1'") 2 (str "1'")) = str "11".
Proof. repeat split. Qed.

Lemma group_token_resolution_witness :
  let m := {| Scanner.index := 0; Scanner.matched := str "ab";
              Scanner.groups := [Some (str "ab"); None] |} in
  let m' := {| Scanner.index := 3; Scanner.matched := str "ab";
               Scanner.groups := [Some (str "ab"); None] |} in
  Scanner.substitute (str "$1-$2") (str "ab") m = str "ab-"
  /\ Scanner.substitute (str "$2 at $1") (str "ab") m = str " at ab"
  /\ Scanner.substitute (str "$2$1") (str "ab") m = str "ab"
  /\ Scanner.substitute (str "$1$2$1") (str "$5 ab") m' = str "abab"
  /\ Scanner.substitute (str "[$2]") (str "ab") m = str "[]"
  /\ Scanner.substitute (str "$1-$3") (str "ab") m = str "ab-$3"
  /\ Scanner.substitute (str "[$3]") (str "ab") m = str "[$3]".
Proof.
  intros m m'.
  assert (Hin : forall s : string,
             (forallb (fun c => negb (N.eqb c DOLLAR) && negb (N.eqb c 0))
                (str s) = true) -> inert (str s)).
  { intros s H. rewrite forallb_forall in H.
    split; intros Hc; apply H in Hc; discriminate. }
  assert (Hquiet : matchTexts noContext (str "ab") m).
  { repeat split. all: destruct k as [|[|[|[|k]]]]; reflexivity. }
  assert (Hsettled : matchTexts settled (str "$5 ab") m').
  { repeat split. all: destruct k as [|[|[|[|k]]]]; reflexivity. }
  assert (Hn : 1 <= 2 <= length (Scanner.groups m)) by (simpl; lia).
  split; [|split; [|split; [|split; [|split; [|split]]]]].
  - apply (proj1 (@group_token_resolution (str "$1-") [] (str "ab") m 2)
             Hn eq_refl eq_refl).
    left. split; [exact Hquiet | left; exact I].
  - apply (proj1 (@group_token_resolution [] (str " at $1") (str "ab") m 2)
             Hn eq_refl eq_refl).
    left. split; [exact Hquiet | left; reflexivity].
  - apply (proj1 (@group_token_resolution [] (str "$1") (str "ab") m 2)
             Hn eq_refl eq_refl).
    left. split; [exact Hquiet|]. right. split.
    + left. intros [].
    + left. simpl. lia.
  - apply (proj1 (@group_token_resolution (str "$1") (str "$1")
                    (str "$5 ab") m' 2) Hn eq_refl eq_refl).
    right. split; [exact Hsettled | simpl; lia].
  - apply (proj1 (proj2 (@group_token_resolution (str "[") (str "]")
                           (str "ab") m 2))
             (Hin "["%string eq_refl) (Hin "]"%string eq_refl) eq_refl Hn
             eq_refl).
  - apply (proj1 (proj2 (proj2 (@group_token_resolution (str "$1-") []
                                  (str "ab") m 3)))).
    + simpl; lia.
    + intros k Hk. simpl in Hk.
      destruct k as [|[|[|k]]]; try lia; reflexivity.
    + reflexivity.
    + exact Hquiet.
  - apply (proj2 (proj2 (proj2 (@group_token_resolution (str "[") (str "]")
                                  (str "ab") m 3)))
             (Hin "["%string eq_refl) (Hin "]"%string eq_refl) eq_refl).
    + simpl; lia.
    + intros k Hk. simpl in Hk.
      destruct k as [|[|[|k]]]; try lia; reflexivity.
Defined.

(** C4 (the code departs from it).  The text put in for [$&] is itself
    read as a template and scanned again by the later steps: for the
    match "$$5" (pattern [\$\$\d] on the line "price: $$5") the template
    "$&" yields "$5", and for the match "$1x" whose first group is "x"
    (pattern [\$1(x)]) it yields "xx". *)
Theorem whole_match_token_is_rescanned :
  Scanner.substitute (str "$&") (str "price: $$5")
    {| Scanner.index := 7; Scanner.matched := str "$$5";
       Scanner.groups := [] |}
  = str "$5"
  /\ Scanner.substitute (str "$&") (str "$1x")
       {| Scanner.index := 0; Scanner.matched := str "$1x";
          Scanner.groups := [Some (str "x")] |}
     = str "xx".
Proof. split; reflexivity. Qed.

(** The part of C4 that holds: the template "$$" yields one "$" for
    every match. *)
Lemma double_dollar_alone (line : jsstring) (m : Scanner.MatchResult) :
  Scanner.substitute (str "$$") line m = str "$".
Proof.
  unfold Scanner.substitute.
  change (replaceAll (str "$$") (str "$$") Scanner.dollarPlaceholder)
    with Scanner.dollarPlaceholder.
  assert (Hd : ~ In DOLLAR Scanner.dollarPlaceholder).
  { intros H; vm_compute in H; intuition discriminate. }
  assert (K : forall x repl,
             replaceAll Scanner.dollarPlaceholder [DOLLAR; x] repl
             = Scanner.dollarPlaceholder).
  { intros x repl. now apply (@replaceAll_absent _ _ _ DOLLAR [x]). }
  change (str "$`") with [DOLLAR; BACKTICK].
  change (str "$'") with [DOLLAR; 39%N].
  change (str "$&") with [DOLLAR; 38%N].
  rewrite !K, replaceGroups_inert by exact Hd.
  reflexivity.
Qed.

(** ** The matcher for the pattern literals *)

Section Matcher.
Import RegexLit.
Variable R : Type.

Lemma rep_sound (p : char -> bool) (s : jsstring) :
  forall lo hi pos (k : nat -> jsstring -> option R) x,
    rep p lo hi pos s k = Some x ->
    exists xs rest,
      s = xs ++ rest /\ forallb p xs = true /\ lo <= length xs
      /\ within hi (length xs) /\ k (pos + length xs) rest = Some x.
Proof.
  induction s as [|a s IH]; intros lo hi pos k x.
  - simpl. destruct lo; [|discriminate]. intros H.
    exists [], []. simpl. rewrite Nat.add_0_r.
    repeat split; auto. destruct hi; simpl; lia.
  - assert (Hstop : match lo with O => k pos (a :: s) | S _ => None end
                    = Some x ->
                    exists xs rest,
                      a :: s = xs ++ rest /\ forallb p xs = true
                      /\ lo <= length xs /\ within hi (length xs)
                      /\ k (pos + length xs) rest = Some x).
    { destruct lo; [|discriminate]. intros H.
      exists [], (a :: s). simpl. rewrite Nat.add_0_r.
      repeat split; auto. destruct hi; simpl; lia. }
    cbn [rep]. destruct (p a && canTake hi) eqn:E; [|exact Hstop].
    destruct (rep p (pred lo) (lessOne hi) (S pos) s k) as [y|] eqn:Er;
      [|exact Hstop].
    intros H; inversion H; subst y; clear H.
    apply IH in Er. destruct Er as (xs & rest & -> & Hall & Hlo & Hhi & Hk).
    apply andb_true_iff in E. destruct E as [Pa Ct].
    exists (a :: xs), rest. simpl. rewrite Pa, Hall.
    repeat split; auto; try lia.
    + destruct hi as [[|h]|]; simpl in *; try discriminate; auto; lia.
    + now rewrite <- Nat.add_succ_comm.
Qed.

(** The greedy choice: a whole run of the class, up to a character
    outside it, is taken when the rest of the pattern accepts that. *)
Lemma rep_greedy (p : char -> bool) (xs rest : jsstring) :
  forall lo hi pos (k : nat -> jsstring -> option R) x,
    forallb p xs = true -> lo <= length xs -> within hi (length xs) ->
    match rest with [] => True | a :: _ => p a = false end ->
    k (pos + length xs) rest = Some x ->
    rep p lo hi pos (xs ++ rest) k = Some x.
Proof.
  induction xs as [|a xs IH]; intros lo hi pos k x Hall Hlo Hhi Hrest Hk.
  - simpl in *. rewrite Nat.add_0_r in Hk.
    assert (lo = 0) by lia; subst lo.
    destruct rest as [|b rest]; simpl; auto.
    rewrite Hrest. simpl. exact Hk.
  - simpl in Hall. apply andb_true_iff in Hall. destruct Hall as [Pa Hall].
    simpl app. cbn [rep]. rewrite Pa.
    assert (Ct : canTake hi = true).
    { destruct hi as [[|h]|]; simpl in *; auto; lia. }
    rewrite Ct. simpl andb. cbv iota.
    rewrite (IH (pred lo) (lessOne hi) (S pos) k x); auto.
    + simpl in Hlo. lia.
    + destruct hi as [h|]; simpl in *; auto; lia.
    + simpl in Hk. now rewrite <- Nat.add_succ_comm in Hk.
Qed.

Lemma firstn_consumed (pos : nat) (xs rest : jsstring) :
  firstn (pos + length xs - pos) (xs ++ rest) = xs.
Proof.
  replace (pos + length xs - pos) with (length xs + 0) by lia.
  rewrite firstn_app_2. simpl. apply app_nil_r.
Qed.

Lemma run_sound (r : re) :
  forall pos s c (k : nat -> jsstring -> caps -> option R) x,
    run r pos s c k = Some x ->
    exists xs rest c',
      s = xs ++ rest /\ Matches r pos xs rest c c'
      /\ k (pos + length xs) rest c' = Some x.
Proof.
  induction r as [| |p|p lo hi|i r IH|r1 IH1 r2 IH2|r1 IH1 r2 IH2];
    intros pos s c k x; cbn [run].
  - destruct (Nat.eqb_spec pos 0) as [->|]; [|discriminate]. intros H.
    exists [], s, c. repeat split; auto. constructor.
  - destruct s; [|discriminate]. intros H.
    exists [], [], c. simpl. rewrite Nat.add_0_r.
    repeat split; auto. constructor.
  - destruct s as [|a s]; [discriminate|].
    destruct (p a) eqn:Pa; [|discriminate]. intros H.
    exists [a], s, c. simpl. rewrite Nat.add_1_r.
    repeat split; auto. now constructor.
  - intros H. apply rep_sound in H.
    destruct H as (xs & rest & -> & Hall & Hlo & Hhi & Hk).
    exists xs, rest, c. repeat split; auto. now constructor.
  - intros H. apply IH in H.
    destruct H as (xs & rest & c' & -> & Hm & Hk).
    rewrite firstn_consumed in Hk.
    exists xs, rest, (setCap i xs c'). repeat split; auto. now constructor.
  - intros H. apply IH1 in H.
    destruct H as (xs1 & rest1 & c1 & -> & Hm1 & Hk).
    apply IH2 in Hk.
    destruct Hk as (xs2 & rest & c2 & -> & Hm2 & Hk).
    exists (xs1 ++ xs2), rest, c2. rewrite <- app_assoc.
    repeat split; auto.
    + econstructor; eauto.
    + rewrite length_app, Nat.add_assoc. exact Hk.
  - destruct (run r1 pos s c k) as [y|] eqn:E1.
    + intros H; inversion H; subst y; clear H. apply IH1 in E1.
      destruct E1 as (xs & rest & c' & -> & Hm & Hk).
      exists xs, rest, c'. repeat split; auto. now apply MAltL.
    + intros H. apply IH2 in H.
      destruct H as (xs & rest & c' & -> & Hm & Hk).
      exists xs, rest, c'. repeat split; auto. now apply MAltR.
Qed.
End Matcher.

Section Search.
Import RegexLit.

Lemma matchAt_sound (r : re) (pos : nat) (s : jsstring) (f : found) :
  matchAt r pos s = Some f ->
  exists xs rest,
    s = xs ++ rest /\ Matches r pos xs rest noCaps (captures f)
    /\ start f = pos /\ stop f = pos + length xs.
Proof.
  unfold matchAt. intros H. apply run_sound in H.
  destruct H as (xs & rest & c' & -> & Hm & Hk).
  inversion Hk; subst f; clear Hk. simpl. eauto 10.
Qed.

Lemma searchFrom_sound (r : re) (s : jsstring) :
  forall pos f,
    searchFrom r pos s = Some f ->
    exists pre xs rest,
      s = pre ++ xs ++ rest
      /\ Matches r (pos + length pre) xs rest noCaps (captures f)
      /\ start f = pos + length pre
      /\ stop f = pos + length pre + length xs.
Proof.
  induction s as [|a s IH]; intros pos f; cbn [searchFrom].
  - destruct (matchAt r pos []) as [g|] eqn:E; [|discriminate].
    intros H; inversion H; subst g; clear H.
    apply matchAt_sound in E. destruct E as (xs & rest & Hs & Hm & Hst & Hsp).
    exists [], xs, rest. simpl. rewrite Nat.add_0_r. auto.
  - destruct (matchAt r pos (a :: s)) as [g|] eqn:E.
    + intros H; inversion H; subst g; clear H.
      apply matchAt_sound in E.
      destruct E as (xs & rest & Hs & Hm & Hst & Hsp).
      exists [], xs, rest. simpl. rewrite Nat.add_0_r. auto.
    + intros H. apply IH in H.
      destruct H as (pre & xs & rest & -> & Hm & Hst & Hsp).
      exists (a :: pre), xs, rest. simpl.
      rewrite <- Nat.add_succ_comm. auto.
Qed.

(** What [replace] with a replacer function returns. *)
Lemma replaceFn_cases (S : Type) (r : re) (s : jsstring)
    (fn : jsstring -> caps -> S -> jsstring * S) (st : S) :
  (exec r s = None /\ replaceFn r s fn st = (s, st))
  \/ exists f pre xs rest,
       exec r s = Some f
       /\ s = pre ++ xs ++ rest
       /\ Matches r (length pre) xs rest noCaps (captures f)
       /\ replaceFn r s fn st
          = (pre ++ fst (fn xs (captures f) st) ++ rest,
             snd (fn xs (captures f) st)).
Proof.
  unfold replaceFn. destruct (exec r s) as [f|] eqn:E; [right | left; auto].
  unfold exec in E. apply searchFrom_sound in E.
  destruct E as (pre & xs & rest & -> & Hm & Hst & Hsp). simpl in *.
  exists f, pre, xs, rest. repeat split; auto.
  rewrite Hst, Hsp.
  replace (length pre + length xs - length pre) with (length xs) by lia.
  rewrite skipn_app, Nat.sub_diag, skipn_all. simpl.
  rewrite firstn_app, Nat.sub_diag, firstn_all. simpl. rewrite app_nil_r.
  rewrite firstn_app, firstn_all2 by lia.
  replace (length pre - length pre) with 0 by lia. simpl. rewrite app_nil_r.
  rewrite skipn_app, skipn_all2 by lia. simpl.
  replace (length pre + length xs - length pre) with (length xs) by lia.
  rewrite skipn_app, skipn_all, Nat.sub_diag. simpl.
  destruct (fn xs (captures f) st); reflexivity.
Qed.
End Search.

(** ** What the matches of a pattern look like *)

Ltac inv H := inversion H; subst; clear H.

Ltac inv_matches :=
  repeat match goal with
         | H : Matches (RegexLit.Seq _ _) _ _ _ _ _ |- _ => inv H
         | H : Matches (RegexLit.Grp _ _) _ _ _ _ _ |- _ => inv H
         | H : Matches (RegexLit.Alt _ _) _ _ _ _ _ |- _ => inv H
         | H : Matches (RegexLit.Cls _) _ _ _ _ _ |- _ => inv H
         | H : Matches (RegexLit.Rep _ _ _) _ _ _ _ _ |- _ => inv H
         | H : Matches RegexLit.Bol _ _ _ _ _ |- _ => inv H
         | H : Matches RegexLit.Eol _ _ _ _ _ |- _ => inv H
         end.

Lemma Matches_caps (r : RegexLit.re) pos xs rest c c' :
  Matches r pos xs rest c c' ->
  forall s, capsFrom c s -> incl xs s -> capsFrom c' s.
Proof.
  induction 1; intros s Hc Hx; auto.
  - intros j v. unfold RegexLit.setCap.
    destruct (Nat.eqb j i).
    + intros E; inversion E; subst; auto.
    + apply IHMatches; auto.
  - apply incl_app_inv in Hx. destruct Hx as [Hx1 Hx2].
    apply IHMatches2; auto.
Qed.

Lemma group_from (c : RegexLit.caps) (s : jsstring) (i : nat) :
  capsFrom c s -> incl (RegexLit.group c i) s.
Proof.
  intros Hc. unfold RegexLit.group. destruct (c i) eqn:E.
  - eapply Hc; eauto.
  - intros x [].
Qed.

Lemma noCaps_from (s : jsstring) : capsFrom RegexLit.noCaps s.
Proof. intros i v H. discriminate. Qed.

(** Two ways to cut a text after a run of a class, each before a
    character outside the class, are the same cut. *)
Lemma span_unique (p : char -> bool) (xs ys : jsstring) :
  forall a b r r',
    xs ++ a :: r = ys ++ b :: r' ->
    forallb p xs = true -> forallb p ys = true ->
    p a = false -> p b = false ->
    xs = ys /\ a = b /\ r = r'.
Proof.
  revert ys; induction xs as [|x xs IH]; intros [|y ys] a b r r' E Hx Hy Pa Pb;
    simpl in *.
  - inversion E; auto.
  - inversion E; subst. apply andb_true_iff in Hy. destruct Hy. congruence.
  - inversion E; subst. apply andb_true_iff in Hx. destruct Hx. congruence.
  - inversion E; subst.
    apply andb_true_iff in Hx. apply andb_true_iff in Hy.
    destruct Hx, Hy.
    destruct (IH ys a b r r') as (-> & -> & ->); auto.
Qed.

Lemma only_true (x c : char) : RegexLit.only x c = true -> c = x.
Proof. unfold RegexLit.only. apply N.eqb_eq. Qed.

Lemma plainChar_hash : plainChar HASH.
Proof. repeat split; discriminate. Qed.

Lemma plainChar_bullet c : RegexLit.bullet c = true -> plainChar c.
Proof.
  unfold RegexLit.bullet. rewrite !orb_true_iff, !N.eqb_eq.
  intros [[->| ->]| ->]; repeat split; discriminate.
Qed.

Lemma plainChar_digit c : RegexLit.digit c = true -> plainChar c.
Proof.
  unfold RegexLit.digit, isDigit. rewrite andb_true_iff, !N.leb_le.
  intros [H1 H2]. repeat split.
  - unfold isWhiteSpace, isLineTerminator.
    repeat match goal with
           | |- context [N.eqb c ?k] =>
               destruct (N.eqb_spec c k); [lia|]
           end.
    simpl. destruct (N.leb_spec 8192 c); [lia | reflexivity].
  - unfold BACKTICK; lia.
  - unfold TILDE; lia.
Qed.

Lemma fence_none_plain (s : jsstring) :
  startsPlain s -> Markdown.fenceMatch s = None.
Proof.
  intros (sp & c & rest & -> & Hsp & Hws & Hb & Ht).
  unfold Markdown.fenceMatch.
  destruct (RegexLit.exec RegexLit.fenceRe (sp ++ c :: rest)) as [f|] eqn:E;
    auto.
  exfalso. unfold RegexLit.exec in E. apply searchFrom_sound in E.
  destruct E as (pre & xs & rest' & Hs & Hm & _).
  unfold RegexLit.fenceRe in Hm. inv_matches;
    (destruct pre; [|discriminate]); simpl in Hs;
    repeat rewrite <- app_assoc in Hs; simpl in Hs;
    match type of Hs with
    | _ = _ ++ ?x :: _ =>
        match goal with
        | H : RegexLit.only ?k x = true |- _ =>
            apply only_true in H; subst x;
            apply span_unique with (p := isWhiteSpace) in Hs;
            [destruct Hs as (_ & Hc & _); congruence | auto ..]
        end
    end.
Qed.

(** ** The rewriting rules, one line at a time *)

Lemma dropWhile_incl (p : char -> bool) (s : jsstring) :
  incl (dropWhile p s) s.
Proof.
  induction s as [|c s IH]; simpl; [apply incl_refl|].
  destruct (p c); [now apply incl_tl | apply incl_refl].
Qed.

Lemma trim_incl (s : jsstring) : incl (trim s) s.
Proof.
  unfold trim, trimEnd, trimStart. intros x Hx.
  apply in_rev in Hx. apply dropWhile_incl in Hx. apply in_rev in Hx.
  now apply dropWhile_incl in Hx.
Qed.

Lemma replaceFn_chars (S : Type) (P : char -> Prop) (r : RegexLit.re)
    (s : jsstring) (fn : jsstring -> RegexLit.caps -> S -> jsstring * S)
    (st : S) :
  (forall xs c st', capsFrom c xs ->
     forall x, In x (fst (fn xs c st')) -> In x xs \/ P x) ->
  forall x, In x (fst (RegexLit.replaceFn r s fn st)) -> In x s \/ P x.
Proof.
  intros Hfn x.
  destruct (replaceFn_cases r s fn st)
    as [[_ ->] | (f & pre & xs & rest & _ & -> & Hm & ->)]; simpl; auto.
  intros H. apply in_app_or in H. destruct H as [H|H].
  - left. apply in_or_app; auto.
  - apply in_app_or in H. destruct H as [H|H].
    + apply Hfn in H.
      * destruct H; auto. left. apply in_or_app; right. apply in_or_app; auto.
      * eapply Matches_caps; eauto using noCaps_from, incl_refl.
    + left. apply in_or_app; right. apply in_or_app; auto.
Qed.

Ltac in_pieces :=
  repeat match goal with
         | H : In _ (_ ++ _) |- _ => apply in_app_or in H; destruct H as [H|H]
         | H : In _ (RegexLit.group _ _) |- _ =>
             left; eapply group_from; eauto
         | H : In _ (trim _) |- _ => apply trim_incl in H
         | H : In _ [] |- _ => destruct H
         | H : In _ (_ :: _) |- _ =>
             destruct H as [H|H];
             [subst; right; first [left; reflexivity | right; reflexivity]|]
         end.

Lemma spaced_chars (xs : jsstring) (c : RegexLit.caps) :
  capsFrom c xs ->
  forall x, In x (Markdown.spaced c) -> In x xs \/ added x.
Proof.
  intros Hc x H. unfold Markdown.spaced in H. simpl in H. in_pieces.
Qed.

Lemma fixLine_chars (line : jsstring) (st : Markdown.Stats) :
  forall x, In x (fst (Markdown.fixLine line st)) -> In x line \/ added x.
Proof.
  unfold Markdown.fixLine.
  destruct (Markdown.dupHead line st) as [u1 st1] eqn:E1.
  destruct (Markdown.capHead u1 st1) as [u2 st2] eqn:E2.
  destruct (Markdown.normHead u2 st2) as [u3 st3] eqn:E3.
  destruct (Markdown.listBullet u3 st3) as [u4 st4] eqn:E4.
  assert (H1 : forall x, In x u1 -> In x line \/ added x).
  { change u1 with (fst (u1, st1)). rewrite <- E1. unfold Markdown.dupHead.
    apply (@replaceFn_chars _ added). intros xs c st' Hc x H. simpl in H. in_pieces. }
  assert (H2 : forall x, In x u2 -> In x u1 \/ added x).
  { change u2 with (fst (u2, st2)). rewrite <- E2. unfold Markdown.capHead.
    apply (@replaceFn_chars _ added). intros xs c st' Hc x H. simpl in H. in_pieces. }
  assert (H3 : forall x, In x u3 -> In x u2 \/ added x).
  { change u3 with (fst (u3, st3)). rewrite <- E3. unfold Markdown.normHead.
    apply (@replaceFn_chars _ added). intros xs c st' Hc x H. simpl in H.
    eapply spaced_chars; eauto. }
  assert (H4 : forall x, In x u4 -> In x u3 \/ added x).
  { change u4 with (fst (u4, st4)). rewrite <- E4. unfold Markdown.listBullet.
    apply (@replaceFn_chars _ added). intros xs c st' Hc x H. simpl in H.
    eapply spaced_chars; eauto. }
  intros x H.
  assert (H5 : In x u4 \/ added x).
  { revert H. unfold Markdown.listOrdered.
    apply (@replaceFn_chars _ added). intros xs c st' Hc y H. simpl in H.
    eapply spaced_chars; eauto. }
  destruct H5 as [H5|]; auto. apply H4 in H5.
  destruct H5 as [H5|]; auto. apply H3 in H5.
  destruct H5 as [H5|]; auto. apply H2 in H5.
  destruct H5 as [H5|]; auto.
Qed.

Lemma trimLine_chars (line : jsstring) :
  forall x, In x (Markdown.trimLine line) -> In x line.
Proof.
  intros x H. unfold Markdown.trimLine in H.
  apply (@replaceFn_chars unit (fun _ => False)) in H.
  - tauto.
  - intros xs c st' Hc y Hy. simpl in Hy. tauto.
Qed.

(** A rule that fires leaves a line that starts, after its leading white
    space, with a heading hash, a bullet or a digit. *)
Ltac rule_fired re :=
  match goal with
  | |- context [RegexLit.replaceFn re ?s ?fn ?st] =>
      destruct (replaceFn_cases re s fn st)
        as [[_ ->] | (?f & ?pre & ?xs & ?rest & _ & ?Hs & ?Hm & ->)];
      [left; reflexivity | right]
  end;
  match goal with H : Matches re _ _ _ _ _ |- _ => unfold re in H end;
  inv_matches;
  match goal with
  | H : 0 = length ?pre |- _ => destruct pre; [clear H | discriminate]
  end;
  try match goal with H : _ = RegexLit.captures _ |- _ => rewrite <- H end;
  cbn [fst app]; unfold RegexLit.group, RegexLit.setCap; cbn [Nat.eqb].

Lemma head_of_run (p : char -> bool) (xs : jsstring) :
  forallb p xs = true -> 1 <= length xs ->
  exists c xs', xs = c :: xs' /\ p c = true.
Proof.
  destruct xs as [|c xs]; simpl; [lia|].
  intros H _. apply andb_true_iff in H. destruct H. eauto.
Qed.

Ltac plain_after sp :=
  match goal with
  | |- startsPlain ?out =>
      match goal with
      | Hrun : forallb ?p ?g = true, Hlen : 1 <= length ?g |- _ =>
          match out with
          | context [sp ++ g ++ _] =>
              let c := fresh "c" in
              let g' := fresh "g" in
              let Hc := fresh "Hc" in
              destruct (head_of_run p g Hrun Hlen) as (c & g' & -> & Hc);
              exists sp, c; eexists;
              split; [simpl; rewrite <- ?app_assoc; simpl; reflexivity|];
              split; [assumption|]
          end
      end
  end.

Lemma dupHead_shape (line : jsstring) (st : Markdown.Stats) :
  fst (Markdown.dupHead line st) = line
  \/ startsPlain (fst (Markdown.dupHead line st)).
Proof.
  unfold Markdown.dupHead. rule_fired RegexLit.dupHeadRe.
  plain_after xs0. apply only_true in Hc. subst. apply plainChar_hash.
Qed.

Lemma capHead_shape (line : jsstring) (st : Markdown.Stats) :
  fst (Markdown.capHead line st) = line
  \/ startsPlain (fst (Markdown.capHead line st)).
Proof.
  unfold Markdown.capHead. rule_fired RegexLit.capHeadRe.
  exists xs0, HASH. eexists.
  split; [rewrite <- app_assoc; reflexivity|].
  split; [assumption | apply plainChar_hash].
Qed.

Lemma normHead_shape (line : jsstring) (st : Markdown.Stats) :
  fst (Markdown.normHead line st) = line
  \/ startsPlain (fst (Markdown.normHead line st)).
Proof.
  unfold Markdown.normHead, Markdown.spaced.
  rule_fired RegexLit.normHeadRe.
  plain_after xs0. apply only_true in Hc. subst. apply plainChar_hash.
Qed.

Lemma listBullet_shape (line : jsstring) (st : Markdown.Stats) :
  fst (Markdown.listBullet line st) = line
  \/ startsPlain (fst (Markdown.listBullet line st)).
Proof.
  unfold Markdown.listBullet, Markdown.spaced.
  rule_fired RegexLit.listBulletRe.
  match goal with
  | H : RegexLit.bullet ?b = true |- _ =>
      exists xs0, b; eexists;
      split; [rewrite <- ?app_assoc; simpl; reflexivity|];
      split; [assumption | now apply plainChar_bullet]
  end.
Qed.

Lemma listOrdered_shape (line : jsstring) (st : Markdown.Stats) :
  fst (Markdown.listOrdered line st) = line
  \/ startsPlain (fst (Markdown.listOrdered line st)).
Proof.
  unfold Markdown.listOrdered, Markdown.spaced.
  rule_fired RegexLit.listOrderedRe.
  match goal with
  | Hrun : forallb RegexLit.digit ?g = true, Hlen : 1 <= length ?g |- _ =>
      destruct (head_of_run _ g Hrun Hlen) as (d & g' & -> & Hd);
      exists xs0, d; eexists;
      split; [simpl; rewrite <- ?app_assoc; simpl; reflexivity|];
      split; [assumption | now apply plainChar_digit]
  end.
Qed.

Lemma startsPlain_kept (u v : jsstring) :
  startsPlain u -> v = u \/ startsPlain v -> startsPlain v.
Proof. intros Hu [->|Hv]; auto. Qed.

Lemma fixLine_shape (line : jsstring) (st : Markdown.Stats) :
  fst (Markdown.fixLine line st) = line
  \/ startsPlain (fst (Markdown.fixLine line st)).
Proof.
  unfold Markdown.fixLine.
  pose proof (dupHead_shape line st) as H1.
  destruct (Markdown.dupHead line st) as [u1 st1].
  pose proof (capHead_shape u1 st1) as H2.
  destruct (Markdown.capHead u1 st1) as [u2 st2].
  pose proof (normHead_shape u2 st2) as H3.
  destruct (Markdown.normHead u2 st2) as [u3 st3].
  pose proof (listBullet_shape u3 st3) as H4.
  destruct (Markdown.listBullet u3 st3) as [u4 st4].
  pose proof (listOrdered_shape u4 st4) as H5.
  destruct (Markdown.listOrdered u4 st4) as [u5 st5].
  simpl in *.
  destruct H1 as [->|P1].
  - destruct H2 as [->|P2].
    + destruct H3 as [->|P3].
      * destruct H4 as [->|P4]; [exact H5|].
        right. eapply startsPlain_kept; eauto.
      * right. eapply startsPlain_kept; [|exact H5].
        eapply startsPlain_kept; eauto.
    + right. eapply startsPlain_kept; [|exact H5].
      eapply startsPlain_kept; [|exact H4].
      eapply startsPlain_kept; eauto.
  - right. eapply startsPlain_kept; [|exact H5].
    eapply startsPlain_kept; [|exact H4].
    eapply startsPlain_kept; [|exact H3].
    eapply startsPlain_kept; eauto.
Qed.

(** A line that is not a fence delimiter is not turned into one. *)
Lemma fixLine_fence (line : jsstring) (st : Markdown.Stats) :
  Markdown.fenceMatch line = None ->
  Markdown.fenceMatch (fst (Markdown.fixLine line st)) = None.
Proof.
  intros H. destruct (fixLine_shape line st) as [->|P]; auto.
  now apply fence_none_plain.
Qed.

(** ** Lines and line breaks *)

Lemma splitAux_LF_oneLine (l rest cur : jsstring) :
  oneLine l ->
  splitAux [LF] (l ++ rest) 0 cur = splitAux [LF] rest 0 (cur ++ l).
Proof.
  revert cur; induction l as [|c l IH]; intros cur Hl;
    cbn [app splitAux startsWith].
  - now rewrite app_nil_r.
  - destruct (N.eqb_spec LF c) as [<-|Hc]; [destruct Hl; simpl; auto|].
    cbn [andb]. rewrite IH.
    + now rewrite <- app_assoc.
    + intros H. apply Hl. simpl; auto.
Qed.

Lemma splitAux_join_LF (lines : list jsstring) :
  forall cur first rest,
    lines = first :: rest -> Forall oneLine lines ->
    splitAux [LF] (join lines [LF]) 0 cur = (cur ++ first) :: rest.
Proof.
  induction lines as [|x lines IH]; intros cur first rest E Hall;
    [discriminate|].
  inversion E; subst; clear E. inversion Hall; subst.
  destruct rest as [|y rest].
  - simpl. rewrite <- (app_nil_r first) at 1.
    now rewrite splitAux_LF_oneLine.
  - change (join (first :: y :: rest) [LF])
      with (first ++ [LF] ++ join (y :: rest) [LF]).
    rewrite splitAux_LF_oneLine by assumption.
    remember (join (y :: rest) [LF]) as tail eqn:Et.
    cbn [app splitAux startsWith length Nat.sub]. rewrite N.eqb_refl.
    cbn [andb]. f_equal. subst tail.
    rewrite (IH [] y rest); auto.
Qed.

Lemma split_join_LF (lines : list jsstring) :
  lines <> [] -> Forall oneLine lines -> split (join lines [LF]) [LF] = lines.
Proof.
  intros Hne Hall. destruct lines as [|x rest]; [congruence|].
  unfold split. now rewrite (@splitAux_join_LF (x :: rest) [] x rest).
Qed.

Lemma splitAux_LF_lines (s : jsstring) :
  forall cur, oneLine cur -> Forall oneLine (splitAux [LF] s 0 cur).
Proof.
  induction s as [|c s IH]; intros cur Hcur; cbn [splitAux startsWith].
  - repeat constructor; auto.
  - destruct (N.eqb_spec LF c) as [<-|Hc]; cbn [andb length Nat.sub].
    + constructor; auto. apply IH. intros [].
    + apply IH. intros H. apply in_app_or in H.
      destruct H as [H|[H|[]]]; auto.
Qed.

Lemma split_LF_lines (text : jsstring) : Forall oneLine (split text [LF]).
Proof. unfold split. apply splitAux_LF_lines. intros []. Qed.

Lemma splitAux_nonempty (sep s cur : jsstring) (skip : nat) :
  splitAux sep s skip cur <> [].
Proof.
  revert skip cur; induction s as [|c s IH]; intros skip cur; simpl;
    [discriminate|].
  destruct skip; auto. destruct (startsWith (c :: s) sep); [discriminate|auto].
Qed.

Lemma split_LF_nonempty (text : jsstring) : split text [LF] <> [].
Proof. unfold split. apply splitAux_nonempty. Qed.

(** ** The two loops over the lines *)

Section Passes.
Import Markdown.

Lemma firstPass_length (lines : list jsstring) :
  forall f st, length (fst (firstPass lines f st)) = length lines.
Proof.
  induction lines as [|line rest IH]; intros f st; simpl; auto.
  destruct (fenceMatch line).
  - specialize (IH (toggle f j) st).
    destruct (firstPass rest (toggle f j) st); simpl in *; auto.
  - destruct (inFence f).
    + specialize (IH f st). destruct (firstPass rest f st); simpl in *; auto.
    + destruct (fixLine line st) as [u st1].
      specialize (IH f st1).
      destruct (firstPass rest f st1); simpl in *; auto.
Qed.

Lemma firstPass_fence (lines : list jsstring) :
  forall f st,
    map fenceMatch (fst (firstPass lines f st)) = map fenceMatch lines.
Proof.
  induction lines as [|line rest IH]; intros f st; simpl; auto.
  destruct (fenceMatch line) eqn:E.
  - specialize (IH (toggle f j) st).
    destruct (firstPass rest (toggle f j) st); simpl in *. congruence.
  - destruct (inFence f).
    + specialize (IH f st). destruct (firstPass rest f st); simpl in *.
      congruence.
    + pose proof (fixLine_fence line st E) as Hf.
      destruct (fixLine line st) as [u st1].
      specialize (IH f st1).
      destruct (firstPass rest f st1); simpl in *. congruence.
Qed.

Lemma firstPass_oneLine (lines : list jsstring) :
  forall f st,
    Forall oneLine lines -> Forall oneLine (fst (firstPass lines f st)).
Proof.
  induction lines as [|line rest IH]; intros f st Hall; simpl; auto.
  inversion Hall; subst.
  destruct (fenceMatch line).
  - specialize (IH (toggle f j) st).
    destruct (firstPass rest (toggle f j) st); simpl in *; auto.
  - destruct (inFence f).
    + specialize (IH f st). destruct (firstPass rest f st); simpl in *; auto.
    + pose proof (fixLine_chars line st) as Hc.
      destruct (fixLine line st) as [u st1].
      specialize (IH f st1).
      destruct (firstPass rest f st1); simpl in *.
      constructor; auto.
      intros Hin. apply Hc in Hin.
      destruct Hin as [Hin|[Hin|Hin]]; [auto | discriminate | discriminate].
Qed.

Lemma fence_fold_ext (l1 l2 : list jsstring) :
  map fenceMatch l1 = map fenceMatch l2 ->
  forall f, fold_left fenceStep l1 f = fold_left fenceStep l2 f.
Proof.
  revert l2; induction l1 as [|a l1 IH]; intros [|b l2] E f;
    simpl in *; try discriminate; auto.
  inversion E. unfold fenceStep at 2 4. rewrite H0. now apply IH.
Qed.

Lemma firstPass_app (a b : list jsstring) :
  forall f st,
    firstPass (a ++ b) f st
    = (fst (firstPass a f st)
         ++ fst (firstPass b (fold_left fenceStep a f)
                   (snd (firstPass a f st))),
       snd (firstPass b (fold_left fenceStep a f) (snd (firstPass a f st)))).
Proof.
  induction a as [|line a IH]; intros f st;
    cbn [app firstPass fold_left fst snd].
  - now destruct (firstPass b f st).
  - destruct (fenceMatch line) as [j|] eqn:E.
    + replace (fenceStep f line) with (toggle f j)
        by (unfold fenceStep; now rewrite E).
      rewrite IH. destruct (firstPass a (toggle f j) st). reflexivity.
    + replace (fenceStep f line) with f
        by (unfold fenceStep; now rewrite E).
      destruct (inFence f).
      * rewrite IH. destruct (firstPass a f st). reflexivity.
      * destruct (fixLine line st) as [u st1].
        rewrite IH. destruct (firstPass a f st1). reflexivity.
Qed.

Lemma secondPass_length (lines : list jsstring) :
  forall f n, length (fst (secondPass lines f n)) = length lines.
Proof.
  induction lines as [|line rest IH]; intros f n; simpl; auto.
  repeat match goal with
         | |- context [if ?b then _ else _] => destruct b
         end;
    match goal with
    | |- context [secondPass rest ?f' ?n'] =>
        specialize (IH f' n'); destruct (secondPass rest f' n')
    end; simpl in *; auto.
Qed.

Lemma secondPass_oneLine (lines : list jsstring) :
  forall f n,
    Forall oneLine lines -> Forall oneLine (fst (secondPass lines f n)).
Proof.
  induction lines as [|line rest IH]; intros f n Hall; simpl; auto.
  inversion Hall; subst.
  assert (Ht : oneLine (trimLine line)).
  { intros H. now apply trimLine_chars in H. }
  repeat match goal with
         | |- context [if ?b then _ else _] => destruct b
         end;
    match goal with
    | |- context [secondPass rest ?f' ?n'] =>
        specialize (IH f' n'); destruct (secondPass rest f' n')
    end; simpl in *; auto.
Qed.

Lemma secondPass_app (a b : list jsstring) :
  forall f n,
    secondPass (a ++ b) f n
    = (fst (secondPass a f n)
         ++ fst (secondPass b (fold_left fenceStep a f)
                   (snd (secondPass a f n))),
       snd (secondPass b (fold_left fenceStep a f) (snd (secondPass a f n)))).
Proof.
  induction a as [|line a IH]; intros f n;
    cbn [app secondPass fold_left fst snd].
  - now destruct (secondPass b f n).
  - repeat match goal with
           | |- context [if ?c then _ else _] => destruct c
           end;
      rewrite IH;
      match goal with
      | |- context [secondPass a ?f' ?n'] => destruct (secondPass a f' n')
      end; reflexivity.
Qed.

Lemma fixLines_length (lines : list jsstring) :
  length (fst (fixLines lines)) = length lines.
Proof.
  unfold fixLines.
  pose proof (firstPass_length lines noFence []) as H1.
  destruct (firstPass lines noFence []) as [l1 st].
  pose proof (secondPass_length l1 noFence 0) as H2.
  destruct (secondPass l1 noFence 0) as [l2 fixes].
  simpl in *. congruence.
Qed.

Lemma fixLines_oneLine (lines : list jsstring) :
  Forall oneLine lines -> Forall oneLine (fst (fixLines lines)).
Proof.
  intros Hall. unfold fixLines.
  pose proof (@firstPass_oneLine lines noFence [] Hall) as H1.
  destruct (firstPass lines noFence []) as [l1 st].
  pose proof (@secondPass_oneLine l1 noFence 0 H1) as H2.
  destruct (secondPass l1 noFence 0) as [l2 fixes].
  exact H2.
Qed.

(** The lines of the result are the rewritten lines. *)
Lemma fixed_lines (text : jsstring) :
  split (fst (fixMarkdownFormatting text)) [LF]
  = fst (fixLines (split text [LF])).
Proof.
  unfold fixMarkdownFormatting.
  pose proof (fixLines_length (split text [LF])) as Hlen.
  pose proof (fixLines_oneLine (split_LF_lines text)) as Hone.
  destruct (fixLines (split text [LF])) as [lines st]. cbn [fst] in *.
  apply split_join_LF; auto.
  intros ->. pose proof (split_LF_nonempty text) as Hne.
  destruct (split text [LF]); [congruence | discriminate].
Qed.

(** C10.  The fixer keeps the number of lines: its result, split on line
    breaks, has as many lines as its input. *)
Theorem fixMarkdownFormatting_keeps_line_count (text : jsstring) :
  length (split (fst (fixMarkdownFormatting text)) [LF])
  = length (split text [LF]).
Proof. rewrite fixed_lines. apply fixLines_length. Qed.
End Passes.

(** ** A heading with more than six hashes *)

Lemma rep_greedy_all (R : Type) (p : char -> bool) (xs : jsstring)
    lo hi pos (k : nat -> jsstring -> option R) x :
  forallb p xs = true -> lo <= length xs -> within hi (length xs) ->
  k (pos + length xs) [] = Some x ->
  RegexLit.rep p lo hi pos xs k = Some x.
Proof.
  intros. rewrite <- (app_nil_r xs) at 1. now apply rep_greedy.
Qed.

Lemma hashes_run (n : nat) :
  forallb (RegexLit.only HASH) (repeat HASH n) = true.
Proof. induction n; simpl; auto. Qed.

Lemma ws_not_hash (c : char) :
  isWhiteSpace c = true -> RegexLit.only HASH c = false.
Proof.
  unfold RegexLit.only. destruct (N.eqb_spec c HASH) as [->|]; auto;
    discriminate.
Qed.

Lemma nonWs_not_blank (c : char) :
  isWhiteSpace c = false -> RegexLit.blank c = false.
Proof.
  unfold RegexLit.blank.
  destruct (N.eqb_spec c SPACE) as [->|]; [discriminate|].
  destruct (N.eqb_spec c TAB) as [->|]; [discriminate|]. auto.
Qed.

(** A rule whose pattern cannot match returns its line untouched. *)
Ltac rule_silent re :=
  match goal with
  | |- context [RegexLit.replaceFn re ?s ?fn ?st] =>
      destruct (replaceFn_cases re s fn st)
        as [[_ ->] | (?f & ?pre & ?xs & ?rest & _ & ?Hs & ?Hm & _)];
      [reflexivity | exfalso]
  end;
  match goal with H : Matches re _ _ _ _ _ |- _ => unfold re in H end;
  inv_matches;
  match goal with
  | H : 0 = length ?pre |- _ => destruct pre; [clear H | discriminate]
  end.

Section Heading.
Import RegexLit Markdown.
Variables indent gap body : jsstring.
Variable n : nat.
Hypothesis Hindent : forallb isWhiteSpace indent = true.
Hypothesis Hn : 7 <= n.
Hypothesis Hgap : gap <> [].
Hypothesis Hgapws : forallb isWhiteSpace gap = true.
Hypothesis Hbody : headingText body.

Let heading : jsstring := indent ++ repeat HASH n ++ gap ++ body.
Let capped : jsstring := indent ++ str "###### " ++ body.

Lemma heading_plain : startsPlain heading.
Proof.
  unfold heading. destruct n as [|m]; [lia|].
  exists indent, HASH. eexists. split; [reflexivity|].
  split; [assumption | apply plainChar_hash].
Qed.

Lemma capped_plain : startsPlain capped.
Proof.
  exists indent, HASH. eexists. split; [reflexivity|].
  split; [assumption | apply plainChar_hash].
Qed.

Lemma capHead_match :
  exists f,
    matchAt capHeadRe 0 heading = Some f
    /\ start f = 0 /\ stop f = length heading
    /\ group (captures f) 1 = indent
    /\ group (captures f) 3 = body.
Proof.
  destruct Hbody as (b & rest & Eb & Hb & Hrest).
  eexists. split.
  - unfold matchAt, capHeadRe, heading. cbn [run].
    apply rep_greedy;
      [exact Hindent | lia | exact I | destruct n; [lia | reflexivity] | ].
    apply rep_greedy;
      [apply hashes_run | rewrite repeat_length; lia | exact I | | ].
    { destruct gap as [|g gap']; [congruence|]. simpl in Hgapws.
      apply andb_true_iff in Hgapws. destruct Hgapws as [Hg _].
      simpl. now apply ws_not_hash. }
    apply rep_greedy;
      [exact Hgapws | destruct gap; [congruence | simpl; lia] | exact I
      | rewrite Eb; exact Hb | ].
    rewrite Eb. unfold nonWs at 1. rewrite Hb. cbn [negb].
    apply rep_greedy_all; [exact Hrest | lia | exact I | ].
    reflexivity.
  - cbn [start stop captures]. unfold group, setCap. cbn [Nat.eqb].
    split; [reflexivity|]. split; [|split].
    + unfold heading. rewrite !length_app, repeat_length, Eb. simpl. lia.
    + apply firstn_consumed.
    + match goal with
      | |- firstn ?k body = body =>
          replace k with (length body) by (rewrite Eb; cbn [length]; lia)
      end.
      apply firstn_all.
Qed.

Lemma capHead_heading (st : Stats) :
  capHead heading st = (capped, inc (str "heading_cap_to_h6") 1 st).
Proof.
  destruct capHead_match as (f & Hm & Hs & He & H1 & H3).
  unfold capHead, replaceFn, exec.
  assert (Hsearch : searchFrom capHeadRe 0 heading = Some f).
  { destruct heading; cbn [searchFrom]; now rewrite Hm. }
  rewrite Hsearch, Hs, He, H1, H3. cbn [firstn app].
  rewrite skipn_all, app_nil_r. reflexivity.
Qed.

Lemma dupHead_heading (st : Stats) : dupHead heading st = (heading, st).
Proof.
  unfold dupHead. rule_silent dupHeadRe.
  unfold heading in Hs. simpl in Hs. rewrite ?app_nil_r in Hs.
  match type of Hs with
  | _ = _ ++ ?g ++ ?w ++ _ =>
      match goal with
      | Hr : forallb _ g = true, Hl : 1 <= length g,
        Hr' : forallb _ w = true, Hl' : 1 <= length w,
        Hw : within (Some 6) (length g) |- _ =>
          destruct (head_of_run _ g Hr Hl) as (c2 & g2 & -> & Hc2);
          destruct (head_of_run _ w Hr' Hl') as (c3 & w3 & -> & Hc3);
          simpl in Hr, Hw; apply andb_true_iff in Hr;
          destruct Hr as [_ Hrun]; rename Hw into Hwidth
      end
  end.
  apply only_true in Hc2. subst c2.
  destruct n as [|m]; [lia|]. simpl in Hs.
  apply span_unique with (p := isWhiteSpace) in Hs; auto.
  destruct Hs as (_ & _ & Hs).
  destruct gap as [|g0 gap']; [congruence|]. simpl in Hs, Hgapws.
  apply andb_true_iff in Hgapws. destruct Hgapws as [Hg0 _].
  apply span_unique with (p := only HASH) in Hs;
    auto using hashes_run, ws_not_hash.
  destruct Hs as (Hs & _). rewrite <- Hs, repeat_length in Hwidth. lia.
Qed.

Lemma normHead_match :
  length indent <= 3 ->
  exists f,
    matchAt normHeadRe 0 capped = Some f
    /\ start f = 0 /\ stop f = length capped
    /\ spaced (captures f) = capped.
Proof.
  intros Hshort. destruct Hbody as (b & rest & Eb & Hb & Hrest).
  eexists. split.
  - unfold matchAt, normHeadRe, capped.
    change (str "###### ") with (repeat HASH 6 ++ [SPACE]).
    rewrite <- app_assoc. cbn [run].
    apply rep_greedy; [exact Hindent | lia | exact Hshort | reflexivity | ].
    apply rep_greedy;
      [reflexivity | simpl; lia | simpl; lia | reflexivity | ].
    apply (@rep_greedy _ blank [SPACE]);
      [reflexivity | simpl; lia | exact I
      | rewrite Eb; now apply nonWs_not_blank | ].
    rewrite Eb. unfold nonWs at 1. rewrite Hb. cbn [negb].
    apply rep_greedy_all; [exact Hrest | lia | exact I | ].
    reflexivity.
  - cbn [start stop captures]. unfold spaced, group, setCap. cbn [Nat.eqb].
    split; [reflexivity|]. split.
    + unfold capped. rewrite !length_app, Eb. simpl. lia.
    + unfold capped. rewrite firstn_consumed.
      change (0 + length indent) with (length indent).
      rewrite (@firstn_consumed (length indent) (repeat HASH 6)).
      match goal with
      | |- context [firstn ?k body] =>
          replace k with (length body) by (rewrite Eb; cbn [length]; lia)
      end.
      rewrite firstn_all. reflexivity.
Qed.

Lemma normHead_capped (st : Stats) : normHead capped st = (capped, st).
Proof.
  destruct (le_lt_dec (length indent) 3) as [Hshort|Hlong].
  - destruct (normHead_match Hshort) as (f & Hm & Hs & He & Hsp).
    unfold normHead, replaceFn, exec.
    assert (Hsearch : searchFrom normHeadRe 0 capped = Some f).
    { destruct capped; cbn [searchFrom]; now rewrite Hm. }
    rewrite Hsearch, Hs, He, Hsp. cbn [firstn skipn app].
    rewrite Nat.sub_0_r, firstn_all, skipn_all, app_nil_r, eqs_refl.
    reflexivity.
  - unfold normHead. rule_silent normHeadRe.
    unfold capped in Hs. simpl in Hs. rewrite ?app_nil_r in Hs.
    match type of Hs with
    | _ = ?a ++ ?g ++ _ =>
        match goal with
        | Hr : forallb _ g = true, Hl : 1 <= length g,
          Hw : within (Some 3) (length a) |- _ =>
            destruct (head_of_run _ g Hr Hl) as (c2 & g2 & -> & Hc2);
            simpl in Hw; rename Hw into Hwidth
        end
    end.
    apply only_true in Hc2. subst c2.
    change (str "###### ") with (HASH :: str "##### ") in Hs. simpl in Hs.
    apply span_unique with (p := isWhiteSpace) in Hs; auto.
    destruct Hs as (Hs & _). rewrite <- Hs in Hwidth. lia.
Qed.

Lemma listBullet_capped (st : Stats) : listBullet capped st = (capped, st).
Proof.
  unfold listBullet. rule_silent listBulletRe.
  unfold capped in Hs. simpl in Hs.
  rewrite <- ?app_assoc in Hs. simpl in Hs.
  match goal with
  | Hb : bullet ?a = true |- _ =>
      apply span_unique with (p := isWhiteSpace) in Hs; auto;
      [ destruct Hs as (_ & <- & _); discriminate
      | now destruct (plainChar_bullet _ Hb) ]
  end.
Qed.

Lemma listOrdered_capped (st : Stats) : listOrdered capped st = (capped, st).
Proof.
  unfold listOrdered. rule_silent listOrderedRe.
  unfold capped in Hs. simpl in Hs.
  match goal with
  | Hr : forallb digit ?g = true, Hl : 1 <= length ?g |- _ =>
      destruct (head_of_run _ g Hr Hl) as (d & g' & -> & Hd)
  end.
  simpl in Hs. rewrite <- ?app_assoc in Hs. simpl in Hs.
  apply span_unique with (p := isWhiteSpace) in Hs; auto.
  - destruct Hs as (_ & <- & _). discriminate.
  - now destruct (plainChar_digit _ Hd).
Qed.

Lemma fixLine_heading (st : Stats) :
  fixLine heading st = (capped, inc (str "heading_cap_to_h6") 1 st).
Proof.
  unfold fixLine.
  now rewrite dupHead_heading, capHead_heading, normHead_capped,
    listBullet_capped, listOrdered_capped.
Qed.
End Heading.

(** ** Trailing blanks of a capped heading *)

Lemma blank_suffix (A t P X : jsstring) (b : char) :
  A ++ b :: t = P ++ X ->
  forallb RegexLit.blank X = true -> RegexLit.blank b = false ->
  exists t', t = t' ++ X /\ P = A ++ b :: t'.
Proof.
  intros E HX Hb.
  change (A ++ b :: t) with (A ++ [b] ++ t) in E. rewrite app_assoc in E.
  apply app_eq_app in E. destruct E as [l [[E1 E2]|[E1 E2]]].
  - destruct l as [|y l0].
    + rewrite app_nil_r in E1. simpl in E2. subst.
      exists []. split; auto.
    + exfalso.
      destruct (@exists_last _ (y :: l0)) as (l' & z & El); [discriminate|].
      rewrite El, app_assoc in E1. apply app_inj_tail in E1.
      destruct E1 as [_ <-].
      rewrite E2, El in HX. rewrite forallb_forall in HX.
      assert (Hin : In b ((l' ++ [b]) ++ t)).
      { apply in_or_app; left. apply in_or_app; right. simpl; auto. }
      apply HX in Hin. congruence.
  - exists l. rewrite E1, <- app_assoc. auto.
Qed.

Section HeadingTail.
Import RegexLit Markdown.
Variables indent body : jsstring.
Hypothesis Hbody : headingText body.

Lemma trimLine_capped :
  exists kept trail,
    body = kept ++ trail /\ forallb blank trail = true
    /\ trimLine (indent ++ str "###### " ++ body)
       = indent ++ str "###### " ++ kept.
Proof.
  destruct Hbody as (b & rest & Eb & Hb & Hrest).
  unfold trimLine.
  destruct (replaceFn_cases trailingRe (indent ++ str "###### " ++ body)
              (fun _ _ (u : unit) => ([], u)) tt)
    as [[_ ->] | (f & pre & xs & rest' & _ & Hs & Hm & ->)].
  - exists body, []. rewrite app_nil_r. auto.
  - unfold trailingRe in Hm. inv_matches. cbn [fst app].
    rewrite !app_nil_r in *. rewrite app_assoc in Hs.
    apply blank_suffix in Hs; auto using nonWs_not_blank.
    destruct Hs as (t' & -> & ->).
    exists (b :: t'), xs1. split; [reflexivity|].
    split; [assumption|]. now rewrite <- app_assoc.
Qed.
End HeadingTail.

(** ** Counting the fixes *)

Section Stats.
Import Markdown.

Lemma countOf_inc_same (k : jsstring) (by_ : nat) (st : Stats) :
  countOf k (inc k by_ st) = countOf k st + by_.
Proof.
  unfold countOf. induction st as [|s st IH]; simpl.
  - now rewrite eqs_refl.
  - destruct (eqs (key s) k) eqn:E; simpl; rewrite E; auto.
Qed.

Lemma countOf_inc_mono (k k' : jsstring) (by_ : nat) (st : Stats) :
  countOf k st <= countOf k (inc k' by_ st).
Proof.
  unfold countOf. induction st as [|s st IH]; simpl; [lia|].
  destruct (eqs (key s) k') eqn:E'; simpl;
    destruct (eqs (key s) k) eqn:E; simpl; auto; lia.
Qed.

Lemma replaceFn_count (k : jsstring) (r : RegexLit.re) (s : jsstring)
    (fn : jsstring -> RegexLit.caps -> Stats -> jsstring * Stats) (st : Stats) :
  (forall xs c st', countOf k st' <= countOf k (snd (fn xs c st'))) ->
  countOf k st <= countOf k (snd (RegexLit.replaceFn r s fn st)).
Proof.
  intros Hfn.
  destruct (replaceFn_cases r s fn st)
    as [[_ ->] | (f & pre & xs & rest & _ & _ & _ & ->)]; simpl; auto.
Qed.

Lemma fixLine_count (k : jsstring) (line : jsstring) (st : Stats) :
  countOf k st <= countOf k (snd (fixLine line st)).
Proof.
  unfold fixLine.
  assert (Hinc : forall key' (b : bool) st',
            countOf k st' <= countOf k (if b then st' else inc key' 1 st')).
  { intros key' [|] st'; [lia | apply countOf_inc_mono]. }
  assert (H1 : countOf k st <= countOf k (snd (dupHead line st))).
  { apply replaceFn_count. intros. apply countOf_inc_mono. }
  destruct (dupHead line st) as [u1 st1].
  assert (H2 : countOf k st1 <= countOf k (snd (capHead u1 st1))).
  { apply replaceFn_count. intros. apply countOf_inc_mono. }
  destruct (capHead u1 st1) as [u2 st2].
  assert (H3 : countOf k st2 <= countOf k (snd (normHead u2 st2))).
  { apply replaceFn_count. intros. apply Hinc. }
  destruct (normHead u2 st2) as [u3 st3].
  assert (H4 : countOf k st3 <= countOf k (snd (listBullet u3 st3))).
  { apply replaceFn_count. intros. apply Hinc. }
  destruct (listBullet u3 st3) as [u4 st4].
  assert (H5 : countOf k st4 <= countOf k (snd (listOrdered u4 st4))).
  { apply replaceFn_count. intros. apply Hinc. }
  simpl in *. lia.
Qed.

Lemma firstPass_count (k : jsstring) (lines : list jsstring) :
  forall f st, countOf k st <= countOf k (snd (firstPass lines f st)).
Proof.
  induction lines as [|line rest IH]; intros f st; simpl; auto.
  destruct (fenceMatch line).
  - specialize (IH (toggle f j) st).
    destruct (firstPass rest (toggle f j) st); simpl in *; auto.
  - destruct (inFence f).
    + specialize (IH f st). destruct (firstPass rest f st); simpl in *; auto.
    + pose proof (fixLine_count k line st) as Hc.
      destruct (fixLine line st) as [u st1].
      specialize (IH f st1).
      destruct (firstPass rest f st1); simpl in *. lia.
Qed.
End Stats.

(** ** Where a line ends up *)

Section Location.
Import Markdown.

Lemma nth_error_middle (A : Type) (a b : list A) (x : A) (k : nat) :
  length a = k -> nth_error (a ++ x :: b) k = Some x.
Proof.
  intros <-. rewrite nth_error_app2 by lia. now rewrite Nat.sub_diag.
Qed.

Lemma fenceStep_none (f : Fence) (line : jsstring) :
  fenceMatch line = None -> fenceStep f line = f.
Proof. intros E. unfold fenceStep. now rewrite E. Qed.

Lemma secondPass_head_in (f : Fence) (line : jsstring) rest n :
  inFence (fenceStep f line) = true ->
  fst (secondPass (line :: rest) f n)
  = line :: fst (secondPass rest (fenceStep f line) n).
Proof.
  intros H. cbn [secondPass]. rewrite H.
  now destruct (secondPass rest (fenceStep f line) n).
Qed.

Lemma secondPass_head_out (f : Fence) (line : jsstring) rest n :
  inFence (fenceStep f line) = false ->
  exists x n',
    (x = line \/ x = trimLine line)
    /\ fst (secondPass (line :: rest) f n)
       = x :: fst (secondPass rest (fenceStep f line) n').
Proof.
  intros H. cbn [secondPass]. rewrite H.
  destruct (endsWith line (str "  ") && negb (endsWith line (str "   "))).
  - exists line, n. split; auto.
    now destruct (secondPass rest (fenceStep f line) n).
  - destruct (eqs (trimLine line) line).
    + exists line, n. split; auto.
      now destruct (secondPass rest (fenceStep f line) n).
    + exists (trimLine line), (S n). split; auto.
      now destruct (secondPass rest (fenceStep f line) (S n)).
Qed.

Lemma fixLines_fst (lines : list jsstring) :
  fst (fixLines lines)
  = fst (secondPass (fst (firstPass lines noFence [])) noFence 0).
Proof.
  unfold fixLines. destruct (firstPass lines noFence []) as [l1 st].
  simpl. now destruct (secondPass l1 noFence 0).
Qed.

Lemma fixLines_count (k : jsstring) (lines : list jsstring) :
  countOf k (snd (firstPass lines noFence []))
  <= countOf k (snd (fixLines lines)).
Proof.
  unfold fixLines. destruct (firstPass lines noFence []) as [l1 st].
  simpl. destruct (secondPass l1 noFence 0) as [l2 fixes]. simpl.
  destruct (0 <? fixes); [apply countOf_inc_mono | lia].
Qed.

Variables l1 l2 : list jsstring.
Variable h : jsstring.
Hypothesis Hplain : fenceMatch h = None.

Let before : Fence := fold_left fenceStep l1 noFence.
Let stats1 : Stats := snd (firstPass l1 noFence []).

Lemma second_pass_state :
  fold_left fenceStep (fst (firstPass l1 noFence [])) noFence = before.
Proof. apply fence_fold_ext. apply firstPass_fence. Qed.

Lemma line_in_fence :
  inFence before = true ->
  nth_error (fst (fixLines (l1 ++ h :: l2))) (length l1) = Some h.
Proof.
  intros Hin. rewrite fixLines_fst, firstPass_app. cbn [fst].
  fold before. fold stats1. cbn [firstPass]. rewrite Hplain, Hin.
  destruct (firstPass l2 before stats1) as [out st'] eqn:E2. cbn [fst].
  rewrite secondPass_app. cbn [fst]. rewrite second_pass_state.
  rewrite secondPass_head_in
    by (rewrite (@fenceStep_none before h Hplain); exact Hin).
  apply nth_error_middle.
  now rewrite secondPass_length, firstPass_length.
Qed.

Lemma line_outside_fence :
  inFence before = false ->
  exists x,
    nth_error (fst (fixLines (l1 ++ h :: l2))) (length l1) = Some x
    /\ (x = fst (fixLine h stats1) \/ x = trimLine (fst (fixLine h stats1)))
    /\ forall k, countOf k (snd (fixLine h stats1))
                 <= countOf k (snd (fixLines (l1 ++ h :: l2))).
Proof.
  intros Hout.
  pose proof (fixLine_fence h stats1 Hplain) as Hu.
  assert (Hc : forall k, countOf k (snd (fixLine h stats1))
                         <= countOf k (snd (fixLines (l1 ++ h :: l2)))).
  { intros k. eapply Nat.le_trans; [|apply fixLines_count].
    rewrite firstPass_app. cbn [snd]. fold before. fold stats1.
    cbn [firstPass]. rewrite Hplain, Hout.
    destruct (fixLine h stats1) as [u s1]. cbn [snd].
    pose proof (firstPass_count k l2 before s1) as Hm.
    destruct (firstPass l2 before s1). exact Hm. }
  rewrite fixLines_fst, firstPass_app. cbn [fst].
  fold before. fold stats1. cbn [firstPass]. rewrite Hplain, Hout.
  destruct (fixLine h stats1) as [u s1]. cbn [fst snd] in *.
  destruct (firstPass l2 before s1) as [out st'] eqn:E2. cbn [fst].
  rewrite secondPass_app. cbn [fst]. rewrite second_pass_state.
  destruct (@secondPass_head_out before u out
              (snd (secondPass (fst (firstPass l1 noFence [])) noFence 0)))
    as (x & n' & Hx & ->).
  { rewrite (@fenceStep_none before u Hu). exact Hout. }
  exists x. split; [|split; auto].
  apply nth_error_middle.
  now rewrite secondPass_length, firstPass_length.
Qed.
End Location.

(** ** Opening and closing a fence *)

Section Fences.
Import RegexLit Markdown.

Lemma fenceMatch_sound (line marker : jsstring) :
  fenceMatch line = Some marker ->
  exists c, fenceChar c /\ fenceLine c line /\ marker = [c; c; c].
Proof.
  unfold fenceMatch.
  destruct (exec fenceRe line) as [f|] eqn:E; [|discriminate].
  intros H; inversion H; subst marker; clear H.
  unfold exec in E. apply searchFrom_sound in E.
  destruct E as (pre & xs & rest & Hs & Hm & _).
  unfold fenceRe in Hm. inv_matches;
    (destruct pre; [|discriminate]);
    try match goal with H : _ = captures f |- _ => rewrite <- H end;
    repeat match goal with
           | H : only _ _ = true |- _ => apply only_true in H; subst
           end;
    match goal with
    | Hr : forallb (only ?k) ?g = true, Hl : 1 <= length ?g |- _ =>
        destruct (head_of_run _ g Hr Hl) as (c & g' & -> & Hc);
        apply only_true in Hc; subst c; exists k
    end;
    (split; [unfold fenceChar; auto|]);
    (split; [|reflexivity]);
    exists xs0; eexists; (split; [|assumption]);
    simpl; rewrite <- ?app_assoc; reflexivity.
Qed.

Lemma span_run (p : char -> bool) (s : jsstring) :
  exists run rest,
    s = run ++ rest /\ forallb p run = true
    /\ match rest with [] => True | a :: _ => p a = false end.
Proof.
  induction s as [|a s (run & rest & -> & Hr & Hn)].
  - exists [], []. auto.
  - destruct (p a) eqn:Pa.
    + exists (a :: run), rest. simpl. rewrite Pa. auto.
    + exists [], (a :: run ++ rest). auto.
Qed.

Lemma firstn_exact (k : nat) (xs rest : jsstring) :
  k = length xs -> firstn k (xs ++ rest) = xs.
Proof.
  intros ->. rewrite <- (Nat.add_0_r (length xs)), firstn_app_2.
  simpl. apply app_nil_r.
Qed.

Lemma fenceMatch_complete (c : char) (line : jsstring) :
  fenceChar c -> fenceLine c line -> fenceMatch line = Some [c; c; c].
Proof.
  intros Hc (sp & rest & -> & Hsp).
  destruct (span_run (only c) rest) as (more & rest' & -> & Hrun & Hnext).
  assert (Hm : exists f,
             matchAt fenceRe 0 (sp ++ c :: c :: c :: more ++ rest') = Some f
             /\ group (captures f) 1 = c :: c :: c :: more).
  { destruct Hc as [-> | ->]; eexists; (split;
      [ unfold matchAt, fenceRe; cbn [run];
        apply rep_greedy; [exact Hsp | lia | exact I | reflexivity | ]
      | ]).
    - change (only BACKTICK BACKTICK) with true. cbv iota.
      change (BACKTICK :: more ++ rest') with ((BACKTICK :: more) ++ rest').
      erewrite rep_greedy;
        [ reflexivity | simpl; rewrite Hrun; reflexivity | simpl; lia
        | exact I | exact Hnext | reflexivity ].
    - cbn [captures]. unfold group, setCap. cbn [Nat.eqb].
      apply (@firstn_exact _ (BACKTICK :: BACKTICK :: BACKTICK :: more) rest').
      cbn [length]. lia.
    - change (only BACKTICK TILDE) with false. cbv iota.
      change (only TILDE TILDE) with true. cbv iota.
      change (TILDE :: more ++ rest') with ((TILDE :: more) ++ rest').
      erewrite rep_greedy;
        [ reflexivity | simpl; rewrite Hrun; reflexivity | simpl; lia
        | exact I | exact Hnext | reflexivity ].
    - cbn [captures]. unfold group, setCap. cbn [Nat.eqb].
      apply (@firstn_exact _ (TILDE :: TILDE :: TILDE :: more) rest').
      cbn [length]. lia. }
  destruct Hm as (f & Hm & Hg).
  unfold fenceMatch, exec.
  assert (Hsearch : searchFrom fenceRe 0 (sp ++ c :: c :: c :: more ++ rest')
                    = Some f).
  { destruct (sp ++ c :: c :: c :: more ++ rest'); cbn [searchFrom];
      now rewrite Hm. }
  rewrite Hsearch, Hg. destruct Hc as [-> | ->]; reflexivity.
Qed.

(** How the fence state moves.  Outside a fence, a line opens one
    exactly when it is a fence line, and the fence remembers its
    character; inside a fence opened with [c], a line closes it exactly
    when it is a fence line of the same character [c]. *)
Lemma fence_opening (f : Fence) (line : jsstring) :
  inFence f = false ->
  (inFence (fenceStep f line) = true
   <-> exists c, fenceChar c /\ fenceLine c line)
  /\ (forall c, fenceChar c -> fenceLine c line ->
                fenceMarker (fenceStep f line) = [c; c; c]).
Proof.
  intros Hout. unfold fenceStep, toggle. split; [split|].
  - destruct (fenceMatch line) as [m|] eqn:E.
    + intros _. apply fenceMatch_sound in E.
      destruct E as (c & Hc & Hl & _). eauto.
    + congruence.
  - intros (c & Hc & Hl). rewrite (fenceMatch_complete Hc Hl), Hout.
    reflexivity.
  - intros c Hc Hl. rewrite (fenceMatch_complete Hc Hl), Hout. reflexivity.
Qed.

Lemma fence_closing (f : Fence) (line : jsstring) (c : char) :
  fenceChar c -> inFence f = true -> fenceMarker f = [c; c; c] ->
  (inFence (fenceStep f line) = false <-> fenceLine c line).
Proof.
  intros Hc Hin Hmark. unfold fenceStep, toggle. rewrite Hin. simpl negb.
  cbv iota. split.
  - destruct (fenceMatch line) as [m|] eqn:E; [|congruence].
    destruct (eqs m (fenceMarker f)) eqn:Em; [|congruence].
    intros _. apply eqs_spec in Em. apply fenceMatch_sound in E.
    destruct E as (c' & Hc' & Hl & ->). rewrite Hmark in Em.
    inversion Em; subst. exact Hl.
  - intros Hl. rewrite (fenceMatch_complete Hc Hl), Hmark, eqs_refl.
    reflexivity.
Qed.
End Fences.

(** ** Headings deeper than six, inside and outside fences *)

Section DeepHeading.
Import Markdown.

Lemma fixMarkdownFormatting_stats (text : jsstring) :
  snd (fixMarkdownFormatting text) = snd (fixLines (split text [LF])).
Proof.
  unfold fixMarkdownFormatting.
  now destruct (fixLines (split text [LF])).
Qed.


End DeepHeading.

Example markdown_sample :
  fst (Markdown.fixMarkdownFormatting Sample.markdown)
  = str "```js" ++ [LF] ++ str "######## in code" ++ [LF]
      ++ str "```" ++ [LF] ++ str "  ###### Deep title"
  /\ snd (Markdown.fixMarkdownFormatting Sample.markdown)
     = [ {| Markdown.key := str "heading_cap_to_h6"; Markdown.count := 1 |};
         {| Markdown.key := str "trim_trailing_whitespace";
            Markdown.count := 1 |} ].
Proof. split; reflexivity. Qed.

(** A heading that ends in two spaces keeps them; a bullet and a
    numbered item get exactly one space after their marker. *)
Example markdown_lists_sample :
  Markdown.fixMarkdownFormatting
    (str "# Heading  " ++ [LF] ++ str "-item" ++ [LF] ++ str "10.  next")
  = (str "# Heading  " ++ [LF] ++ str "- item" ++ [LF] ++ str "10. next",
     [ {| Markdown.key := str "list_bullet_space"; Markdown.count := 1 |};
       {| Markdown.key := str "list_ordered_space"; Markdown.count := 1 |} ]).
Proof. reflexivity. Qed.

(* ================================================================= *)
(** ** More on the pattern history *)

Section HistoryMore.
Import RegexPattern History.

Lemma unpinned_pinned l : unpinned (pinned l) = [].
Proof.
  unfold pinned, unpinned.
  induction l as [|p l IH]; simpl; auto.
  destruct (isPinned p) eqn:E; simpl; auto. now rewrite E.
Qed.

Lemma unpinned_idem l : unpinned (unpinned l) = unpinned l.
Proof.
  unfold unpinned. induction l as [|p l IH]; simpl; auto.
  destruct (isPinned p) eqn:E; simpl; auto. now rewrite E, IH.
Qed.

Lemma unpinned_all l :
  (forall p, In p l -> isPinned p = false) -> unpinned l = l.
Proof.
  unfold unpinned. induction l as [|p l IH]; simpl; intros H; auto.
  rewrite (H p) by auto. simpl. f_equal. auto.
Qed.

Lemma kept_unpinned (l : list t) (n : nat) p :
  In p (slice0 (sort byRecency (unpinned l)) n) -> isPinned p = false.
Proof.
  intros Hp. apply (@all_unpinned l).
  apply (Permutation_in _ (sort_perm (unpinned l))).
  unfold slice0 in Hp.
  rewrite <- (firstn_skipn n (sort byRecency (unpinned l))).
  apply in_or_app; auto.
Qed.

(** The two halves of the list that pruning builds. *)
Lemma pruned_pinned (l : list t) (n : nat) :
  pinned (pinned l ++ slice0 (sort byRecency (unpinned l)) n) = pinned l.
Proof.
  unfold pinned at 1. rewrite filter_app.
  fold (pinned (pinned l)).
  fold (pinned (slice0 (sort byRecency (unpinned l)) n)).
  rewrite pinned_idem, (pinned_none _ (@kept_unpinned l n)).
  apply app_nil_r.
Qed.

Lemma pruned_unpinned (l : list t) (n : nat) :
  unpinned (pinned l ++ slice0 (sort byRecency (unpinned l)) n)
  = slice0 (sort byRecency (unpinned l)) n.
Proof.
  unfold unpinned at 1. rewrite filter_app.
  fold (unpinned (pinned l)).
  fold (unpinned (slice0 (sort byRecency (unpinned l)) n)).
  rewrite unpinned_pinned, (unpinned_all _ (@kept_unpinned l n)).
  reflexivity.
Qed.

Lemma pruneHistory_pinned (s : Settings.t) :
  pinned (Settings.savedPatterns (pruneHistory s))
  = pinned (Settings.savedPatterns s).
Proof.
  unfold pruneHistory.
  fold (unpinned (Settings.savedPatterns s)).
  fold (pinned (Settings.savedPatterns s)).
  destruct (_ <? _); [|reflexivity].
  simpl. apply pruned_pinned.
Qed.

Lemma pruneHistory_unpinned_length (s : Settings.t) :
  length (unpinned (Settings.savedPatterns (pruneHistory s)))
  = Nat.min (length (unpinned (Settings.savedPatterns s)))
      (Settings.maxHistorySize s).
Proof.
  unfold pruneHistory.
  fold (unpinned (Settings.savedPatterns s)).
  fold (pinned (Settings.savedPatterns s)).
  destruct (Nat.ltb_spec (Settings.maxHistorySize s)
              (length (unpinned (Settings.savedPatterns s)))) as [Lt|Ge].
  - simpl. rewrite pruned_unpinned. unfold slice0.
    rewrite length_firstn, (Permutation_length (sort_perm _)). lia.
  - lia.
Qed.

Lemma pruneHistory_unpinned (s : Settings.t) :
  unpinned (Settings.savedPatterns (pruneHistory s))
  = if Settings.maxHistorySize s
         <? length (unpinned (Settings.savedPatterns s))
    then slice0 (sort byRecency (unpinned (Settings.savedPatterns s)))
           (Settings.maxHistorySize s)
    else unpinned (Settings.savedPatterns s).
Proof.
  unfold pruneHistory.
  fold (unpinned (Settings.savedPatterns s)).
  fold (pinned (Settings.savedPatterns s)).
  destruct (_ <? _); [|reflexivity].
  unfold Settings.withSavedPatterns. cbn [Settings.savedPatterns].
  apply pruned_unpinned.
Qed.

Lemma pruneHistory_max (s : Settings.t) :
  Settings.maxHistorySize (pruneHistory s) = Settings.maxHistorySize s.
Proof. unfold pruneHistory. now destruct (_ <? _). Qed.

(** X4.  Pruning a pruned history changes nothing. *)
Theorem pruneHistory_idempotent (s : Settings.t) :
  pruneHistory (pruneHistory s) = pruneHistory s
  /\ length (unpinned (Settings.savedPatterns (pruneHistory s)))
     <= Settings.maxHistorySize s.
Proof.
  assert (B : length (unpinned (Settings.savedPatterns (pruneHistory s)))
              <= Settings.maxHistorySize s).
  { rewrite pruneHistory_unpinned_length. lia. }
  split; [|exact B].
  unfold pruneHistory at 1.
  fold (unpinned (Settings.savedPatterns (pruneHistory s))).
  rewrite pruneHistory_max.
  destruct (Nat.ltb_spec (Settings.maxHistorySize s)
              (length (unpinned (Settings.savedPatterns (pruneHistory s)))));
    [lia | reflexivity].
Qed.

Lemma findIndex_absent (A : Type) (f : A -> bool) (l : list A) :
  (forall x, In x l -> f x = false) -> findIndex f l = None.
Proof.
  induction l as [|a l IH]; simpl; intros H; auto.
  rewrite (H a) by auto. rewrite IH; auto.
Qed.

Lemma unpinned_touched now (l : list t) i x :
  nth_error l i = Some x ->
  length (unpinned (touch now x :: removeAt i l)) = length (unpinned l).
Proof.
  unfold unpinned. simpl.
  revert i. induction l as [|a l IH]; intros [|i]; simpl; try discriminate.
  - intros E; inversion E; subst. destruct (isPinned x); reflexivity.
  - intros E. specialize (IH i E).
    destruct (isPinned x), (isPinned a); simpl in *; lia.
Qed.

(** X2.  Recording a use keeps the bound on the unpinned entries. *)
Theorem savePattern_keeps_bound now rnd find repl re ci (s : Settings.t) :
  length (unpinned (Settings.savedPatterns s)) <= Settings.maxHistorySize s ->
  length (unpinned (Settings.savedPatterns
                      (savePattern now rnd find repl re ci s)))
    <= Settings.maxHistorySize s
  /\ Settings.maxHistorySize (savePattern now rnd find repl re ci s)
     = Settings.maxHistorySize s.
Proof.
  intros B. unfold savePattern.
  destruct (findIndex _ _) as [i|] eqn:F.
  - destruct (nth_error _ i) as [x|] eqn:N; [|auto].
    unfold Settings.withSavedPatterns.
    cbn [Settings.savedPatterns Settings.maxHistorySize].
    now rewrite (unpinned_touched now _ _ N).
  - rewrite pruneHistory_unpinned_length, pruneHistory_max.
    unfold Settings.withSavedPatterns. cbn [Settings.maxHistorySize].
    split; [apply Nat.le_min_r | reflexivity].
Qed.

Lemma savePattern_keeps_bound_witness :
  length (unpinned (Settings.savedPatterns
                      (savePattern 99 (str "k3x") (str "new") [] true true
                         (Sample.settings 4)))) <= 4
  /\ Settings.maxHistorySize
       (savePattern 99 (str "k3x") (str "new") [] true true
          (Sample.settings 4)) = 4.
Proof.
  apply (@savePattern_keeps_bound 99 (str "k3x") (str "new") [] true true
           (Sample.settings 4)).
  vm_compute. lia.
Defined.

(** X1.  A configuration that is not in the history yet is recorded as a new
    unpinned entry.  Provided the history may hold at least one unpinned
    entry and no unpinned entry carries a time stamp later than the
    current time, the new entry survives the pruning that follows and is
    the first of the unpinned entries; the pinned entries are the same as
    before. *)
Theorem savePattern_new_entry now rnd find repl re ci (s : Settings.t) :
  (forall p, In p (Settings.savedPatterns s) ->
             ~ hasConfig find repl re ci p) ->
  1 <= Settings.maxHistorySize s ->
  (forall p, In p (unpinned (Settings.savedPatterns s)) ->
             (lastUsed p <= now)%Z) ->
  hd_error (unpinned (Settings.savedPatterns
                        (savePattern now rnd find repl re ci s)))
  = Some {| id := numToString now ++ str "-" ++ rnd;
            name := generatePatternName find;
            findText := find; replaceText := repl;
            useRegEx := re; caseInsensitive := ci;
            isPinned := false; lastUsed := now; useCount := 1 |}
  /\ pinned (Settings.savedPatterns (savePattern now rnd find repl re ci s))
     = pinned (Settings.savedPatterns s)
  /\ length (unpinned (Settings.savedPatterns
                         (savePattern now rnd find repl re ci s)))
     = Nat.min (S (length (unpinned (Settings.savedPatterns s))))
         (Settings.maxHistorySize s).
Proof.
  intros Hnew Hmax Hclock. unfold savePattern.
  rewrite findIndex_absent.
  2:{ intros x Hx. destruct (sameConfig find repl re ci x) eqn:E; auto.
      apply sameConfig_spec in E. now destruct (Hnew x). }
  set (newPattern := {| id := numToString now ++ str "-" ++ rnd;
                        name := generatePatternName find;
                        findText := find; replaceText := repl;
                        useRegEx := re; caseInsensitive := ci;
                        isPinned := false; lastUsed := now; useCount := 1 |}).
  split; [|split].
  - rewrite pruneHistory_unpinned.
    unfold Settings.withSavedPatterns.
    cbn [Settings.savedPatterns Settings.maxHistorySize].
    assert (U : unpinned (newPattern :: Settings.savedPatterns s)
                = newPattern :: unpinned (Settings.savedPatterns s))
      by reflexivity.
    rewrite U. destruct (_ <? _); [|reflexivity].
    cbn [sort]. rewrite insertSorted_stable.
    + unfold slice0.
      destruct (Settings.maxHistorySize s); [lia | reflexivity].
    + apply Forall_forall. intros y Hy.
      apply (Permutation_in _ (sort_perm _)) in Hy.
      unfold newerEq. simpl. auto.
  - rewrite pruneHistory_pinned. reflexivity.
  - rewrite pruneHistory_unpinned_length. reflexivity.
Qed.

Lemma savePattern_new_entry_witness :
  hd_error (unpinned (Settings.savedPatterns
                        (savePattern 99 (str "k3x") (str "new") [] true true
                           (Sample.settings 2))))
  = Some {| id := str "99-k3x"; name := str "new";
            findText := str "new"; replaceText := [];
            useRegEx := true; caseInsensitive := true;
            isPinned := false; lastUsed := 99; useCount := 1 |}
  /\ pinned (Settings.savedPatterns
               (savePattern 99 (str "k3x") (str "new") [] true true
                  (Sample.settings 2)))
     = [Sample.entry "e2" "\d+" "#" true 10 7]
  /\ length (unpinned (Settings.savedPatterns
                         (savePattern 99 (str "k3x") (str "new") [] true true
                            (Sample.settings 2)))) = 2.
Proof.
  apply (@savePattern_new_entry 99 (str "k3x") (str "new") [] true true
           (Sample.settings 2)).
  - intros p Hp [Hf _]. simpl in Hp.
    repeat (destruct Hp as [<-|Hp]; [vm_compute in Hf; discriminate|]).
    destruct Hp.
  - simpl. lia.
  - intros p Hp. vm_compute in Hp.
    repeat (destruct Hp as [<-|Hp]; [vm_compute; discriminate|]).
    destruct Hp.
Defined.

Lemma In_removeAt (A : Type) (l : list A) i x y :
  nth_error l i = Some x -> In y l -> y = x \/ In y (removeAt i l).
Proof.
  revert i. induction l as [|a l IH]; intros [|i]; simpl; try discriminate.
  - intros E [<-|H]; [inversion E; auto | auto].
  - intros E [<-|H]; [auto|]. destruct (IH i E H); auto.
Qed.

(** X3.  Recording a use never drops a pinned entry: it is still there, pinned,
    under the same identifier and name and with the same configuration. *)
Theorem savePattern_keeps_pinned now rnd find repl re ci (s : Settings.t) p :
  In p (Settings.savedPatterns s) -> isPinned p = true ->
  exists p',
    In p' (Settings.savedPatterns (savePattern now rnd find repl re ci s))
    /\ isPinned p' = true /\ id p' = id p /\ name p' = name p
    /\ findText p' = findText p /\ replaceText p' = replaceText p
    /\ useRegEx p' = useRegEx p /\ caseInsensitive p' = caseInsensitive p.
Proof.
  intros Hin Hpin. unfold savePattern.
  destruct (findIndex _ _) as [i|] eqn:F.
  - destruct (nth_error _ i) as [x|] eqn:N.
    + simpl. destruct (@In_removeAt _ _ _ _ _ N Hin) as [->|H].
      * exists (touch now x). simpl. repeat split; auto.
      * exists p. repeat split; auto.
    + exists p. repeat split; auto.
  - exists p. repeat split; auto.
    assert (H : In p (pinned (Settings.savedPatterns
                (pruneHistory (Settings.withSavedPatterns s
                   ({| id := numToString now ++ str "-" ++ rnd;
                       name := generatePatternName find;
                       findText := find; replaceText := repl;
                       useRegEx := re; caseInsensitive := ci;
                       isPinned := false; lastUsed := now; useCount := 1 |}
                    :: Settings.savedPatterns s)))))).
    { rewrite pruneHistory_pinned. simpl. unfold pinned. simpl.
      apply filter_In. auto. }
    unfold pinned in H. apply filter_In in H. apply H.
Qed.

Lemma savePattern_keeps_pinned_witness :
  exists p',
    In p' (Settings.savedPatterns
             (savePattern 99 (str "k3x") (str "new") [] true true
                (Sample.settings 1)))
    /\ isPinned p' = true /\ id p' = str "e2" /\ name p' = str "\d+"
    /\ findText p' = str "\d+" /\ replaceText p' = str "#"
    /\ useRegEx p' = true /\ caseInsensitive p' = true.
Proof.
  apply (@savePattern_keeps_pinned 99 (str "k3x") (str "new") [] true true
           (Sample.settings 1) (Sample.entry "e2" "\d+" "#" true 10 7)).
  - simpl. auto.
  - reflexivity.
Defined.

Lemma flipPin_twice (p : t) : flipPin (flipPin p) = p.
Proof. destruct p as [? ? ? ? ? ? pin ? ?]. unfold flipPin. simpl.
  now rewrite negb_involutive. Qed.

Lemma flipFirst_twice pid (l : list t) : flipFirst pid (flipFirst pid l) = l.
Proof.
  induction l as [|p l IH]; simpl; auto.
  destruct (eqs (id p) pid) eqn:E; simpl; rewrite E.
  - now rewrite flipPin_twice.
  - now rewrite IH.
Qed.

Lemma flipFirst_absent pid (l : list t) :
  (forall p, In p l -> id p <> pid) -> flipFirst pid l = l.
Proof.
  induction l as [|p l IH]; simpl; intros H; auto.
  destruct (eqs (id p) pid) eqn:E.
  - apply eqs_spec in E. now destruct (H p (or_introl eq_refl)).
  - rewrite IH; auto.
Qed.

Lemma withSavedPatterns_same (s : Settings.t) :
  Settings.withSavedPatterns s (Settings.savedPatterns s) = s.
Proof. now destruct s. Qed.


Lemma delete_after_flip pid (l : list t) :
  filter (fun p => negb (eqs (id p) pid)) (flipFirst pid l)
  = filter (fun p => negb (eqs (id p) pid)) l.
Proof.
  induction l as [|p l IH]; simpl; auto.
  destruct (eqs (id p) pid) eqn:E; simpl; rewrite E; simpl.
  - reflexivity.
  - now rewrite IH.
Qed.

Lemma delete_twice pid (l : list t) :
  filter (fun p => negb (eqs (id p) pid))
    (filter (fun p => negb (eqs (id p) pid)) l)
  = filter (fun p => negb (eqs (id p) pid)) l.
Proof.
  induction l as [|q l IH]; simpl; auto.
  destruct (eqs (id q) pid) eqn:E; simpl; auto.
  rewrite E. simpl. now rewrite IH.
Qed.

(** X6.  Deleting removes every entry that carries the identifier and no
    other; whether the entry was pinned makes no difference, and deleting
    again changes nothing. *)
Theorem deletePattern_removes_id pid (s : Settings.t) :
  (forall p, In p (Settings.savedPatterns (deletePattern pid s))
             <-> In p (Settings.savedPatterns s) /\ id p <> pid)
  /\ deletePattern pid (togglePinPattern pid s) = deletePattern pid s
  /\ deletePattern pid (deletePattern pid s) = deletePattern pid s.
Proof.
  unfold deletePattern, togglePinPattern. simpl. split; [|split].
  - intros p. rewrite filter_In, negb_true_iff, eqs_false. tauto.
  - now rewrite delete_after_flip.
  - rewrite delete_twice. now destruct s.
Qed.

Lemma substring_prefix (s : jsstring) (n : nat) :
  n <= length s -> substring s 0 n = firstn n s.
Proof.
  intros H. unfold substring.
  rewrite Nat.min_0_l, (Nat.min_l n (length s)) by lia.
  rewrite Nat.min_0_l, Nat.max_0_l, Nat.sub_0_r. reflexivity.
Qed.

(** A pattern name has at most 33 characters and begins like the find
    text; a find text of at most 30 characters is its own name, a longer
    one is cut after 30 characters and marked with three full stops. *)
Lemma generatePatternName_bounded (findText : jsstring) :
  length (generatePatternName findText) <= 33
  /\ firstn 30 (generatePatternName findText) = firstn 30 findText
  /\ (length findText <= 30 -> generatePatternName findText = findText)
  /\ (30 < length findText ->
      generatePatternName findText = firstn 30 findText ++ str "...").
Proof.
  unfold generatePatternName.
  destruct (Nat.leb_spec (length findText) 30) as [Le|Gt].
  - repeat split; auto; lia.
  - rewrite substring_prefix by lia.
    remember (firstn 30 findText) as pre eqn:P.
    assert (L : length pre = 30) by (subst pre; rewrite length_firstn; lia).
    repeat split; try lia.
    + rewrite length_app, L. simpl. lia.
    + rewrite firstn_app, L, Nat.sub_diag, firstn_O, app_nil_r.
      rewrite <- L at 1. now rewrite firstn_all.
Qed.
End HistoryMore.

(* ================================================================= *)
(** ** The order in which the history is shown *)

Section DisplayOrder.
Import RegexPattern History Dialog.

Lemma all_pinned l p : In p (pinned l) -> isPinned p = true.
Proof. unfold pinned. rewrite filter_In. tauto. Qed.

Lemma pinnedFirst_same x y :
  isPinned x = isPinned y -> pinnedFirst x y = byRecency x y.
Proof.
  intros H. unfold pinnedFirst. rewrite H.
  now destruct (isPinned y).
Qed.

Lemma insert_same_group x (l : list t) :
  (forall p, In p l -> isPinned p = isPinned x) ->
  insertSorted pinnedFirst x l = insertSorted byRecency x l.
Proof.
  induction l as [|y l IH]; intros H; simpl; auto.
  rewrite pinnedFirst_same by (symmetry; apply H; simpl; auto).
  rewrite IH by (intros p Hp; apply H; simpl; auto).
  reflexivity.
Qed.

Lemma insert_among_pinned x (P U : list t) :
  isPinned x = true ->
  (forall p, In p P -> isPinned p = true) ->
  (forall p, In p U -> isPinned p = false) ->
  insertSorted pinnedFirst x (P ++ U) = insertSorted byRecency x P ++ U.
Proof.
  intros Hx HP HU. induction P as [|y P IH]; simpl.
  - destruct U as [|u U]; simpl; auto.
    unfold pinnedFirst. rewrite Hx, (HU u) by (simpl; auto). reflexivity.
  - rewrite pinnedFirst_same by (rewrite Hx; symmetry; apply HP; simpl; auto).
    destruct (0 <? byRecency x y)%Z; auto.
    simpl. f_equal. apply IH. intros p Hp. apply HP. simpl; auto.
Qed.

Lemma insert_among_unpinned x (P U : list t) :
  isPinned x = false ->
  (forall p, In p P -> isPinned p = true) ->
  (forall p, In p U -> isPinned p = false) ->
  insertSorted pinnedFirst x (P ++ U) = P ++ insertSorted byRecency x U.
Proof.
  intros Hx HP HU. induction P as [|y P IH]; simpl.
  - apply insert_same_group. intros p Hp. rewrite Hx. now apply HU.
  - unfold pinnedFirst at 1. rewrite Hx, (HP y) by (simpl; auto).
    simpl. f_equal. apply IH. intros p Hp. apply HP. simpl; auto.
Qed.

Lemma sortedPatterns_groups (l : list t) :
  sortedPatterns l
  = sort byRecency (pinned l) ++ sort byRecency (unpinned l).
Proof.
  unfold sortedPatterns. induction l as [|x l IH]; simpl; auto.
  rewrite IH.
  assert (HP : forall p, In p (sort byRecency (pinned l)) ->
                         isPinned p = true).
  { intros p Hp. apply (@all_pinned l).
    now apply (Permutation_in _ (sort_perm (pinned l))). }
  assert (HU : forall p, In p (sort byRecency (unpinned l)) ->
                         isPinned p = false).
  { intros p Hp. apply (@all_unpinned l).
    now apply (Permutation_in _ (sort_perm (unpinned l))). }
  unfold pinned, unpinned. simpl.
  destruct (isPinned x) eqn:Hx; simpl.
  - now apply insert_among_pinned.
  - now apply insert_among_unpinned.
Qed.

Lemma pinned_unpinned_perm (l : list t) :
  Permutation (pinned l ++ unpinned l) l.
Proof.
  unfold pinned, unpinned. induction l as [|x l IH]; simpl; auto.
  destruct (isPinned x); simpl.
  - now constructor.
  - symmetry. apply Permutation_cons_app. symmetry. exact IH.
Qed.

Lemma sortedPatterns_perm (l : list t) : Permutation (sortedPatterns l) l.
Proof.
  rewrite sortedPatterns_groups, !sort_perm. apply pinned_unpinned_perm.
Qed.

(** X7.  The drop-down list and the settings tab show the whole history, the
    pinned entries before the unpinned ones and each of the two groups
    from the most recently used entry to the least recently used. *)
Theorem sortedPatterns_order (saved : list t) :
  Permutation (sortedPatterns saved) saved
  /\ exists P U,
       sortedPatterns saved = P ++ U
       /\ Permutation P (pinned saved) /\ Permutation U (unpinned saved)
       /\ StronglySorted newerEq P /\ StronglySorted newerEq U.
Proof.
  split; [apply sortedPatterns_perm|].
  rewrite sortedPatterns_groups.
  - exists (sort byRecency (pinned saved)), (sort byRecency (unpinned saved)).
    repeat split; auto using sort_perm, sort_sorted.
Qed.

Lemma find_by_id (l : list t) p :
  NoDup (map id l) -> In p l ->
  find (fun q => eqs (id q) (id p)) l = Some p.
Proof.
  induction l as [|a l IH]; simpl; intros Hnd Hin; [tauto|].
  inversion Hnd as [|? ? Hna Hnd']; subst.
  destruct Hin as [->|Hin].
  - now rewrite eqs_refl.
  - destruct (eqs (id a) (id p)) eqn:E.
    + apply eqs_spec in E. destruct Hna. rewrite E. now apply in_map.
    + auto.
Qed.


End DisplayOrder.

(* ================================================================= *)
(** ** What every scan returns *)

Section ScanShape.
Import Scanner.
Variable E : RegExpEngine.

Lemma collected_nil lines i : collected lines i [].
Proof.
  repeat split; try (intros; simpl in *; tauto); try constructor.
  intros k p H. destruct k; discriminate.
Qed.

Lemma collected_next lines i acc : collected lines i acc ->
  collected lines (S i) acc.
Proof.
  intros (Hk & Hl & Hs). split; [exact Hk|]. split; [|exact Hs].
  intros p Hp. destruct (Hl p Hp) as [Hn Hc]. split; [lia | exact Hc].
Qed.

Lemma collected_all lines i acc : collected lines i acc ->
  collected lines (length lines) acc.
Proof.
  intros (Hk & Hl & Hs). split; [exact Hk|]. split; [|exact Hs].
  intros p Hp. destruct (Hl p Hp) as [Hn Hc]. split; [|exact Hc].
  assert (lineNumber p - 1 < length lines)
    by (apply nth_error_Some; rewrite Hc; discriminate).
  lia.
Qed.

Lemma sorted_snoc (l : list nat) (x : nat) :
  StronglySorted le l -> (forall y, In y l -> y <= x) ->
  StronglySorted le (l ++ [x]).
Proof.
  induction 1 as [|a l Hs IH Hall]; intros Hx; simpl.
  - repeat constructor.
  - constructor.
    + apply IH. intros y Hy. apply Hx. simpl; auto.
    + apply Forall_app. split; auto.
      constructor; auto. apply Hx. simpl; auto.
Qed.

Lemma collected_snoc lines i acc line p :
  collected lines (S i) acc -> nth_error lines i = Some line ->
  matchIndex p = length acc -> lineNumber p = i + 1 -> lineContent p = line ->
  collected lines (S i) (acc ++ [p]).
Proof.
  intros (Hk & Hl & Hs) Hline Hidx Hnum Hcont. split; [|split].
  - intros k q Hq.
    destruct (Nat.lt_ge_cases k (length acc)) as [Lt|Ge].
    + rewrite nth_error_app1 in Hq by assumption. auto.
    + rewrite nth_error_app2 in Hq by assumption.
      destruct (k - length acc) as [|d] eqn:D; simpl in Hq.
      * inversion Hq; subst q. lia.
      * destruct d; discriminate.
  - intros q Hq. apply in_app_or in Hq. destruct Hq as [Hq|[<-|[]]]; auto.
    rewrite Hnum, Hcont. split; [lia|].
    now replace (i + 1 - 1) with i by lia.
  - rewrite map_app. simpl. apply sorted_snoc; auto.
    intros y Hy. apply in_map_iff in Hy. destruct Hy as (q & <- & Hq).
    apply Hl in Hq. lia.
Qed.

Lemma lineMatches_shape r repl lines line i :
  nth_error lines i = Some line ->
  forall room lastIndex acc,
    collected lines (S i) acc ->
    collected lines (S i) (lineMatches E r repl line i room lastIndex acc)
    /\ length (lineMatches E r repl line i room lastIndex acc)
       <= length acc + room.
Proof.
  intros Hline. induction room as [|room IH]; intros lastIndex acc Hacc;
    simpl; destruct (exec E r line lastIndex) as [m|];
    try (split; [assumption | lia]).
  destruct (IH (index m + length (matched m))
              (acc ++ [regexPreview repl line i (length acc) m])) as [H1 H2].
  - eapply collected_snoc; eauto.
  - split; [exact H1|]. rewrite length_app in H2. simpl in H2. lia.
Qed.

Lemma regexLines_shape find repl ci limit all :
  forall lines i acc out,
    skipn i all = lines -> collected all i acc -> length acc <= limit ->
    regexLines E find repl ci limit lines i acc = inr out ->
    collected all (length all) out /\ length out <= limit.
Proof.
  induction lines as [|line rest IH]; intros i acc out Hsk Hacc Hlen; simpl.
  - intros H; inversion H; subst out.
    split; [eapply collected_all; eauto | assumption].
  - assert (Hline : nth_error all i = Some line).
    { rewrite <- (firstn_skipn i all), Hsk.
      assert (Li : length (firstn i all) = i).
      { rewrite length_firstn. apply Nat.min_l.
        apply (f_equal (@length _)) in Hsk. rewrite length_skipn in Hsk.
        simpl in Hsk. lia. }
      rewrite nth_error_app2 by lia. now rewrite Li, Nat.sub_diag. }
    assert (Hrest : skipn (S i) all = rest).
    { replace (S i) with (1 + i) by lia.
      rewrite <- skipn_skipn, Hsk. reflexivity. }
    destruct (Nat.ltb_spec (length acc) limit) as [Lt|Ge].
    + destruct (compile E find _) as [e|lineRegex]; [discriminate|].
      intros H.
      destruct (@lineMatches_shape lineRegex repl all line i Hline
                  (limit - length acc) 0 acc (collected_next Hacc))
        as [H1 H2].
      eapply IH in H; eauto. lia.
    + intros H; inversion H; subst out.
      split; [eapply collected_all; eauto | assumption].
Qed.

Lemma plainLines_shape find repl limit all :
  forall lines i acc,
    skipn i all = lines -> collected all i acc -> length acc <= limit ->
    collected all (length all) (plainLines find repl limit lines i acc)
    /\ length (plainLines find repl limit lines i acc) <= limit.
Proof.
  induction lines as [|line rest IH]; intros i acc Hsk Hacc Hlen; simpl.
  - split; [eapply collected_all; eauto | assumption].
  - assert (Hline : nth_error all i = Some line).
    { rewrite <- (firstn_skipn i all), Hsk.
      assert (Li : length (firstn i all) = i).
      { rewrite length_firstn. apply Nat.min_l.
        apply (f_equal (@length _)) in Hsk. rewrite length_skipn in Hsk.
        simpl in Hsk. lia. }
      rewrite nth_error_app2 by lia. now rewrite Li, Nat.sub_diag. }
    assert (Hrest : skipn (S i) all = rest).
    { replace (S i) with (1 + i) by lia.
      rewrite <- skipn_skipn, Hsk. reflexivity. }
    destruct (Nat.ltb_spec (length acc) limit) as [Lt|Ge].
    + destruct (indexOf line find) as [matchStart|].
      * apply IH; auto.
        -- eapply collected_snoc; eauto. now apply collected_next.
        -- rewrite length_app. simpl. lia.
      * apply IH; auto. now apply collected_next.
    + split; [eapply collected_all; eauto | assumption].
Qed.

Lemma scan_shape (text find repl : jsstring) (re ci ml : bool)
    (limit : nat) :
  collected (split text [LF]) (length (split text [LF]))
    (previews (fst (generateMatchPreviews E text find repl re ci ml limit)))
  /\ length (previews
               (fst (generateMatchPreviews E text find repl re ci ml limit)))
     <= limit.
Proof.
  assert (K0 : collected (split text [LF]) (length (split text [LF])) []
               /\ @length MatchPreview [] <= limit).
  { split; [apply collected_all with (i := 0); apply collected_nil
           | simpl; lia]. }
  unfold generateMatchPreviews. destruct re.
  - destruct (compile E find _) as [e|r]; [exact K0|].
    destruct (regexLines E find repl ci limit (split text [LF]) 0 [])
      as [e|out] eqn:R; cbn [fst previews]; [exact K0|].
    apply (@regexLines_shape find repl ci limit (split text [LF])) in R;
      [exact R | reflexivity | apply collected_nil | simpl; lia].
  - cbn [fst previews].
    apply (@plainLines_shape find repl limit (split text [LF]));
      [reflexivity | apply collected_nil | simpl; lia].
Qed.

(** X9.  In either mode and with any engine, a scan returns at most [limit]
    previews; they are numbered 0, 1, 2, ... in the order returned, each
    names an existing line of the text together with that line's
    content, and the line numbers never decrease. *)
Theorem scan_respects_limit
    (text find repl : jsstring) (re ci ml : bool) (limit : nat) :
  let result := fst (generateMatchPreviews E text find repl re ci ml limit) in
  length (previews result) <= limit
  /\ (forall k p, nth_error (previews result) k = Some p ->
        matchIndex p = k
        /\ 1 <= lineNumber p <= length (split text [LF])
        /\ nth_error (split text [LF]) (lineNumber p - 1)
           = Some (lineContent p))
  /\ StronglySorted le (map lineNumber (previews result)).
Proof.
  cbv zeta.
  destruct (scan_shape text find repl re ci ml limit)
    as [(Hk & Hl & Hs) Hlen].
  split; [exact Hlen|]. split; [|exact Hs].
  intros k p Hp. split; [now apply Hk|].
  apply nth_error_In in Hp. now apply Hl.
Qed.

Lemma occursAt_incl (s p : jsstring) (i : nat) (c : char) :
  occursAt s p i -> In c p -> In c s.
Proof.
  intros (pre & post & -> & _) Hc.
  apply in_or_app. right. apply in_or_app. now left.
Qed.

Lemma includes_In (s : jsstring) (c : char) :
  includes s [c] = true -> In c s.
Proof.
  unfold includes. destruct (indexOf s [c]) as [i|] eqn:Ei; [|discriminate].
  intros _. apply indexOf_spec in Ei. destruct Ei as [Ho _].
  apply (@occursAt_incl _ _ _ c Ho). simpl; auto.
Qed.

Lemma plainLines_line_break (text find repl : jsstring) (limit : nat) :
  In LF find -> plainLines find repl limit (split text [LF]) 0 [] = [].
Proof.
  intros Hlf.
  destruct (plainLines_spec find repl limit (split text [LF]) 0 [])
    as (new & Heq & _ & Hf).
  rewrite Heq. cbn [app]. destruct new as [|p new]; auto. exfalso.
  inversion Hf as [|? ? (_ & Hn & (Ho & _) & _) _]; subst.
  apply nth_error_In in Hn.
  pose proof (split_LF_lines text) as Hall.
  rewrite Forall_forall in Hall. apply (Hall _ Hn).
  exact (@occursAt_incl _ _ _ LF Ho Hlf).
Qed.

Lemma plainLines_single_line (find repl : jsstring) (limit : nat) :
  includes find [LF] = false ->
  forall lines i acc,
    (forall q, In q acc -> isMultiLine q = false) ->
    forall q, In q (plainLines find repl limit lines i acc) ->
              isMultiLine q = false.
Proof.
  intros Hinc. induction lines as [|line rest IH]; intros i acc Hacc; simpl.
  - exact Hacc.
  - destruct (_ <? _); [|exact Hacc].
    destruct (indexOf line find); [|now apply IH].
    apply IH. intros q Hq. apply in_app_or in Hq.
    destruct Hq as [Hq|[<-|[]]]; [auto | exact Hinc].
Qed.

(** X10.  In plain-text mode no preview is built for a find string that
    contains a line break, however often it occurs in the text, and no
    preview is ever marked as spanning lines. *)
Theorem plain_scan_line_break
    (text find repl : jsstring) (ci ml : bool) (limit : nat) :
  let result :=
    fst (generateMatchPreviews E text find repl false ci ml limit) in
  (In LF find -> previews result = [])
  /\ (forall p, In p (previews result) -> isMultiLine p = false).
Proof.
  unfold generateMatchPreviews. cbv zeta. cbn [fst previews].
  split; [apply plainLines_line_break|].
  intros p Hp.
  destruct (includes find [LF]) eqn:Ei.
  - apply includes_In in Ei.
    rewrite plainLines_line_break in Hp by assumption. destruct Hp.
  - revert p Hp. apply plainLines_single_line; auto.
    intros q [].
Qed.
End ScanShape.

(* ================================================================= *)
(** ** Templates without surprises *)

Section PlainTemplates.
Import Scanner.

(** X11.  A replace text without [$] and without the NUL character is put in
    as it stands, whatever was matched. *)
Theorem plain_template_verbatim
    (replaceString line : jsstring) (m : MatchResult) :
  inert replaceString -> substitute replaceString line m = replaceString.
Proof.
  intros [Hd Hz]. unfold substitute.
  change (str "$$") with [DOLLAR; DOLLAR].
  change (str "$`") with [DOLLAR; BACKTICK].
  change (str "$'") with [DOLLAR; 39%N].
  change (str "$&") with [DOLLAR; 38%N].
  rewrite (@replaceAll_absent replaceString _ _ DOLLAR [DOLLAR]); auto.
  rewrite (@replaceAll_absent replaceString _ _ DOLLAR [BACKTICK]); auto.
  rewrite (@replaceAll_absent replaceString _ _ DOLLAR [39%N]); auto.
  rewrite (@replaceAll_absent replaceString _ _ DOLLAR [38%N]); auto.
  rewrite replaceGroups_inert by assumption.
  apply (@replaceAll_absent _ _ _ 0%N (str "DOLLAR" ++ [0%N])); auto.
Qed.

Lemma plain_template_verbatim_witness :
  substitute (str "<b>new</b>") (str "some old text")
    {| index := 5; matched := str "old"; groups := [Some (str "l")] |}
  = str "<b>new</b>".
Proof.
  apply plain_template_verbatim.
  split; intros H; vm_compute in H; intuition discriminate.
Defined.

Lemma group_loop_value (pre post v : jsstring) (m : MatchResult) (n : nat) :
  inert pre -> inert post -> noDigitAhead post -> ~ In DOLLAR v ->
  forall k, 1 <= n -> n <= k -> groupValue m n = v ->
            replaceGroups m k (pre ++ DOLLAR :: natToString n ++ post)
            = pre ++ v ++ post.
Proof.
  intros Hpre Hpost Hahead Hv k H1 Hk Hval.
  induction k as [|k IH]; [lia|].
  cbn [replaceGroups]. destruct (Nat.eq_dec (S k) n) as [->|Hne].
  - rewrite Hval, token_hit;
      [| apply (proj1 Hpre) | apply (proj1 Hpost)].
    rewrite getSubstitution_plain by assumption.
    apply replaceGroups_inert.
    intros H. apply in_app_or in H. destruct H as [H|H];
      [now apply (proj1 Hpre)|].
    apply in_app_or in H. destruct H; [auto | now apply (proj1 Hpost)].
  - rewrite token_miss.
    + apply IH. lia.
    + apply (proj1 Hpre).
    + now apply tail_without_dollar.
    + destruct (startsWith (natToString n ++ post) (natToString (S k))) eqn:E;
        auto.
      apply numeral_prefix_le in E; auto. lia.
Qed.

(** X12.  A [$n] token for a group that took part in the match is replaced by
    the text of the group, provided that text and the rest of the
    template hold no [$] and no NUL character and no digit follows the
    token. *)
Theorem group_token_value
    (pre post line v : jsstring) (m : MatchResult) (n : nat) :
  inert pre -> inert post -> noDigitAhead post ->
  1 <= n <= length (groups m) ->
  nth_error (groups m) (n - 1) = Some (Some v) -> inert v ->
  substitute (pre ++ DOLLAR :: natToString n ++ post) line m
  = pre ++ v ++ post.
Proof.
  intros Hpre Hpost Hahead Hn Hg [Hvd Hvz].
  rewrite substitute_steps by assumption.
  rewrite (@group_loop_value pre post v m n); auto; try lia.
  - apply (@replaceAll_absent _ _ _ 0%N (str "DOLLAR" ++ [0%N])); auto.
    intros H. apply in_app_or in H. destruct H as [H|H];
      [now apply (proj2 Hpre)|].
    apply in_app_or in H. destruct H; [auto | now apply (proj2 Hpost)].
  - unfold groupValue. now rewrite Hg.
Qed.

Lemma group_token_value_witness :
  substitute (str "<$2>") (str "key=value")
    {| index := 0; matched := str "key=value";
       groups := [Some (str "key"); Some (str "value")] |}
  = str "<value>".
Proof.
  assert (Hin : forall s : string,
             (forallb (fun c => negb (N.eqb c DOLLAR) && negb (N.eqb c 0))
                (str s) = true) -> inert (str s)).
  { intros s H. rewrite forallb_forall in H.
    split; intros Hc; apply H in Hc; discriminate. }
  apply (@group_token_value (str "<") (str ">") (str "key=value")
           (str "value")
           {| index := 0; matched := str "key=value";
              groups := [Some (str "key"); Some (str "value")] |} 2).
  - apply Hin. reflexivity.
  - apply Hin. reflexivity.
  - reflexivity.
  - simpl. lia.
  - reflexivity.
  - apply Hin. reflexivity.
Defined.
End PlainTemplates.

(* ================================================================= *)
(** ** Splitting and joining *)

Lemma join_cons (x : jsstring) (rest : list jsstring) (sep : jsstring) :
  rest <> [] -> join (x :: rest) sep = x ++ sep ++ join rest sep.
Proof. destruct rest; [congruence | reflexivity]. Qed.

Lemma startsWith_length (s p : jsstring) :
  startsWith s p = true -> length p <= length s.
Proof.
  intros H. apply startsWith_spec in H. destruct H as [r ->].
  rewrite length_app. lia.
Qed.

(** Joining the pieces with the separator gives the text back. *)
Lemma splitAux_join (c0 : char) (l s : jsstring) :
  forall k cur,
    join (splitAux (c0 :: l) s k cur) (c0 :: l) = cur ++ skipn k s.
Proof.
  induction s as [|c s IH]; intros k cur.
  - simpl. now rewrite skipn_nil, app_nil_r.
  - cbn [splitAux]. destruct k as [|k].
    + destruct (startsWith (c :: s) (c0 :: l)) eqn:E.
      * rewrite join_cons by apply splitAux_nonempty.
        rewrite IH. cbn [app length Nat.sub]. rewrite Nat.sub_0_r.
        apply startsWith_spec in E. destruct E as [r E].
        inversion E; subst. rewrite skipn_app, Nat.sub_diag, skipn_all.
        reflexivity.
      * rewrite IH. cbn [skipn]. now rewrite <- app_assoc.
    + rewrite IH. reflexivity.
Qed.

Lemma join_split (s sep : jsstring) : join (split s sep) sep = s.
Proof.
  destruct sep as [|c0 l].
  - unfold split. induction s as [|c s IH]; auto.
    cbn [map]. destruct s as [|d s]; auto.
    rewrite join_cons by discriminate. simpl in *. now rewrite IH.
  - unfold split. now rewrite splitAux_join.
Qed.

(** Every occurrence that is replaced shortens the text by the
    separator and lengthens it by the replacement. *)
Lemma splitAux_account (c0 : char) (l repl s : jsstring) :
  forall k cur,
    length (join (splitAux (c0 :: l) s k cur) repl)
      + (length (splitAux (c0 :: l) s k cur) - 1) * length (c0 :: l)
    = length cur + (length s - k)
      + (length (splitAux (c0 :: l) s k cur) - 1) * length repl.
Proof.
  induction s as [|c s IH]; intros k cur.
  - simpl. lia.
  - cbn [splitAux]. destruct k as [|k].
    + destruct (startsWith (c :: s) (c0 :: l)) eqn:E.
      * rewrite join_cons by apply splitAux_nonempty.
        apply startsWith_length in E.
        specialize (IH (length (c0 :: l) - 1) []).
        pose proof (@splitAux_nonempty (c0 :: l) s [] (length (c0 :: l) - 1))
          as Hne.
        destruct (splitAux (c0 :: l) s (length (c0 :: l) - 1) [])
          as [|y ys] eqn:L; [congruence|].
        rewrite !length_app. cbn [length] in *. nia.
      * rewrite IH. rewrite length_app. cbn [length]. lia.
    + rewrite IH. cbn [length]. lia.
Qed.

(* ================================================================= *)
(** ** The handler in plain-text mode *)

Section PlainReplace.
Import Scanner Modal.
Variable E : RegExpEngine.

Lemma replaceAllGo_nonempty (lit repl whole s : jsstring) (pos : nat) :
  repl <> [] -> ~ In DOLLAR repl -> s <> [] ->
  replaceAllGo lit repl whole s pos 0 <> [].
Proof.
  intros Hr Hd Hs. destruct s as [|c s]; [congruence|].
  cbn [replaceAllGo]. destruct (startsWith (c :: s) lit).
  - rewrite getSubstitution_plain by assumption.
    destruct repl; [congruence | discriminate].
  - discriminate.
Qed.

Lemma expand_nonempty (lb tab : bool) (text : jsstring) :
  text <> [] -> expand lb tab text <> [].
Proof.
  intros H. unfold expand, replaceAll.
  assert (H1 : (if lb then replaceAllGo (str "\n") [LF] text text 0 0
                else text) <> []).
  { destruct lb; auto. apply replaceAllGo_nonempty; auto; try discriminate.
    intros [F|[]]; discriminate. }
  destruct tab; auto.
  apply replaceAllGo_nonempty; auto; try discriminate.
  intros [F|[]]; discriminate.
Qed.

Lemma plain_run now rnd editor inp settings :
  findInput inp <> [] -> regToggle inp = false ->
  let find := expand (Settings.processLineBreak settings)
                (Settings.processTab settings) (findInput inp) in
  let repl := expand (Settings.processLineBreak settings)
                (Settings.processTab settings) (replaceInput inp) in
  let scope := if selToggle inp then getSelection editor
               else getValue editor in
  exists s',
    performReplacement E now rnd editor inp settings
    = Done [if selToggle inp
            then ReplaceSelection (join (split scope find) repl)
            else SetValue (join (split scope find) repl)]
        s' (made (length (split scope find) - 1)
              (if selToggle inp then str "document" else str "selection")).
Proof.
  intros Hne Hre find repl scope.
  unfold performReplacement. apply eqs_false in Hne. rewrite Hne, Hre.
  fold find repl. unfold conclude. rewrite !made_is_not_no_match.
  subst scope. destruct (selToggle inp); cbn [negb]; eexists; reflexivity.
Qed.

(** X13.  In plain-text mode the handler always writes the scope text back,
    once.  The number [n] it announces is the number of pieces of the
    scope text minus one; the written text is longer than the scope text
    by [n] times the length of the replace string and shorter by [n]
    times the length of the find string; and replacing a string by
    itself writes the scope text unchanged. *)
Theorem plain_replace_accounting now rnd editor inp settings :
  findInput inp <> [] -> regToggle inp = false ->
  let find := expand (Settings.processLineBreak settings)
                (Settings.processTab settings) (findInput inp) in
  let repl := expand (Settings.processLineBreak settings)
                (Settings.processTab settings) (replaceInput inp) in
  let scope := if selToggle inp then getSelection editor
               else getValue editor in
  exists n text s',
    performReplacement E now rnd editor inp settings
    = Done [if selToggle inp then ReplaceSelection text else SetValue text]
        s' (made n (if selToggle inp then str "document"
                    else str "selection"))
    /\ n = length (split scope find) - 1
    /\ length text + n * length find = length scope + n * length repl
    /\ (repl = find -> text = scope).
Proof.
  intros Hne Hre find repl scope.
  assert (Hf : find <> []) by (now apply expand_nonempty).
  assert (A : length (join (split scope find) repl)
              + (length (split scope find) - 1) * length find
              = length scope + (length (split scope find) - 1) * length repl).
  { destruct find as [|c0 l]; [congruence|].
    unfold split. pose proof (splitAux_account c0 l repl scope 0 []) as A.
    cbn [length] in A. rewrite Nat.sub_0_r in A. cbn [length]. lia. }
  exists (length (split scope find) - 1), (join (split scope find) repl).
  destruct (@plain_run now rnd editor inp settings Hne Hre) as [s' Hrun].
  exists s'. split; [exact Hrun|]. split; [reflexivity|].
  split; [exact A | intros ->; apply join_split].
Qed.
End PlainReplace.

Section PlainReplaceSample.
Import Scanner Modal.

Lemma plain_replace_accounting_witness :
  exists n text s',
    performReplacement literalEngine 99 (str "k3x") Sample.editor
      (Sample.plainInputs "l" "LL") (Sample.settings 10)
    = Done [SetValue text] s' (made n (str "selection"))
    /\ n = length (split (getValue Sample.editor) (str "l")) - 1
    /\ length text + n * 1 = length (getValue Sample.editor) + n * 2
    /\ (str "LL" = str "l" -> text = getValue Sample.editor).
Proof.
  apply (@plain_replace_accounting literalEngine 99 (str "k3x")
           Sample.editor
           (Sample.plainInputs "l" "LL") (Sample.settings 10)).
  - discriminate.
  - reflexivity.
Defined.
End PlainReplaceSample.

(* ================================================================= *)
(** ** The settings after a run *)

Section AfterRun.
Import Scanner Modal Dialog.
Variable E : RegExpEngine.

Lemma pruneHistory_frame (s : Settings.t) :
  History.pruneHistory s
  = Settings.withSavedPatterns s
      (Settings.savedPatterns (History.pruneHistory s)).
Proof.
  unfold History.pruneHistory. destruct (_ <? _); now destruct s.
Qed.

Lemma savePattern_frame now rnd find repl re ci (s : Settings.t) :
  History.savePattern now rnd find repl re ci s
  = Settings.withSavedPatterns s
      (Settings.savedPatterns (History.savePattern now rnd find repl re ci s)).
Proof.
  unfold History.savePattern.
  destruct (findIndex _ _) as [i|].
  - destruct (nth_error _ i); now destruct s.
  - rewrite pruneHistory_frame at 1. now destruct s.
Qed.

Lemma handler_frame now rnd editor inp settings calls s' notice :
  performReplacement E now rnd editor inp settings = Done calls s' notice ->
  s' = Settings.withSavedPatterns
         (Settings.withLastUse settings
            (expand (Settings.processLineBreak settings)
               (Settings.processTab settings) (findInput inp))
            (expand (Settings.processLineBreak settings)
               (Settings.processTab settings) (replaceInput inp))
            (regToggle inp) (selToggle inp))
         (Settings.savedPatterns s').
Proof.
  unfold performReplacement.
  destruct (eqs (findInput inp) []); [discriminate|].
  assert (K : forall c r,
    conclude now rnd inp settings
      (expand (Settings.processLineBreak settings)
         (Settings.processTab settings) (findInput inp))
      (expand (Settings.processLineBreak settings)
         (Settings.processTab settings) (replaceInput inp)) c r
    = Done calls s' notice ->
    s' = Settings.withSavedPatterns
           (Settings.withLastUse settings
              (expand (Settings.processLineBreak settings)
                 (Settings.processTab settings) (findInput inp))
              (expand (Settings.processLineBreak settings)
                 (Settings.processTab settings) (replaceInput inp))
              (regToggle inp) (selToggle inp))
           (Settings.savedPatterns s')).
  { intros c r. unfold conclude. intros H. inversion H; subst; clear H.
    destruct (negb _).
    - apply savePattern_frame.
    - now destruct settings. }
  destruct (regToggle inp).
  - destruct (compile E _ _) as [e|r]; [discriminate|].
    destruct (negb (selToggle inp));
      destruct (matchAll E r _); apply K.
  - destruct (negb (selToggle inp)); apply K.
Qed.

(** A run of the handler changes, in the settings, the last find and
    replace texts, the regex and selection switches and the history;
    the flags, the escape options, the limits and the thresholds stay
    as they were. *)
Lemma performReplacement_frame now rnd editor inp settings calls s' notice :
  performReplacement E now rnd editor inp settings = Done calls s' notice ->
  Settings.useRegEx s' = regToggle inp
  /\ Settings.selOnly s' = selToggle inp
  /\ Settings.caseInsensitive s' = Settings.caseInsensitive settings
  /\ Settings.multilineMatch s' = Settings.multilineMatch settings
  /\ Settings.processLineBreak s' = Settings.processLineBreak settings
  /\ Settings.processTab s' = Settings.processTab settings
  /\ Settings.prefillFind s' = Settings.prefillFind settings
  /\ Settings.maxHistorySize s' = Settings.maxHistorySize settings
  /\ Settings.showPreview s' = Settings.showPreview settings
  /\ Settings.previewLimit s' = Settings.previewLimit settings
  /\ Settings.confirmLargeReplace s' = Settings.confirmLargeReplace settings
  /\ Settings.largeReplaceThreshold s'
     = Settings.largeReplaceThreshold settings.
Proof.
  intros H. apply handler_frame in H. rewrite H. repeat split.
Qed.

Lemma expand_off (text : jsstring) : expand false false text = text.
Proof. reflexivity. Qed.

(** X14.  With the escape options and the prefill option off, the dialog that
    is opened after a run shows the find text, the replace text and the
    regex switch of that run; the selection switch is on only if it was
    on in that run and some text is selected now. *)
Theorem reopen_restores_inputs now rnd editor inp settings calls s' notice
    (editor' : Editor) :
  performReplacement E now rnd editor inp settings = Done calls s' notice ->
  Settings.processLineBreak settings = false ->
  Settings.processTab settings = false ->
  Settings.prefillFind settings = false ->
  openInputs s' editor'
  = {| findInput := findInput inp; replaceInput := replaceInput inp;
       regToggle := regToggle inp;
       selToggle := selToggle inp && negb (noSelection editor') |}.
Proof.
  intros H Hlb Htab Hpre. apply handler_frame in H.
  rewrite Hlb, Htab, !expand_off in H. rewrite H.
  unfold openInputs. cbn [Settings.withSavedPatterns Settings.withLastUse
    Settings.prefillFind Settings.findText Settings.replaceText
    Settings.useRegEx Settings.selOnly].
  rewrite Hpre. cbn [andb].
  destruct (noSelection editor'), (selToggle inp); reflexivity.
Qed.

Lemma indexOfFrom_In (c : char) (s : jsstring) :
  In c s -> forall k, exists n, indexOfFrom s [c] k = Some n.
Proof.
  induction s as [|a s IH]; intros Hin k; [destruct Hin|].
  cbn [indexOfFrom startsWith].
  destruct (N.eqb_spec c a) as [->|Hne]; cbn [andb]; eauto.
  destruct Hin as [->|Hin]; [congruence|]. now apply IH.
Qed.

Lemma In_includes (c : char) (s : jsstring) :
  In c s -> includes s [c] = true.
Proof.
  intros H. unfold includes, indexOf.
  destruct (@indexOfFrom_In c s H 0) as [n ->]. reflexivity.
Qed.

(** As [onOpen] leaves the dialog, the selection switch is on only when
    some text is selected, so that the preview, the confirmation count
    and the handler look at the same text; a prefilled find text holds
    no line break. *)
Lemma openInputs_scope (settings : Settings.t) (editor : Editor) :
  (selToggle (openInputs settings editor) = true ->
   getSelection editor <> [] /\ Settings.selOnly settings = true)
  /\ targetText editor (openInputs settings editor)
     = (if selToggle (openInputs settings editor) then getSelection editor
        else getValue editor)
  /\ (findInput (openInputs settings editor) = Settings.findText settings
      \/ findInput (openInputs settings editor) = getSelection editor
         /\ ~ In LF (getSelection editor)
         /\ selToggle (openInputs settings editor) = false).
Proof.
  unfold openInputs, targetText, noSelection.
  destruct (eqs (getSelection editor) []) eqn:En.
  - rewrite !andb_false_r. cbn [selToggle findInput andb].
    split; [discriminate|]. split; [reflexivity | now left].
  - cbn [negb]. rewrite !andb_true_r.
    destruct (Settings.prefillFind settings
              && negb (includes (getSelection editor) [LF])) eqn:P;
      cbn [selToggle findInput andb negb].
    + split; [discriminate|]. split; [reflexivity|]. right.
      apply andb_true_iff in P. destruct P as [_ P].
      apply negb_true_iff in P. repeat split; auto.
      intros Hin. apply In_includes in Hin. congruence.
    + split.
      * intros ->. split; [now apply eqs_false | reflexivity].
      * split; [|now left].
        destruct (Settings.selOnly settings); reflexivity.
Qed.
End AfterRun.

Section AfterRunSample.
Import Scanner Modal Dialog.

Lemma performReplacement_frame_witness :
  exists calls s' notice,
    performReplacement literalEngine 99 (str "k3x") Sample.editor
      (Sample.plainInputs "l" "LL") (Sample.settings 10)
    = Done calls s' notice
    /\ Settings.useRegEx s' = false /\ Settings.selOnly s' = false
    /\ Settings.caseInsensitive s' = true /\ Settings.multilineMatch s' = true
    /\ Settings.processLineBreak s' = true /\ Settings.processTab s' = false
    /\ Settings.prefillFind s' = false /\ Settings.maxHistorySize s' = 10
    /\ Settings.showPreview s' = true /\ Settings.previewLimit s' = 5
    /\ Settings.confirmLargeReplace s' = true
    /\ Settings.largeReplaceThreshold s' = 20.
Proof.
  do 3 eexists. split; [reflexivity|].
  exact (@performReplacement_frame literalEngine 99 (str "k3x") Sample.editor
           (Sample.plainInputs "l" "LL") (Sample.settings 10) _ _ _ eq_refl).
Defined.

Lemma reopen_restores_inputs_witness :
  exists calls s' notice,
    performReplacement literalEngine 99 (str "k3x") Sample.editor
      (Sample.plainInputs "l" "LL") Settings.DEFAULT_SETTINGS
    = Done calls s' notice
    /\ openInputs s' Sample.editor = Sample.plainInputs "l" "LL".
Proof.
  do 3 eexists. split; [reflexivity|].
  exact (@reopen_restores_inputs literalEngine 99 (str "k3x") Sample.editor
           (Sample.plainInputs "l" "LL") Settings.DEFAULT_SETTINGS
           _ _ _ Sample.editor eq_refl eq_refl eq_refl eq_refl).
Defined.
End AfterRunSample.

(* ================================================================= *)
(** ** The confirmation and the preview *)

Section Confirmation.
Import Scanner Modal Dialog Preview.
Variable E : RegExpEngine.

Lemma targetText_scope (editor : Editor) (inp : Inputs) :
  (selToggle inp = true -> getSelection editor <> []) ->
  targetText editor inp
  = if selToggle inp then getSelection editor else getValue editor.
Proof.
  intros H. unfold targetText, noSelection.
  destruct (selToggle inp); [|reflexivity].
  specialize (H eq_refl). apply eqs_false in H. now rewrite H.
Qed.

(** X15.  In plain-text mode with the escape options off, the number of
    matches that the confirmation question names is the number of
    replacements that the handler then announces; the question is put
    exactly when that number reaches the threshold, and a refusal ends
    the click without a run of the handler. *)
Theorem submit_counts_replacements (confirm : jsstring -> bool)
    now rnd editor inp settings :
  findInput inp <> [] -> regToggle inp = false ->
  Settings.confirmLargeReplace settings = true ->
  Settings.processLineBreak settings = false ->
  Settings.processTab settings = false ->
  (selToggle inp = true -> getSelection editor <> []) ->
  exists n calls s',
    performReplacement E now rnd editor inp settings
    = Done calls s'
        (made n (if selToggle inp then str "document" else str "selection"))
    /\ submit E confirm now rnd editor inp settings
       = (if Settings.largeReplaceThreshold settings <=? n then
            if confirm (confirmQuestion n (scopeName inp))
            then Proceeded (Some (confirmQuestion n (scopeName inp)))
                   (performReplacement E now rnd editor inp settings)
            else Declined (confirmQuestion n (scopeName inp))
          else Proceeded None
                 (performReplacement E now rnd editor inp settings),
          []).
Proof.
  intros Hne Hre Hconf Hlb Htab Hsel.
  destruct (@plain_run E now rnd editor inp settings Hne Hre) as [s' Hrun].
  rewrite Hlb, Htab, !expand_off in Hrun.
  eexists. eexists. exists s'. split; [exact Hrun|].
  unfold submit. pose proof Hne as Hne'. apply eqs_false in Hne'.
  rewrite Hne', Hconf. unfold generateMatchPreviews. rewrite Hre.
  cbn [totalCount]. rewrite targetText_scope by assumption.
  destruct (_ <=? _); [destruct (confirm _)|]; reflexivity.
Qed.

(** X16.  The count that guards the confirmation catches the error of a find
    text that is not a regular expression, but the handler does not: the
    click writes the line "Invalid regex pattern" to the log, asks
    nothing, and ends with the error of [new RegExp] escaping, so that
    no notice is shown and the settings are not touched. *)
Theorem submit_invalid_pattern (confirm : jsstring -> bool)
    now rnd editor inp settings (e : jsstring) :
  findInput inp <> [] -> regToggle inp = true ->
  Settings.confirmLargeReplace settings = true ->
  1 <= Settings.largeReplaceThreshold settings ->
  Settings.processLineBreak settings = false ->
  Settings.processTab settings = false ->
  compile E (findInput inp)
    (regexFlags (Settings.multilineMatch settings)
       (Settings.caseInsensitive settings)) = inl e ->
  submit E confirm now rnd editor inp settings
  = (Proceeded None (Thrown e),
     [str "RegexFiRe: " ++ str "Invalid regex pattern: " ++ e]).
Proof.
  intros Hne Hre Hconf Hthr Hlb Htab Hc.
  unfold submit, performReplacement, generateMatchPreviews.
  apply eqs_false in Hne.
  rewrite Hne, Hconf, Hre, Hlb, Htab, !expand_off, Hc.
  cbn [totalCount].
  destruct (Nat.leb_spec (Settings.largeReplaceThreshold settings) 0);
    [lia | reflexivity].
Qed.

Lemma regexLines_runs (find repl : jsstring) (ci : bool) (limit : nat)
    (r : regex E) :
  compile E find (if ci then str "gi" else str "g") = inr r ->
  forall lines i acc,
  exists out, regexLines E find repl ci limit lines i acc = inr out.
Proof.
  intros Hc. induction lines as [|line rest IH]; intros i acc; simpl.
  - eauto.
  - destruct (_ <? _); [|eauto]. rewrite Hc. apply IH.
Qed.

(** X17.  In regex mode the preview and the handler agree: when the pattern
    has no match in the scope text the pane says so and the handler
    leaves the editor alone and reports "No match"; otherwise the number
    in the title of the pane is the number in the handler's notice, and
    the pane lists at most 50 matches. *)
Theorem preview_agrees_with_run now rnd editor inp settings
    (keepLimit : bool) (currentPreviewLimit : nat) (r r' : regex E) :
  Settings.showPreview settings = true ->
  findInput inp <> [] -> regToggle inp = true ->
  (selToggle inp = true -> getSelection editor <> []) ->
  let find := expand (Settings.processLineBreak settings)
                (Settings.processTab settings) (findInput inp) in
  let scope := if selToggle inp then getSelection editor
               else getValue editor in
  compile E find (regexFlags (Settings.multilineMatch settings)
                    (Settings.caseInsensitive settings)) = inr r ->
  compile E find (if Settings.caseInsensitive settings
                  then str "gi" else str "g") = inr r' ->
  let view :=
    fst (fst (updatePreview E settings editor inp keepLimit
                currentPreviewLimit)) in
  let n := length (matchAll E r scope) in
  (n = 0 ->
   view = NoMatches
   /\ exists s', performReplacement E now rnd editor inp settings
                 = Done [] s' (str "No match"))
  /\ (0 < n ->
      exists shown more text s',
        view = Listing (previewTitle n (scopeName inp)) shown more
        /\ length shown <= 50
        /\ performReplacement E now rnd editor inp settings
           = Done [if selToggle inp then ReplaceSelection text
                   else SetValue text] s' (made n (scopeName inp))).
Proof.
  intros Hshow Hne Hre Hsel find scope Hc Hc' view n.
  assert (Hview :
    view = if n =? 0 then NoMatches
           else Listing (previewTitle n (scopeName inp))
                  (previews (fst (generateMatchPreviews E scope find
                     (expand (Settings.processLineBreak settings)
                        (Settings.processTab settings) (replaceInput inp))
                     true (Settings.caseInsensitive settings)
                     (Settings.multilineMatch settings)
                     (Nat.min (if keepLimit then currentPreviewLimit
                               else Settings.previewLimit settings) 50))))
                  (if length (previews (fst (generateMatchPreviews E scope
                        find
                        (expand (Settings.processLineBreak settings)
                           (Settings.processTab settings) (replaceInput inp))
                        true (Settings.caseInsensitive settings)
                        (Settings.multilineMatch settings)
                        (Nat.min (if keepLimit then currentPreviewLimit
                                  else Settings.previewLimit settings) 50))))
                      <? n
                   then Some (showMoreLabel
                                (n - length (previews (fst
                                   (generateMatchPreviews E scope find
                                      (expand
                                         (Settings.processLineBreak settings)
                                         (Settings.processTab settings)
                                         (replaceInput inp))
                                      true (Settings.caseInsensitive settings)
                                      (Settings.multilineMatch settings)
                                      (Nat.min (if keepLimit
                                                then currentPreviewLimit
                                                else Settings.previewLimit
                                                       settings) 50))))),
                              remainingLabel
                                (n - length (previews (fst
                                   (generateMatchPreviews E scope find
                                      (expand
                                         (Settings.processLineBreak settings)
                                         (Settings.processTab settings)
                                         (replaceInput inp))
                                      true (Settings.caseInsensitive settings)
                                      (Settings.multilineMatch settings)
                                      (Nat.min (if keepLimit
                                                then currentPreviewLimit
                                                else Settings.previewLimit
                                                       settings) 50))))))
                   else None)).
  { subst view. unfold updatePreview. rewrite Hshow. cbn [negb].
    pose proof Hne as Hne'. apply eqs_false in Hne'. rewrite Hne'.
    rewrite Hre, targetText_scope by assumption. fold find scope.
    unfold generateMatchPreviews. rewrite Hc.
    destruct (@regexLines_runs find
                (expand (Settings.processLineBreak settings)
                   (Settings.processTab settings) (replaceInput inp))
                (Settings.caseInsensitive settings)
                (Nat.min (if keepLimit then currentPreviewLimit
                          else Settings.previewLimit settings) 50)
                r' Hc' (split scope [LF]) 0 []) as [out ->].
    cbn [totalCount previews fst]. fold n.
    destruct (n =? 0); reflexivity. }
  assert (Hrun :
    performReplacement E now rnd editor inp settings
    = conclude now rnd inp settings find
        (expand (Settings.processLineBreak settings)
           (Settings.processTab settings) (replaceInput inp))
        (match matchAll E r scope with
         | [] => []
         | _ :: _ =>
             [if selToggle inp
              then ReplaceSelection
                     (replace E r scope
                        (expand (Settings.processLineBreak settings)
                           (Settings.processTab settings) (replaceInput inp)))
              else SetValue
                     (replace E r scope
                        (expand (Settings.processLineBreak settings)
                           (Settings.processTab settings)
                           (replaceInput inp)))]
         end)
        (match matchAll E r scope with
         | [] => str "No match"
         | _ :: _ => made n (scopeName inp)
         end)).
  { unfold performReplacement. pose proof Hne as Hne'.
    apply eqs_false in Hne'. rewrite Hne', Hre. fold find. rewrite Hc.
    subst n scope. unfold scopeName.
    destruct (selToggle inp); cbn [negb];
      destruct (matchAll E r _); reflexivity. }
  split.
  - intros Hn. rewrite Hview, Hn. split; [reflexivity|].
    rewrite Hrun. subst n.
    destruct (matchAll E r scope); [|discriminate].
    unfold conclude. eexists. reflexivity.
  - intros Hn. rewrite Hview.
    destruct (Nat.eqb_spec n 0) as [Hz|_]; [lia|].
    do 3 eexists. eexists. split; [reflexivity|]. split.
    + etransitivity; [apply scan_shape | apply Nat.le_min_r].
    + rewrite Hrun. subst n.
      destruct (matchAll E r scope); [simpl in Hn; lia|].
      unfold conclude. rewrite made_is_not_no_match. reflexivity.
Qed.
End Confirmation.

Section ConfirmationSample.
Import Scanner Modal Dialog Preview.

Lemma submit_counts_replacements_witness :
  exists n calls s',
    performReplacement literalEngine 99 (str "k3x") Sample.editor
      (Sample.plainInputs "l" "LL") Settings.DEFAULT_SETTINGS
    = Done calls s' (made n (str "selection"))
    /\ submit literalEngine (fun _ => false) 99 (str "k3x") Sample.editor
         (Sample.plainInputs "l" "LL") Settings.DEFAULT_SETTINGS
       = (if 20 <=? n then
            Declined (confirmQuestion n (str "document"))
          else Proceeded None
                 (performReplacement literalEngine 99 (str "k3x")
                    Sample.editor (Sample.plainInputs "l" "LL")
                    Settings.DEFAULT_SETTINGS),
          []).
Proof.
  apply (@submit_counts_replacements literalEngine (fun _ => false) 99 (str "k3x")
           Sample.editor (Sample.plainInputs "l" "LL")
           Settings.DEFAULT_SETTINGS);
    try reflexivity; discriminate.
Defined.

Lemma submit_invalid_pattern_witness :
  submit literalEngine (fun _ => true) 99 (str "k3x") Sample.editor
    {| findInput := str "(a"; replaceInput := str "b";
       regToggle := true; selToggle := false |} Settings.DEFAULT_SETTINGS
  = (Proceeded None
       (Thrown (str "SyntaxError: Invalid regular expression: /(a/")),
     [str "RegexFiRe: Invalid regex pattern: SyntaxError: Invalid regular expression: /(a/"]).
Proof.
  apply (@submit_invalid_pattern literalEngine (fun _ => true) 99 (str "k3x")
           Sample.editor
           {| findInput := str "(a"; replaceInput := str "b";
              regToggle := true; selToggle := false |}
           Settings.DEFAULT_SETTINGS);
    try reflexivity; try discriminate.
  simpl. lia.
Defined.

Lemma preview_agrees_with_run_witness :
  exists shown more text s',
    fst (fst (updatePreview literalEngine Settings.DEFAULT_SETTINGS
                Sample.editor
                {| findInput := str "hello"; replaceInput := str "bye";
                   regToggle := true; selToggle := false |} false 5))
    = Listing (previewTitle 2 (str "document")) shown more
    /\ length shown <= 50
    /\ performReplacement literalEngine 99 (str "k3x") Sample.editor
         {| findInput := str "hello"; replaceInput := str "bye";
            regToggle := true; selToggle := false |}
         Settings.DEFAULT_SETTINGS
       = Done [SetValue text] s' (made 2 (str "document")).
Proof.
  apply (proj2 (@preview_agrees_with_run literalEngine 99 (str "k3x")
                  Sample.editor
                  {| findInput := str "hello"; replaceInput := str "bye";
                     regToggle := true; selToggle := false |}
                  Settings.DEFAULT_SETTINGS false 5
                  {| source := str "hello"; ignoreCase := true |}
                  {| source := str "hello"; ignoreCase := true |}
                  eq_refl ltac:(discriminate) eq_refl ltac:(discriminate)
                  eq_refl eq_refl)).
  vm_compute. lia.
Defined.
End ConfirmationSample.

(* ================================================================= *)
(** ** Escaping and truncating in the preview *)

Section PreviewText.
Import Preview.

Lemma replaceAllGo_char (c : char) (repl whole s : jsstring) :
  ~ In DOLLAR repl ->
  forall pos,
    replaceAllGo [c] repl whole s pos 0
    = flat_map (fun x => if N.eqb c x then repl else [x]) s.
Proof.
  intros Hd. induction s as [|a s IH]; intros pos; auto.
  cbn [replaceAllGo startsWith flat_map length Nat.sub].
  destruct (N.eqb c a); cbn [andb].
  - rewrite getSubstitution_plain by assumption. now rewrite IH.
  - cbn [app]. now rewrite IH.
Qed.

Lemma replaceAll_char (c : char) (repl s : jsstring) :
  ~ In DOLLAR repl ->
  replaceAll s [c] repl
  = flat_map (fun x => if N.eqb c x then repl else [x]) s.
Proof. intros H. now apply replaceAllGo_char. Qed.

Lemma escapeHtml_passes (s : jsstring) :
  escapeHtml s
  = flat_map (fun x => if N.eqb 39 x then str "&#039;" else [x])
      (flat_map (fun x => if N.eqb 34 x then str "&quot;" else [x])
         (flat_map (fun x => if N.eqb 62 x then str "&gt;" else [x])
            (flat_map (fun x => if N.eqb 60 x then str "&lt;" else [x])
               (flat_map (fun x => if N.eqb 38 x then str "&amp;" else [x])
                  s)))).
Proof.
  unfold escapeHtml. cbv zeta. change (str "&") with [38%N].
  change (str "<") with [60%N]. change (str ">") with [62%N].
  change (str "'") with [39%N]. unfold QUOTE.
  rewrite !replaceAll_char
    by (intros H; vm_compute in H; intuition discriminate).
  reflexivity.
Qed.

Lemma escapeHtml_one (c : char) : escapeHtml [c] = entity c.
Proof.
  unfold entity.
  destruct (N.eqb_spec c 38) as [->|H1]; [reflexivity|].
  destruct (N.eqb_spec c 60) as [->|H2]; [reflexivity|].
  destruct (N.eqb_spec c 62) as [->|H3]; [reflexivity|].
  destruct (N.eqb_spec c 34) as [->|H4]; [reflexivity|].
  destruct (N.eqb_spec c 39) as [->|H5]; [reflexivity|].
  rewrite escapeHtml_passes.
  assert (K : forall x repl,
             x <> c ->
             flat_map (fun y => if N.eqb x y then repl else [y]) [c] = [c]).
  { intros x repl Hx. cbn [flat_map].
    destruct (N.eqb_spec x c); [congruence | reflexivity]. }
  rewrite !K by congruence. reflexivity.
Qed.

Lemma escapeHtml_app (s t : jsstring) :
  escapeHtml (s ++ t) = escapeHtml s ++ escapeHtml t.
Proof. rewrite !escapeHtml_passes. now rewrite !flat_map_app. Qed.

Lemma escapeHtml_flat (s : jsstring) : escapeHtml s = flat_map entity s.
Proof.
  induction s as [|c s IH]; [reflexivity|].
  change (c :: s) with ([c] ++ s).
  rewrite escapeHtml_app, escapeHtml_one, IH. reflexivity.
Qed.

Lemma entity_clean (c x : char) : In x (entity c) -> ~ markupChar x.
Proof.
  unfold entity, markupChar.
  destruct (N.eqb_spec c 38); [intros H; vm_compute in H; intuition (subst; discriminate)|].
  destruct (N.eqb_spec c 60); [intros H; vm_compute in H; intuition (subst; discriminate)|].
  destruct (N.eqb_spec c 62); [intros H; vm_compute in H; intuition (subst; discriminate)|].
  destruct (N.eqb_spec c 34); [intros H; vm_compute in H; intuition (subst; discriminate)|].
  destruct (N.eqb_spec c 39); [intros H; vm_compute in H; intuition (subst; discriminate)|].
  intros [<-|[]]. intuition congruence.
Qed.

Lemma entity_head (c : char) :
  exists t, entity c = (if N.eqb c 38 || N.eqb c 60 || N.eqb c 62
                           || N.eqb c 34 || N.eqb c 39
                        then 38%N else c) :: t.
Proof.
  unfold entity.
  destruct (N.eqb c 38); [eexists; reflexivity|].
  destruct (N.eqb c 60); [eexists; reflexivity|].
  destruct (N.eqb c 62); [eexists; reflexivity|].
  destruct (N.eqb c 34); [eexists; reflexivity|].
  destruct (N.eqb c 39); eexists; reflexivity.
Qed.

(** Two characters whose escaped forms begin alike are the same. *)
Lemma entity_prefix (c d : char) (u v : jsstring) :
  entity c ++ u = entity d ++ v -> c = d /\ u = v.
Proof.
  unfold entity.
  destruct (N.eqb_spec c 38) as [->|C1];
    [|destruct (N.eqb_spec c 60) as [->|C2];
      [|destruct (N.eqb_spec c 62) as [->|C3];
        [|destruct (N.eqb_spec c 34) as [->|C4];
          [|destruct (N.eqb_spec c 39) as [->|C5]]]]];
  (destruct (N.eqb_spec d 38) as [->|D1];
    [|destruct (N.eqb_spec d 60) as [->|D2];
      [|destruct (N.eqb_spec d 62) as [->|D3];
        [|destruct (N.eqb_spec d 34) as [->|D4];
          [|destruct (N.eqb_spec d 39) as [->|D5]]]]]);
  intros H; vm_compute in H; inversion H; subst; auto; congruence.
Qed.

(** X18.  Escaping works character by character, so it goes through
    concatenation and text that was escaped is not escaped again; the
    result holds none of the characters [<], [>], the double quote and
    the apostrophe; and no two texts have the same escaped form. *)
Theorem escapeHtml_characterwise (s t : jsstring) :
  escapeHtml s = flat_map entity s
  /\ escapeHtml (s ++ t) = escapeHtml s ++ escapeHtml t
  /\ (forall x, In x (escapeHtml s) -> ~ markupChar x)
  /\ (escapeHtml s = escapeHtml t -> s = t).
Proof.
  split; [apply escapeHtml_flat|]. split; [apply escapeHtml_app|]. split.
  - intros x. rewrite escapeHtml_flat, in_flat_map.
    intros (c & _ & Hx). now apply entity_clean in Hx.
  - rewrite !escapeHtml_flat. revert t.
    induction s as [|c s IH]; intros [|d t]; cbn [flat_map]; auto.
    + destruct (entity_head d) as [u ->]. discriminate.
    + destruct (entity_head c) as [u ->]. discriminate.
    + intros H. apply entity_prefix in H. destruct H as [-> H].
      f_equal. now apply IH.
Qed.

(** A truncated text fits into [maxLen] characters when [maxLen] is at
    least 3, and truncating it again changes nothing; a text that is
    short enough is left alone; a longer one keeps its first
    [maxLen - 3] characters and ends in three full stops, so that for
    [maxLen] below 3 the result is the three full stops alone. *)
Lemma truncateWithEllipsis_fits (text : jsstring) (maxLen : nat) :
  (3 <= maxLen ->
   length (truncateWithEllipsis text maxLen) <= maxLen
   /\ truncateWithEllipsis (truncateWithEllipsis text maxLen) maxLen
      = truncateWithEllipsis text maxLen)
  /\ (length text <= maxLen -> truncateWithEllipsis text maxLen = text)
  /\ (maxLen < length text ->
      truncateWithEllipsis text maxLen
      = firstn (maxLen - 3) text ++ str "...").
Proof.
  unfold truncateWithEllipsis.
  destruct (Nat.leb_spec (length text) maxLen) as [Le|Gt].
  - split; [|split]; try lia; auto.
    intros _. split; [lia|].
    destruct (Nat.leb_spec (length text) maxLen); [reflexivity | lia].
  - rewrite substring_prefix by lia.
    assert (L : length (firstn (maxLen - 3) text ++ str "...")
                = maxLen - 3 + 3).
    { rewrite length_app, length_firstn. simpl. lia. }
    split; [|split]; try lia; auto.
    intros H3. split; [lia|].
    destruct (Nat.leb_spec (length (firstn (maxLen - 3) text ++ str "..."))
                maxLen); [reflexivity | lia].
Qed.
End PreviewText.

(* ================================================================= *)
(** ** What the preview highlights *)

Section Highlight.
Import Scanner Preview.
Variable E : RegExpEngine.

Lemma splitAux_skip (sep a b cur : jsstring) :
  splitAux sep (a ++ b) (length a) cur = splitAux sep b 0 cur.
Proof. induction a as [|c a IH]; simpl; auto. Qed.

Lemma splitAux_first (c0 : char) (l pre post : jsstring) :
  forall cur,
    (forall j, j < length pre ->
               ~ occursAt (pre ++ (c0 :: l) ++ post) (c0 :: l) j) ->
    splitAux (c0 :: l) (pre ++ (c0 :: l) ++ post) 0 cur
    = (cur ++ pre) :: splitAux (c0 :: l) post 0 [].
Proof.
  induction pre as [|c pre IH]; intros cur Hfirst.
  - cbn [app]. cbn [splitAux].
    replace (startsWith (c0 :: l ++ post) (c0 :: l)) with true.
    2:{ symmetry. apply startsWith_spec. now exists post. }
    cbn [length Nat.sub]. rewrite Nat.sub_0_r, splitAux_skip, app_nil_r.
    reflexivity.
  - change ((c :: pre) ++ (c0 :: l) ++ post)
      with (c :: (pre ++ (c0 :: l) ++ post)).
    cbn [splitAux].
    destruct (startsWith (c :: pre ++ (c0 :: l) ++ post) (c0 :: l)) eqn:Hs.
    + apply occursAt_0 in Hs. destruct (Hfirst 0); [simpl; lia | exact Hs].
    + rewrite IH.
      * f_equal. rewrite <- app_assoc. reflexivity.
      * intros j Hj Ho. apply (Hfirst (S j)); [simpl; lia|].
        now apply occursAt_S.
Qed.

Lemma substring_mid (pre mid post : jsstring) :
  substring (pre ++ mid ++ post) (length pre) (length pre + length mid)
  = mid.
Proof.
  unfold substring. cbv zeta. rewrite !length_app.
  replace (Nat.min (length pre) (length pre + (length mid + length post)))
    with (length pre) by lia.
  replace (Nat.min (length pre + length mid)
             (length pre + (length mid + length post)))
    with (length pre + length mid) by lia.
  replace (Nat.min (length pre) (length pre + length mid))
    with (length pre) by lia.
  replace (Nat.max (length pre) (length pre + length mid))
    with (length pre + length mid) by lia.
  rewrite skipn_app, skipn_all, Nat.sub_diag. cbn [app skipn].
  replace (length pre + length mid - length pre) with (length mid) by lia.
  rewrite firstn_app, firstn_all, Nat.sub_diag. cbn [firstn].
  apply app_nil_r.
Qed.

Lemma substring_head (pre rest : jsstring) :
  substring (pre ++ rest) 0 (length pre) = pre.
Proof.
  rewrite substring_prefix by (rewrite length_app; lia).
  rewrite firstn_app, firstn_all, Nat.sub_diag. cbn [firstn].
  apply app_nil_r.
Qed.

Lemma substringFrom_tail (pre mid post : jsstring) :
  substringFrom (pre ++ mid ++ post) (length pre + length mid) = post.
Proof.
  unfold substringFrom. rewrite app_assoc.
  rewrite <- length_app, skipn_app, skipn_all, Nat.sub_diag. reflexivity.
Qed.

Lemma plainLines_built (find repl : jsstring) (limit : nat) :
  forall lines i acc p,
    In p (plainLines find repl limit lines i acc) ->
    In p acc
    \/ exists line j k ms,
         indexOf line find = Some ms
         /\ p = plainPreview find repl line j k ms.
Proof.
  induction lines as [|line rest IH]; intros i acc p; simpl; auto.
  destruct (_ <? _); auto.
  destruct (indexOf line find) as [ms|] eqn:Ei; [|apply IH].
  intros H. apply IH in H. destruct H as [H|H]; [|auto].
  apply in_app_or in H. destruct H as [H|[<-|[]]]; [auto|].
  right. eauto 6.
Qed.

(** X19.  For every preview of a plain-text scan with a find string that is
    not empty: the line splits into the text before the match, the find
    string and the text after it; the line after the replacement begins
    with the same text before the match, followed by the replace string;
    and these are the pieces, escaped, between which the highlighting is
    put in both lines. *)
Theorem plain_preview_highlight
    (text find repl : jsstring) (ci ml : bool) (limit : nat)
    (p : MatchPreview) :
  find <> [] ->
  In p (previews (fst (generateMatchPreviews E text find repl false ci ml
                         limit))) ->
  exists pre post rest,
    lineContent p = pre ++ find ++ post
    /\ lineAfterReplace p = pre ++ repl ++ rest
    /\ highlightedBefore p
       = {| beforePart := escapeHtml pre; midPart := escapeHtml find;
            afterPart := escapeHtml post |}
    /\ highlightedAfter p
       = {| beforePart := escapeHtml pre; midPart := escapeHtml repl;
            afterPart := escapeHtml rest |}.
Proof.
  intros Hne Hp. unfold generateMatchPreviews in Hp. cbn [fst previews] in Hp.
  apply plainLines_built in Hp.
  destruct Hp as [[]|(line & j & k & ms & Hi & ->)].
  apply indexOf_spec in Hi.
  destruct Hi as [(pre & post & -> & Hlen) Hfirst]. subst ms.
  destruct find as [|c0 l]; [congruence|].
  exists pre, post, (join (split post (c0 :: l)) repl).
  assert (Hafter : join (split (pre ++ (c0 :: l) ++ post) (c0 :: l)) repl
                   = pre ++ repl ++ join (split post (c0 :: l)) repl).
  { unfold split. rewrite splitAux_first by exact Hfirst.
    rewrite join_cons by apply splitAux_nonempty. reflexivity. }
  unfold highlightedBefore, highlightedAfter, plainPreview.
  cbn [lineContent lineAfterReplace matchStartInLine matchEndInLine
       replacementText].
  rewrite Hafter.
  rewrite substring_head, substring_mid, substringFrom_tail.
  rewrite substring_head, substringFrom_tail.
  repeat split; reflexivity.
Qed.
End Highlight.

Section HighlightSample.
Import Scanner Preview.

Lemma plain_preview_highlight_witness :
  exists pre post rest,
    str "cab ab" = pre ++ str "ab" ++ post
    /\ str "cZ Z" = pre ++ str "Z" ++ rest
    /\ highlightedBefore
         (plainPreview (str "ab") (str "Z") (str "cab ab") 2 1 1)
       = {| beforePart := escapeHtml pre; midPart := escapeHtml (str "ab");
            afterPart := escapeHtml post |}
    /\ highlightedAfter
         (plainPreview (str "ab") (str "Z") (str "cab ab") 2 1 1)
       = {| beforePart := escapeHtml pre; midPart := escapeHtml (str "Z");
            afterPart := escapeHtml rest |}.
Proof.
  apply (@plain_preview_highlight literalEngine
           (str "abab" ++ [LF] ++ str "xx" ++ [LF] ++ str "cab ab")
           (str "ab") (str "Z") false true 5
           (plainPreview (str "ab") (str "Z") (str "cab ab") 2 1 1)).
  - discriminate.
  - vm_compute. auto.
Defined.
End HighlightSample.

(* ================================================================= *)
(** ** The number fields of the settings tab *)

Section NumberFields.
Import SettingsTab.

Lemma digit_range (c : char) :
  isDigit c = true <-> (48 <= c <= 57)%N.
Proof.
  unfold isDigit. rewrite andb_true_iff, !N.leb_le. tauto.
Qed.

Lemma digit_not_space (c : char) : isDigit c = true -> isWhiteSpace c = false.
Proof.
  intros H. apply digit_range in H.
  unfold isWhiteSpace, isLineTerminator.
  repeat match goal with
         | |- context [N.eqb c ?k] =>
             destruct (N.eqb_spec c k); [lia|]
         end.
  destruct (N.leb_spec 8192 c); [lia | reflexivity].
Qed.

Lemma digitRun_decimal (ds : jsstring) :
  Forall (fun c => isDigit c = true) ds ->
  forall a,
    digitRun decValue 10 ds (Some a)
    = Some (fold_left (fun a c => 10 * a + digitVal c) ds a).
Proof.
  induction 1 as [|d ds Hd _ IH]; intros a; [reflexivity|].
  cbn [digitRun fold_left]. unfold decValue at 1. rewrite Hd.
  apply IH.
Qed.

Lemma digitRun_numeral (ds : jsstring) :
  ds <> [] -> Forall (fun c => isDigit c = true) ds ->
  digitRun decValue 10 ds None = Some (decimalValue ds).
Proof.
  intros Hne Hall. destruct ds as [|d ds]; [congruence|].
  inversion Hall as [|? ? Hd Hds]; subst.
  cbn [digitRun]. unfold decValue at 1. rewrite Hd.
  rewrite digitRun_decimal by assumption. reflexivity.
Qed.

Lemma parseInt_numeral (ds : jsstring) :
  ds <> [] -> Forall (fun c => isDigit c = true) ds ->
  parseInt ds = Some (Z.of_nat (decimalValue ds)).
Proof.
  intros Hne Hall. unfold parseInt.
  destruct ds as [|d ds]; [congruence|].
  inversion Hall as [|? ? Hd Hds]; subst.
  unfold trimStart. cbn [dropWhile]. rewrite (digit_not_space _ Hd).
  pose proof (proj1 (digit_range d) Hd) as Rd.
  destruct (N.eqb_spec d (ch "-")) as [->|_];
    [change (ch "-") with 45%N in Rd; lia|].
  destruct (N.eqb_spec d (ch "+")) as [->|_];
    [change (ch "+") with 43%N in Rd; lia|].
  assert (K : match d :: ds with
              | z :: x :: r =>
                  if N.eqb z (ch "0")
                     && (N.eqb x (ch "x") || N.eqb x (ch "X"))
                  then digitRun hexValue 16 r None
                  else digitRun decValue 10 (d :: ds) None
              | _ => digitRun decValue 10 (d :: ds) None
              end = Some (decimalValue (d :: ds))).
  { destruct ds as [|x r]; [now apply digitRun_numeral|].
    inversion Hds as [|? ? Hx _]; subst.
    pose proof (proj1 (digit_range x) Hx) as Rx.
    destruct (N.eqb_spec x (ch "x")) as [->|_];
      [change (ch "x") with 120%N in Rx; lia|].
    destruct (N.eqb_spec x (ch "X")) as [->|_];
      [change (ch "X") with 88%N in Rx; lia|].
    rewrite andb_false_r. now apply digitRun_numeral. }
  rewrite K. reflexivity.
Qed.

Lemma parseInt_natToString (n : nat) :
  parseInt (natToString n) = Some (Z.of_nat n).
Proof.
  destruct (natToString_spec n) as (Hne & Hd & Hv).
  rewrite parseInt_numeral by assumption. now rewrite Hv.
Qed.

Lemma accepted_shown (max : Z) (n : nat) :
  accepted max (natToString n)
  = if ((0 <? Z.of_nat n) && (Z.of_nat n <=? max))%Z then Some n else None.
Proof.
  unfold accepted. rewrite parseInt_natToString.
  destruct (_ && _)%Z; [|reflexivity]. now rewrite Nat2Z.id.
Qed.

Lemma accepted_range (max : Z) (value : jsstring) (n : nat) :
  accepted max value = Some n -> (1 <= Z.of_nat n <= max)%Z.
Proof.
  unfold accepted. destruct (parseInt value) as [num|]; [|discriminate].
  destruct (Z.ltb_spec 0 num) as [Lo|]; [|discriminate].
  destruct (Z.leb_spec num max) as [Hi|]; [|discriminate].
  cbn [andb]. intros Hn; inversion Hn; subst. rewrite Z2Nat.id; lia.
Qed.

(** X20.  What a number field shows is the decimal numeral of the setting, and
    [parseInt] reads that numeral back as the same number; so typing the
    shown value again leaves the settings as they are (for the history
    size: when the history is within its bound). *)
Theorem number_fields_round_trip (n : nat) (s : Settings.t) :
  parseInt (natToString n) = Some (Z.of_nat n)
  /\ onPreviewLimit (natToString (Settings.previewLimit s)) s = s
  /\ onLargeReplaceThreshold
       (natToString (Settings.largeReplaceThreshold s)) s = s
  /\ (length (unpinned (Settings.savedPatterns s))
        <= Settings.maxHistorySize s ->
      onMaxHistorySize (natToString (Settings.maxHistorySize s)) s = s).
Proof.
  split; [apply parseInt_natToString|].
  unfold onPreviewLimit, onLargeReplaceThreshold, onMaxHistorySize.
  rewrite !accepted_shown. split; [|split].
  - destruct (_ && _)%Z; now destruct s.
  - destruct (_ && _)%Z; now destruct s.
  - intros B. destruct (_ && _)%Z; [|reflexivity].
    replace (withMaxHistorySize s (Settings.maxHistorySize s)) with s
      by now destruct s.
    unfold History.pruneHistory.
    fold (unpinned (Settings.savedPatterns s)).
    destruct (Nat.ltb_spec (Settings.maxHistorySize s)
                (length (unpinned (Settings.savedPatterns s))));
      [lia | reflexivity].
Qed.

End NumberFields.

Example parseInt_sample :
  SettingsTab.parseInt (str "  42abc") = Some 42%Z
  /\ SettingsTab.parseInt (str "0x1F") = Some 31%Z
  /\ SettingsTab.parseInt (str "-7") = Some (-7)%Z
  /\ SettingsTab.parseInt (str "abc") = None
  /\ SettingsTab.parseInt [] = None.
Proof. repeat split. Qed.

(* ================================================================= *)
(** ** Fenced blocks are left alone *)

Section FencedBlocks.
Import Markdown.

Lemma fence_line_kept (l1 l2 : list jsstring) (h : jsstring) :
  inFence (fenceStep (fold_left fenceStep l1 noFence) h) = true ->
  nth_error (fst (fixLines (l1 ++ h :: l2))) (length l1) = Some h.
Proof.
  intros Hin. destruct (fenceMatch h) as [marker|] eqn:Em.
  - rewrite fixLines_fst, firstPass_app. cbn [fst].
    cbn [firstPass]. rewrite Em.
    destruct (firstPass l2 _ _) as [out st'] eqn:E2. cbn [fst].
    rewrite secondPass_app. cbn [fst]. rewrite second_pass_state.
    rewrite secondPass_head_in by exact Hin.
    apply nth_error_middle.
    now rewrite secondPass_length, firstPass_length.
  - apply line_in_fence; auto.
    now rewrite (@fenceStep_none _ h Em) in Hin.
Qed.

(** X22.  Every line of a fenced block, from the line that opens the fence to
    the last line before the one that closes it, comes out of the fixer
    exactly as it went in. *)
Theorem fenced_lines_untouched (text : jsstring) (i : nat) (line : jsstring) :
  nth_error (split text [LF]) i = Some line ->
  inFence (fenceStep (fenceBefore (split text [LF]) i) line) = true ->
  nth_error (split (fst (fixMarkdownFormatting text)) [LF]) i = Some line.
Proof.
  intros Hnth Hin.
  destruct (nth_error_split _ _ Hnth) as (l1 & l2 & Hlines & Hlen).
  assert (Hbefore : fenceBefore (split text [LF]) i
                    = fold_left fenceStep l1 noFence).
  { unfold fenceBefore. rewrite Hlines, <- Hlen, firstn_app, Nat.sub_diag.
    rewrite firstn_all. simpl. now rewrite app_nil_r. }
  rewrite fixed_lines, Hlines, <- Hlen.
  apply fence_line_kept. now rewrite <- Hbefore.
Qed.

Lemma fenced_lines_untouched_witness :
  nth_error (split (fst (fixMarkdownFormatting Sample.markdown)) [LF]) 0
  = Some (str "```js")
  /\ nth_error (split (fst (fixMarkdownFormatting Sample.markdown)) [LF]) 1
     = Some (str "######## in code").
Proof.
  split.
  - apply (@fenced_lines_untouched Sample.markdown 0 (str "```js"));
      reflexivity.
  - apply (@fenced_lines_untouched Sample.markdown 1
             (str "######## in code")); reflexivity.
Defined.
End FencedBlocks.

(* ================================================================= *)
(** ** What the fixer may add *)

Section AddedCharacters.
Import Markdown.

Lemma firstPass_chars (lines : list jsstring) :
  forall f st out x,
    In out (fst (firstPass lines f st)) -> In x out ->
    (exists line, In line lines /\ In x line) \/ added x.
Proof.
  induction lines as [|line rest IH]; intros f st out x; simpl;
    [tauto|].
  destruct (fenceMatch line) as [marker|].
  - specialize (IH (toggle f marker) st out x).
    destruct (firstPass rest (toggle f marker) st) as [o s]. simpl in *.
    intros [<-|Ho] Hx; [left; eauto|].
    destruct (IH Ho Hx) as [(l & Hl & Hxl)|Ha]; [left; eauto | now right].
  - destruct (inFence f).
    + specialize (IH f st out x).
      destruct (firstPass rest f st) as [o s]. simpl in *.
      intros [<-|Ho] Hx; [left; eauto|].
      destruct (IH Ho Hx) as [(l & Hl & Hxl)|Ha]; [left; eauto | now right].
    + pose proof (fixLine_chars line st x) as Hc.
      destruct (fixLine line st) as [u st1].
      specialize (IH f st1 out x).
      destruct (firstPass rest f st1) as [o s]. simpl in *.
      intros [<-|Ho] Hx.
      * destruct (Hc Hx) as [Hl|Ha]; [left; eauto | now right].
      * destruct (IH Ho Hx) as [(l & Hl & Hxl)|Ha];
          [left; eauto | now right].
Qed.

Lemma secondPass_chars (lines : list jsstring) :
  forall f n out x,
    In out (fst (secondPass lines f n)) -> In x out ->
    exists line, In line lines /\ In x line.
Proof.
  induction lines as [|line rest IH]; intros f n out x; [simpl; tauto|].
  destruct (inFence (fenceStep f line)) eqn:Hf.
  - rewrite secondPass_head_in by assumption.
    intros [<-|Ho] Hx; [exists line; simpl; auto|].
    destruct (IH _ _ _ _ Ho Hx) as (l & Hl & Hxl). exists l; simpl; auto.
  - destruct (@secondPass_head_out f line rest n Hf) as (y & n' & Hy & ->).
    intros [<-|Ho] Hx.
    + exists line. split; [simpl; auto|].
      destruct Hy as [->| ->]; [assumption | now apply trimLine_chars].
    + destruct (IH _ _ _ _ Ho Hx) as (l & Hl & Hxl). exists l; simpl; auto.
Qed.

Lemma In_join (pieces : list jsstring) (sep : jsstring) (x : char) :
  In x (join pieces sep) ->
  (exists p, In p pieces /\ In x p) \/ (In x sep /\ 2 <= length pieces).
Proof.
  induction pieces as [|p rest IH]; [simpl; tauto|].
  destruct rest as [|q rest].
  - simpl. intros H. left. exists p. auto.
  - rewrite join_cons by discriminate. intros H.
    apply in_app_or in H. destruct H as [H|H]; [left; exists p; simpl; auto|].
    apply in_app_or in H. destruct H as [H|H]; [right; simpl; split; [auto|lia]|].
    destruct (IH H) as [(r & Hr & Hx)|[Hs _]].
    + left. exists r. split; [right; exact Hr | exact Hx].
    + right. simpl. split; [auto | lia].
Qed.

Lemma join_In (pieces : list jsstring) (sep p : jsstring) (x : char) :
  In p pieces -> In x p -> In x (join pieces sep).
Proof.
  induction pieces as [|q rest IH]; [simpl; tauto|].
  destruct rest as [|r rest].
  - simpl. intros [<-|[]] Hx. exact Hx.
  - rewrite join_cons by discriminate. intros [<-|Hp] Hx.
    + apply in_or_app. now left.
    + apply in_or_app. right. apply in_or_app. right. now apply IH.
Qed.

Lemma sep_In_join (pieces : list jsstring) (sep : jsstring) (x : char) :
  2 <= length pieces -> In x sep -> In x (join pieces sep).
Proof.
  destruct pieces as [|p [|q rest]]; simpl length; try lia.
  intros _ Hx. rewrite join_cons by discriminate.
  apply in_or_app. right. apply in_or_app. now left.
Qed.

(** X23.  The fixer adds nothing but spaces and hashes: every character of
    its result is a character of the text it was given, a space or a
    hash. *)
Theorem fixer_adds_spaces_and_hashes (text : jsstring) (x : char) :
  In x (fst (fixMarkdownFormatting text)) ->
  In x text \/ x = SPACE \/ x = HASH.
Proof.
  intros Hx.
  assert (Hsrc : forall line, In line (split text [LF]) -> forall y,
                   In y line -> In y text).
  { intros line Hl y Hy. rewrite <- (join_split text [LF]).
    eapply join_In; eauto. }
  pose proof (fixed_lines text) as Hfix.
  pose proof (fixLines_length (split text [LF])) as Hlen.
  rewrite <- Hfix in Hlen.
  rewrite <- (join_split (fst (fixMarkdownFormatting text)) [LF]) in Hx.
  apply In_join in Hx. destruct Hx as [(out & Ho & Hxo)|[Hlf H2]].
  - rewrite Hfix, fixLines_fst in Ho.
    destruct (secondPass_chars _ _ _ _ _ Ho Hxo) as (mid & Hm & Hxm).
    destruct (firstPass_chars _ _ _ _ _ Hm Hxm) as [(l & Hl & Hxl)|Ha].
    + left. eapply Hsrc; eauto.
    + right. exact Ha.
  - left. rewrite <- (join_split text [LF]).
    apply sep_In_join; [lia | exact Hlf].
Qed.

Lemma fixer_adds_spaces_and_hashes_witness :
  In (ch "#") (str "#Title") \/ ch "#" = SPACE \/ ch "#" = HASH.
Proof.
  apply (@fixer_adds_spaces_and_hashes (str "#Title") (ch "#")).
  vm_compute. auto.
Defined.
End AddedCharacters.

(* ================================================================= *)
(** ** The statistics account for the changes *)

Section Tally.
Import RegexLit Markdown.

Lemma inc_keys (k : jsstring) (by_ : nat) (st : Stats) :
  map key (inc k by_ st)
  = if existsb (fun s => eqs (key s) k) st then map key st
    else map key st ++ [k].
Proof.
  induction st as [|s st IH]; [reflexivity|].
  cbn [inc existsb]. destruct (eqs (key s) k); cbn [orb map key].
  - reflexivity.
  - rewrite IH. now destruct (existsb _ st).
Qed.

Lemma inc_tallied (k : jsstring) (by_ : nat) (st : Stats) :
  1 <= by_ -> In k categories -> tallied st -> tallied (inc k by_ st).
Proof.
  intros Hby Hk [Hall Hnd]. split.
  - clear Hnd. induction Hall as [|s st [Hc Hkey] Htail IH]; cbn [inc].
    + constructor; [cbn [count key]; split; assumption | constructor].
    + destruct (eqs (key s) k).
      * constructor; [cbn [count key]; split; [lia | exact Hkey]
                     | exact Htail].
      * constructor; [split; assumption | exact IH].
  - rewrite inc_keys. destruct (existsb _ st) eqn:Ex; [exact Hnd|].
    apply NoDup_app; [exact Hnd | repeat constructor; simpl; tauto |].
    intros x Hx [<-|[]].
    apply in_map_iff in Hx. destruct Hx as (s & Hs & Hin).
    assert (Hf : existsb (fun s0 => eqs (key s0) k) st = true).
    { apply existsb_exists. exists s. split; [exact Hin|].
      now apply eqs_spec. }
    congruence.
Qed.

Lemma inc_nonempty (k : jsstring) (by_ : nat) (st : Stats) :
  inc k by_ st <> [].
Proof. destruct st as [|s st]; simpl; [|destruct (eqs _ _)]; discriminate. Qed.

Lemma replaceFn_tallied (r : re) (s : jsstring)
    (fn : jsstring -> caps -> Stats -> jsstring * Stats) (st : Stats) :
  (forall m c st0, tallied st0 -> tallied (snd (fn m c st0))) ->
  tallied st -> tallied (snd (replaceFn r s fn st)).
Proof.
  intros Hfn Hst.
  destruct (replaceFn_cases r s fn st)
    as [[_ ->] | (f & pre & xs & rest & _ & _ & _ & ->)]; cbn [snd]; auto.
Qed.

Lemma replaceFn_quiet (r : re) (s : jsstring)
    (fn : jsstring -> caps -> Stats -> jsstring * Stats) (st : Stats) :
  (forall m c st0, snd (fn m c st0) = [] -> fst (fn m c st0) = m /\ st0 = []) ->
  snd (replaceFn r s fn st) = [] ->
  fst (replaceFn r s fn st) = s /\ st = [].
Proof.
  intros Hfn.
  destruct (replaceFn_cases r s fn st)
    as [[_ ->] | (f & pre & xs & rest & _ & -> & _ & ->)]; cbn [fst snd];
    auto.
  intros H. destruct (Hfn _ _ _ H) as [-> ->]. auto.
Qed.

Ltac in_categories := unfold categories; simpl; tauto.

Lemma fixLine_tallied (line : jsstring) (st : Stats) :
  tallied st -> tallied (snd (fixLine line st)).
Proof.
  intros Hst. unfold fixLine.
  destruct (dupHead line st) as [u1 st1] eqn:E1.
  destruct (capHead u1 st1) as [u2 st2] eqn:E2.
  destruct (normHead u2 st2) as [u3 st3] eqn:E3.
  destruct (listBullet u3 st3) as [u4 st4] eqn:E4.
  assert (H1 : tallied st1).
  { replace st1 with (snd (dupHead line st)) by now rewrite E1.
    apply replaceFn_tallied; auto. intros m c st0 H0. cbn [snd].
    apply inc_tallied; auto. in_categories. }
  assert (H2 : tallied st2).
  { replace st2 with (snd (capHead u1 st1)) by now rewrite E2.
    apply replaceFn_tallied; auto. intros m c st0 H0. cbn [snd].
    apply inc_tallied; auto. in_categories. }
  assert (H3 : tallied st3).
  { replace st3 with (snd (normHead u2 st2)) by now rewrite E3.
    apply replaceFn_tallied; auto. intros m c st0 H0. cbn [snd].
    destruct (eqs m (spaced c)); auto.
    apply inc_tallied; auto. in_categories. }
  assert (H4 : tallied st4).
  { replace st4 with (snd (listBullet u3 st3)) by now rewrite E4.
    apply replaceFn_tallied; auto. intros m c st0 H0. cbn [snd].
    destruct (eqs m (spaced c)); auto.
    apply inc_tallied; auto. in_categories. }
  apply replaceFn_tallied; auto. intros m c st0 H0. cbn [snd].
  destruct (eqs m (spaced c)); auto.
  apply inc_tallied; auto. in_categories.
Qed.

Lemma spaced_quiet (k : jsstring) (m : jsstring) (c : caps) (st0 : Stats) :
  snd (spaced c, if eqs m (spaced c) then st0 else inc k 1 st0) = [] ->
  fst (spaced c, if eqs m (spaced c) then st0 else inc k 1 st0) = m
  /\ st0 = [].
Proof.
  cbn [fst snd]. destruct (eqs m (spaced c)) eqn:Em.
  - apply eqs_spec in Em. intros ->. auto.
  - intros H. now apply inc_nonempty in H.
Qed.

Lemma fixLine_quiet (line : jsstring) (st : Stats) :
  snd (fixLine line st) = [] -> fst (fixLine line st) = line /\ st = [].
Proof.
  unfold fixLine.
  destruct (dupHead line st) as [u1 st1] eqn:E1.
  destruct (capHead u1 st1) as [u2 st2] eqn:E2.
  destruct (normHead u2 st2) as [u3 st3] eqn:E3.
  destruct (listBullet u3 st3) as [u4 st4] eqn:E4.
  intros H5.
  assert (Q5 : fst (listOrdered u4 st4) = u4 /\ st4 = []).
  { apply replaceFn_quiet; [intros m c st0; apply spaced_quiet | exact H5]. }
  destruct Q5 as [-> ->].
  assert (Q4 : fst (listBullet u3 st3) = u3 /\ st3 = []).
  { apply replaceFn_quiet; [intros m c st0; apply spaced_quiet|].
    change (snd (listBullet u3 st3) = []). now rewrite E4. }
  rewrite E4 in Q4. cbn [fst] in Q4. destruct Q4 as [-> ->].
  assert (Q3 : fst (normHead u2 st2) = u2 /\ st2 = []).
  { apply replaceFn_quiet; [intros m c st0; apply spaced_quiet|].
    change (snd (normHead u2 st2) = []). now rewrite E3. }
  rewrite E3 in Q3. cbn [fst] in Q3. destruct Q3 as [-> ->].
  assert (Q2 : fst (capHead u1 st1) = u1 /\ st1 = []).
  { apply replaceFn_quiet;
      [intros m c st0 H; cbn [snd] in H; now apply inc_nonempty in H|].
    change (snd (capHead u1 st1) = []). now rewrite E2. }
  rewrite E2 in Q2. cbn [fst] in Q2. destruct Q2 as [-> ->].
  assert (Q1 : fst (dupHead line st) = line /\ st = []).
  { apply replaceFn_quiet;
      [intros m c st0 H; cbn [snd] in H; now apply inc_nonempty in H|].
    change (snd (dupHead line st) = []). now rewrite E1. }
  rewrite E1 in Q1. cbn [fst] in Q1. exact Q1.
Qed.

Lemma firstPass_tallied (lines : list jsstring) :
  forall f st, tallied st -> tallied (snd (firstPass lines f st)).
Proof.
  induction lines as [|line rest IH]; intros f st Hst; simpl; auto.
  destruct (fenceMatch line) as [marker|].
  - specialize (IH (toggle f marker) st Hst).
    now destruct (firstPass rest (toggle f marker) st).
  - destruct (inFence f).
    + specialize (IH f st Hst). now destruct (firstPass rest f st).
    + pose proof (fixLine_tallied line Hst) as H1.
      destruct (fixLine line st) as [u st1].
      specialize (IH f st1 H1). now destruct (firstPass rest f st1).
Qed.

Lemma firstPass_quiet (lines : list jsstring) :
  forall f st,
    snd (firstPass lines f st) = [] ->
    fst (firstPass lines f st) = lines /\ st = [].
Proof.
  induction lines as [|line rest IH]; intros f st; simpl; auto.
  destruct (fenceMatch line) as [marker|].
  - specialize (IH (toggle f marker) st).
    destruct (firstPass rest (toggle f marker) st) as [o s]. simpl in *.
    intros H. destruct (IH H) as [-> ->]. auto.
  - destruct (inFence f).
    + specialize (IH f st).
      destruct (firstPass rest f st) as [o s]. simpl in *.
      intros H. destruct (IH H) as [-> ->]. auto.
    + pose proof (fixLine_quiet line st) as Hq.
      destruct (fixLine line st) as [u st1].
      specialize (IH f st1).
      destruct (firstPass rest f st1) as [o s]. simpl in *.
      intros H. destruct (IH H) as [-> ->].
      destruct (Hq eq_refl) as [-> ->]. auto.
Qed.

Lemma secondPass_counts (lines : list jsstring) :
  forall f n,
    n <= snd (secondPass lines f n)
    /\ (snd (secondPass lines f n) = n -> fst (secondPass lines f n) = lines).
Proof.
  induction lines as [|line rest IH]; intros f n; [simpl; auto|].
  cbn [secondPass].
  destruct (inFence (fenceStep f line)).
  { specialize (IH (fenceStep f line) n).
    destruct (secondPass rest (fenceStep f line) n) as [o m]. simpl in *.
    destruct IH as [H1 H2]. split; auto. intros H. now rewrite H2. }
  destruct (endsWith line (str "  ") && negb (endsWith line (str "   "))).
  { specialize (IH (fenceStep f line) n).
    destruct (secondPass rest (fenceStep f line) n) as [o m]. simpl in *.
    destruct IH as [H1 H2]. split; auto. intros H. now rewrite H2. }
  destruct (eqs (trimLine line) line).
  { specialize (IH (fenceStep f line) n).
    destruct (secondPass rest (fenceStep f line) n) as [o m]. simpl in *.
    destruct IH as [H1 H2]. split; auto. intros H. now rewrite H2. }
  specialize (IH (fenceStep f line) (S n)).
  destruct (secondPass rest (fenceStep f line) (S n)) as [o m]. simpl in *.
  destruct IH as [H1 H2]. split; [lia|]. intros H. lia.
Qed.

Lemma fixLines_tallied (lines : list jsstring) :
  tallied (snd (fixLines lines)).
Proof.
  unfold fixLines.
  pose proof (@firstPass_tallied lines noFence []) as H1.
  destruct (firstPass lines noFence []) as [l1 st].
  destruct (secondPass l1 noFence 0) as [l2 fixes]. cbn [snd] in *.
  assert (H0 : tallied st) by (apply H1; split; constructor).
  destruct (Nat.ltb_spec 0 fixes); auto.
  apply inc_tallied; auto. unfold categories; simpl; tauto.
Qed.

Lemma fixLines_quiet (lines : list jsstring) :
  snd (fixLines lines) = [] -> fst (fixLines lines) = lines.
Proof.
  unfold fixLines.
  pose proof (@firstPass_quiet lines noFence []) as H1.
  destruct (firstPass lines noFence []) as [l1 st].
  pose proof (@secondPass_counts l1 noFence 0) as H2.
  destruct (secondPass l1 noFence 0) as [l2 fixes]. cbn [fst snd] in *.
  destruct (Nat.ltb_spec 0 fixes) as [Lt|Ge].
  - intros H. now apply inc_nonempty in H.
  - intros ->. destruct (H1 eq_refl) as [-> _].
    apply H2. lia.
Qed.

Lemma stats_tallied (text : jsstring) :
  tallied (snd (fixMarkdownFormatting text))
  /\ (snd (fixMarkdownFormatting text) = [] ->
      fst (fixMarkdownFormatting text) = text).
Proof.
  rewrite fixMarkdownFormatting_stats. split; [apply fixLines_tallied|].
  intros H. apply fixLines_quiet in H.
  unfold fixMarkdownFormatting.
  destruct (fixLines (split text [LF])) as [lines st]. cbn [fst] in *.
  subst lines. apply join_split.
Qed.

(** X24.  The statistics account for every change: each entry counts at least
    one fix of one of the six categories and no category has two
    entries; and when nothing is counted, the text comes back as it was
    given. *)
Theorem stats_account_for_fixes (text : jsstring) :
  Forall (fun s => 1 <= count s /\ In (key s) categories)
    (snd (fixMarkdownFormatting text))
  /\ NoDup (map key (snd (fixMarkdownFormatting text)))
  /\ (snd (fixMarkdownFormatting text) = [] ->
      fst (fixMarkdownFormatting text) = text).
Proof.
  destruct (stats_tallied text) as [[Hall Hnd] Hq]. auto.
Qed.
End Tally.

(* ================================================================= *)
(** ** The command and its notice *)

Section FixCommand.
Import Markdown Modal Command.

Lemma describe_nonempty (s : FixStat) : describe s <> [].
Proof.
  unfold describe.
  repeat (destruct (eqs (key s) _); [discriminate|]).
  intros H. apply (f_equal (@length _)) in H.
  rewrite !length_app in H. simpl in H. lia.
Qed.

Lemma summary_nonempty (stats : Stats) :
  tallied stats -> stats <> [] -> summary stats <> [].
Proof.
  intros [Hall _] Hne. unfold summary.
  destruct stats as [|s rest]; [congruence|].
  inversion Hall as [|? ? [Hc _] _]; subst.
  cbn [filter]. destruct (Nat.ltb_spec 0 (count s)) as [_|]; [|lia].
  cbn [map]. pose proof (describe_nonempty s) as Hd.
  destruct (map describe (filter _ rest)) as [|y ys].
  - exact Hd.
  - rewrite join_cons by discriminate.
    destruct (describe s); [congruence | discriminate].
Qed.

(** X25.  The command either finds nothing to fix, writes nothing and says so,
    or writes the fixed text, which differs from the document, and shows
    the summary of the statistics; that summary is never empty, so the
    notice "Markdown formatting fixes applied" is never shown. *)
Theorem fixFormatting_notice (doc : jsstring) :
  (fst (fixMarkdownFormatting doc) = doc
   /\ fixFormatting doc = ([], nothingToFix))
  \/ (fst (fixMarkdownFormatting doc) <> doc
      /\ summary (snd (fixMarkdownFormatting doc)) <> []
      /\ fixFormatting doc
         = ([SetValue (fst (fixMarkdownFormatting doc))],
            summary (snd (fixMarkdownFormatting doc)))).
Proof.
  destruct (stats_tallied doc) as [Ht Hq].
  unfold fixFormatting.
  destruct (fixMarkdownFormatting doc) as [text stats]. cbn [fst snd] in *.
  destruct (eqs text doc) eqn:Ed.
  - apply eqs_spec in Ed. left. auto.
  - apply eqs_false in Ed. right. split; [exact Ed|].
    assert (Hs : summary stats <> []).
    { apply summary_nonempty; [exact Ht|]. intros ->. now apply Ed, Hq. }
    split; [exact Hs|]. cbn [negb].
    apply eqs_false in Hs. now rewrite Hs.
Qed.
End FixCommand.

Example fixFormatting_sample :
  Command.fixFormatting (str "#Title" ++ [LF] ++ str "-item" ++ [TAB])
  = ([Modal.SetValue (str "# Title" ++ [LF] ++ str "- item")],
     Command.labelSpaceNormalize ++ str "1" ++ Command.separator
       ++ Command.labelBulletSpace ++ str "1" ++ Command.separator
       ++ Command.labelTrailing ++ str "1").
Proof. reflexivity. Qed.

(* ================================================================= *)
(** ** The leftmost match *)

Section Leftmost.
Import RegexLit.

Lemma searchFrom_none (r : re) (s : jsstring) :
  forall pos,
    searchFrom r pos s = None ->
    forall pre rest, s = pre ++ rest ->
                     matchAt r (pos + length pre) rest = None.
Proof.
  induction s as [|a s IH]; intros pos; cbn [searchFrom].
  - destruct (matchAt r pos []) eqn:E; [discriminate|].
    intros _ pre rest H. symmetry in H. apply app_eq_nil in H.
    destruct H as [-> ->]. simpl. now rewrite Nat.add_0_r.
  - destruct (matchAt r pos (a :: s)) eqn:E; [discriminate|].
    intros H [|b pre] rest Hs; simpl in Hs.
    + subst rest. simpl. now rewrite Nat.add_0_r.
    + inversion Hs; subst. simpl. rewrite <- Nat.add_succ_comm.
      now apply IH.
Qed.

Lemma searchFrom_leftmost (r : re) (s : jsstring) :
  forall pos f,
    searchFrom r pos s = Some f ->
    forall pre rest, s = pre ++ rest -> pos + length pre < start f ->
                     matchAt r (pos + length pre) rest = None.
Proof.
  induction s as [|a s IH]; intros pos f; cbn [searchFrom].
  - destruct (matchAt r pos []) as [g|] eqn:E; [|discriminate].
    intros H pre rest Hs Hlt. inversion H; subst g.
    apply matchAt_sound in E. destruct E as (_ & _ & _ & _ & Hst & _). lia.
  - destruct (matchAt r pos (a :: s)) as [g|] eqn:E.
    + intros H pre rest Hs Hlt. inversion H; subst g.
      apply matchAt_sound in E. destruct E as (_ & _ & _ & _ & Hst & _). lia.
    + intros H [|b pre] rest Hs Hlt; simpl in Hs.
      * subst rest. simpl. now rewrite Nat.add_0_r.
      * inversion Hs; subst. simpl. rewrite <- Nat.add_succ_comm.
        eapply IH; eauto. simpl in Hlt. lia.
Qed.

(** [replace] with a replacer function works on the leftmost match. *)
Lemma replaceFn_leftmost (S : Type) (r : re) (s : jsstring)
    (fn : jsstring -> caps -> S -> jsstring * S) (st : S) :
  (searchFrom r 0 s = None /\ replaceFn r s fn st = (s, st))
  \/ exists f pre xs rest,
       searchFrom r 0 s = Some f /\ start f = length pre
       /\ s = pre ++ xs ++ rest
       /\ Matches r (length pre) xs rest noCaps (captures f)
       /\ replaceFn r s fn st
          = (pre ++ fst (fn xs (captures f) st) ++ rest,
             snd (fn xs (captures f) st)).
Proof.
  unfold replaceFn, exec.
  destruct (searchFrom r 0 s) as [f|] eqn:E; [right | left; auto].
  pose proof E as E'. apply searchFrom_sound in E'.
  destruct E' as (pre & xs & rest & -> & Hm & Hst & Hsp). simpl in *.
  exists f, pre, xs, rest. repeat split; auto.
  rewrite Hst, Hsp.
  replace (length pre + length xs - length pre) with (length xs) by lia.
  rewrite skipn_app, Nat.sub_diag, skipn_all. simpl.
  rewrite firstn_app, Nat.sub_diag, firstn_all. simpl. rewrite app_nil_r.
  rewrite firstn_app, firstn_all2 by lia.
  replace (length pre - length pre) with 0 by lia. simpl. rewrite app_nil_r.
  rewrite skipn_app, skipn_all2 by lia. simpl.
  replace (length pre + length xs - length pre) with (length xs) by lia.
  rewrite skipn_app, skipn_all, Nat.sub_diag. simpl.
  destruct (fn xs (captures f) st); reflexivity.
Qed.
End Leftmost.

(* ================================================================= *)
(** ** No blanks at the end of a line *)

Section TrailingBlanks.
Import RegexLit Markdown.

Lemma trailing_matches (pos : nat) (xs : jsstring) :
  xs <> [] -> forallb blank xs = true ->
  matchAt trailingRe pos xs <> None.
Proof.
  intros Hne Hall. unfold matchAt, trailingRe. cbn [run].
  erewrite rep_greedy_all; [discriminate | exact Hall | | exact I
                           | reflexivity].
  destruct xs; [congruence | simpl; lia].
Qed.

Lemma trimLine_clean (line : jsstring) : noTrailingBlank (trimLine line).
Proof.
  unfold trimLine.
  destruct (replaceFn_leftmost trailingRe line
              (fun _ _ (u : unit) => ([], u)) tt)
    as [[Hnone ->] | (f & pre & xs & rest & Hsome & Hst & Hs & Hm & ->)];
    cbn [fst]; intros front c Hc;
    (destruct (blank c) eqn:B; [exfalso | reflexivity]).
  - apply (@trailing_matches (0 + length front) [c]);
      [discriminate | simpl; now rewrite B |].
    eapply searchFrom_none; eauto.
  - unfold trailingRe in Hm. inv_matches.
    cbn [app] in *. rewrite !app_nil_r in *. subst pre.
    apply (@trailing_matches (0 + length front) (c :: xs1)).
    + discriminate.
    + simpl. now rewrite B.
    + eapply searchFrom_leftmost; eauto.
      * rewrite <- app_assoc. reflexivity.
      * rewrite Hst, length_app. simpl. lia.
Qed.

Lemma secondPass_head_tidy (f : Fence) (line : jsstring) rest n :
  inFence (fenceStep f line) = false ->
  exists x n',
    (hardBreak x \/ noTrailingBlank x)
    /\ fst (secondPass (line :: rest) f n)
       = x :: fst (secondPass rest (fenceStep f line) n').
Proof.
  intros H. cbn [secondPass]. rewrite H.
  destruct (endsWith line (str "  ")) eqn:E2;
    [destruct (endsWith line (str "   ")) eqn:E3|]; cbn [andb negb].
  - destruct (eqs (trimLine line) line) eqn:Et.
    + exists line, n. split.
      * right. apply eqs_spec in Et. rewrite <- Et. apply trimLine_clean.
      * now destruct (secondPass rest (fenceStep f line) n).
    + exists (trimLine line), (S n). split; [right; apply trimLine_clean|].
      now destruct (secondPass rest (fenceStep f line) (S n)).
  - exists line, n. split; [left; split; assumption|].
    now destruct (secondPass rest (fenceStep f line) n).
  - destruct (eqs (trimLine line) line) eqn:Et.
    + exists line, n. split.
      * right. apply eqs_spec in Et. rewrite <- Et. apply trimLine_clean.
      * now destruct (secondPass rest (fenceStep f line) n).
    + exists (trimLine line), (S n). split; [right; apply trimLine_clean|].
      now destruct (secondPass rest (fenceStep f line) (S n)).
Qed.

Lemma firstPass_head (line : jsstring) (rest : list jsstring)
    (f : Fence) (st : Stats) :
  exists u out,
    fst (firstPass (line :: rest) f st) = u :: out
    /\ fenceMatch u = fenceMatch line.
Proof.
  pose proof (firstPass_fence (line :: rest) f st) as H.
  destruct (fst (firstPass (line :: rest) f st)) as [|u out];
    [discriminate|].
  cbn [map] in H. inversion H. eauto.
Qed.

(** X26.  Outside fenced blocks no line of the result ends in a space or a
    tab, unless it ends in exactly two spaces (the mark of a hard line
    break, which the fixer keeps). *)
Theorem no_trailing_blanks (text : jsstring) (i : nat) (line : jsstring) :
  nth_error (split text [LF]) i = Some line ->
  inFence (fenceStep (fenceBefore (split text [LF]) i) line) = false ->
  exists x,
    nth_error (split (fst (fixMarkdownFormatting text)) [LF]) i = Some x
    /\ (hardBreak x \/ noTrailingBlank x).
Proof.
  intros Hnth Hout.
  destruct (nth_error_split _ _ Hnth) as (l1 & l2 & Hlines & Hlen).
  assert (Hbefore : fenceBefore (split text [LF]) i
                    = fold_left fenceStep l1 noFence).
  { unfold fenceBefore. rewrite Hlines, <- Hlen, firstn_app, Nat.sub_diag.
    rewrite firstn_all. simpl. now rewrite app_nil_r. }
  rewrite Hbefore in Hout.
  rewrite fixed_lines, Hlines, <- Hlen, fixLines_fst, firstPass_app.
  cbn [fst].
  destruct (firstPass_head line l2 (fold_left fenceStep l1 noFence)
              (snd (firstPass l1 noFence []))) as (u & out & -> & Hu).
  rewrite secondPass_app. cbn [fst]. rewrite second_pass_state.
  destruct (@secondPass_head_tidy (fold_left fenceStep l1 noFence) u out
              (snd (secondPass (fst (firstPass l1 noFence [])) noFence 0)))
    as (x & n' & Hx & ->).
  { unfold fenceStep in *. now rewrite Hu. }
  exists x. split; [|exact Hx].
  apply nth_error_middle.
  now rewrite secondPass_length, firstPass_length.
Qed.

Lemma no_trailing_blanks_witness :
  exists x,
    nth_error (split (fst (fixMarkdownFormatting Sample.markdown)) [LF]) 3
    = Some x
    /\ (hardBreak x \/ noTrailingBlank x).
Proof.
  apply (@no_trailing_blanks Sample.markdown 3
           (str "  ########   Deep title" ++ [TAB])); reflexivity.
Defined.
End TrailingBlanks.

(* ================================================================= *)
(** ** List items *)

Section BulletItem.
Import RegexLit Markdown.
Variables indent gap rest : jsstring.
Variables b c : char.
Hypothesis Hindent : forallb isWhiteSpace indent = true.
Hypothesis Hb : bullet b = true.
Hypothesis Hgap : forallb blank gap = true.
Hypothesis Hc : isWhiteSpace c = false.

Let item : jsstring := indent ++ b :: gap ++ c :: rest.
Let spacedItem : jsstring := indent ++ b :: SPACE :: c :: rest.

Lemma bullet_not_ws : isWhiteSpace b = false.
Proof. now destruct (plainChar_bullet _ Hb). Qed.

Lemma bullet_not_hash : only HASH b = false.
Proof.
  unfold only. destruct (N.eqb_spec b HASH) as [E|]; auto.
  rewrite E in Hb. discriminate.
Qed.

Lemma bullet_not_digit : digit b = false.
Proof.
  destruct (digit b) eqn:E; auto.
  revert Hb. unfold bullet. unfold digit, isDigit in E.
  apply andb_true_iff in E. rewrite !N.leb_le in E.
  rewrite !orb_true_iff, !N.eqb_eq.
  intros [[->| ->]| ->]; vm_compute in E; destruct E; congruence.
Qed.

Lemma item_plain : startsPlain item.
Proof.
  exists indent, b. eexists. split; [reflexivity|].
  split; [assumption | now apply plainChar_bullet].
Qed.

Lemma spacedItem_plain : startsPlain spacedItem.
Proof.
  exists indent, b. eexists. split; [reflexivity|].
  split; [assumption | now apply plainChar_bullet].
Qed.

(** A line whose first character after the leading white space is a
    bullet is no heading. *)
Lemma dupHead_item (st : Stats) : dupHead item st = (item, st).
Proof.
  unfold dupHead. rule_silent dupHeadRe.
  unfold item in Hs. simpl in Hs. rewrite ?app_nil_r in Hs.
  match type of Hs with
  | _ = _ ++ ?g ++ _ =>
      match goal with
      | Hr : forallb _ g = true, Hl : 1 <= length g |- _ =>
          destruct (head_of_run _ g Hr Hl) as (c2 & g2 & -> & Hc2)
      end
  end.
  apply only_true in Hc2. subst c2. simpl in Hs.
  apply span_unique with (p := isWhiteSpace) in Hs;
    auto using bullet_not_ws.
  destruct Hs as (_ & Hs & _). pose proof bullet_not_hash as Hh.
  rewrite Hs in Hh. discriminate.
Qed.

Lemma capHead_item (st : Stats) : capHead item st = (item, st).
Proof.
  unfold capHead. rule_silent capHeadRe.
  unfold item in Hs. simpl in Hs. rewrite ?app_nil_r in Hs.
  match type of Hs with
  | _ = _ ++ ?g ++ _ =>
      match goal with
      | Hr : forallb _ g = true, Hl : 7 <= length g |- _ =>
          destruct (head_of_run _ g Hr ltac:(lia)) as (c2 & g2 & -> & Hc2)
      end
  end.
  apply only_true in Hc2. subst c2. simpl in Hs.
  apply span_unique with (p := isWhiteSpace) in Hs;
    auto using bullet_not_ws.
  destruct Hs as (_ & Hs & _). pose proof bullet_not_hash as Hh.
  rewrite Hs in Hh. discriminate.
Qed.

Lemma normHead_item (st : Stats) : normHead item st = (item, st).
Proof.
  unfold normHead. rule_silent normHeadRe.
  unfold item in Hs. simpl in Hs. rewrite ?app_nil_r in Hs.
  match type of Hs with
  | _ = _ ++ ?g ++ _ =>
      match goal with
      | Hr : forallb _ g = true, Hl : 1 <= length g |- _ =>
          destruct (head_of_run _ g Hr Hl) as (c2 & g2 & -> & Hc2)
      end
  end.
  apply only_true in Hc2. subst c2. simpl in Hs.
  apply span_unique with (p := isWhiteSpace) in Hs;
    auto using bullet_not_ws.
  destruct Hs as (_ & Hs & _). pose proof bullet_not_hash as Hh.
  rewrite Hs in Hh. discriminate.
Qed.

Lemma listBullet_match :
  exists f,
    matchAt listBulletRe 0 item = Some f
    /\ start f = 0 /\ stop f = length (indent ++ b :: gap ++ [c])
    /\ spaced (captures f) = indent ++ b :: SPACE :: [c].
Proof.
  eexists. split.
  - unfold matchAt, listBulletRe, item. cbn [run].
    apply rep_greedy;
      [exact Hindent | lia | exact I | exact bullet_not_ws | ].
    rewrite Hb.
    apply rep_greedy;
      [exact Hgap | lia | exact I | now apply nonWs_not_blank | ].
    unfold nonWs at 1. rewrite Hc. cbn [negb]. reflexivity.
  - cbn [start stop captures]. unfold spaced, group, setCap. cbn [Nat.eqb].
    split; [reflexivity|]. split.
    + rewrite !length_app. cbn [length]. rewrite length_app. simpl. lia.
    + unfold item. rewrite firstn_consumed.
      replace (S (0 + length indent) - (0 + length indent)) with 1 by lia.
      replace (S (S (0 + length indent) + length gap)
               - (S (0 + length indent) + length gap)) with 1 by lia.
      reflexivity.
Qed.

Lemma listBullet_item (st : Stats) :
  listBullet item st
  = (spacedItem,
     if eqs gap [SPACE] then st else inc (str "list_bullet_space") 1 st).
Proof.
  destruct listBullet_match as (f & Hm & Hs & He & Hsp).
  unfold listBullet, replaceFn, exec.
  assert (Hsearch : searchFrom listBulletRe 0 item = Some f).
  { destruct item; cbn [searchFrom]; now rewrite Hm. }
  rewrite Hsearch, Hs, He, Hsp. cbn [firstn skipn app].
  rewrite Nat.sub_0_r.
  assert (Hitem : item = (indent ++ b :: gap ++ [c]) ++ rest).
  { unfold item. rewrite <- app_assoc. cbn [app]. rewrite <- app_assoc.
    reflexivity. }
  rewrite Hitem, skipn_app, skipn_all, Nat.sub_diag.
  rewrite firstn_app, firstn_all, Nat.sub_diag. cbn [firstn skipn app].
  rewrite app_nil_r. f_equal.
  - unfold spacedItem. rewrite <- app_assoc. reflexivity.
  - assert (Heq : eqs (indent ++ b :: gap ++ [c]) (indent ++ [b; SPACE; c])
                  = eqs gap [SPACE]).
    { destruct (eqs gap [SPACE]) eqn:Eg.
      - apply eqs_spec in Eg. subst gap. apply eqs_refl.
      - apply eqs_false. apply eqs_false in Eg. intros H. apply Eg.
        apply app_inv_head in H. inversion H as [H1].
        change (gap ++ [c] = [SPACE] ++ [c]) in H1.
        now apply app_inv_tail in H1. }
    now rewrite Heq.
Qed.

Lemma listOrdered_spacedItem (st : Stats) :
  listOrdered spacedItem st = (spacedItem, st).
Proof.
  unfold listOrdered. rule_silent listOrderedRe.
  unfold spacedItem in Hs. simpl in Hs.
  match goal with
  | Hr : forallb digit ?g = true, Hl : 1 <= length ?g |- _ =>
      destruct (head_of_run _ g Hr Hl) as (d & g' & -> & Hd)
  end.
  simpl in Hs. rewrite <- ?app_assoc in Hs. simpl in Hs.
  apply span_unique with (p := isWhiteSpace) in Hs;
    auto using bullet_not_ws.
  - destruct Hs as (_ & Hs & _). pose proof bullet_not_digit as Hn.
    rewrite Hs in Hn. congruence.
  - now destruct (plainChar_digit _ Hd).
Qed.

Lemma fixLine_item (st : Stats) :
  fixLine item st
  = (spacedItem,
     if eqs gap [SPACE] then st else inc (str "list_bullet_space") 1 st).
Proof.
  unfold fixLine.
  now rewrite dupHead_item, capHead_item, normHead_item, listBullet_item,
    listOrdered_spacedItem.
Qed.

End BulletItem.

Lemma trimLine_spacedItem (indent rest : jsstring) (b c : char) :
  isWhiteSpace c = false ->
  exists kept trail,
    rest = kept ++ trail /\ forallb RegexLit.blank trail = true
    /\ Markdown.trimLine (indent ++ b :: SPACE :: c :: rest)
       = indent ++ b :: SPACE :: c :: kept.
Proof.
  intros Hc. unfold Markdown.trimLine.
  destruct (replaceFn_cases RegexLit.trailingRe
              (indent ++ b :: SPACE :: c :: rest)
              (fun _ _ (u : unit) => ([], u)) tt)
    as [[_ ->] | (f & pre & xs & rest' & _ & Hs & Hm & ->)].
  - exists rest, []. rewrite app_nil_r. auto.
  - unfold RegexLit.trailingRe in Hm. inv_matches. cbn [fst app].
    rewrite ?app_nil_r in Hs. rewrite ?app_nil_r.
    change (indent ++ b :: SPACE :: c :: rest)
      with (indent ++ [b; SPACE] ++ c :: rest) in Hs.
    rewrite app_assoc in Hs.
    apply blank_suffix in Hs; auto using nonWs_not_blank.
    destruct Hs as (t' & -> & ->).
    exists t', xs1. split; [reflexivity|].
    split; [assumption|]. rewrite <- app_assoc. reflexivity.
Qed.

Section BulletRule.
Import RegexLit Markdown.

(** X27.  A line that is reached outside any fence and consists of optional
    white space, one of the bullets [-], [+] and [*], any number of
    spaces and tabs, and a character other than white space followed by
    anything - a list item, but also a line that begins with two stars
    or a rule of three dashes - comes out with exactly one space after
    the bullet (and without the spaces and tabs at its end, which the
    trailing-whitespace loop may strip); unless that one space was there
    already, the category [list_bullet_space] is counted. *)
Theorem bullet_gets_one_space
    (text : jsstring) (i : nat) (indent gap rest : jsstring) (b c : char) :
  nth_error (split text [LF]) i = Some (indent ++ b :: gap ++ c :: rest) ->
  forallb isWhiteSpace indent = true -> bullet b = true ->
  forallb blank gap = true -> isWhiteSpace c = false ->
  inFence (fenceBefore (split text [LF]) i) = false ->
  (exists kept trail,
     rest = kept ++ trail /\ forallb blank trail = true
     /\ nth_error (split (fst (fixMarkdownFormatting text)) [LF]) i
        = Some (indent ++ b :: SPACE :: c :: kept))
  /\ (gap <> [SPACE] ->
      1 <= countOf (str "list_bullet_space")
             (snd (fixMarkdownFormatting text))).
Proof.
  intros Hnth Hind Hb Hgap Hc Hout.
  destruct (nth_error_split _ _ Hnth) as (l1 & l2 & Hlines & Hlen).
  assert (Hbefore : fenceBefore (split text [LF]) i
                    = fold_left fenceStep l1 noFence).
  { unfold fenceBefore. rewrite Hlines, <- Hlen, firstn_app, Nat.sub_diag.
    rewrite firstn_all. simpl. now rewrite app_nil_r. }
  assert (Hplain : fenceMatch (indent ++ b :: gap ++ c :: rest) = None).
  { apply fence_none_plain. now apply item_plain. }
  rewrite Hbefore in Hout.
  rewrite fixed_lines, fixMarkdownFormatting_stats, Hlines, <- Hlen.
  destruct (@line_outside_fence l1 l2 _ Hplain Hout) as (x & Hx & Hor & Hcount).
  rewrite fixLine_item in Hor, Hcount by assumption.
  cbn [fst snd] in Hor, Hcount. split.
  - destruct Hor as [-> | ->].
    + exists rest, []. rewrite app_nil_r. auto.
    + destruct (@trimLine_spacedItem indent rest b c Hc)
        as (kept & trail & Hr & Ht & Htrim).
      exists kept, trail. rewrite <- Htrim. auto.
  - intros Hg. apply eqs_false in Hg.
    eapply Nat.le_trans; [|apply Hcount].
    rewrite Hg, countOf_inc_same. lia.
Qed.

Lemma bullet_gets_one_space_witness :
  (exists kept trail,
     str "bold** text" = kept ++ trail /\ forallb blank trail = true
     /\ nth_error (split (fst (fixMarkdownFormatting
                                 (str "-item" ++ [LF] ++ str "**bold** text")))
                     [LF]) 1
        = Some (str "* *" ++ kept))
  /\ ([] <> [SPACE] ->
      1 <= countOf (str "list_bullet_space")
             (snd (fixMarkdownFormatting
                     (str "-item" ++ [LF] ++ str "**bold** text")))).
Proof.
  apply (@bullet_gets_one_space
           (str "-item" ++ [LF] ++ str "**bold** text") 1
           [] [] (str "bold** text") (ch "*") (ch "*")); reflexivity.
Defined.
End BulletRule.

Section OrderedItem.
Import RegexLit Markdown.
Variables indent digits gap rest : jsstring.
Variable c : char.
Hypothesis Hindent : forallb isWhiteSpace indent = true.
Hypothesis Hdigits : forallb digit digits = true.
Hypothesis Hsome : digits <> [].
Hypothesis Hgap : forallb blank gap = true.
Hypothesis Hc : isWhiteSpace c = false.

Let DOT : char := ch ".".
Let item : jsstring := indent ++ digits ++ DOT :: gap ++ c :: rest.
Let spacedItem : jsstring := indent ++ digits ++ DOT :: SPACE :: c :: rest.

Lemma first_digit :
  exists d ds, digits = d :: ds /\ digit d = true.
Proof.
  destruct digits as [|d ds]; [congruence|].
  simpl in Hdigits. apply andb_true_iff in Hdigits. destruct Hdigits.
  eauto.
Qed.

Lemma digit_not_hash (d : char) : digit d = true -> only HASH d = false.
Proof.
  intros Hd. unfold only.
  destruct (N.eqb_spec d HASH) as [->|]; [discriminate Hd | reflexivity].
Qed.

Lemma digit_not_bullet (d : char) : digit d = true -> bullet d = false.
Proof.
  intros Hd. destruct (bullet d) eqn:E; auto.
  unfold digit, isDigit in Hd.
  apply andb_true_iff in Hd. rewrite !N.leb_le in Hd.
  revert E. unfold bullet. rewrite !orb_true_iff, !N.eqb_eq.
  intros [[->| ->]| ->]; vm_compute in Hd; destruct Hd; congruence.
Qed.

Lemma numbered_plain : startsPlain item.
Proof.
  destruct first_digit as (d & ds & E & Hd).
  exists indent, d. eexists. split; [unfold item; rewrite E; reflexivity|].
  split; [assumption | now apply plainChar_digit].
Qed.

Ltac not_a_heading :=
  match goal with
  | Hs : item = _ |- _ =>
      destruct first_digit as (d & ds & E & Hd);
      unfold item in Hs; rewrite E in Hs; simpl in Hs;
      rewrite ?app_nil_r in Hs
  end;
  match goal with
  | Hs : _ = _ ++ ?g ++ _ |- _ =>
      match goal with
      | Hr : forallb _ g = true, Hl : _ <= length g |- _ =>
          destruct (head_of_run _ g Hr ltac:(lia)) as (c2 & g2 & -> & Hc2)
      end
  end;
  match goal with
  | Hc2 : only HASH _ = true |- _ => apply only_true in Hc2; subst
  end;
  match goal with
  | Hs : _ = _ |- _ =>
      simpl in Hs;
      apply span_unique with (p := isWhiteSpace) in Hs; auto;
      [ destruct Hs as (_ & Hs & _);
        match goal with
        | Hd : digit _ = true |- _ =>
            apply digit_not_hash in Hd; rewrite Hs in Hd; discriminate
        end
      | match goal with
        | Hd : digit _ = true |- _ => now destruct (plainChar_digit _ Hd)
        end ]
  end.

Lemma dupHead_numbered (st : Stats) : dupHead item st = (item, st).
Proof. unfold dupHead. rule_silent dupHeadRe. not_a_heading. Qed.

Lemma capHead_numbered (st : Stats) : capHead item st = (item, st).
Proof. unfold capHead. rule_silent capHeadRe. not_a_heading. Qed.

Lemma normHead_numbered (st : Stats) : normHead item st = (item, st).
Proof. unfold normHead. rule_silent normHeadRe. not_a_heading. Qed.

Lemma listBullet_numbered (st : Stats) : listBullet item st = (item, st).
Proof.
  unfold listBullet. rule_silent listBulletRe.
  destruct first_digit as (d & ds & E & Hd).
  unfold item in Hs. rewrite E in Hs. simpl in Hs.
  rewrite <- ?app_assoc in Hs. simpl in Hs.
  match goal with
  | Hb : bullet ?a = true |- _ =>
      apply span_unique with (p := isWhiteSpace) in Hs; auto;
      [ destruct Hs as (_ & Hs & _);
        apply digit_not_bullet in Hd; rewrite Hs in Hd; congruence
      | now destruct (plainChar_digit _ Hd)
      | now destruct (plainChar_bullet _ Hb) ]
  end.
Qed.

Lemma listOrdered_match :
  exists f,
    matchAt listOrderedRe 0 item = Some f
    /\ start f = 0 /\ stop f = length (indent ++ digits ++ DOT :: gap ++ [c])
    /\ spaced (captures f) = indent ++ digits ++ DOT :: SPACE :: [c].
Proof.
  destruct first_digit as (d & ds & E & Hd).
  eexists. split.
  - unfold matchAt, listOrderedRe, item. cbn [run].
    apply rep_greedy; [exact Hindent | lia | exact I | | ].
    { rewrite E. cbn [app]. now destruct (plainChar_digit _ Hd). }
    apply rep_greedy;
      [exact Hdigits | rewrite E; simpl; lia | exact I | reflexivity | ].
    unfold only at 1. fold DOT. rewrite N.eqb_refl.
    apply rep_greedy;
      [exact Hgap | lia | exact I | now apply nonWs_not_blank | ].
    unfold nonWs at 1. rewrite Hc. cbn [negb]. reflexivity.
  - cbn [start stop captures]. unfold spaced, group, setCap. cbn [Nat.eqb].
    split; [reflexivity|]. split.
    + rewrite !length_app. cbn [length]. rewrite length_app. simpl. lia.
    + unfold item. rewrite firstn_consumed.
      change (digits ++ DOT :: gap ++ c :: rest)
        with (digits ++ [DOT] ++ gap ++ c :: rest).
      rewrite (app_assoc digits [DOT]).
      rewrite (@firstn_exact _ (digits ++ [DOT]) (gap ++ c :: rest))
        by (rewrite length_app; cbn [length]; lia).
      replace (S (S (0 + length indent + length digits) + length gap)
               - (S (0 + length indent + length digits) + length gap))
        with 1 by lia.
      cbn [firstn]. rewrite <- !app_assoc. reflexivity.
Qed.

Lemma listOrdered_numbered (st : Stats) :
  listOrdered item st
  = (spacedItem,
     if eqs gap [SPACE] then st else inc (str "list_ordered_space") 1 st).
Proof.
  destruct listOrdered_match as (f & Hm & Hs & He & Hsp).
  unfold listOrdered, replaceFn, exec.
  assert (Hsearch : searchFrom listOrderedRe 0 item = Some f).
  { destruct item; cbn [searchFrom]; now rewrite Hm. }
  rewrite Hsearch, Hs, He, Hsp. cbn [firstn skipn app].
  rewrite Nat.sub_0_r.
  assert (Hitem : item = (indent ++ digits ++ DOT :: gap ++ [c]) ++ rest).
  { unfold item. rewrite <- !app_assoc. cbn [app]. rewrite <- app_assoc.
    reflexivity. }
  rewrite Hitem, skipn_app, skipn_all, Nat.sub_diag.
  rewrite firstn_app, firstn_all, Nat.sub_diag. cbn [firstn skipn app].
  rewrite app_nil_r. f_equal.
  - unfold spacedItem. rewrite <- !app_assoc. reflexivity.
  - assert (Heq : eqs (indent ++ digits ++ DOT :: gap ++ [c])
                    (indent ++ digits ++ [DOT; SPACE; c])
                  = eqs gap [SPACE]).
    { destruct (eqs gap [SPACE]) eqn:Eg.
      - apply eqs_spec in Eg. subst gap. apply eqs_refl.
      - apply eqs_false. apply eqs_false in Eg. intros H. apply Eg.
        apply app_inv_head in H. apply app_inv_head in H.
        inversion H as [H1].
        change (gap ++ [c] = [SPACE] ++ [c]) in H1.
        now apply app_inv_tail in H1. }
    now rewrite Heq.
Qed.

Lemma fixLine_numbered (st : Stats) :
  fixLine item st
  = (spacedItem,
     if eqs gap [SPACE] then st else inc (str "list_ordered_space") 1 st).
Proof.
  unfold fixLine.
  now rewrite dupHead_numbered, capHead_numbered, normHead_numbered,
    listBullet_numbered, listOrdered_numbered.
Qed.
End OrderedItem.

Section OrderedRule.
Import RegexLit Markdown.

(** X28.  A line that is reached outside any fence and consists of optional
    white space, one or more digits, a full stop, any number of spaces
    and tabs, and a character other than white space followed by
    anything - a numbered item, but also a line that begins with a
    decimal number such as 3.14 - comes out with exactly one space after
    the full stop (and without the spaces and tabs at its end); unless
    that one space was there already, the category
    [list_ordered_space] is counted. *)
Theorem numbered_item_gets_one_space
    (text : jsstring) (i : nat) (indent digits gap rest : jsstring)
    (c : char) :
  nth_error (split text [LF]) i
    = Some (indent ++ digits ++ ch "." :: gap ++ c :: rest) ->
  forallb isWhiteSpace indent = true ->
  forallb digit digits = true -> digits <> [] ->
  forallb blank gap = true -> isWhiteSpace c = false ->
  inFence (fenceBefore (split text [LF]) i) = false ->
  (exists kept trail,
     rest = kept ++ trail /\ forallb blank trail = true
     /\ nth_error (split (fst (fixMarkdownFormatting text)) [LF]) i
        = Some (indent ++ digits ++ ch "." :: SPACE :: c :: kept))
  /\ (gap <> [SPACE] ->
      1 <= countOf (str "list_ordered_space")
             (snd (fixMarkdownFormatting text))).
Proof.
  intros Hnth Hind Hdig Hsome Hgap Hc Hout.
  destruct (nth_error_split _ _ Hnth) as (l1 & l2 & Hlines & Hlen).
  assert (Hbefore : fenceBefore (split text [LF]) i
                    = fold_left fenceStep l1 noFence).
  { unfold fenceBefore. rewrite Hlines, <- Hlen, firstn_app, Nat.sub_diag.
    rewrite firstn_all. simpl. now rewrite app_nil_r. }
  assert (Hplain : fenceMatch (indent ++ digits ++ ch "." :: gap ++ c :: rest)
                   = None).
  { apply fence_none_plain. now apply numbered_plain. }
  rewrite Hbefore in Hout.
  rewrite fixed_lines, fixMarkdownFormatting_stats, Hlines, <- Hlen.
  destruct (@line_outside_fence l1 l2 _ Hplain Hout) as (x & Hx & Hor & Hcount).
  rewrite fixLine_numbered in Hor, Hcount by assumption.
  cbn [fst snd] in Hor, Hcount. split.
  - destruct Hor as [-> | ->].
    + exists rest, []. rewrite app_nil_r. auto.
    + destruct (@trimLine_spacedItem (indent ++ digits) rest (ch ".") c Hc)
        as (kept & trail & Hr & Ht & Htrim).
      rewrite <- !app_assoc in Htrim.
      exists kept, trail. rewrite <- Htrim. auto.
  - intros Hg. apply eqs_false in Hg.
    eapply Nat.le_trans; [|apply Hcount].
    rewrite Hg, countOf_inc_same. lia.
Qed.

Lemma numbered_item_gets_one_space_witness :
  (exists kept trail,
     str "ext" = kept ++ trail /\ forallb blank trail = true
     /\ nth_error (split (fst (fixMarkdownFormatting
                                 (str "# Heading  " ++ [LF] ++ str "-item"
                                    ++ [LF] ++ str "10.  next"))) [LF]) 2
        = Some (str "10. n" ++ kept))
  /\ (str "  " <> [SPACE] ->
      1 <= countOf (str "list_ordered_space")
             (snd (fixMarkdownFormatting
                     (str "# Heading  " ++ [LF] ++ str "-item"
                        ++ [LF] ++ str "10.  next")))).
Proof.
  apply (@numbered_item_gets_one_space
           (str "# Heading  " ++ [LF] ++ str "-item" ++ [LF]
              ++ str "10.  next") 2
           [] (str "10") (str "  ") (str "ext") (ch "n"));
    try reflexivity. discriminate.
Defined.
End OrderedRule.

(* ================================================================= *)
(** ** The space after the hashes of a heading *)

Section HeadingSpace.
Import RegexLit Markdown.
Variables indent gap rest : jsstring.
Variable b : char.
Variable k : nat.
Hypothesis Hindent : forallb isWhiteSpace indent = true.
Hypothesis Hshort : length indent <= 3.
Hypothesis Hk : 1 <= k <= 6.
Hypothesis Hgap : forallb blank gap = true.
Hypothesis Hb : isWhiteSpace b = false.
Hypothesis Hnot : b <> HASH.
Hypothesis Hrest : forallb dot rest = true.

Let title : jsstring := indent ++ repeat HASH k ++ gap ++ b :: rest.
Let spacedTitle : jsstring := indent ++ repeat HASH k ++ SPACE :: b :: rest.

Lemma title_plain : startsPlain title.
Proof.
  unfold title. destruct k as [|m]; [lia|].
  exists indent, HASH. eexists. split; [reflexivity|].
  split; [assumption | apply plainChar_hash].
Qed.

Lemma after_hashes_no_hash :
  match gap ++ b :: rest with
  | [] => True
  | a :: _ => only HASH a = false
  end.
Proof.
  destruct gap as [|g gap']; cbn [app].
  - unfold only. destruct (N.eqb_spec b HASH); [congruence | reflexivity].
  - simpl in Hgap. apply andb_true_iff in Hgap. destruct Hgap as [Hg _].
    unfold blank in Hg. unfold only.
    destruct (N.eqb_spec g HASH) as [->|]; [discriminate Hg | reflexivity].
Qed.

Lemma blank_is_ws (xs : jsstring) :
  forallb blank xs = true -> forallb isWhiteSpace xs = true.
Proof.
  induction xs as [|x xs IH]; simpl; auto.
  rewrite !andb_true_iff. intros [Hx Hxs]. split; auto.
  unfold blank in Hx. apply orb_true_iff in Hx.
  rewrite !N.eqb_eq in Hx. destruct Hx as [->| ->]; reflexivity.
Qed.

Lemma normHead_title_match :
  exists f,
    matchAt normHeadRe 0 title = Some f
    /\ start f = 0 /\ stop f = length title
    /\ spaced (captures f) = spacedTitle.
Proof.
  eexists. split.
  - unfold matchAt, normHeadRe, title. cbn [run].
    apply rep_greedy; [exact Hindent | lia | exact Hshort | | ].
    { destruct k; [lia | reflexivity]. }
    apply rep_greedy;
      [apply hashes_run | rewrite repeat_length; lia
      | rewrite repeat_length; simpl; lia | exact after_hashes_no_hash | ].
    apply rep_greedy;
      [exact Hgap | lia | exact I | now apply nonWs_not_blank | ].
    unfold nonWs at 1. rewrite Hb. cbn [negb].
    apply rep_greedy_all; [exact Hrest | lia | exact I | ].
    reflexivity.
  - cbn [start stop captures]. unfold spaced, group, setCap. cbn [Nat.eqb].
    split; [reflexivity|]. split.
    + unfold title. rewrite !length_app, repeat_length. simpl. lia.
    + unfold title, spacedTitle. rewrite firstn_consumed.
      change (0 + length indent) with (length indent).
      rewrite (@firstn_consumed (length indent) (repeat HASH k)).
      match goal with
      | |- context [firstn ?n (b :: rest)] =>
          replace n with (length (b :: rest)) by (cbn [length]; lia)
      end.
      rewrite firstn_all. reflexivity.
Qed.

Lemma normHead_title (st : Stats) :
  normHead title st
  = (spacedTitle,
     if eqs gap [SPACE] then st
     else inc (str "heading_space_normalize") 1 st).
Proof.
  destruct normHead_title_match as (f & Hm & Hs & He & Hsp).
  unfold normHead, replaceFn, exec.
  assert (Hsearch : searchFrom normHeadRe 0 title = Some f).
  { destruct title; cbn [searchFrom]; now rewrite Hm. }
  rewrite Hsearch, Hs, He, Hsp. cbn [firstn skipn app].
  rewrite Nat.sub_0_r, firstn_all, skipn_all, app_nil_r. f_equal.
  assert (Heq : eqs title spacedTitle = eqs gap [SPACE]).
  { destruct (eqs gap [SPACE]) eqn:Eg.
    - apply eqs_spec in Eg. subst gap. apply eqs_refl.
    - apply eqs_false. apply eqs_false in Eg. intros H. apply Eg.
      unfold title, spacedTitle in H.
      apply app_inv_head in H. apply app_inv_head in H.
      change (gap ++ b :: rest = [SPACE] ++ b :: rest) in H.
      now apply app_inv_tail in H. }
  now rewrite Heq.
Qed.

Lemma dupHead_title (st : Stats) : dupHead title st = (title, st).
Proof.
  unfold dupHead. rule_silent dupHeadRe.
  unfold title in Hs. simpl in Hs. rewrite ?app_nil_r in Hs.
  match type of Hs with
  | _ = _ ++ ?g ++ ?w ++ ?g' ++ _ =>
      match goal with
      | Hr : forallb _ g = true, Hl : 1 <= length g,
        Hr' : forallb _ w = true, Hl' : 1 <= length w,
        Hr'' : forallb _ g' = true, Hl'' : 1 <= length g' |- _ =>
          destruct (head_of_run _ g Hr Hl) as (c2 & g2 & -> & Hc2);
          destruct (head_of_run _ w Hr' Hl') as (c3 & w3 & -> & Hc3);
          destruct (head_of_run _ g' Hr'' Hl'') as (c4 & g4 & -> & Hc4);
          simpl in Hr, Hr'; apply andb_true_iff in Hr, Hr';
          destruct Hr as [_ Hrun]; destruct Hr' as [_ Hrun']
      end
  end.
  apply only_true in Hc2. subst c2. apply only_true in Hc4. subst c4.
  destruct k as [|m]; [lia|]. simpl in Hs.
  apply span_unique with (p := isWhiteSpace) in Hs; auto.
  destruct Hs as (_ & _ & Hs).
  destruct gap as [|g0 gap']; cbn [app] in Hs.
  - apply span_unique with (p := only HASH) in Hs;
      auto using hashes_run, ws_not_hash.
    + destruct Hs as (_ & Hs & _). subst c3. unfold ws in Hc3. congruence.
    + unfold only. destruct (N.eqb_spec b HASH); [congruence | reflexivity].
  - simpl in Hgap. apply andb_true_iff in Hgap. destruct Hgap as [Hg0 Hgap'].
    apply span_unique with (p := only HASH) in Hs;
      auto using hashes_run, ws_not_hash.
    + destruct Hs as (_ & _ & Hs).
      apply span_unique with (p := isWhiteSpace) in Hs;
        auto using blank_is_ws.
      destruct Hs as (_ & Hs & _). congruence.
    + unfold blank in Hg0. unfold only.
      destruct (N.eqb_spec g0 HASH) as [->|]; [discriminate Hg0 | reflexivity].
Qed.

Lemma capHead_title (st : Stats) : capHead title st = (title, st).
Proof.
  unfold capHead. rule_silent capHeadRe.
  unfold title in Hs. simpl in Hs. rewrite ?app_nil_r in Hs.
  match type of Hs with
  | _ = _ ++ ?g ++ ?w ++ _ =>
      match goal with
      | Hr : forallb _ g = true, Hl : 7 <= length g,
        Hr' : forallb _ w = true, Hl' : 1 <= length w |- _ =>
          destruct (head_of_run _ w Hr' Hl') as (c3 & w3 & -> & Hc3);
          destruct (head_of_run _ g Hr ltac:(lia)) as (c2 & g2 & E2 & Hc2);
          rename Hl into Hlong; rename Hr into Hrun
      end
  end.
  rewrite E2 in Hs. apply only_true in Hc2. subst c2.
  destruct k as [|m]; [lia|]. simpl in Hs.
  apply span_unique with (p := isWhiteSpace) in Hs; auto.
  destruct Hs as (_ & _ & Hs).
  assert (Hg2 : forallb (only HASH) g2 = true).
  { rewrite E2 in Hrun. simpl in Hrun. exact Hrun. }
  assert (Hend : repeat HASH m = g2).
  { destruct gap as [|g0 gap']; cbn [app] in Hs.
    - apply span_unique with (p := only HASH) in Hs;
        auto using hashes_run, ws_not_hash; [tauto|].
      unfold only. destruct (N.eqb_spec b HASH); [congruence | reflexivity].
    - simpl in Hgap. apply andb_true_iff in Hgap.
      destruct Hgap as [Hg0 Hgap'].
      apply span_unique with (p := only HASH) in Hs;
        auto using hashes_run, ws_not_hash; [tauto|].
      unfold blank in Hg0. unfold only.
      destruct (N.eqb_spec g0 HASH) as [->|];
        [discriminate Hg0 | reflexivity]. }
  rewrite E2 in Hlong. simpl in Hlong.
  rewrite <- Hend, repeat_length in Hlong. lia.
Qed.

Lemma listBullet_spacedTitle (st : Stats) :
  listBullet spacedTitle st = (spacedTitle, st).
Proof.
  unfold listBullet. rule_silent listBulletRe.
  unfold spacedTitle in Hs. destruct k as [|m]; [lia|]. simpl in Hs.
  rewrite <- ?app_assoc in Hs. simpl in Hs.
  match goal with
  | Hb : bullet ?a = true |- _ =>
      apply span_unique with (p := isWhiteSpace) in Hs; auto;
      [ destruct Hs as (_ & <- & _); discriminate
      | now destruct (plainChar_bullet _ Hb) ]
  end.
Qed.

Lemma listOrdered_spacedTitle (st : Stats) :
  listOrdered spacedTitle st = (spacedTitle, st).
Proof.
  unfold listOrdered. rule_silent listOrderedRe.
  unfold spacedTitle in Hs. destruct k as [|m]; [lia|]. simpl in Hs.
  match goal with
  | Hr : forallb digit ?g = true, Hl : 1 <= length ?g |- _ =>
      destruct (head_of_run _ g Hr Hl) as (d & g' & -> & Hd)
  end.
  simpl in Hs. rewrite <- ?app_assoc in Hs. simpl in Hs.
  apply span_unique with (p := isWhiteSpace) in Hs; auto.
  - destruct Hs as (_ & <- & _). discriminate.
  - now destruct (plainChar_digit _ Hd).
Qed.

Lemma fixLine_title (st : Stats) :
  fixLine title st
  = (spacedTitle,
     if eqs gap [SPACE] then st
     else inc (str "heading_space_normalize") 1 st).
Proof.
  unfold fixLine.
  now rewrite dupHead_title, capHead_title, normHead_title,
    listBullet_spacedTitle, listOrdered_spacedTitle.
Qed.
End HeadingSpace.

Section HeadingSpaceRule.
Import RegexLit Markdown.

(** X29.  A line that is reached outside any fence and consists of at most
    three characters of white space, one to six hashes, any number of
    spaces and tabs, and a text that begins with a character other than
    white space and the hash and holds no line terminator - a heading,
    but also a line that begins with a tag such as [#todo] - comes out
    with exactly one space after the hashes (and without the spaces and
    tabs at its end); unless that one space was there already, the
    category [heading_space_normalize] is counted. *)
Theorem heading_gets_one_space
    (text : jsstring) (i : nat) (indent gap rest : jsstring) (b : char)
    (k : nat) :
  nth_error (split text [LF]) i
    = Some (indent ++ repeat HASH k ++ gap ++ b :: rest) ->
  forallb isWhiteSpace indent = true -> length indent <= 3 ->
  1 <= k <= 6 -> forallb blank gap = true ->
  isWhiteSpace b = false -> b <> HASH ->
  forallb (fun c => negb (isLineTerminator c)) rest = true ->
  inFence (fenceBefore (split text [LF]) i) = false ->
  (exists kept trail,
     rest = kept ++ trail /\ forallb blank trail = true
     /\ nth_error (split (fst (fixMarkdownFormatting text)) [LF]) i
        = Some (indent ++ repeat HASH k ++ SPACE :: b :: kept))
  /\ (gap <> [SPACE] ->
      1 <= countOf (str "heading_space_normalize")
             (snd (fixMarkdownFormatting text))).
Proof.
  intros Hnth Hind Hshort Hk Hgap Hb Hnot Hrest Hout.
  destruct (nth_error_split _ _ Hnth) as (l1 & l2 & Hlines & Hlen).
  assert (Hbefore : fenceBefore (split text [LF]) i
                    = fold_left fenceStep l1 noFence).
  { unfold fenceBefore. rewrite Hlines, <- Hlen, firstn_app, Nat.sub_diag.
    rewrite firstn_all. simpl. now rewrite app_nil_r. }
  assert (Hplain : fenceMatch (indent ++ repeat HASH k ++ gap ++ b :: rest)
                   = None).
  { apply fence_none_plain. now apply title_plain. }
  rewrite Hbefore in Hout.
  rewrite fixed_lines, fixMarkdownFormatting_stats, Hlines, <- Hlen.
  destruct (@line_outside_fence l1 l2 _ Hplain Hout) as (x & Hx & Hor & Hcount).
  rewrite fixLine_title in Hor, Hcount by assumption.
  cbn [fst snd] in Hor, Hcount. split.
  - destruct Hor as [-> | ->].
    + exists rest, []. rewrite app_nil_r. auto.
    + destruct k as [|m]; [lia|].
      assert (Hshape : forall r,
                 indent ++ repeat HASH (S m) ++ SPACE :: b :: r
                 = (indent ++ repeat HASH m) ++ HASH :: SPACE :: b :: r).
      { intros r. cbn [repeat]. rewrite repeat_cons, <- !app_assoc.
        reflexivity. }
      destruct (@trimLine_spacedItem (indent ++ repeat HASH m) rest HASH b Hb)
        as (kept & trail & Hr & Ht & Htrim).
      rewrite Hshape, Htrim in Hx.
      exists kept, trail. rewrite Hshape. auto.
  - intros Hg. apply eqs_false in Hg.
    eapply Nat.le_trans; [|apply Hcount].
    rewrite Hg, countOf_inc_same. lia.
Qed.

Lemma heading_gets_one_space_witness :
  (exists kept trail,
     str "odo item" = kept ++ trail /\ forallb blank trail = true
     /\ nth_error (split (fst (fixMarkdownFormatting
                                 (str "##Title" ++ [LF] ++ str "#todo item")))
                     [LF]) 1
        = Some (str "# t" ++ kept))
  /\ ([] <> [SPACE] ->
      1 <= countOf (str "heading_space_normalize")
             (snd (fixMarkdownFormatting
                     (str "##Title" ++ [LF] ++ str "#todo item")))).
Proof.
  apply (@heading_gets_one_space
           (str "##Title" ++ [LF] ++ str "#todo item") 1
           [] [] (str "odo item") (ch "t") 1);
    try reflexivity; try discriminate; simpl; lia.
Defined.
End HeadingSpaceRule.

(* ================================================================= *)
(** ** A heading marker written twice *)

Lemma dropWhile_split (p : char -> bool) (s : jsstring) :
  exists dropped,
    s = dropped ++ dropWhile p s /\ forallb p dropped = true
    /\ match dropWhile p s with
       | [] => True
       | a :: _ => p a = false
       end.
Proof.
  induction s as [|a s (d & E & Hd & Hh)]; simpl.
  - exists []. auto.
  - destruct (p a) eqn:Pa.
    + exists (a :: d). simpl. rewrite Pa. repeat split; auto. now f_equal.
    + exists []. simpl. rewrite Pa. auto.
Qed.

(** What [trimEnd] keeps and what it drops. *)
Lemma trimEnd_split (s : jsstring) :
  exists trail,
    s = trimEnd s ++ trail /\ forallb isWhiteSpace trail = true
    /\ forall front c, trimEnd s = front ++ [c] -> isWhiteSpace c = false.
Proof.
  unfold trimEnd.
  destruct (dropWhile_split isWhiteSpace (rev s)) as (d & E & Hd & Hh).
  exists (rev d). split; [|split].
  - rewrite <- rev_app_distr, <- E. now rewrite rev_involutive.
  - rewrite forallb_forall in *. intros x Hx. apply Hd.
    now apply in_rev.
  - intros front c Hc.
    apply (f_equal (@rev _)) in Hc.
    rewrite rev_involutive, rev_app_distr in Hc. simpl in Hc.
    rewrite Hc in Hh. exact Hh.
Qed.

Lemma trim_text (b : char) (rest : jsstring) :
  isWhiteSpace b = false ->
  exists kept trail,
    rest = kept ++ trail /\ forallb isWhiteSpace trail = true
    /\ trim (b :: rest) = b :: kept
    /\ forall front c, b :: kept = front ++ [c] -> isWhiteSpace c = false.
Proof.
  intros Hb. unfold trim, trimStart. cbn [dropWhile]. rewrite Hb.
  destruct (trimEnd_split (b :: rest)) as (trail & E & Ht & Hlast).
  destruct (trimEnd (b :: rest)) as [|b' kept] eqn:Ek.
  - simpl in E. subst trail. simpl in Ht. rewrite Hb in Ht. discriminate.
  - simpl in E. inversion E; subst b'.
    exists kept, trail. repeat split; auto.
Qed.

Section DuplicateHashes.
Import RegexLit Markdown.
Variables indent ws1 ws2 rest : jsstring.
Variable b : char.
Variables j k : nat.
Hypothesis Hindent : forallb isWhiteSpace indent = true.
Hypothesis Hshort : length indent <= 3.
Hypothesis Hj : 1 <= j <= 6.
Hypothesis Hk : 1 <= k <= 6.
Hypothesis Hws1 : forallb isWhiteSpace ws1 = true.
Hypothesis Hsome1 : ws1 <> [].
Hypothesis Hws2 : forallb isWhiteSpace ws2 = true.
Hypothesis Hsome2 : ws2 <> [].
Hypothesis Hb : isWhiteSpace b = false.
Hypothesis Hrest : forallb dot rest = true.

Let doubled : jsstring :=
  indent ++ repeat HASH j ++ ws1 ++ repeat HASH k ++ ws2 ++ b :: rest.

Lemma doubled_plain : startsPlain doubled.
Proof.
  unfold doubled. destruct j as [|m]; [lia|].
  exists indent, HASH. eexists. split; [reflexivity|].
  split; [assumption | apply plainChar_hash].
Qed.

Lemma nonWs_dot (c : char) : isWhiteSpace c = false -> dot c = true.
Proof.
  unfold dot, isWhiteSpace. intros H.
  destruct (isLineTerminator c); [|reflexivity].
  rewrite !orb_true_r in H. discriminate.
Qed.

Lemma ws_head_not_hash (w tail : jsstring) :
  forallb isWhiteSpace w = true -> w <> [] ->
  match w ++ tail with
  | [] => True
  | a :: _ => only HASH a = false
  end.
Proof.
  destruct w as [|a w]; [congruence|]. simpl.
  intros H _. apply andb_true_iff in H. destruct H as [Ha _].
  now apply ws_not_hash.
Qed.

Lemma dupHead_match :
  exists f,
    matchAt dupHeadRe 0 doubled = Some f
    /\ start f = 0 /\ stop f = length doubled
    /\ group (captures f) 1 = indent
    /\ group (captures f) 2 = repeat HASH j
    /\ group (captures f) 3 = b :: rest.
Proof.
  eexists. split.
  - unfold matchAt, dupHeadRe, doubled. cbn [run].
    apply rep_greedy; [exact Hindent | lia | exact Hshort | | ].
    { destruct j; [lia | reflexivity]. }
    apply rep_greedy;
      [apply hashes_run | rewrite repeat_length; lia
      | rewrite repeat_length; simpl; lia
      | now apply ws_head_not_hash | ].
    apply rep_greedy;
      [exact Hws1 | destruct ws1; [congruence | simpl; lia] | exact I | | ].
    { destruct k; [lia | reflexivity]. }
    apply rep_greedy;
      [apply hashes_run | rewrite repeat_length; lia
      | rewrite repeat_length; simpl; lia
      | now apply ws_head_not_hash | ].
    apply rep_greedy;
      [exact Hws2 | destruct ws2; [congruence | simpl; lia] | exact I
      | exact Hb | ].
    apply rep_greedy_all;
      [simpl; now rewrite (nonWs_dot _ Hb) | simpl; lia | exact I | ].
    reflexivity.
  - cbn [start stop captures]. unfold group, setCap. cbn [Nat.eqb].
    split; [reflexivity|]. split; [|split; [|split]].
    + unfold doubled. rewrite !length_app, !repeat_length. simpl. lia.
    + apply firstn_consumed.
    + change (0 + length indent) with (length indent).
      apply (@firstn_consumed (length indent) (repeat HASH j)).
    + match goal with
      | |- firstn ?n (b :: rest) = _ =>
          replace n with (length (b :: rest)) by (cbn [length]; lia)
      end.
      apply firstn_all.
Qed.

Lemma dupHead_doubled (st : Stats) :
  dupHead doubled st
  = (indent ++ repeat HASH j ++ SPACE :: trim (b :: rest),
     inc (str "heading_duplicate_hashes") 1 st).
Proof.
  destruct dupHead_match as (f & Hm & Hs & He & H1 & H2 & H3).
  unfold dupHead, replaceFn, exec.
  assert (Hsearch : searchFrom dupHeadRe 0 doubled = Some f).
  { destruct doubled; cbn [searchFrom]; now rewrite Hm. }
  rewrite Hsearch, Hs, He, H1, H2, H3. cbn [firstn app].
  rewrite skipn_all, app_nil_r. reflexivity.
Qed.
End DuplicateHashes.

Section DuplicateRule.
Import RegexLit Markdown.

Lemma last_of_tail (P y front : jsstring) (c : char) :
  y <> [] -> P ++ y = front ++ [c] -> exists front', y = front' ++ [c].
Proof.
  intros Hy E. destruct (@exists_last _ y Hy) as (y' & d & ->).
  rewrite app_assoc in E. apply app_inj_tail in E. destruct E as [_ ->].
  eauto.
Qed.

Lemma trimLine_noop (line : jsstring) :
  noTrailingBlank line -> trimLine line = line.
Proof.
  intros Hclean. unfold trimLine.
  destruct (replaceFn_cases trailingRe line
              (fun _ _ (u : unit) => ([], u)) tt)
    as [[_ ->] | (f & pre & xs & rest' & _ & Hs & Hm & _)]; [reflexivity|].
  exfalso. unfold trailingRe in Hm. inv_matches.
  rewrite !app_nil_r in Hclean.
  match goal with
  | Hr : forallb blank ?g = true, Hl : 1 <= length ?g |- _ =>
      destruct (@exists_last _ g) as (g' & c & Eg);
        [destruct g; [simpl in Hl; lia | discriminate]|];
      rewrite Eg in Hr; rewrite forallb_app in Hr;
      apply andb_true_iff in Hr; destruct Hr as [_ Hr];
      simpl in Hr; rewrite andb_true_r in Hr;
      rewrite Eg, app_assoc in Hclean;
      pose proof (Hclean _ _ eq_refl); congruence
  end.
Qed.

Lemma fixLine_doubled
    (indent ws1 ws2 rest : jsstring) (b : char) (j k : nat) (st : Stats) :
  forallb isWhiteSpace indent = true -> length indent <= 3 ->
  1 <= j <= 6 -> 1 <= k <= 6 ->
  forallb isWhiteSpace ws1 = true -> ws1 <> [] ->
  forallb isWhiteSpace ws2 = true -> ws2 <> [] ->
  isWhiteSpace b = false -> b <> HASH -> forallb dot rest = true ->
  fixLine (indent ++ repeat HASH j ++ ws1 ++ repeat HASH k ++ ws2
             ++ b :: rest) st
  = (indent ++ repeat HASH j ++ SPACE :: trim (b :: rest),
     inc (str "heading_duplicate_hashes") 1 st)
  /\ noTrailingBlank (indent ++ repeat HASH j ++ SPACE :: trim (b :: rest)).
Proof.
  intros Hind Hshort Hj Hk Hw1 Hs1 Hw2 Hs2 Hb Hnot Hrest.
  destruct (@trim_text b rest Hb) as (kept & trail & Er & Ht & Etrim & Hlast).
  assert (Hkept : forallb dot kept = true).
  { rewrite Er, forallb_app in Hrest. now apply andb_true_iff in Hrest. }
  split.
  - unfold fixLine.
    rewrite (@dupHead_doubled indent ws1 ws2 rest b j k); auto.
    rewrite Etrim.
    rewrite (@capHead_title indent [SPACE] kept b j); auto.
    rewrite (@normHead_title indent [SPACE] kept b j); auto.
    change (eqs [SPACE] [SPACE]) with true. cbv iota.
    rewrite (@listBullet_spacedTitle indent [] kept b j); auto.
    rewrite (@listOrdered_spacedTitle indent [] kept b j); auto.
  - rewrite Etrim. intros front c E.
    change (indent ++ repeat HASH j ++ SPACE :: b :: kept)
      with (indent ++ repeat HASH j ++ [SPACE] ++ b :: kept) in E.
    rewrite !app_assoc in E.
    apply last_of_tail in E; [|discriminate].
    destruct E as [front' E]. apply nonWs_not_blank. eapply Hlast; eauto.
Qed.

(** X30.  A line that is reached outside any fence and consists of at most
    three characters of white space, one to six hashes, white space, one
    to six hashes again, white space, and a text that begins with a
    character other than white space and the hash and holds no line
    terminator, comes out with the first run of hashes only, one space,
    and the text without the white space at its end; the category
    [heading_duplicate_hashes] is counted. *)
Theorem duplicate_hashes_collapsed
    (text : jsstring) (i : nat) (indent ws1 ws2 rest : jsstring) (b : char)
    (j k : nat) :
  nth_error (split text [LF]) i
    = Some (indent ++ repeat HASH j ++ ws1 ++ repeat HASH k ++ ws2
              ++ b :: rest) ->
  forallb isWhiteSpace indent = true -> length indent <= 3 ->
  1 <= j <= 6 -> 1 <= k <= 6 ->
  forallb isWhiteSpace ws1 = true -> ws1 <> [] ->
  forallb isWhiteSpace ws2 = true -> ws2 <> [] ->
  isWhiteSpace b = false -> b <> HASH ->
  forallb (fun c => negb (isLineTerminator c)) rest = true ->
  inFence (fenceBefore (split text [LF]) i) = false ->
  nth_error (split (fst (fixMarkdownFormatting text)) [LF]) i
  = Some (indent ++ repeat HASH j ++ SPACE :: trim (b :: rest))
  /\ 1 <= countOf (str "heading_duplicate_hashes")
            (snd (fixMarkdownFormatting text)).
Proof.
  intros Hnth Hind Hshort Hj Hk Hw1 Hs1 Hw2 Hs2 Hb Hnot Hrest Hout.
  destruct (nth_error_split _ _ Hnth) as (l1 & l2 & Hlines & Hlen).
  assert (Hbefore : fenceBefore (split text [LF]) i
                    = fold_left fenceStep l1 noFence).
  { unfold fenceBefore. rewrite Hlines, <- Hlen, firstn_app, Nat.sub_diag.
    rewrite firstn_all. simpl. now rewrite app_nil_r. }
  assert (Hplain : fenceMatch (indent ++ repeat HASH j ++ ws1
                                 ++ repeat HASH k ++ ws2 ++ b :: rest)
                   = None).
  { apply fence_none_plain. now apply doubled_plain. }
  rewrite Hbefore in Hout.
  rewrite fixed_lines, fixMarkdownFormatting_stats, Hlines, <- Hlen.
  destruct (@line_outside_fence l1 l2 _ Hplain Hout) as (x & Hx & Hor & Hcount).
  destruct (@fixLine_doubled indent ws1 ws2 rest b j k
              (snd (firstPass l1 noFence []))) as [Hfix Hclean]; auto.
  rewrite Hfix in Hor, Hcount. cbn [fst snd] in Hor, Hcount.
  rewrite (trimLine_noop Hclean) in Hor. split.
  - destruct Hor as [-> | ->]; exact Hx.
  - eapply Nat.le_trans; [|apply Hcount].
    rewrite countOf_inc_same. lia.
Qed.

Lemma duplicate_hashes_collapsed_witness :
  nth_error (split (fst (fixMarkdownFormatting
                           (str "intro" ++ [LF] ++ str "## ##  Title " ++ [TAB])))
               [LF]) 1
  = Some (str "## Title")
  /\ 1 <= countOf (str "heading_duplicate_hashes")
            (snd (fixMarkdownFormatting
                    (str "intro" ++ [LF] ++ str "## ##  Title " ++ [TAB]))).
Proof.
  apply (@duplicate_hashes_collapsed
           (str "intro" ++ [LF] ++ str "## ##  Title " ++ [TAB]) 1
           [] (str " ") (str "  ") (str "itle " ++ [TAB]) (ch "T") 2 2);
    try reflexivity; try discriminate; simpl; lia.
Defined.
End DuplicateRule.
